(** * Reduction engine of the Steiner tree solver: [reduce.c]

    A shallow embedding of [applications/STP/src/reduce.c]: the
    connectivity clean-up ([level0] and its rooted prize-collecting
    variant), the parallel-edge scan ([deleteMultiedges]), the work
    limits of the prize-collecting tests ([getWorkLimits_pc]), the three
    round loops ([redLoopStp], [redLoopPc], [redLoopMw]), the variant
    packages and the dispatcher [reduce].

    Conventions.
    - C [int] values are modelled by [Z] (counters, degrees, bounds) or by
      [nat] (node and arc indices); signed overflow is undefined in C and
      lies outside the model.
    - [SCIP_Real] values (costs, prizes, offsets, clock) are modelled by
      [Q], except in [getWorkLimits_pc] where the double arithmetic is
      the point and binary64 floats are used.
    - Reading an array outside its bounds is undefined in C; the model
      reads the default element there.
    - The scratch buffers handed to the tests carry nothing from one test
      to the next and are left out, as are their allocations. *)

From Stdlib Require Import ZArith QArith Lia Lqa Floats.
From stdpp Require Import base tactics option list.

Local Open Scope Z_scope.

#[global] Instance Q_inhabited : Inhabited Q := populate 0%Q.

(** ** Graph model ([grph.h] is not part of the sources at hand) *)

(** The closed enumeration of problem variants held by [g->stp_type]. *)
Inductive STP_TYPE : Set :=
| STP_SPG | STP_SAP | STP_PCSPG | STP_RPCSPG | STP_NWSPG | STP_DCSTP
| STP_NWPTSPG | STP_RSMT | STP_OARSMT | STP_MWCSP | STP_DHCSTP | STP_GSTP
| STP_RMWCSP | STP_BRMWCSP.

#[global] Instance STP_TYPE_eq_dec : EqDecision STP_TYPE.
Proof. solve_decision. Defined.

Inductive SCIP_RETCODE : Set := SCIP_OKAY | SCIP_ERROR | SCIP_NOMEMORY.

#[global] Instance SCIP_RETCODE_eq_dec : EqDecision SCIP_RETCODE.
Proof. solve_decision. Defined.

Module Grph.

(** Modelled from the spec: the declaration of [GRAPH] is missing from the
    sources.  The fields are the ones [reduce.c] reads and writes.  Per
    node: [mark], [grad] (degree), [term] (terminal tag), [prize],
    [term2edge]; per arc: [head], [tail], [cost].  The two singly linked
    arc lists of a node ([outbeg]/[oeat] and [inpbeg]/[ieat], closed by
    [EAT_LAST]) are represented by the sequence of arcs they chain:
    [outl g !!! k] is the chain that starts at [g->outbeg[k]], and
    [inl g !!! k] the one that starts at [g->inpbeg[k]]. *)
Record GRAPH : Type := mkGRAPH {
  knots : nat;
  edges : nat;
  terms : Z;
  source : nat;
  stp_type : STP_TYPE;
  extended : bool;
  mark : list bool;
  grad : list Z;
  term : list Z;
  prize : list Q;
  term2edge : list Z;
  head : list nat;
  tail : list nat;
  cost : list Q;
  outl : list (list nat);
  inl : list (list nat)
}.

Definition set_mark (g : GRAPH) (m : list bool) : GRAPH :=
  mkGRAPH (knots g) (edges g) (terms g) (source g) (stp_type g) (extended g)
    m (grad g) (term g) (prize g) (term2edge g) (head g) (tail g) (cost g)
    (outl g) (inl g).

Definition set_grad (g : GRAPH) (d : list Z) : GRAPH :=
  mkGRAPH (knots g) (edges g) (terms g) (source g) (stp_type g) (extended g)
    (mark g) d (term g) (prize g) (term2edge g) (head g) (tail g) (cost g)
    (outl g) (inl g).

Definition set_cost (g : GRAPH) (c : list Q) : GRAPH :=
  mkGRAPH (knots g) (edges g) (terms g) (source g) (stp_type g) (extended g)
    (mark g) (grad g) (term g) (prize g) (term2edge g) (head g) (tail g) c
    (outl g) (inl g).

Definition set_lists (g : GRAPH) (o i : list (list nat)) : GRAPH :=
  mkGRAPH (knots g) (edges g) (terms g) (source g) (stp_type g) (extended g)
    (mark g) (grad g) (term g) (prize g) (term2edge g) (head g) (tail g)
    (cost g) o i.

(** Modelled from the spec: the macro [Is_term] is missing; a node is a
    terminal when its tag is non-negative. *)
Definition Is_term (t : Z) : bool := 0 <=? t.

(** Modelled from the spec: [flipedge] is missing; arcs are stored in
    twinned pairs, arc [e] and its reverse [e xor 1]. *)
Definition flipedge (e : nat) : nat :=
  if Nat.even e then S e else Nat.pred e.

(** Unlinks arc [e] from the in-list of its head and from the out-list of
    its tail. *)
Definition removeEdge (g : GRAPH) (e : nat) : GRAPH :=
  let h := head g !!! e in
  let t := tail g !!! e in
  set_lists g (alter (filter (λ x, x ≠ e)) t (outl g))
              (alter (filter (λ x, x ≠ e)) h (inl g)).

(** Modelled from the spec: [graph_edge_del] is missing.  It deletes the
    edge that arc [e] belongs to: both twinned arcs leave the lists they
    are chained in and the degree of either end node drops by one. *)
Definition graph_edge_del (g : GRAPH) (e : nat) : GRAPH :=
  let e0 := (e - e mod 2)%nat in
  let g1 := set_grad g (alter Z.pred (tail g !!! e0)
                          (alter Z.pred (head g !!! e0) (grad g))) in
  removeEdge (removeEdge g1 e0) (S e0).

(** One step of the inner [for] loop of the trail: arc [a] leaves the
    node just popped; its head is marked and pushed when still
    unmarked. *)
Definition trail_visit (g : GRAPH) (st : list bool * list nat) (a : nat)
  : list bool * list nat :=
  let hd : nat := head g !!! a in
  if (fst st !!! hd : bool) then st
  else (<[hd := true]> (fst st), hd :: snd st).

(** The [while( stacksize != 0 )] loop of the trail; the top of the stack
    is the first element of the list.  [None] stands for a loop that is
    still running when the fuel is spent. *)
Fixpoint trail_loop (fuel : nat) (g : GRAPH) (gmark : list bool)
    (stack : list nat) : option (list bool) :=
  match stack with
  | [] => Some gmark
  | node :: stack' =>
      match fuel with
      | O => None
      | S fuel' =>
          let st := foldl (trail_visit g) (gmark, stack') (outl g !!! node) in
          trail_loop fuel' g (fst st) (snd st)
      end
  end.

(** Modelled from the spec: [graph_trail_arr] is missing.  It is the
    depth-first search from node [i] along out-arcs that sets [g->mark]
    at every node it reaches.  Every node is pushed once at most, so
    [knots g] rounds are enough on a graph whose arcs end at nodes of the
    graph. *)
Definition graph_trail_arr (g : GRAPH) (i : nat) : option GRAPH :=
  m ← trail_loop (knots g) g (<[i := true]> (mark g)) [i];
  Some (set_mark g m).

End Grph.

Import Grph.

(** ** Connectivity clean-up *)

(** [while( g->inpbeg[k] != EAT_LAST ) graph_edge_del(scip, g, g->inpbeg[k], TRUE);] *)
Fixpoint del_inpedges (fuel : nat) (g : GRAPH) (k : nat) : option GRAPH :=
  match inl g !!! k with
  | [] => Some g
  | e :: _ =>
      match fuel with
      | O => None
      | S fuel' => del_inpedges fuel' (graph_edge_del g e) k
      end
  end.

(** Body of the last loop of [level0]. *)
Definition level0_node (g : GRAPH) (k : nat) : option GRAPH :=
  if negb (mark g !!! k) && (0 <? grad g !!! k)
  then del_inpedges (length (inl g !!! k)) g k
  else Some g.

Fixpoint level0_nodes (g : GRAPH) (ks : list nat) : option GRAPH :=
  match ks with
  | [] => Some g
  | k :: ks' => g' ← level0_node g k; level0_nodes g' ks'
  end.

(** [for( int k = 0; k < nnodes; k++ ) g->mark[k] = FALSE;] *)
Definition clear_marks (g : GRAPH) : GRAPH :=
  foldl (λ g k, set_mark g (<[k := false]> (mark g))) g (seq 0 (knots g)).

(** [level0]: remove unconnected vertices, overwrites [g->mark]. *)
Definition level0 (g : GRAPH) : option GRAPH :=
  let nnodes := knots g in
  g1 ← graph_trail_arr (clear_marks g) (source g);
  level0_nodes g1 (rev (seq 0 nnodes)).

(** ** Parallel edges *)

(** First inner loop of [deleteMultiedges]: [count[head]++] along the
    out-list. *)
Definition count_heads (g : GRAPH) (count : list Z) (l : list nat) : list Z :=
  foldl (λ c e, alter Z.succ (head g !!! e) c) count l.

(** Second inner loop: the first arc whose head is counted more than once
    stops the scan; any other arc takes its count back. *)
Fixpoint scan_multi (g : GRAPH) (count : list Z) (l : list nat)
  : option nat * list Z :=
  match l with
  | [] => (None, count)
  | e :: l' =>
      let hd : nat := head g !!! e in
      if (1 <? count !!! hd) then (Some e, count)
      else scan_multi g (alter Z.pred hd count) l'
  end.

Fixpoint deleteMultiedges_nodes (g : GRAPH) (count : list Z) (ks : list nat)
  : SCIP_RETCODE * GRAPH :=
  match ks with
  | [] => (SCIP_OKAY, g)
  | k :: ks' =>
      let count1 := count_heads g count (outl g !!! k) in
      match scan_multi g count1 (outl g !!! k) with
      | (Some e, _) => (SCIP_ERROR, graph_edge_del g e)
      | (None, count2) => deleteMultiedges_nodes g count2 ks'
      end
  end.

(** [deleteMultiedges]: the return code comes with the graph as the call
    leaves it. *)
Definition deleteMultiedges (g : GRAPH) : SCIP_RETCODE * GRAPH :=
  let nnodes := knots g in
  deleteMultiedges_nodes g (replicate nnodes 0) (seq 0 nnodes).


(** ** Work limits of the prize-collecting tests *)

Definition STP_RED_SDSPBOUND : Z := 200.
Definition STP_RED_SDSPBOUND2 : Z := 1000.
Definition STP_RED_BD3BOUND : Z := 500.
Definition STP_RED_EXTENSIVE : bool := false.
Definition STP_RED_MWTERMBOUND : Z := 400.
Definition STP_RED_MAXNROUNDS : Z := 15.
Definition STP_RED_EXFACTOR : Z := 2.
Definition STP_RED_EDGELIMIT : Z := 200000.

Inductive PC_REDTYPE : Set := pc_sdc | pc_sdw1 | pc_sdw2 | pc_bd3.

(** Conversion of an [int] to [double]; exact below 2^53. *)
Definition double_of_int (z : Z) : float :=
  if z <? 0 then PrimFloat.opp (PrimFloat.of_uint63 (Uint63.of_Z (- z)))
  else PrimFloat.of_uint63 (Uint63.of_Z z).

(** The cast [(int)] of a [double]: the fraction is dropped.  Infinities
    and NaN, for which the cast is undefined in C, are sent to 0. *)
Definition int_of_double (f : float) : Z :=
  match Prim2SF f with
  | S754_finite s m e =>
      let v := if 0 <=? e then Z.shiftl (Zpos m) e
               else Z.shiftr (Zpos m) (- e) in
      if s then - v else v
  | _ => 0
  end.

(** Modelled from the spec: the macro [MAX] is missing;
    [MAX(x,y)] is [((x) >= (y) ? (x) : (y))], here at type [double]. *)
Definition MAX (x y : float) : float := if PrimFloat.leb y x then x else y.

(** The body of [getWorkLimits_pc] after [const int nedges = g->edges;].
    The switch has no live default: [PC_REDTYPE] is closed. *)
Definition work_limit (nedges round : Z) (redtype : PC_REDTYPE) : Z :=
  let limit :=
    match redtype with
    | pc_sdc => if 0 <? round then STP_RED_SDSPBOUND2 else STP_RED_SDSPBOUND
    | pc_sdw1 => if 0 <? round then STP_RED_SDSPBOUND2 else STP_RED_SDSPBOUND
    | pc_sdw2 => if 0 <? round then STP_RED_SDSPBOUND2 else 0
    | pc_bd3 =>
        if 0 <? round then STP_RED_SDSPBOUND2 else Z.quot STP_RED_SDSPBOUND 2
    end in
  let dlimit := double_of_int limit in
  if (STP_RED_EDGELIMIT <=? nedges) && (round =? 0)
  then int_of_double
         (MAX dlimit (dlimit * PrimFloat.sqrt (double_of_int nedges) / 5000)%float)
  else int_of_double
         (MAX dlimit (dlimit * PrimFloat.sqrt (double_of_int nedges) / 150)%float).

(** [getWorkLimits_pc] *)
Definition getWorkLimits_pc (g : GRAPH) (round : Z) (redtype : PC_REDTYPE) : Z :=
  work_limit (Z.of_nat (edges g)) round redtype.

(** A graph that has [n] for its edge count, every other field as in [g]. *)
Definition with_edges (g : GRAPH) (n : nat) : GRAPH :=
  mkGRAPH (knots g) n (terms g) (source g) (stp_type g) (extended g)
    (mark g) (grad g) (term g) (prize g) (term2edge g) (head g) (tail g)
    (cost g) (outl g) (inl g).

(** [mono_steps f n a]: [f] does not decrease along the [n] steps that
    start at [a]. *)
Fixpoint mono_steps (f : Z -> Z) (n : nat) (a : Z) : bool :=
  match n with
  | O => true
  | S n' => (f a <=? f (a + 1)) && mono_steps f n' (a + 1)
  end.

(** ** SCIP and the test library, as the round loops see them *)

(** The functions [reduce.c] calls and does not define. *)
Inductive Fn : Set :=
| graph_init_history | graph_path_init | graph_path_exit
| graph_heap_create | graph_heap_free
| graph_pc_2org | graph_pc_2trans | graph_pc_presolInit | graph_pc_presolExit
| graph_pc_pcmw2rooted
| SCIPcreateRandom | SCIPfreeRandom
| reduce_contractZeroEdges | reduce_deleteConflictEdges
| reduce_simple | reduce_simple_pc | reduce_simple_mw | reduce_simple_hc
| reduce_simple_sap
| reduce_nvAdv | reduce_sl | reduce_ledge | reduce_sd | reduce_sdsp
| reduce_sdPc | reduce_sdStar | reduce_sdWalk_csr | reduce_sdWalkExt
| reduce_bd34 | reduce_bound | reduce_boundMw | reduce_boundHop
| reduce_boundHopR | reduce_boundHopRc
| reduce_da | reduce_daPcMw
| reduce_ans | reduce_ansAdv | reduce_ansAdv2 | reduce_nnp | reduce_chain2
| reduce_npv | reduce_sdspSap | reduce_rpt.

#[global] Instance Fn_eq_dec : EqDecision Fn.
Proof. solve_decision. Defined.

(** A scalar handed over by value. *)
Inductive Arg : Type := AZ (z : Z) | AQ (q : Q) | AB (b : bool).

(** The scalar cells a call reaches through pointers: the offset
    ([fixed]), the upper bound ([ub]), the elimination count ([nelims])
    and the running count ([countall]).  A call gets the contents of the
    cells and returns their new contents; the caller keeps the cells the
    source passes a pointer to. *)
Record IO : Type := mkIO {
  io_fixed : Q;
  io_ub : Q;
  io_nelims : Z;
  io_count : Z
}.

(** What the sources at hand leave open.  [lib_exec f args io] is the
    call of [f] with the by-value scalars [args] (in the order of the
    source) on the cells [io]; it returns the code of the call, the
    cells, and the SCIP state and graph it leaves. *)
Class Library (Env : Type) : Type := mkLibrary {
  lib_exec : Fn → list Arg → IO → Env → GRAPH → SCIP_RETCODE * IO * Env * GRAPH;
  SCIPisStopped : Env → bool * Env;
  SCIPgetTotalTime : Env → Q * Env;
  SCIPgetRealParam_limits_time : Env → SCIP_RETCODE * Q;
  SCIPisLE : Env → Q → Q → bool;
  SCIPisEQ : Env → Q → Q → bool;
  graph_pc_getPosPrizeSum : GRAPH → Q;
  graph_pc_knotIsFixedTerm : GRAPH → nat → bool;
  graph_pc_getTwinTerm : GRAPH → nat → nat;
  graph_pc_deleteTerm : GRAPH → nat → GRAPH
}.

(** Modelled from the spec: the constant [FARAWAY] is missing; it stands
    for an infinite cost. *)
Definition FARAWAY : Q := 10000000000.

(** ** Connectivity clean-up of rooted prize-collecting graphs *)

Section Rooted.
Context {Env : Type} {lib : Library Env}.

(** Body of the [for] loop inside the DFS of [level0RpcRmwInfeas]. *)
Definition rpc_visit (g : GRAPH) (node : nat) (st : list bool * list nat)
    (a : nat) : list bool * list nat :=
  let hd : nat := head g !!! a in
  if negb (fst st !!! hd : bool) then
    (* don't mark pseudo-terminals from the root *)
    if bool_decide (node = source g) && Is_term (term g !!! hd)
       && negb (graph_pc_knotIsFixedTerm g hd)
    then st
    else (<[hd := true]> (fst st), hd :: snd st)
  else st.

Fixpoint rpc_dfs (fuel : nat) (g : GRAPH) (gmark : list bool)
    (stack : list nat) : option (list bool) :=
  match stack with
  | [] => Some gmark
  | node :: stack' =>
      match fuel with
      | O => None
      | S fuel' =>
          let st := foldl (rpc_visit g node) (gmark, stack') (outl g !!! node) in
          rpc_dfs fuel' g (fst st) (snd st)
      end
  end.

(** Second loop: unreachable terminals.  The result is the graph, the
    offset and [*infeas] as the loop leaves them; [true] is the early
    [return]. *)
Fixpoint rpc_terms (g : GRAPH) (offset : Q) (gmark : list bool)
    (ks : list nat) : GRAPH * Q * bool :=
  match ks with
  | [] => (g, offset, false)
  | k :: ks' =>
      if negb (gmark !!! k) && Is_term (term g !!! k) then
        if graph_pc_knotIsFixedTerm g k then (g, offset, true)
        else
          let pterm := graph_pc_getTwinTerm g k in
          rpc_terms (graph_pc_deleteTerm g k) (offset + prize g !!! pterm)%Q
                    gmark ks'
      else rpc_terms g offset gmark ks'
  end.

(** Third loop: the edges of the unreachable nodes. *)
Fixpoint rpc_nodes (g : GRAPH) (gmark : list bool) (ks : list nat)
  : option GRAPH :=
  match ks with
  | [] => Some g
  | k :: ks' =>
      if negb (gmark !!! k) && (0 <? grad g !!! k) then
        g' ← del_inpedges (length (inl g !!! k)) g k;
        rpc_nodes (set_mark g' (<[k := false]> (mark g'))) gmark ks'
      else rpc_nodes g gmark ks'
  end.

(** [level0RpcRmwInfeas]: the graph, [*offsetp] and [*infeas] at the
    return, which is always [SCIP_OKAY].  [None]: one of the loops does
    not come to its end. *)
Definition level0RpcRmwInfeas (g : GRAPH) (offset : Q)
  : option (GRAPH * Q * bool) :=
  let nnodes := knots g in
  let gmark0 := <[source g := true]> (replicate nnodes false) in
  gmark ← rpc_dfs nnodes g gmark0 [source g];
  match rpc_terms g offset gmark (seq 0 nnodes) with
  | (g1, offset1, true) => Some (g1, offset1, true)
  | (g1, offset1, false) =>
      g2 ← rpc_nodes g1 gmark (seq 0 nnodes);
      Some (g2, offset1, false)
  end.

(** [level0RpcRmw]: the return code with the graph and the offset. *)
Definition level0RpcRmw (g : GRAPH) (offset : Q)
  : option (SCIP_RETCODE * GRAPH * Q) :=
  r ← level0RpcRmwInfeas g offset;
  let infeas : bool := snd r in
  if infeas then Some (SCIP_ERROR, fst (fst r), snd (fst r))
  else Some (SCIP_OKAY, fst (fst r), snd (fst r)).

End Rooted.

(** ** The monad of the round loops *)

(** The loops of [reduce.c] that no counter of their own bounds. *)
Inductive LoopTag : Set :=
| loop_graph      (**r a loop over the arc lists of the graph *)
| loop_nvsl       (**r the [do] loop of [nvreduce_sl] *)
| loop_rounds     (**r the round loop of a [redLoop] function *)
| loop_extensive  (**r the outer [do] loop of [redLoopStp] *)
| loop_package.   (**r the [while] loop of [reduceHc], [reduceSap], [reduceNw] *)

(** The state a call of [reduce] works on: SCIP, the graph, and the calls
    into the library made so far, the latest first. *)
Record World (Env : Type) : Type := mkWorld {
  scip : Env;
  graph : GRAPH;
  log : list Fn
}.
Arguments mkWorld {Env}.
Arguments scip {Env}.
Arguments graph {Env}.
Arguments log {Env}.

(** How a function ends: with [SCIP_OKAY] and its results, with another
    return code, or not within the rounds granted to the loop [l]. *)
Inductive Res (Env A : Type) : Type :=
| Done (a : A) (w : World Env)
| Fail (rc : SCIP_RETCODE) (w : World Env)
| Stuck (l : LoopTag).
Arguments Done {Env A}.
Arguments Fail {Env A}.
Arguments Stuck {Env A}.

Definition M (Env A : Type) : Type := World Env → Res Env A.

#[global] Instance M_ret {Env} : MRet (M Env) := λ A a w, Done a w.

#[global] Instance M_bind {Env} : MBind (M Env) := λ A B k m w,
  match m w with
  | Done a w' => k a w'
  | Fail rc w' => Fail rc w'
  | Stuck l => Stuck l
  end.

(** What a statement of a loop body hands to the loop. *)
Inductive Step (S : Type) : Type :=
| Continue (s : S)
| Break (s : S).
Arguments Continue {S}.
Arguments Break {S}.

(** Record update, one field at a time. *)
Class Setter {R F : Type} (proj : R → F) : Type := setter : F → R → R.
Notation "r <| p := x |>" := (setter (proj := p) x r)
  (at level 1, left associativity, p at level 9, x at level 200,
   format "r  <|  p  :=  x  |>").

Section Monad.
Context {Env : Type} {lib : Library Env}.

Definition stuck {A} (l : LoopTag) : M Env A := λ _, Stuck l.

Definition get_graph : M Env GRAPH := λ w, Done (graph w) w.

Definition io0 : IO := mkIO 0 0 0 0.

(** [SCIP_CALL( f(...) )]: any code but [SCIP_OKAY] ends the caller. *)
Definition call (f : Fn) (args : list Arg) (io : IO) : M Env IO := λ w,
  match lib_exec f args io (scip w) (graph w) with
  | (rc, io', e', g') =>
      let w' := mkWorld e' g' (f :: log w) in
      if decide (rc = SCIP_OKAY) then Done io' w' else Fail rc w'
  end.

(** A call whose return code the source drops, or that returns none. *)
Definition call_void (f : Fn) (args : list Arg) (io : IO) : M Env IO := λ w,
  match lib_exec f args io (scip w) (graph w) with
  | (_, io', e', g') => Done io' (mkWorld e' g' (f :: log w))
  end.

(** [SCIPisStopped(scip)] *)
Definition isStopped : M Env bool := λ w,
  let r := SCIPisStopped (scip w) in
  Done (fst r) (mkWorld (snd r) (graph w) (log w)).

(** [SCIPgetTotalTime(scip) > timelimit] *)
Definition timeover (timelimit : Q) : M Env bool := λ w,
  let r := SCIPgetTotalTime (scip w) in
  Done (negb (Qle_bool (fst r) timelimit)) (mkWorld (snd r) (graph w) (log w)).

(** [SCIP_CALL( SCIPgetRealParam(scip, "limits/time", &timelimit) )] *)
Definition getTimelimit : M Env Q := λ w,
  let r := SCIPgetRealParam_limits_time (scip w) in
  if decide (fst r = SCIP_OKAY) then Done (snd r) w else Fail (fst r) w.

(** [SCIP_CALL( level0(scip, g) )] *)
Definition level0M : M Env unit := λ w,
  match level0 (graph w) with
  | Some g' => Done tt (mkWorld (scip w) g' (log w))
  | None => Stuck loop_graph
  end.

(** [SCIP_CALL( level0RpcRmw(scip, g, &fix) )] *)
Definition level0RpcRmwM (fix_ : Q) : M Env Q := λ w,
  match level0RpcRmw (graph w) fix_ with
  | Some (rc, g', fix') =>
      let w' := mkWorld (scip w) g' (log w) in
      if decide (rc = SCIP_OKAY) then Done fix' w' else Fail rc w'
  | None => Stuck loop_graph
  end.

(** [for( ; cond; i++ ) body] with a counter [i] that the body may set;
    a [Break] leaves the loop at once.  [fuel] bounds the number of times
    the body is run.  The result is the counter and the state at the
    exit. *)
Fixpoint for_loop {S : Type} (l : LoopTag) (fuel : nat)
    (cond : Z → S → M Env bool) (body : Z → S → M Env (Step (Z * S)))
    (i : Z) (s : S) : M Env (Z * S) :=
  c ← cond i s;
  if (c : bool) then
    match fuel with
    | O => stuck l
    | S fuel' =>
        r ← body i s;
        match r with
        | Continue (i', s') => for_loop l fuel' cond body (i' + 1) s'
        | Break r' => mret r'
        end
    end
  else mret (i, s).

(** [do body while( cond )] *)
Fixpoint do_while {S : Type} (l : LoopTag) (fuel : nat)
    (body : S → M Env (Step S)) (cond : S → M Env bool) (s : S) : M Env S :=
  match fuel with
  | O => stuck l
  | S fuel' =>
      r ← body s;
      match r with
      | Break s' => mret s'
      | Continue s' =>
          c ← cond s';
          if (c : bool) then do_while l fuel' body cond s' else mret s'
      end
  end.

(** A counter the body cannot set. *)
Definition keep_counter {S : Type} (body : Z → S → M Env (Step S))
    (i : Z) (s : S) : M Env (Step (Z * S)) :=
  r ← body i s;
  mret (match r with
        | Continue s' => Continue (i, s')
        | Break s' => Break (i, s')
        end).

(** *** [nvreduce_sl]: NV and SL test, iterated *)

(** One pass of the [do] loop: the offset and the eliminations of the
    pass. *)
Definition nvreduce_sl_pass (fixed : Q) : M Env (Q * Z) :=
  (* NV-reduction *)
  io ← call reduce_nvAdv [] (mkIO fixed 0 0 0);
  let fixed := io_fixed io in
  let elims := 0 + io_nelims io in
  (* SL-reduction *)
  io ← call reduce_sl [] (mkIO fixed 0 0 0);
  let fixed := io_fixed io in
  let elims := elims + io_nelims io in
  (* trivial reductions *)
  g ← get_graph;
  r ← (if 0 <? elims then
         if bool_decide (stp_type g = STP_PCSPG)
            || bool_decide (stp_type g = STP_RPCSPG)
         then io ← call reduce_simple_pc [] (mkIO fixed 0 0 0);
              mret (io_fixed io, io_nelims io)
         else io ← call reduce_simple [] (mkIO fixed 0 0 0);
              mret (io_fixed io, io_nelims io)
       else mret (fixed, 0));
  let fixed := fst r in
  let degelims := snd r in
  mret (fixed, elims + degelims).

(** [nvreduce_sl]; the state of the loop is the offset, [totalelims]
    and the [elims] of the last pass. *)
Definition nvreduce_sl (fuel : nat) (fixed : Q) (minelims : Z) : M Env (Q * Z) :=
  r ← do_while loop_nvsl fuel
        (λ s : Q * Z * Z,
           p ← nvreduce_sl_pass (fst (fst s));
           mret (Continue (fst p, snd (fst s) + snd p, snd p)))
        (λ s, mret (minelims <? snd s))
        (fixed, 0, 0);
  mret (fst (fst r), snd (fst r)).

End Monad.

(** ** The MWCS loop *)

Module Mw.

(** The variables of [redLoopMw] that live from one round to the next: the
    activity flags, the parameters the function assigns to, the offset
    [*fixed], and [degelims]. *)
Record Vars : Type := mkVars {
  da : bool;
  ans : bool;
  nnp : bool;
  npv : bool;
  rerun : bool;
  ansad : bool;
  ansad2 : bool;
  chain2 : bool;
  bred : bool;
  advanced : bool;
  userec : bool;
  fixed : Q;
  degelims : Z
}.

#[global] Instance set_da : Setter da := λ x r,
  mkVars x (ans r) (nnp r) (npv r) (rerun r) (ansad r) (ansad2 r) (chain2 r)
    (bred r) (advanced r) (userec r) (fixed r) (degelims r).
#[global] Instance set_ans : Setter ans := λ x r,
  mkVars (da r) x (nnp r) (npv r) (rerun r) (ansad r) (ansad2 r) (chain2 r)
    (bred r) (advanced r) (userec r) (fixed r) (degelims r).
#[global] Instance set_nnp : Setter nnp := λ x r,
  mkVars (da r) (ans r) x (npv r) (rerun r) (ansad r) (ansad2 r) (chain2 r)
    (bred r) (advanced r) (userec r) (fixed r) (degelims r).
#[global] Instance set_npv : Setter npv := λ x r,
  mkVars (da r) (ans r) (nnp r) x (rerun r) (ansad r) (ansad2 r) (chain2 r)
    (bred r) (advanced r) (userec r) (fixed r) (degelims r).
#[global] Instance set_rerun : Setter rerun := λ x r,
  mkVars (da r) (ans r) (nnp r) (npv r) x (ansad r) (ansad2 r) (chain2 r)
    (bred r) (advanced r) (userec r) (fixed r) (degelims r).
#[global] Instance set_ansad : Setter ansad := λ x r,
  mkVars (da r) (ans r) (nnp r) (npv r) (rerun r) x (ansad2 r) (chain2 r)
    (bred r) (advanced r) (userec r) (fixed r) (degelims r).
#[global] Instance set_ansad2 : Setter ansad2 := λ x r,
  mkVars (da r) (ans r) (nnp r) (npv r) (rerun r) (ansad r) x (chain2 r)
    (bred r) (advanced r) (userec r) (fixed r) (degelims r).
#[global] Instance set_chain2 : Setter chain2 := λ x r,
  mkVars (da r) (ans r) (nnp r) (npv r) (rerun r) (ansad r) (ansad2 r) x
    (bred r) (advanced r) (userec r) (fixed r) (degelims r).
#[global] Instance set_bred : Setter bred := λ x r,
  mkVars (da r) (ans r) (nnp r) (npv r) (rerun r) (ansad r) (ansad2 r)
    (chain2 r) x (advanced r) (userec r) (fixed r) (degelims r).
#[global] Instance set_advanced : Setter advanced := λ x r,
  mkVars (da r) (ans r) (nnp r) (npv r) (rerun r) (ansad r) (ansad2 r)
    (chain2 r) (bred r) x (userec r) (fixed r) (degelims r).
#[global] Instance set_userec : Setter userec := λ x r,
  mkVars (da r) (ans r) (nnp r) (npv r) (rerun r) (ansad r) (ansad2 r)
    (chain2 r) (bred r) (advanced r) x (fixed r) (degelims r).
#[global] Instance set_fixed : Setter fixed := λ x r,
  mkVars (da r) (ans r) (nnp r) (npv r) (rerun r) (ansad r) (ansad2 r)
    (chain2 r) (bred r) (advanced r) (userec r) x (degelims r).
#[global] Instance set_degelims : Setter degelims := λ x r,
  mkVars (da r) (ans r) (nnp r) (npv r) (rerun r) (ansad r) (ansad2 r)
    (chain2 r) (bred r) (advanced r) (userec r) (fixed r) x.

Section Loop.
Context {Env : Type} {lib : Library Env}.

(** What the rounds read and do not write. *)
Variables (redbound : Z) (tryrmw : bool) (timelimit prizesum : Q).

Let extensive : bool := STP_RED_EXTENSIVE.

(** [reduce_simple_mw(scip, g, solnode, fixed, &degelims)] *)
Definition simple_mw (v : Vars) : M Env Vars :=
  io ← call reduce_simple_mw [] (mkIO (fixed v) 0 (degelims v) 0);
  mret (v <| fixed := io_fixed io |> <| degelims := io_nelims io |>).

Definition round_ans (v : Vars) : M Env (Vars * Z) :=
  if ans v || extensive then
    io ← call_void reduce_ans [] io0;
    let anselims := io_nelims io in
    mret (if anselims <=? redbound then v <| ans := false |> else v, anselims)
  else mret (v, 0).

Definition round_ansad (v : Vars) : M Env (Vars * Z) :=
  if ansad v || extensive then
    io ← call_void reduce_ansAdv [AB false] io0;
    let ansadelims := io_nelims io in
    mret (if ansadelims <=? redbound then v <| ansad := false |> else v,
          ansadelims)
  else mret (v, 0).

Definition round_simple (v : Vars) : M Env Vars :=
  if ans v || ansad v || nnp v || npv v || extensive then simple_mw v
  else mret v.

Definition round_da (rounds : Z) (v : Vars) : M Env (Vars * Z) :=
  if da v || (advanced v && extensive) then
    io ← call reduce_daPcMw
           [AB true; AB false; AB false; AB (userec v);
            AB (bool_decide (rounds = 0)); AQ prizesum; AB true] io0;
    let daelims := io_nelims io in
    v ← (if daelims <=? 2 * redbound then mret (v <| da := false |>)
         else simple_mw v);
    mret (v, daelims)
  else mret (v, 0).

Definition round_nnp (v : Vars) : M Env (Vars * Z) :=
  if nnp v then
    io ← call_void reduce_nnp [] io0;
    let nnpelims := io_nelims io in
    mret (if nnpelims <=? redbound then v <| nnp := false |> else v, nnpelims)
  else mret (v, 0).

(** The first [reduce_chain2]; the boolean is the [break]. *)
Definition round_chain2_nnp (v : Vars) : M Env (Vars * Z * bool) :=
  if nnp v || extensive then
    io ← call reduce_chain2 [AZ 500] io0;
    let chain2elims := io_nelims io in
    let v := if chain2elims <=? redbound then v <| chain2 := false |> else v in
    t ← timeover timelimit;
    mret (v, chain2elims, t)
  else mret (v, 0, false).

Definition round_npv (v : Vars) : M Env (Vars * Z) :=
  if npv v || extensive then
    io ← call reduce_npv [AZ 400] io0;
    let npvelims := io_nelims io in
    mret (if npvelims <=? redbound then v <| npv := false |> else v, npvelims)
  else mret (v, 0).

(** The second [reduce_chain2] writes [chain2elims] again; without it
    the count of the first stays. *)
Definition round_chain2 (chain2elims : Z) (v : Vars) : M Env (Vars * Z) :=
  if chain2 v || extensive then
    io ← call reduce_chain2 [AZ 300] (mkIO 0 0 chain2elims 0);
    let chain2elims := io_nelims io in
    mret (if chain2elims <=? redbound then v <| chain2 := false |> else v,
          chain2elims)
  else mret (v, chain2elims).

(** After [reduce_ansAdv2], [reduce_simple_mw] gets [&ansad2elims] for
    its count. *)
Definition round_ansad2 (v : Vars) : M Env (Vars * Z) :=
  if ansad2 v || extensive then
    io ← call_void reduce_ansAdv2 [] io0;
    let ansad2elims := io_nelims io in
    if ansad2elims <=? redbound then mret (v <| ansad2 := false |>, ansad2elims)
    else
      io ← call reduce_simple_mw [] (mkIO (fixed v) 0 ansad2elims 0);
      mret (v <| fixed := io_fixed io |>, io_nelims io)
  else mret (v, 0).

Definition round_bred (v : Vars) : M Env (Vars * Z) :=
  if bred v then
    io ← call reduce_boundMw [] (mkIO (fixed v) 0 0 0);
    let bredelims := io_nelims io in
    let v := v <| fixed := io_fixed io |> in
    mret (if bredelims <=? redbound then v <| bred := false |> else v,
          bredelims)
  else mret (v, 0).

(** The block [if( !rerun && advanced && g->terms > 2 )]: one more dual
    ascent and, when it pays, the restart of the loop. *)
Definition round_restart (daelims : Z) (v : Vars) : M Env Vars :=
  g ← get_graph;
  if negb (rerun v) && advanced v && (2 <? terms g) then
    let cnsadvelims := 0 in
    v ← simple_mw v;
    g ← get_graph;
    io ← call reduce_daPcMw
           [AB true; AB (STP_RED_MWTERMBOUND <? terms g); AB tryrmw;
            AB (userec v); AB false; AQ prizesum; AB true]
           (mkIO 0 0 daelims 0);
    let daelims := io_nelims io in
    let v := v <| userec := false |> in
    if (redbound <=? cnsadvelims + daelims)
       || (extensive && (0 <? cnsadvelims + daelims))
    then
      let v := v <| ans := true |> <| nnp := true |> <| npv := true |>
                 <| ansad := true |> <| ansad2 := true |>
                 <| chain2 := true |> <| rerun := true |>
                 <| advanced := false |> in
      v ← simple_mw v;
      mret (if extensive then v <| advanced := true |> else v)
    else mret v
  else mret v.

(** The tests of a round, up to the test on the sum of the
    eliminations; [daelims] goes on to the restart block. *)
Definition round_tests (rounds : Z) (v : Vars) : M Env (Step (Vars * Z)) :=
  let v := v <| degelims := 0 |> in
  t ← timeover timelimit;
  if (t : bool) then mret (Break (v, 0)) else
  '(v, anselims) ← round_ans v;
  '(v, ansadelims) ← round_ansad v;
  v ← round_simple v;
  '(v, daelims) ← round_da rounds v;
  '(v, nnpelims) ← round_nnp v;
  '(v, chain2elims, t) ← round_chain2_nnp v;
  if (t : bool) then mret (Break (v, daelims)) else
  '(v, npvelims) ← round_npv v;
  '(v, chain2elims) ← round_chain2 chain2elims v;
  v ← simple_mw v;
  '(v, ansad2elims) ← round_ansad2 v;
  '(v, bredelims) ← round_bred v;
  let v :=
    if anselims + nnpelims + chain2elims + bredelims + npvelims + ansadelims
       + ansad2elims + daelims <=? redbound
    then v <| rerun := false |> else v in
  mret (Continue (v, daelims)).

(** Body of the round loop. *)
Definition round (rounds : Z) (v : Vars) : M Env (Step Vars) :=
  r ← round_tests rounds v;
  match r with
  | Break (v, _) => mret (Break v)
  | Continue (v, daelims) =>
      v ← round_restart daelims v;
      mret (Continue v)
  end.

(** [rounds < STP_RED_MAXNROUNDS && !SCIPisStopped(scip) && rerun] *)
Definition round_cond (rounds : Z) (v : Vars) : M Env bool :=
  if rounds <? STP_RED_MAXNROUNDS then
    s ← isStopped;
    mret (negb s && rerun v)
  else mret false.

(** The round loop, from round [rounds] on. *)
Definition redLoopMw_rounds (fuel : nat) (rounds : Z) (v : Vars)
  : M Env (Z * Vars) :=
  for_loop loop_rounds fuel round_cond (keep_counter round) rounds v.

End Loop.

Section Entry.
Context {Env : Type} {lib : Library Env}.

(** [redLoopMw]: the MWCS loop; the result is [*fixed]. *)
Definition redLoopMw (fuel : nat) (fixed_ : Q) (advanced_ bred_ tryrmw : bool)
    (redbound : Z) (userec_ : bool) : M Env Q :=
  let v := mkVars advanced_ true true true true true true true
             bred_ advanced_ userec_ fixed_ 0 in
  let tryrmw := tryrmw && userec_ in
  (* create random number generator *)
  _ ← call SCIPcreateRandom [] io0;
  timelimit ← getTimelimit;
  _ ← call_void graph_pc_2org [] io0;
  v ← simple_mw v;
  g ← get_graph;
  let prizesum := graph_pc_getPosPrizeSum g in
  r ← redLoopMw_rounds redbound tryrmw timelimit prizesum fuel 0 v;
  v ← simple_mw (snd r);
  (* go back to the extended graph *)
  _ ← call_void graph_pc_2trans [] io0;
  _ ← level0M;
  g ← get_graph;
  _ ← (if tryrmw && (2 <? terms g)
       then call graph_pc_pcmw2rooted [AQ prizesum] io0 else mret io0);
  _ ← call_void SCIPfreeRandom [] io0;
  mret (fixed v).

End Entry.

End Mw.

(** ** The prize-collecting loop *)

Module Pc.

(** The variables of [redLoopPc] that live from one round to the next: the
    activity flags, the local offset [fix] (here [fix_]), [ntotalelims] and
    [degnelims]. *)
Record Vars : Type := mkVars {
  da : bool;
  sd : bool;
  sdc : bool;
  sdw : bool;
  sdstar : bool;
  bd3 : bool;
  nvsl : bool;
  rerun : bool;
  bred : bool;
  advancedrun : bool;
  fix_ : Q;
  ntotalelims : Z;
  degnelims : Z
}.

#[global] Instance set_da : Setter da := λ x r,
  mkVars x (sd r) (sdc r) (sdw r) (sdstar r) (bd3 r) (nvsl r) (rerun r)
    (bred r) (advancedrun r) (fix_ r) (ntotalelims r) (degnelims r).
#[global] Instance set_sd : Setter sd := λ x r,
  mkVars (da r) x (sdc r) (sdw r) (sdstar r) (bd3 r) (nvsl r) (rerun r)
    (bred r) (advancedrun r) (fix_ r) (ntotalelims r) (degnelims r).
#[global] Instance set_sdc : Setter sdc := λ x r,
  mkVars (da r) (sd r) x (sdw r) (sdstar r) (bd3 r) (nvsl r) (rerun r)
    (bred r) (advancedrun r) (fix_ r) (ntotalelims r) (degnelims r).
#[global] Instance set_sdw : Setter sdw := λ x r,
  mkVars (da r) (sd r) (sdc r) x (sdstar r) (bd3 r) (nvsl r) (rerun r)
    (bred r) (advancedrun r) (fix_ r) (ntotalelims r) (degnelims r).
#[global] Instance set_sdstar : Setter sdstar := λ x r,
  mkVars (da r) (sd r) (sdc r) (sdw r) x (bd3 r) (nvsl r) (rerun r) (bred r)
    (advancedrun r) (fix_ r) (ntotalelims r) (degnelims r).
#[global] Instance set_bd3 : Setter bd3 := λ x r,
  mkVars (da r) (sd r) (sdc r) (sdw r) (sdstar r) x (nvsl r) (rerun r)
    (bred r) (advancedrun r) (fix_ r) (ntotalelims r) (degnelims r).
#[global] Instance set_nvsl : Setter nvsl := λ x r,
  mkVars (da r) (sd r) (sdc r) (sdw r) (sdstar r) (bd3 r) x (rerun r)
    (bred r) (advancedrun r) (fix_ r) (ntotalelims r) (degnelims r).
#[global] Instance set_rerun : Setter rerun := λ x r,
  mkVars (da r) (sd r) (sdc r) (sdw r) (sdstar r) (bd3 r) (nvsl r) x
    (bred r) (advancedrun r) (fix_ r) (ntotalelims r) (degnelims r).
#[global] Instance set_bred : Setter bred := λ x r,
  mkVars (da r) (sd r) (sdc r) (sdw r) (sdstar r) (bd3 r) (nvsl r) (rerun r)
    x (advancedrun r) (fix_ r) (ntotalelims r) (degnelims r).
#[global] Instance set_advancedrun : Setter advancedrun := λ x r,
  mkVars (da r) (sd r) (sdc r) (sdw r) (sdstar r) (bd3 r) (nvsl r) (rerun r)
    (bred r) x (fix_ r) (ntotalelims r) (degnelims r).
#[global] Instance set_fix_ : Setter fix_ := λ x r,
  mkVars (da r) (sd r) (sdc r) (sdw r) (sdstar r) (bd3 r) (nvsl r) (rerun r)
    (bred r) (advancedrun r) x (ntotalelims r) (degnelims r).
#[global] Instance set_ntotalelims : Setter ntotalelims := λ x r,
  mkVars (da r) (sd r) (sdc r) (sdw r) (sdstar r) (bd3 r) (nvsl r) (rerun r)
    (bred r) (advancedrun r) (fix_ r) x (degnelims r).
#[global] Instance set_degnelims : Setter degnelims := λ x r,
  mkVars (da r) (sd r) (sdc r) (sdw r) (sdstar r) (bd3 r) (nvsl r) (rerun r)
    (bred r) (advancedrun r) (fix_ r) (ntotalelims r) x.


Section Exec.
Context {Env : Type} {lib : Library Env}.

(** The [execPc_] functions return [*nelims] and what they leave in
    [*rerun], the flag of the test; printing is left out. *)

Definition execPc_SD (redbound : Z) (rerun : bool) : M Env (Z * bool) :=
  io ← call reduce_sdPc [] io0;
  let nelims := io_nelims io in
  mret (nelims, if nelims <=? redbound then false else rerun).

Definition execPc_SDSP (limit redbound : Z) (rerun : bool) : M Env (Z * bool) :=
  io ← call reduce_sdsp [AZ limit] io0;
  let nelims := io_nelims io in
  mret (nelims, if nelims <=? redbound then false else rerun).

Definition execPc_BDk (limit : Z) (offset : Q) (redbound : Z) (rerun : bool)
  : M Env (Q * Z * bool) :=
  io ← call reduce_bd34 [AZ limit] (mkIO offset 0 0 0);
  let nelims := io_nelims io in
  mret (io_fixed io, nelims, if nelims <=? redbound then false else rerun).

Definition execPc_NVSL (fuel : nat) (fixed : Q) (redbound : Z) (rerun : bool)
  : M Env (Q * Z * bool) :=
  '(fixed, nelims) ← nvreduce_sl fuel fixed redbound;
  mret (fixed, nelims,
        if nelims <=? Z.quot redbound 2 then false else rerun).

Definition execPc_BND (offset : Q) (redbound : Z) (rerun : bool)
  : M Env (Q * Z * bool) :=
  let ub : Q := (-1)%Q in
  io ← call reduce_bound [AB true] (mkIO offset ub 0 0);
  let nelims := io_nelims io in
  mret (io_fixed io, nelims, if nelims <=? redbound then false else rerun).

End Exec.

Section Loop.
Context {Env : Type} {lib : Library Env}.

(** What the rounds read and do not write. *)
Variables (fuel : nat) (dualascent tryrpc : bool) (reductbound : Z)
  (userec nodereplacing : bool) (timelimit prizesum : Q).

Let extensive : bool := STP_RED_EXTENSIVE.

(** [reduce_simple_pc(scip, edgestate, g, &fix, &nelims, &degnelims, solnode)] *)
Definition simple_pc (v : Vars) : M Env Vars :=
  io ← call reduce_simple_pc [] (mkIO (fix_ v) 0 0 (degnelims v));
  mret (v <| fix_ := io_fixed io |> <| degnelims := io_count io |>).

Definition round_sd (v : Vars) : M Env (Vars * Z) :=
  if sd v || extensive then
    '(sdnelims, b) ← execPc_SD reductbound (sd v);
    mret (v <| sd := b |>, sdnelims)
  else mret (v, 0).

Definition round_sdstar (rounds : Z) (v : Vars) : M Env (Vars * Z) :=
  if sdstar v || extensive then
    g ← get_graph;
    io ← call reduce_sdStar [AZ (getWorkLimits_pc g rounds pc_sdw1)] io0;
    let sdstarnelims := io_nelims io in
    mret (if sdstarnelims <=? reductbound then v <| sdstar := false |> else v,
          sdstarnelims)
  else mret (v, 0).

Definition round_sdw (rounds : Z) (v : Vars) : M Env (Vars * Z) :=
  if sdw v || extensive then
    let sdwnelims3 := 0 in
    g ← get_graph;
    io ← call reduce_sdWalk_csr [AZ (getWorkLimits_pc g rounds pc_sdw1)] io0;
    let sdwnelims := io_nelims io in
    g ← get_graph;
    io ← call reduce_sdWalkExt [AZ (getWorkLimits_pc g rounds pc_sdw2)] io0;
    let sdwnelims2 := io_nelims io in
    let sdwnelims := sdwnelims + (sdwnelims2 + sdwnelims3) in
    mret (if sdwnelims <=? reductbound then v <| sdw := false |> else v,
          sdwnelims)
  else mret (v, 0).

Definition round_sdc (rounds : Z) (v : Vars) : M Env (Vars * Z) :=
  if sdc v || extensive then
    g ← get_graph;
    '(sdcnelims, b) ← execPc_SDSP (getWorkLimits_pc g rounds pc_sdc)
                        reductbound (sdc v);
    mret (v <| sdc := b |>, sdcnelims)
  else mret (v, 0).

Definition round_bd3 (rounds : Z) (v : Vars) : M Env (Vars * Z) :=
  if bd3 v && dualascent then
    g ← get_graph;
    '(fix', bd3nelims, b) ← execPc_BDk (getWorkLimits_pc g rounds pc_bd3)
                              (fix_ v) reductbound (bd3 v);
    mret (v <| fix_ := fix' |> <| bd3 := b |>, bd3nelims)
  else mret (v, 0).

Definition round_nvsl (v : Vars) : M Env (Vars * Z) :=
  if nvsl v || extensive then
    '(fix', nvslnelims, b) ← execPc_NVSL fuel (fix_ v) reductbound (nvsl v);
    mret (v <| fix_ := fix' |> <| nvsl := b |>, nvslnelims)
  else mret (v, 0).

Definition round_bred (v : Vars) : M Env (Vars * Z) :=
  if bred v then
    '(fix', brednelims, b) ← execPc_BND (fix_ v) reductbound (bred v);
    mret (v <| fix_ := fix' |> <| bred := b |>, brednelims)
  else mret (v, 0).

(** The dual ascent of the round: [reduce_da] on a rooted graph,
    [reduce_daPcMw] otherwise. *)
Definition round_da (rounds : Z) (rpc : bool) (v : Vars) : M Env (Vars * Z) :=
  if da v || (dualascent && extensive) then
    let ub : Q := (-1)%Q in
    v ← simple_pc v;
    io ← (if rpc then
            call reduce_da [AZ 0; AB false; AB false; AB nodereplacing]
                 (mkIO (fix_ v) ub 0 0)
          else
            io ← call reduce_daPcMw
                   [AB true; AB false; AB false; AB userec;
                    AB (bool_decide (rounds = 0)); AQ prizesum;
                    AB nodereplacing] io0;
            mret (mkIO (fix_ v) ub (io_nelims io) 0));
    let danelims := io_nelims io in
    let v := v <| fix_ := io_fixed io |> in
    mret (if danelims <=? reductbound then v <| da := false |> else v,
          danelims)
  else mret (v, 0).

(** The block [if( !rerun && advancedrun && g->terms > 2 )]: one more
    dual ascent and, when enough was eliminated in all, the restart. *)
Definition round_advanced (rpc : bool) (v : Vars) : M Env Vars :=
  g ← get_graph;
  if negb (rerun v) && advancedrun v && (2 <? terms g) then
    let v := v <| degnelims := 0 |> <| advancedrun := false |> in
    io ← (if rpc then
            let ub : Q := (-1)%Q in
            call reduce_da [AZ 0; AB false; AB false; AB nodereplacing]
                 (mkIO (fix_ v) ub 0 0)
          else
            io ← call reduce_daPcMw
                   [AB true; AB true; AB true; AB userec; AB false;
                    AQ prizesum; AB nodereplacing] io0;
            mret (mkIO (fix_ v) 0 (io_nelims io) 0));
    let danelims := io_nelims io in
    let v := v <| fix_ := io_fixed io |> in
    v ← simple_pc v;
    let v := v <| ntotalelims := ntotalelims v + (danelims + degnelims v) |> in
    mret (if reductbound <? ntotalelims v then
            v <| rerun := true |> <| da := dualascent |> <| sd := true |>
              <| sdc := true |> <| sdw := true |> <| nvsl := true |>
              <| bd3 := nodereplacing |>
          else v)
  else mret v.

(** The block that turns the graph into a rooted one.  It returns the
    round counter, [rpc] and the variables as it leaves them. *)
Definition round_convert (rounds : Z) (rpc : bool) (v : Vars)
  : M Env (Z * (bool * Vars)) :=
  g ← get_graph;
  if (negb (rerun v) || bool_decide (rounds = STP_RED_MAXNROUNDS - 1))
     && negb rpc && tryrpc && (2 <? terms g)
  then
    _ ← call_void graph_pc_2trans [] io0;
    _ ← call graph_pc_pcmw2rooted [AQ prizesum] io0;
    g ← get_graph;
    let rpc := bool_decide (stp_type g = STP_RPCSPG) in
    r ← (if rpc then
           fix' ← level0RpcRmwM (fix_ v);
           mret (1, v <| fix_ := fix' |> <| rerun := true |>
                      <| da := dualascent |> <| sd := true |>
                      <| sdc := true |> <| sdw := true |> <| nvsl := true |>
                      <| bd3 := nodereplacing |>
                      <| advancedrun := dualascent |>)
         else mret (rounds, v));
    _ ← call_void graph_pc_2org [] io0;
    mret (fst r, (rpc, snd r))
  else mret (rounds, (rpc, v)).

(** The tests of a round, up to the test on the sum of the
    eliminations. *)
Definition round_tests (rounds : Z) (rpc : bool) (v : Vars) : M Env (Step Vars) :=
  let v := v <| degnelims := 0 |> in
  t ← timeover timelimit;
  if (t : bool) then mret (Break v) else
  '(v, sdnelims) ← round_sd v;
  '(v, sdstarnelims) ← round_sdstar rounds v;
  '(v, sdwnelims) ← round_sdw rounds v;
  '(v, sdcnelims) ← round_sdc rounds v;
  t ← timeover timelimit;
  if (t : bool) then mret (Break v) else
  v ← simple_pc v;
  '(v, bd3nelims) ← round_bd3 rounds v;
  '(v, nvslnelims) ← round_nvsl v;
  '(v, brednelims) ← round_bred v;
  t ← timeover timelimit;
  if (t : bool) then mret (Break v) else
  '(v, danelims) ← round_da rounds rpc v;
  v ← simple_pc v;
  let sum := degnelims v + sdnelims + sdcnelims + bd3nelims + danelims
             + brednelims + nvslnelims + sdwnelims + sdstarnelims in
  let v := v <| ntotalelims := ntotalelims v + sum |> in
  mret (Continue (if sum <=? reductbound then v <| rerun := false |> else v)).

(** Body of the main reduction loop; the state is [rpc] and the
    variables. *)
Definition round (rounds : Z) (s : bool * Vars)
  : M Env (Step (Z * (bool * Vars))) :=
  let rpc := fst s in
  r ← round_tests rounds rpc (snd s);
  match r with
  | Break v => mret (Break (rounds, (rpc, v)))
  | Continue v =>
      v ← round_advanced rpc v;
      v ← (if negb (rerun v) || bool_decide (rounds = STP_RED_MAXNROUNDS - 1)
           then simple_pc v else mret v);
      r ← round_convert rounds rpc v;
      mret (Continue r)
  end.

(** [rounds < STP_RED_MAXNROUNDS && !SCIPisStopped(scip) && rerun] *)
Definition round_cond (rounds : Z) (s : bool * Vars) : M Env bool :=
  if rounds <? STP_RED_MAXNROUNDS then
    b ← isStopped;
    mret (negb b && rerun (snd s))
  else mret false.

(** The main reduction loop, from round [rounds] on; [rfuel] bounds the
    number of rounds. *)
Definition redLoopPc_rounds (rfuel : nat) (rounds : Z) (s : bool * Vars)
  : M Env (Z * (bool * Vars)) :=
  for_loop loop_rounds rfuel round_cond round rounds s.

End Loop.

Section Entry.
Context {Env : Type} {lib : Library Env}.

(** [redLoopPc]: the (R)PC loop; the result is [*fixed]. *)
Definition redLoopPc (fuel : nat) (fixed : Q) (dualascent bred_ tryrpc : bool)
    (reductbound : Z) (userec nodereplacing : bool) : M Env Q :=
  g ← get_graph;
  let rpc := bool_decide (stp_type g = STP_RPCSPG) in
  if bool_decide (grad g !!! source g = 0) then mret fixed else
  _ ← call SCIPcreateRandom [] io0;
  _ ← call_void graph_heap_create [] io0;
  let fix0 : Q := 0%Q in
  _ ← call_void graph_pc_2org [] io0;
  _ ← call graph_pc_presolInit [] io0;
  io ← call reduce_simple_pc [] (mkIO fix0 0 0 0);
  let v := mkVars dualascent true true true true nodereplacing true true
             bred_ dualascent (io_fixed io) (io_nelims io) 0 in
  g ← get_graph;
  let prizesum := graph_pc_getPosPrizeSum g in
  timelimit ← getTimelimit;
  (* main reduction loop *)
  r ← redLoopPc_rounds fuel dualascent tryrpc reductbound userec nodereplacing
        timelimit prizesum fuel 0 (rpc, v);
  let s := snd r in
  _ ← (if dualascent && tryrpc
       then call reduce_deleteConflictEdges [] io0 else mret io0);
  _ ← call_void graph_pc_2trans [] io0;
  _ ← call_void graph_pc_presolExit [] io0;
  _ ← call_void graph_heap_free [] io0;
  _ ← call_void SCIPfreeRandom [] io0;
  mret (fixed + fix_ (snd s))%Q.

End Entry.

End Pc.

(** ** The STP loop *)

Module Stp.

(** The variables of [redLoopStp] that live across its statements: the
    activity flags, the local offset [fix] (here [fix_]), the upper bound
    [ub] and [degtnelims]. *)
Record Vars : Type := mkVars {
  le : bool;
  sd : bool;
  da : bool;
  sdc : bool;
  bd3 : bool;
  bred : bool;
  nvsl : bool;
  rerun : bool;
  fix_ : Q;
  ub : Q;
  degtnelims : Z
}.

#[global] Instance set_le : Setter le := λ x r,
  mkVars x (sd r) (da r) (sdc r) (bd3 r) (bred r) (nvsl r) (rerun r)
    (fix_ r) (ub r) (degtnelims r).
#[global] Instance set_sd : Setter sd := λ x r,
  mkVars (le r) x (da r) (sdc r) (bd3 r) (bred r) (nvsl r) (rerun r)
    (fix_ r) (ub r) (degtnelims r).
#[global] Instance set_da : Setter da := λ x r,
  mkVars (le r) (sd r) x (sdc r) (bd3 r) (bred r) (nvsl r) (rerun r)
    (fix_ r) (ub r) (degtnelims r).
#[global] Instance set_sdc : Setter sdc := λ x r,
  mkVars (le r) (sd r) (da r) x (bd3 r) (bred r) (nvsl r) (rerun r) (fix_ r)
    (ub r) (degtnelims r).
#[global] Instance set_bd3 : Setter bd3 := λ x r,
  mkVars (le r) (sd r) (da r) (sdc r) x (bred r) (nvsl r) (rerun r) (fix_ r)
    (ub r) (degtnelims r).
#[global] Instance set_bred : Setter bred := λ x r,
  mkVars (le r) (sd r) (da r) (sdc r) (bd3 r) x (nvsl r) (rerun r) (fix_ r)
    (ub r) (degtnelims r).
#[global] Instance set_nvsl : Setter nvsl := λ x r,
  mkVars (le r) (sd r) (da r) (sdc r) (bd3 r) (bred r) x (rerun r) (fix_ r)
    (ub r) (degtnelims r).
#[global] Instance set_rerun : Setter rerun := λ x r,
  mkVars (le r) (sd r) (da r) (sdc r) (bd3 r) (bred r) (nvsl r) x (fix_ r)
    (ub r) (degtnelims r).
#[global] Instance set_fix_ : Setter fix_ := λ x r,
  mkVars (le r) (sd r) (da r) (sdc r) (bd3 r) (bred r) (nvsl r) (rerun r) x
    (ub r) (degtnelims r).
#[global] Instance set_ub : Setter ub := λ x r,
  mkVars (le r) (sd r) (da r) (sdc r) (bd3 r) (bred r) (nvsl r) (rerun r)
    (fix_ r) x (degtnelims r).
#[global] Instance set_degtnelims : Setter degtnelims := λ x r,
  mkVars (le r) (sd r) (da r) (sdc r) (bd3 r) (bred r) (nvsl r) (rerun r)
    (fix_ r) (ub r) x.


Section Loop.
Context {Env : Type} {lib : Library Env}.

(** What the rounds read and do not write. *)
Variables (fuel : nat) (nodereplacing : bool) (reductbound : Z)
  (userec fullreduce : bool) (timelimit : Q).

Let extensive : bool := STP_RED_EXTENSIVE.

(** [reduce_simple(scip, g, &fix, solnode, &degtnelims, NULL)] *)
Definition simple (v : Vars) : M Env Vars :=
  io ← call reduce_simple [] (mkIO (fix_ v) 0 (degtnelims v) 0);
  mret (v <| fix_ := io_fixed io |> <| degtnelims := io_nelims io |>).

(** Each test block returns the variables, its elimination count and
    whether the time limit made it [break]. *)

Definition round_le (v : Vars) : M Env (Vars * Z * bool) :=
  if le v || extensive then
    io ← call reduce_ledge [] io0;
    let lenelims := io_nelims io in
    v ← (if lenelims <=? reductbound then mret (v <| le := false |>)
         else simple v);
    t ← timeover timelimit;
    mret (v, lenelims, t)
  else mret (v, 0, false).

Definition round_sd (v : Vars) : M Env (Vars * Z * bool) :=
  if sd v || extensive then
    io ← call reduce_sd [AB nodereplacing] io0;
    let sdnelims := io_nelims io in
    let v := if sdnelims <=? reductbound then v <| sd := false |> else v in
    t ← timeover timelimit;
    mret (v, sdnelims, t)
  else mret (v, 0, false).

Definition round_sdc (inner_rounds : Z) (v : Vars) : M Env (Vars * Z * bool) :=
  if sdc v || extensive then
    io ← call reduce_sdsp
           [AZ (if 0 <? inner_rounds then STP_RED_SDSPBOUND2
                else STP_RED_SDSPBOUND)] io0;
    let sdcnelims := io_nelims io in
    let v := if sdcnelims <=? reductbound then v <| sdc := false |> else v in
    t ← timeover timelimit;
    mret (v, sdcnelims, t)
  else mret (v, 0, false).

Definition round_bd3 (v : Vars) : M Env (Vars * Z * bool) :=
  if bd3 v || extensive then
    io ← call reduce_bd34 [AZ STP_RED_BD3BOUND] (mkIO (fix_ v) 0 0 0);
    let bd3nelims := io_nelims io in
    let v := v <| fix_ := io_fixed io |> in
    v ← (if bd3nelims <=? reductbound then mret (v <| bd3 := false |>)
         else simple v);
    t ← timeover timelimit;
    mret (v, bd3nelims, t)
  else mret (v, 0, false).

Definition round_nvsl (v : Vars) : M Env (Vars * Z * bool) :=
  if nvsl v || extensive then
    '(fix', nvslnelims) ← nvreduce_sl fuel (fix_ v) reductbound;
    let v := v <| fix_ := fix' |> in
    let v := if nvslnelims <=? reductbound then v <| nvsl := false |> else v in
    t ← timeover timelimit;
    mret (v, nvslnelims, t)
  else mret (v, 0, false).

Definition round_da (inner_rounds : Z) (v : Vars) : M Env (Vars * Z * bool) :=
  if da v then
    io ← call reduce_da [AZ inner_rounds; AB userec; AB false; AB true]
           (mkIO (fix_ v) (ub v) 0 0);
    let danelims := io_nelims io in
    let v := v <| ub := io_ub io |> <| fix_ := io_fixed io |> in
    let v := if danelims <=? STP_RED_EXFACTOR * reductbound
             then v <| da := false |> else v in
    t ← timeover timelimit;
    mret (v, danelims, t)
  else mret (v, 0, false).

Definition round_bred (v : Vars) : M Env (Vars * Z * bool) :=
  if bred v && nodereplacing then
    io ← call reduce_bound [AB false] (mkIO (fix_ v) (ub v) 0 0);
    let brednelims := io_nelims io in
    let v := v <| ub := io_ub io |> <| fix_ := io_fixed io |> in
    _ ← level0M;
    let v := if brednelims <=? reductbound then v <| bred := false |> else v in
    t ← timeover timelimit;
    mret (v, brednelims, t)
  else mret (v, 0, false).

(** The tests of a round of the inner reduction loop; they return the
    variables and the sum of the eliminations. *)
Definition round_tests (inner_rounds : Z) (v : Vars) : M Env (Step (Vars * Z)) :=
  let v := v <| degtnelims := 0 |> in
  t ← timeover timelimit;
  if (t : bool) then mret (Break (v, 0)) else
  '(v, lenelims, t) ← round_le v;
  if (t : bool) then mret (Break (v, 0)) else
  '(v, sdnelims, t) ← round_sd v;
  if (t : bool) then mret (Break (v, 0)) else
  '(v, sdcnelims, t) ← round_sdc inner_rounds v;
  if (t : bool) then mret (Break (v, 0)) else
  v ← (if sd v || sdc v then simple v else mret v);
  '(v, bd3nelims, t) ← round_bd3 v;
  if (t : bool) then mret (Break (v, 0)) else
  '(v, nvslnelims, t) ← round_nvsl v;
  if (t : bool) then mret (Break (v, 0)) else
  let v := v <| ub := (-1)%Q |> in
  '(v, danelims, t) ← round_da inner_rounds v;
  if (t : bool) then mret (Break (v, 0)) else
  '(v, brednelims, t) ← round_bred v;
  if (t : bool) then mret (Break (v, 0)) else
  _ ← level0M;
  v ← simple v;
  mret (Continue (v, danelims + sdnelims + bd3nelims + nvslnelims + lenelims
                     + brednelims + sdcnelims)).

(** The end of a round: with few eliminations the loop restarts once, or
    stops. *)
Definition round_restart (inner_rounds : Z) (sum : Z) (s : Z * Vars)
  : Z * Vars :=
  let inner_restarts := fst s in
  let v := snd s in
  let s :=
    if sum <=? 2 * reductbound then
      (* at least one successful round and full reduce and no
         inner_restarts yet? *)
      if (0 <? inner_rounds) && fullreduce && (inner_restarts =? 0) then
        (inner_restarts + 1,
         v <| le := true |> <| sd := true |> <| sdc := true |>
           <| da := true |> <| bd3 := nodereplacing |>
           <| nvsl := nodereplacing |>)
      else (inner_restarts, v <| rerun := false |>)
    else (inner_restarts, v) in
  if extensive && (0 <? sum)
  then (fst s, (snd s) <| rerun := true |>) else s.

(** Body of the inner reduction loop; the state is [inner_restarts] and
    the variables. *)
Definition inner_round (inner_rounds : Z) (s : Z * Vars)
  : M Env (Step (Z * Vars)) :=
  r ← round_tests inner_rounds (snd s);
  mret (match r with
        | Break (v, _) => Break (fst s, v)
        | Continue (v, sum) =>
            Continue (round_restart inner_rounds sum (fst s, v))
        end).

(** [rerun && !SCIPisStopped(scip)] *)
Definition rerun_cond (v : Vars) : M Env bool :=
  if rerun v then b ← isStopped; mret (negb b) else mret false.

(** The inner reduction loop: [inner_rounds] and the state at its
    exit.  [rfuel] bounds the number of rounds. *)
Definition redLoopStp_inner (rfuel : nat) (inner_rounds : Z) (s : Z * Vars)
  : M Env (Z * (Z * Vars)) :=
  for_loop loop_rounds rfuel (λ _ s, rerun_cond (snd s))
    (keep_counter inner_round) inner_rounds s.

(** The block [if( fullreduce && !SCIPisStopped(scip) )] that follows
    the inner loop: dual ascent in extended mode and, when it pays, the
    restart of all tests. *)
Definition extensive_step (inner_rounds : Z) (v : Vars) : M Env (Step Vars) :=
  b ← (if fullreduce then s ← isStopped; mret (negb s) else mret false);
  if (b : bool) then
    t ← timeover timelimit;
    if (t : bool) then mret (Break v) else
    io ← call reduce_da [AZ inner_rounds; AB userec; AB true; AB true]
           (mkIO (fix_ v) (ub v) 0 0);
    let v := v <| ub := io_ub io |> <| fix_ := io_fixed io |> in
    io ← call reduce_simple [] (mkIO (fix_ v) 0 (io_nelims io) 0);
    let extendedelims := io_nelims io in
    let v := v <| fix_ := io_fixed io |> in
    mret (Continue
            (if STP_RED_EXFACTOR * reductbound <? extendedelims then
               v <| le := true |> <| sd := true |> <| sdc := true |>
                 <| da := true |> <| bd3 := nodereplacing |>
                 <| nvsl := nodereplacing |> <| rerun := true |>
             else v))
  else mret (Continue v).

(** Body of the extensive reduction loop. *)
Definition extensive_round (v : Vars) : M Env (Step Vars) :=
  r ← redLoopStp_inner fuel 0 (0, v);
  extensive_step (fst r) (snd (snd r)).

End Loop.

Section Entry.
Context {Env : Type} {lib : Library Env}.

(** [redLoopStp]: the STP loop; the result is [*fixed]. *)
Definition redLoopStp (fuel : nat) (fixed upperbound : Q)
    (dualascent boundreduce nodereplacing : bool) (reductbound : Z)
    (userec fullreduce : bool) : M Env Q :=
  (* create random number generator *)
  _ ← call SCIPcreateRandom [] io0;
  let ub_ := upperbound in
  let fix0 : Q := 0%Q in
  _ ← call reduce_contractZeroEdges [AB true] io0;
  io ← call reduce_simple [] (mkIO fix0 0 0 0);
  let v := mkVars true true dualascent true nodereplacing boundreduce
             nodereplacing true (io_fixed io) ub_ 0 in
  (* get timelimit parameter *)
  timelimit ← getTimelimit;
  v ← do_while loop_extensive fuel
        (extensive_round fuel nodereplacing reductbound userec fullreduce
           timelimit)
        (rerun_cond) v;
  _ ← (if fullreduce then call reduce_deleteConflictEdges [] io0
       else mret io0);
  (* free random number generator *)
  _ ← call_void SCIPfreeRandom [] io0;
  mret (fixed + fix_ v)%Q.

End Entry.

End Stp.

(** ** The packages and the dispatcher *)

(** The flags of [reduceHc] ([bred], [hbred], [rbred], [rcbred]) and the
    offset [*fixed]. *)
Record HcVars : Type := mkHcVars {
  hc_bred : bool;
  hc_hbred : bool;
  hc_rbred : bool;
  hc_rcbred : bool;
  hc_fixed : Q
}.

#[global] Instance set_hc_bred : Setter hc_bred := λ x r,
  mkHcVars x (hc_hbred r) (hc_rbred r) (hc_rcbred r) (hc_fixed r).
#[global] Instance set_hc_hbred : Setter hc_hbred := λ x r,
  mkHcVars (hc_bred r) x (hc_rbred r) (hc_rcbred r) (hc_fixed r).
#[global] Instance set_hc_rbred : Setter hc_rbred := λ x r,
  mkHcVars (hc_bred r) (hc_hbred r) x (hc_rcbred r) (hc_fixed r).
#[global] Instance set_hc_rcbred : Setter hc_rcbred := λ x r,
  mkHcVars (hc_bred r) (hc_hbred r) (hc_rbred r) x (hc_fixed r).
#[global] Instance set_hc_fixed : Setter hc_fixed := λ x r,
  mkHcVars (hc_bred r) (hc_hbred r) (hc_rbred r) (hc_rcbred r) x.

(** The flags of [reduceSap] ([da], [sd], [rpt]), its upper bound [ub] and
    the offset [*fixed]. *)
Record SapVars : Type := mkSapVars {
  sap_da : bool;
  sap_sd : bool;
  sap_rpt : bool;
  sap_ub : Q;
  sap_fixed : Q
}.

#[global] Instance set_sap_da : Setter sap_da := λ x r,
  mkSapVars x (sap_sd r) (sap_rpt r) (sap_ub r) (sap_fixed r).
#[global] Instance set_sap_sd : Setter sap_sd := λ x r,
  mkSapVars (sap_da r) x (sap_rpt r) (sap_ub r) (sap_fixed r).
#[global] Instance set_sap_rpt : Setter sap_rpt := λ x r,
  mkSapVars (sap_da r) (sap_sd r) x (sap_ub r) (sap_fixed r).
#[global] Instance set_sap_ub : Setter sap_ub := λ x r,
  mkSapVars (sap_da r) (sap_sd r) (sap_rpt r) x (sap_fixed r).
#[global] Instance set_sap_fixed : Setter sap_fixed := λ x r,
  mkSapVars (sap_da r) (sap_sd r) (sap_rpt r) (sap_ub r) x.


Section Packages.
Context {Env : Type} {lib : Library Env}.

Definition get_scip : M Env Env := λ w, Done (scip w) w.

(** [SCIPisLE(scip, (double) nterms / (double) nnodes, x)] *)
Definition few_terminals (x : Q) : M Env bool :=
  e ← get_scip;
  g ← get_graph;
  mret (SCIPisLE e (inject_Z (terms g) / inject_Z (Z.of_nat (knots g)))%Q x).

(** The reduction bounds of the three packages with a round loop; [MAX]
    is taken at type [int], where it is [Z.max]. *)
Definition reduceStp_reductbound (g : GRAPH) (minelims : Z) : Z :=
  let nedges := Z.of_nat (edges g) in
  Z.max (Z.quot nedges 1000) minelims.

Definition reducePc_reductbound (g : GRAPH) (minelims : Z) : Z :=
  let nnodes := Z.of_nat (knots g) in
  Z.max (Z.quot nnodes 1000) minelims.

Definition reduceMw_redbound (g : GRAPH) (minelims : Z) : Z :=
  let nnodes := Z.of_nat (knots g) in
  Z.max (Z.quot nnodes 1000) minelims.

Definition reduceHc_redbound (g : GRAPH) (minelims : Z) : Z :=
  Z.max (Z.quot (Z.of_nat (knots g)) 1000) minelims.

Definition reduceSap_redbound (g : GRAPH) (minelims : Z) : Z :=
  let nnodes := Z.of_nat (knots g) in
  Z.max (Z.quot nnodes 1000) minelims.

Definition reduceNw_redbound (g : GRAPH) (minelims : Z) : Z :=
  let nnodes := Z.of_nat (knots g) in
  Z.max (Z.quot nnodes 1000) minelims.

(** [reduceStp]: basic reduction package for the STP. *)
Definition reduceStp (fuel : nat) (fixed : Q) (minelims : Z)
    (dualascent nodereplacing userec : bool) : M Env Q :=
  g ← get_graph;
  bred ← few_terminals (3 # 100);
  let reductbound := reduceStp_reductbound g minelims in
  (* reduction loop *)
  Stp.redLoopStp fuel fixed (-1)%Q dualascent bred nodereplacing reductbound
    userec (dualascent && userec).

(** [reducePc]: basic reduction package for the (R)PCSTP. *)
Definition reducePc (fuel : nat) (fixed : Q) (minelims : Z)
    (advanced userec nodereplacing : bool) : M Env Q :=
  g ← get_graph;
  (* get timelimit parameter *)
  _ ← getTimelimit;
  bred ← few_terminals (3 # 100);
  (* define minimal number of edge/node eliminations for a reduction test
     to be continued *)
  let reductbound := reducePc_reductbound g minelims in
  (* reduction loop *)
  Pc.redLoopPc fuel fixed advanced bred (userec && advanced) reductbound
    userec nodereplacing.

(** [reduceMw]: reduction package for the MWCSP. *)
Definition reduceMw (fuel : nat) (fixed : Q) (minelims : Z)
    (advanced userec : bool) : M Env Q :=
  g ← get_graph;
  let redbound := reduceMw_redbound g minelims in
  bred ← few_terminals (1 # 10);
  (* reduction loop *)
  Mw.redLoopMw fuel fixed advanced bred advanced redbound userec.

(** Body of the [while] loop of [reduceHc]. *)
Definition reduceHc_round (redbound : Z) (timelimit : Q) (v : HcVars)
  : M Env (Step HcVars) :=
  t ← timeover timelimit;
  if (t : bool) then mret (Break v) else
  let upperbound : Q := (-1)%Q in
  v ← (if hc_rbred v then
         io ← call reduce_boundHopR [] io0;
         mret (if io_nelims io <=? redbound
               then v <| hc_rbred := false |> else v)
       else mret v);
  v ← (if hc_rcbred v then
         io ← call reduce_boundHopRc [AQ (-1)%Q; AB false] io0;
         mret (if io_nelims io <=? redbound
               then v <| hc_rcbred := false |> else v)
       else mret v);
  v ← (if hc_bred v then
         io ← call reduce_bound [AB false] (mkIO (hc_fixed v) upperbound 0 0);
         let v := v <| hc_fixed := io_fixed io |> in
         mret (if io_nelims io <=? redbound
               then v <| hc_bred := false |> else v)
       else mret v);
  t ← timeover timelimit;
  if (t : bool) then mret (Break v) else
  if hc_hbred v then
    io ← call reduce_boundHop [] io0;
    let v := if io_nelims io <=? redbound
             then v <| hc_hbred := false |> else v in
    t ← timeover timelimit;
    mret (if (t : bool) then Break v else Continue v)
  else mret (Continue v).

(** [reduceHc]: basic reduction package for the HCDSTP. *)
Definition reduceHc (fuel : nat) (fixed : Q) (minelims : Z) : M Env Q :=
  g ← get_graph;
  let redbound := reduceHc_redbound g minelims in
  timelimit ← getTimelimit;
  io ← call reduce_simple_hc [] (mkIO fixed 0 0 0);
  r ← for_loop loop_package fuel
        (λ _ v, if hc_bred v || hc_hbred v || hc_rbred v || hc_rcbred v
                then b ← isStopped; mret (negb b) else mret false)
        (keep_counter (λ _, reduceHc_round redbound timelimit))
        0 (mkHcVars true true true true (io_fixed io));
  mret (hc_fixed (snd r)).

(** [for( e = 0; e < g->edges; e++ ) if( SCIPisEQ(scip, g->cost[e], 20000.0) )
    g->cost[e] = FARAWAY;] *)
Definition sap_costs (e : Env) (g : GRAPH) : GRAPH :=
  foldl (λ g a, if SCIPisEQ e (cost g !!! a) 20000
                then set_cost g (<[a := FARAWAY]> (cost g)) else g)
        g (seq 0 (edges g)).

(** Body of the main loop of [reduceSap]. *)
Definition reduceSap_round (redbound : Z) (timelimit : Q) (v : SapVars)
  : M Env (Step SapVars) :=
  t ← timeover timelimit;
  if (t : bool) then mret (Break v) else
  v ← (if sap_sd v then
         io ← call reduce_sdspSap [AZ 300] io0;
         mret (if io_nelims io <=? redbound
               then v <| sap_sd := false |> else v)
       else mret v);
  v ← (if sap_rpt v then
         io ← call reduce_rpt [] (mkIO (sap_fixed v) 0 0 0);
         let v := v <| sap_fixed := io_fixed io |> in
         mret (if io_nelims io <=? redbound
               then v <| sap_rpt := false |> else v)
       else mret v);
  io ← call reduce_simple_sap [] (mkIO (sap_fixed v) 0 0 0);
  let v := v <| sap_fixed := io_fixed io |> in
  v ← (if sap_da v then
         io ← call reduce_da [AZ 0; AB false; AB false; AB false]
                (mkIO (sap_fixed v) (sap_ub v) 0 0);
         let v := v <| sap_ub := io_ub io |> <| sap_fixed := io_fixed io |> in
         mret (if io_nelims io <=? 2 * redbound
               then v <| sap_da := false |> else v)
       else mret v);
  mret (Continue v).

(** [reduceSap]: basic reduction package for the SAP. *)
Definition reduceSap (fuel : nat) (fixed : Q) (minelims : Z) : M Env Q :=
  (* create random number generator *)
  _ ← call SCIPcreateRandom [] io0;
  g ← get_graph;
  let redbound := reduceSap_redbound g minelims in
  timelimit ← getTimelimit;
  _ ← (λ w, Done tt (mkWorld (scip w) (sap_costs (scip w) (graph w)) (log w)));
  io ← call reduce_simple_sap [] (mkIO fixed 0 0 0);
  (* main loop *)
  r ← for_loop loop_package fuel
        (λ _ v, if sap_sd v || sap_rpt v || sap_da v
                then b ← isStopped; mret (negb b) else mret false)
        (keep_counter (λ _, reduceSap_round redbound timelimit))
        0 (mkSapVars true false true FARAWAY (io_fixed io));
  io ← call reduce_simple_sap [] (mkIO (sap_fixed (snd r)) 0 0 0);
  (* free random number generator *)
  _ ← call_void SCIPfreeRandom [] io0;
  mret (io_fixed io).

(** [reduceNw]; the state of its loop is [da], [ub] and [*fixed]. *)
Definition reduceNw (fuel : nat) (fixed : Q) (minelims : Z) : M Env Q :=
  (* create random number generator *)
  _ ← call SCIPcreateRandom [] io0;
  g ← get_graph;
  let redbound := reduceNw_redbound g minelims in
  timelimit ← getTimelimit;
  r ← for_loop loop_package fuel
        (λ _ (s : bool * Q * Q),
           if fst (fst s) then b ← isStopped; mret (negb b) else mret false)
        (keep_counter (λ _ (s : bool * Q * Q),
           t ← timeover timelimit;
           if (t : bool) then mret (Break s) else
           io ← call reduce_da [AZ 0; AB false; AB false; AB false]
                  (mkIO (snd s) (snd (fst s)) 0 0);
           mret (Continue
                   (if io_nelims io <=? 2 * redbound then false
                    else fst (fst s), io_ub io, io_fixed io))))
        0 (true, FARAWAY, fixed);
  (* free random number generator *)
  _ ← call_void SCIPfreeRandom [] io0;
  mret (snd (snd r)).

(** [reduce]: reduces the graph.  The result is [*offset]. *)
Definition reduce (fuel : nat) (level : Z) (minelims : Z) (userec : bool)
  : M Env Q :=
  let offset : Q := 0%Q in
  g ← get_graph;
  let stp_type_ := stp_type g in
  (* initialize ancestor list for each edge *)
  _ ← call graph_init_history [] io0;
  (* initialize shortest path algorithms *)
  _ ← call graph_path_init [] io0;
  _ ← level0M;
  g ← get_graph;
  (* if no reduction methods available, return *)
  if bool_decide (stp_type g = STP_DCSTP) || bool_decide (stp_type g = STP_RMWCSP)
     || bool_decide (stp_type g = STP_NWPTSPG)
     || bool_decide (stp_type g = STP_BRMWCSP)
  then
    _ ← call_void graph_path_exit [] io0;
    mret offset
  else
  offset ←
    (if level =? 1 then
       if bool_decide (stp_type_ = STP_PCSPG) || bool_decide (stp_type_ = STP_RPCSPG)
       then reducePc fuel offset minelims false false true
       else if bool_decide (stp_type_ = STP_MWCSP)
       then reduceMw fuel offset minelims false false
       else if bool_decide (stp_type_ = STP_DHCSTP)
       then reduceHc fuel offset minelims
       else if bool_decide (stp_type_ = STP_SAP)
       then reduceSap fuel offset minelims
       else if bool_decide (stp_type_ = STP_NWSPG)
       then reduceNw fuel offset minelims
       else reduceStp fuel offset minelims false true false
     else if level =? 2 then
       if bool_decide (stp_type_ = STP_PCSPG) || bool_decide (stp_type_ = STP_RPCSPG)
       then reducePc fuel offset minelims true userec true
       else if bool_decide (stp_type_ = STP_MWCSP)
       then reduceMw fuel offset minelims true userec
       else if bool_decide (stp_type_ = STP_DHCSTP)
       then reduceHc fuel offset minelims
       else if bool_decide (stp_type_ = STP_SAP)
       then reduceSap fuel offset minelims
       else if bool_decide (stp_type_ = STP_NWSPG)
       then reduceNw fuel offset minelims
       else reduceStp fuel offset minelims true true userec
     else mret offset);
  _ ← level0M;
  _ ← call_void graph_path_exit [] io0;
  mret offset.

(** What is left of [reduce] when no package is run: the two
    initialisations, the clean-up, and for the variants that have a
    package the second clean-up. *)
Definition cleanup_only : M Env Q :=
  _ ← call graph_init_history [] io0;
  _ ← call graph_path_init [] io0;
  _ ← level0M;
  g ← get_graph;
  if bool_decide (stp_type g = STP_DCSTP) || bool_decide (stp_type g = STP_RMWCSP)
     || bool_decide (stp_type g = STP_NWPTSPG)
     || bool_decide (stp_type g = STP_BRMWCSP)
  then
    _ ← call_void graph_path_exit [] io0;
    mret 0%Q
  else
    _ ← level0M;
    _ ← call_void graph_path_exit [] io0;
    mret 0%Q.

End Packages.

(** ** Small graphs and libraries used in the examples *)

Module Examples.

(** Four nodes, source 0; edge 0-1 (arcs 0, 1) hangs at the source, edge
    2-3 (arcs 2, 3) is cut off from it. *)
Definition two_islands : GRAPH :=
  mkGRAPH 4 4 1 0 STP_SPG false
    [false; false; false; false] [1; 1; 1; 1] [0; -1; -1; -1]
    [0%Q; 0%Q; 0%Q; 0%Q] [-1; -1; -1; -1]
    [1; 0; 3; 2]%nat [0; 1; 2; 3]%nat [1%Q; 1%Q; 1%Q; 1%Q]
    [[0]; [1]; [2]; [3]]%nat [[1]; [0]; [3]; [2]]%nat.

(** Two nodes joined by two parallel edges: arcs 0, 1 of cost 1 and arcs
    2, 3 of cost 5.  The cheap edge comes first in either list. *)
Definition doubled_edge : GRAPH :=
  mkGRAPH 2 4 2 0 STP_SPG false
    [true; true] [2; 2] [0; 0] [0%Q; 0%Q] [-1; -1]
    [1; 0; 1; 0]%nat [0; 1; 0; 1]%nat [1%Q; 1%Q; 5%Q; 5%Q]
    [[0; 2]; [1; 3]]%nat [[1; 3]; [0; 2]]%nat.

(** A triangle of three terminals; edges 0-1 (arcs 0, 1), 1-2 (arcs 2, 3)
    and 0-2 (arcs 4, 5). *)
Definition triangle (t : STP_TYPE) : GRAPH :=
  mkGRAPH 3 6 3 0 t false
    [true; true; true] [2; 2; 2] [0; 0; 0] [1%Q; 1%Q; 1%Q] [-1; -1; -1]
    [1; 0; 2; 1; 2; 0]%nat [0; 1; 1; 2; 0; 2]%nat
    [1%Q; 1%Q; 1%Q; 1%Q; 1%Q; 1%Q]
    [[0; 4]; [1; 2]; [3; 5]]%nat [[1; 5]; [0; 3]; [2; 4]]%nat.

(** A rooted prize-collecting graph in extended form.  Node 0 is the
    root.  Node 1 is the pseudo-terminal of node 3 (prize 7): edge 1-3
    (arcs 0, 1) and the root edge 0-1 (arcs 2, 3).  Node 2 is a fixed
    terminal without any edge. *)
Definition cut_off_terminal : GRAPH :=
  mkGRAPH 4 4 3 0 STP_RPCSPG true
    [true; true; true; true] [1; 2; 0; 1] [0; 0; 0; -2]
    [FARAWAY; 0%Q; FARAWAY; 7%Q] [-1; 0; -1; 1]
    [3; 1; 1; 0]%nat [1; 3; 0; 1]%nat [0%Q; FARAWAY; 7%Q; FARAWAY]
    [[2]; [0; 3]; []; [1]]%nat [[3]; [1; 2]; []; [0]]%nat.

(** A rooted prize-collecting graph: root 0 with edge 0-1 (arcs 0, 1);
    node 2 is a fixed terminal without any edge. *)
Definition lonely_terminal : GRAPH :=
  mkGRAPH 3 2 2 0 STP_RPCSPG true
    [true; true; true] [1; 1; 0] [0; -1; 0]
    [FARAWAY; 0%Q; FARAWAY] [-1; -1; -1]
    [1; 0]%nat [0; 1]%nat [1%Q; 1%Q]
    [[0]; [1]; []]%nat [[1]; [0]; []]%nat.

(** A rooted prize-collecting graph in extended form.  Node 0 is the
    root.  Node 1 is the pseudo-terminal of node 2 (prize 7): edge 1-2
    (arcs 0, 1) and the root edge 0-1 (arcs 2, 3).  Edge 0-2 (arcs 4, 5)
    joins node 2 to the root.  Edge 3-4 (arcs 6, 7) is cut off from the
    root. *)
Definition rooted_islands : GRAPH :=
  mkGRAPH 5 8 2 0 STP_RPCSPG true
    [true; true; true; true; true] [2; 2; 2; 1; 1] [0; 0; -2; -1; -1]
    [FARAWAY; 0%Q; 7%Q; 0%Q; 0%Q] [-1; 0; 1; -1; -1]
    [2; 1; 1; 0; 2; 0; 4; 3]%nat [1; 2; 0; 1; 0; 2; 3; 4]%nat
    [0%Q; FARAWAY; 7%Q; FARAWAY; 1%Q; 1%Q; 1%Q; 1%Q]
    [[2; 4]; [0; 3]; [1; 5]; [6]; [7]]%nat
    [[3; 5]; [1; 2]; [0; 4]; [7]; [6]]%nat.

(** The complete graph on [n] nodes: the edge of the [m]-th pair [i < j]
    has the arcs [2m] from [i] to [j] and [2m+1] from [j] to [i]. *)
Definition pairs (n : nat) : list (nat * nat) :=
  flat_map (λ i, map (λ j, (i, j)) (seq (S i) (n - S i))) (seq 0 n).

Definition complete_graph (n : nat) : GRAPH :=
  let hd := flat_map (λ p : nat * nat, [snd p; fst p]) (pairs n) in
  let tl := flat_map (λ p : nat * nat, [fst p; snd p]) (pairs n) in
  let arcs := seq 0 (length hd) in
  mkGRAPH n (length hd) 2 0 STP_SPG false
    (replicate n true) (replicate n (Z.of_nat n - 1))
    (map (λ k, if decide (k < 2)%nat then 0 else -1) (seq 0 n))
    (replicate n 0%Q) (replicate n (-1))
    hd tl (replicate (length hd) 1%Q)
    (map (λ k, filter (λ a, tl !!! a = k) arcs) (seq 0 n))
    (map (λ k, filter (λ a, hd !!! a = k) arcs) (seq 0 n)).

Definition set_stp_type (g : GRAPH) (t : STP_TYPE) : GRAPH :=
  mkGRAPH (knots g) (edges g) (terms g) (source g) t (extended g)
    (mark g) (grad g) (term g) (prize g) (term2edge g) (head g) (tail g)
    (cost g) (outl g) (inl g).

(** Modelled from the spec: the three helpers of the prize-collecting
    graph are missing.  A terminal is fixed when no arc leads to a twin;
    the twin of a pseudo-terminal is the head of that arc; deleting a
    terminal takes away the edges at it. *)
Definition knotIsFixedTerm (g : GRAPH) (k : nat) : bool :=
  Is_term (term g !!! k) && (term2edge g !!! k <? 0).

Definition getTwinTerm (g : GRAPH) (k : nat) : nat :=
  head g !!! Z.to_nat (term2edge g !!! k).

Definition deleteTerm (g : GRAPH) (k : nat) : GRAPH :=
  default g (del_inpedges (length (inl g !!! k)) g k).

(** A library whose tests find nothing: every call returns [SCIP_OKAY]
    and leaves the cells and the graph as they are; the clock stands at 0
    and nobody interrupts. *)
#[global] Instance quiet : Library unit := {|
  lib_exec := λ f args io e g, (SCIP_OKAY, io, e, g);
  SCIPisStopped := λ e, (false, e);
  SCIPgetTotalTime := λ e, (0%Q, e);
  SCIPgetRealParam_limits_time := λ e, (SCIP_OKAY, 3600%Q);
  SCIPisLE := λ e x y, Qle_bool x y;
  SCIPisEQ := λ e x y, Qeq_bool x y;
  graph_pc_getPosPrizeSum := λ g, 0%Q;
  graph_pc_knotIsFixedTerm := knotIsFixedTerm;
  graph_pc_getTwinTerm := getTwinTerm;
  graph_pc_deleteTerm := deleteTerm
|}.


(** A library on a graph that keeps giving: the SCIP state is the number
    of rounds in which the distance test ([reduce_sd], [reduce_sdPc])
    still removes 100 edges.  The conversion to a rooted graph
    succeeds.  Nothing else finds anything. *)
Definition busy_exec (f : Fn) (args : list Arg) (io : IO) (e : nat)
    (g : GRAPH) : SCIP_RETCODE * IO * nat * GRAPH :=
  match f with
  | reduce_sd | reduce_sdPc =>
      match e with
      | O => (SCIP_OKAY, mkIO (io_fixed io) (io_ub io) 0 (io_count io), O, g)
      | S e' =>
          (SCIP_OKAY, mkIO (io_fixed io) (io_ub io) 100 (io_count io), e', g)
      end
  | graph_pc_pcmw2rooted => (SCIP_OKAY, io, e, set_stp_type g STP_RPCSPG)
  | _ => (SCIP_OKAY, io, e, g)
  end.

#[global] Instance busy : Library nat := {|
  lib_exec := busy_exec;
  SCIPisStopped := λ e, (false, e);
  SCIPgetTotalTime := λ e, (0%Q, e);
  SCIPgetRealParam_limits_time := λ e, (SCIP_OKAY, 3600%Q);
  SCIPisLE := λ e x y, Qle_bool x y;
  SCIPisEQ := λ e x y, Qeq_bool x y;
  graph_pc_getPosPrizeSum := λ g, 0%Q;
  graph_pc_knotIsFixedTerm := knotIsFixedTerm;
  graph_pc_getTwinTerm := getTwinTerm;
  graph_pc_deleteTerm := deleteTerm
|}.

(** The variables of the three round loops as the loops set them at the
    start of a run with dual ascent and node replacement. *)
Definition pc_vars : Pc.Vars :=
  Pc.mkVars true true true true true true true true false true 0%Q 0 0.

Definition stp_vars : Stp.Vars :=
  Stp.mkVars true true true true true false true true 0%Q (-1)%Q 0.

Definition mw_vars : Mw.Vars :=
  Mw.mkVars true true true true true true true true false true false 0%Q 0.

(** The variables of [redLoopStp] when only the distance test is still
    successful. *)
Definition stp_going : Stp.Vars :=
  Stp.mkVars false true false false false false false true 0%Q (-1)%Q 0.

(** A state of the prize-collecting loop in which the tests of the
    round have all been successful but [sdstar] and [bred] are off. *)
Definition pc_late : Pc.Vars :=
  Pc.mkVars true true true true false true true true false false 0%Q 0 0.

End Examples.

(** ** Notions used to state the properties *)

(** Arc [e] is still chained at its tail. *)
Definition survives (g : GRAPH) (e : nat) : Prop :=
  e ∈ outl g !!! (tail g !!! e).

(** Arc [e] of the out-list [l] has a parallel arc in [l]: another arc of
    [l] has the same head. *)
Definition parallel_in (g : GRAPH) (l : list nat) (e : nat) : bool :=
  bool_decide (1 < length (filter (λ x, head g !!! x = head g !!! e) l))%nat.

(** The first arc with a parallel arc, nodes taken in the order [ks] and
    arcs in the order of the out-list. *)
Fixpoint first_multi (g : GRAPH) (ks : list nat) : option nat :=
  match ks with
  | [] => None
  | k :: ks' =>
      match List.find (parallel_in g (outl g !!! k)) (outl g !!! k) with
      | Some e => Some e
      | None => first_multi g ks'
      end
  end.

(** Every arc chained at a node ends at a node of the graph. *)
Definition heads_in_range (g : GRAPH) : Prop :=
  ∀ k e, e ∈ outl g !!! k → (head g !!! e < knots g)%nat.

(** How many arcs of [l] end at node [h]. *)
Definition occ (g : GRAPH) (l : list nat) (h : nat) : Z :=
  Z.of_nat (length (filter (λ x, head g !!! x = h) l)).

(** [g'] differs from [g] in the marks, the degrees and the arc lists at
    most. *)
Definition frame_eq (g g' : GRAPH) : Prop :=
  knots g' = knots g ∧ edges g' = edges g ∧ terms g' = terms g
  ∧ source g' = source g ∧ stp_type g' = stp_type g
  ∧ extended g' = extended g ∧ term g' = term g ∧ prize g' = prize g
  ∧ term2edge g' = term2edge g ∧ head g' = head g ∧ tail g' = tail g
  ∧ cost g' = cost g.

(** The arcs chained into a node end at this node. *)
Definition arcs_at_head (g : GRAPH) : Prop :=
  ∀ k e, e ∈ inl g !!! k → head g !!! e = k.

(** The twin of an arc chained into a node leaves this node. *)
Definition twins_at_tail (g : GRAPH) : Prop :=
  ∀ k e, e ∈ inl g !!! k → tail g !!! flipedge e = k.

(** The arrays of the graph fit together: there is a mark for every
    node, the source is a node, the arcs end at nodes, and the in-lists
    hold the arcs they should, each with its twin. *)
Definition graph_wf (g : GRAPH) : Prop :=
  length (mark g) = knots g ∧ (source g < knots g)%nat
  ∧ heads_in_range g ∧ arcs_at_head g ∧ twins_at_tail g.

(** [graph_wf], computed. *)
Definition graph_wf_check (g : GRAPH) : bool :=
  bool_decide (length (mark g) = knots g)
  && bool_decide (source g < knots g)%nat
  && forallb (forallb (λ e, bool_decide (head g !!! e < knots g)%nat)) (outl g)
  && forallb (λ k, forallb (λ e, bool_decide (head g !!! e = k)
                                 && bool_decide (tail g !!! flipedge e = k))
                     (inl g !!! k))
       (seq 0 (length (inl g))).

(** The marks [m] are closed under the arcs of [g]. *)
Definition marks_closed (g : GRAPH) (m : list bool) : Prop :=
  ∀ k a, (k < length m)%nat → m !!! k = true → a ∈ outl g !!! k →
         m !!! (head g !!! a) = true.

(** The nodes without a mark, counted. *)
Definition unmarked (m : list bool) : nat :=
  length (filter (λ b, b = false) m).

(** [g'] is [g] after the deletion of edges none of which leaves a node
    marked in [m]. *)
Definition dels (m : list bool) (g g' : GRAPH) : Prop :=
  frame_eq g g' ∧ mark g' = mark g
  ∧ (∀ k, inl g' !!! k ⊆ inl g !!! k)
  ∧ (∀ k, grad g' !!! k ≤ grad g !!! k)
  ∧ (∀ u, (u < length m)%nat → m !!! u = true →
          outl g' !!! u = outl g !!! u).

(** A flag that is off before is off after. *)
Definition stays_off (b b' : bool) : Prop := b' = true → b = true.

(** No flag of [redLoopMw] is switched on between [v] and [v']. *)
Definition Mw_stay (v v' : Mw.Vars) : Prop :=
  stays_off (Mw.da v) (Mw.da v') ∧ stays_off (Mw.ans v) (Mw.ans v')
  ∧ stays_off (Mw.nnp v) (Mw.nnp v') ∧ stays_off (Mw.npv v) (Mw.npv v')
  ∧ stays_off (Mw.rerun v) (Mw.rerun v')
  ∧ stays_off (Mw.ansad v) (Mw.ansad v')
  ∧ stays_off (Mw.ansad2 v) (Mw.ansad2 v')
  ∧ stays_off (Mw.chain2 v) (Mw.chain2 v')
  ∧ stays_off (Mw.bred v) (Mw.bred v').

(** No flag of [redLoopPc] is switched on between [v] and [v']. *)
Definition Pc_stay (v v' : Pc.Vars) : Prop :=
  stays_off (Pc.da v) (Pc.da v') ∧ stays_off (Pc.sd v) (Pc.sd v')
  ∧ stays_off (Pc.sdc v) (Pc.sdc v') ∧ stays_off (Pc.sdw v) (Pc.sdw v')
  ∧ stays_off (Pc.sdstar v) (Pc.sdstar v')
  ∧ stays_off (Pc.bd3 v) (Pc.bd3 v') ∧ stays_off (Pc.nvsl v) (Pc.nvsl v')
  ∧ stays_off (Pc.rerun v) (Pc.rerun v')
  ∧ stays_off (Pc.bred v) (Pc.bred v').

(** No flag of [redLoopStp] is switched on between [v] and [v']. *)
Definition Stp_stay (v v' : Stp.Vars) : Prop :=
  stays_off (Stp.le v) (Stp.le v') ∧ stays_off (Stp.sd v) (Stp.sd v')
  ∧ stays_off (Stp.da v) (Stp.da v') ∧ stays_off (Stp.sdc v) (Stp.sdc v')
  ∧ stays_off (Stp.bd3 v) (Stp.bd3 v') ∧ stays_off (Stp.bred v) (Stp.bred v')
  ∧ stays_off (Stp.nvsl v) (Stp.nvsl v')
  ∧ stays_off (Stp.rerun v) (Stp.rerun v').

(** The nodes of positive degree [g->grad[k] > 0], counted. *)
Definition nodes_left (g : GRAPH) : nat :=
  length (filter (λ d, 0 < d) (grad g)).

(** The arcs that are chained in an out-list, counted. *)
Definition arcs_left (g : GRAPH) : nat :=
  sum_list_with length (outl g).

(** No count of the graph grows: neither [g->knots] and [g->edges] nor
    the number of the nodes of positive degree and of the arcs that are
    still chained. *)
Definition shrinks (g g' : GRAPH) : Prop :=
  (knots g' ≤ knots g)%nat ∧ (edges g' ≤ edges g)%nat
  ∧ (nodes_left g' ≤ nodes_left g)%nat ∧ (arcs_left g' ≤ arcs_left g)%nat.

Definition nonneg_prizes (g : GRAPH) : Prop :=
  ∀ k : nat, (0 <= (prize g !!! k : Q))%Q.

(** The prizes of a rooted prize-collecting graph are not negative. *)
Definition rooted_prizes (g : GRAPH) : Prop :=
  stp_type g = STP_RPCSPG → nonneg_prizes g.

Section Notions.
Context {Env : Type} {lib : Library Env}.

(** [m] does not get stuck in the loop [l]. *)
Definition avoids {A} (l : LoopTag) (m : M Env A) : Prop :=
  ∀ w, m w ≠ Stuck l.

(** How often the conversion to a rooted graph has been called. *)
Definition conversions (w : World Env) : nat :=
  length (filter (λ f, f = graph_pc_pcmw2rooted) (log w)).

(** What the data model asks of the library: a call neither adds nodes
    or edges nor lowers the offset, and it keeps the prizes of a rooted
    prize-collecting graph non-negative; deleting a terminal neither adds
    nodes or edges nor makes a prize negative. *)
Definition lawful : Prop :=
  (∀ f args io e g rc io' e' g',
     lib_exec f args io e g = (rc, io', e', g') →
     shrinks g g' ∧ (rooted_prizes g → rooted_prizes g')
     ∧ (io_fixed io <= io_fixed io')%Q)
  ∧ (∀ g k, shrinks g (graph_pc_deleteTerm g k)
            ∧ (nonneg_prizes g → nonneg_prizes (graph_pc_deleteTerm g k))).

(** From [w] to [w'] the conversion has not been called and, with a
    lawful library, the graph has not grown and has kept its prizes. *)
Definition world_ok (w w' : World Env) : Prop :=
  conversions w' = conversions w
  ∧ (lawful → shrinks (graph w) (graph w')
              ∧ (rooted_prizes (graph w) → rooted_prizes (graph w'))).

(** The same without the count of the conversions. *)
Definition graph_ok (w w' : World Env) : Prop :=
  lawful → shrinks (graph w) (graph w')
           ∧ (rooted_prizes (graph w) → rooted_prizes (graph w')).

(** The offset of a lawful library does not go down. *)
Definition fixed_le (q q' : Q) : Prop := lawful → (q <= q')%Q.

(** Between [v] and [v'] no flag is switched on and, with a lawful
    library, the offset has not got smaller. *)
Definition Mw_step (v v' : Mw.Vars) : Prop :=
  Mw_stay v v' ∧ Mw.advanced v' = Mw.advanced v
  ∧ (lawful → (Mw.fixed v <= Mw.fixed v')%Q).

Definition Pc_step (v v' : Pc.Vars) : Prop :=
  Pc_stay v v' ∧ Pc.advancedrun v' = Pc.advancedrun v
  ∧ (lawful → (Pc.fix_ v <= Pc.fix_ v')%Q).

Definition Stp_step (v v' : Stp.Vars) : Prop :=
  Stp_stay v v' ∧ (lawful → (Stp.fix_ v <= Stp.fix_ v')%Q).

End Notions.

(** The state a loop body hands on, whether it goes on or breaks. *)
Definition step_val {S : Type} (r : Step S) : S :=
  match r with
  | Continue s => s
  | Break s => s
  end.

(** ** The other clean-ups of [reduce.c] *)

(** [for( int k = nnodes - 1; k >= 0; k-- ) g->mark[k] = FALSE;] *)
Definition clear_marks_down (g : GRAPH) : GRAPH :=
  foldl (λ g k, set_mark g (<[k := false]> (mark g))) g
        (rev (seq 0 (knots g))).

(** [BMScopyMemoryArray(g->mark, savemark, nnodes)]: the first [nnodes]
    cells of the marks become those of [savemark]. *)
Definition restore_marks (nnodes : nat) (savemark : list bool) (g : GRAPH)
  : GRAPH :=
  set_mark g (take nnodes savemark ++ drop nnodes (mark g)).

(** [level0save]: remove unconnected vertices, keep [g->mark]. *)
Definition level0save (g : GRAPH) : option GRAPH :=
  let nnodes := knots g in
  let savemark := take nnodes (mark g) in
  g1 ← graph_trail_arr (clear_marks_down g) (source g);
  g2 ← level0_nodes g1 (rev (seq 0 nnodes));
  Some (restore_marks nnodes savemark g2).

(** The search for a terminal without a mark, left at the first one
    found. *)
Definition unmarked_terminal (g : GRAPH) (ks : list nat) : bool :=
  existsb (λ k, negb (mark g !!! k) && Is_term (term g !!! k)) ks.

(** [level0infeas]: remove unconnected vertices and check whether the
    problem is infeasible, overwrites [g->mark].  The result is the graph
    and [*infeas]; the return code is [SCIP_OKAY]. *)
Definition level0infeas (g : GRAPH) : option (GRAPH * bool) :=
  let nnodes := knots g in
  g1 ← graph_trail_arr (clear_marks g) (source g);
  let infeas := unmarked_terminal g1 (seq 0 nnodes) in
  g2 ← level0_nodes g1 (seq 0 nnodes);
  Some (g2, infeas).

(** ** Notions used to state further properties *)

(** Node [k] can be reached from node [s] along chained out-arcs. *)
Inductive reach (g : GRAPH) (s : nat) : nat → Prop :=
| reach_refl : reach g s s
| reach_step u a : reach g s u → a ∈ outl g !!! u →
                   reach g s (head g !!! a).

(** The twin of an arc chained into a node is chained into the node the
    arc comes from. *)
Definition twins_chained (g : GRAPH) : Prop :=
  ∀ k e, e ∈ inl g !!! k → flipedge e ∈ inl g !!! (tail g !!! e).

(** Every in-list belongs to a node with a degree, and the degree of a
    node is not below the number of arcs chained into it. *)
Definition grad_covers (g : GRAPH) : Prop :=
  (length (inl g) ≤ length (grad g))%nat
  ∧ ∀ k, Z.of_nat (length (inl g !!! k)) ≤ grad g !!! k.

(** An arc chained out of a node leaves this node and is chained into
    its head. *)
Definition out_in (g : GRAPH) : Prop :=
  ∀ u e, e ∈ outl g !!! u →
         tail g !!! e = u ∧ e ∈ inl g !!! (head g !!! e).

(** What a deletion of edges keeps of the way the lists fit together. *)
Definition lists_linked (g : GRAPH) : Prop :=
  arcs_at_head g ∧ twins_at_tail g ∧ twins_chained g ∧ grad_covers g
  ∧ out_in g.

(** The lists and degrees of the graph fit together. *)
Definition graph_linked (g : GRAPH) : Prop :=
  graph_wf g ∧ twins_chained g ∧ grad_covers g ∧ out_in g.

(** [graph_linked], computed. *)
Definition graph_linked_check (g : GRAPH) : bool :=
  graph_wf_check g
  && forallb (λ k, forallb (λ e, bool_decide
                                   (flipedge e ∈ inl g !!! (tail g !!! e)))
                     (inl g !!! k))
       (seq 0 (length (inl g)))
  && bool_decide (length (inl g) ≤ length (grad g))%nat
  && forallb (λ k, bool_decide (Z.of_nat (length (inl g !!! k))
                                ≤ grad g !!! k))
       (seq 0 (length (grad g)))
  && forallb (λ u, forallb (λ e, bool_decide (tail g !!! e = u)
                                 && bool_decide
                                      (e ∈ inl g !!! (head g !!! e)))
                     (outl g !!! u))
       (seq 0 (length (outl g))).

(** ** The calls of a run *)

Section Calls.
Context {Env : Type} {lib : Library Env}.

(** From [w] to [w'] the library is called with functions in [P] only. *)
Definition calls_in (P : Fn → Prop) (w w' : World Env) : Prop :=
  ∃ l, log w' = l ++ log w ∧ Forall P l.

(** Whatever way [m] ends, it calls functions in [P] only; when it ends
    with [SCIP_OKAY], its result is in [Q]. *)
Definition calls {A} (P : Fn → Prop) (Q : A → Prop) (m : M Env A) : Prop :=
  ∀ w, match m w with
       | Done a w' => Q a ∧ calls_in P w w'
       | Fail _ w' => calls_in P w w'
       | Stuck _ => True
       end.

(** Whatever way [m] ends after the calls [l0]: the calls made so far,
    the latest first, are in [D] with the result when it ends with
    [SCIP_OKAY], and in [F] when it ends with another code. *)
Definition traces {A} (l0 : list Fn) (D : A → list Fn → Prop)
    (F : list Fn → Prop) (m : M Env A) : Prop :=
  ∀ w, match m w with
       | Done a w' => ∃ l, log w' = l ++ log w ∧ D a (l ++ l0)
       | Fail _ w' => ∃ l, log w' = l ++ log w ∧ F (l ++ l0)
       | Stuck _ => True
       end.

End Calls.

(** ** What a run holds *)

(** The functions that set up a structure, and for the functions that
    take one down the function that has set it up: the shortest-path
    arrays, the random number generator, the heap and the presolving data
    of the prize-collecting graph. *)
Definition acquires (f : Fn) : bool :=
  match f with
  | graph_path_init | SCIPcreateRandom | graph_heap_create
  | graph_pc_presolInit => true
  | _ => false
  end.

Definition releases (f : Fn) : option Fn :=
  match f with
  | graph_path_exit => Some graph_path_init
  | SCIPfreeRandom => Some SCIPcreateRandom
  | graph_heap_free => Some graph_heap_create
  | graph_pc_presolExit => Some graph_pc_presolInit
  | _ => None
  end.

(** The structures held after the call of [f], [h] being held before it;
    [None] when [f] sets up what is held already or takes down what is
    not held. *)
Definition hold_step (h : list Fn) (f : Fn) : option (list Fn) :=
  if acquires f then
    if decide (f ∈ h) then None else Some (f :: h)
  else
    match releases f with
    | Some a => if decide (a ∈ h) then Some (filter (λ x, x ≠ a) h) else None
    | None => Some h
    end.

(** The structures held after the calls [l], the latest first, [h] being
    held before them. *)
Definition held (h : list Fn) (l : list Fn) : option (list Fn) :=
  foldr (λ f o, h' ← o; hold_step h' f) (Some h) l.

(** None of the calls [l] takes a structure down. *)
Definition no_release (l : list Fn) : Prop :=
  ∀ f, f ∈ l → releases f = None.

(** After the calls [l] the structures [h] are held, and unless [b] no
    structure has been taken down. *)
Definition holding (h : list Fn) (b : bool) (l : list Fn) : Prop :=
  held [] l = Some h ∧ (b = false → no_release l).

(** A call of [f] neither sets up nor takes down a structure. *)
Definition neutral (f : Fn) : Prop :=
  acquires f = false ∧ releases f = None.

(** The flags of [redLoopMw] that decide on the dual ascent and on the
    bound test are on only if the loop was entered with them on:
    [advanced] for [da] and [advanced], [bred] for [bred]. *)
Definition Mw_keeps (advanced0 bred0 : bool) (v : Mw.Vars) : Prop :=
  stays_off advanced0 (Mw.da v) ∧ stays_off advanced0 (Mw.advanced v)
  ∧ stays_off bred0 (Mw.bred v).

(** The same for [redLoopPc]: [dualascent] for [da] and [advancedrun],
    [bred] for [bred]. *)
Definition Pc_keeps (dualascent0 bred0 : bool) (v : Pc.Vars) : Prop :=
  stays_off dualascent0 (Pc.da v) ∧ stays_off dualascent0 (Pc.advancedrun v)
  ∧ stays_off bred0 (Pc.bred v).

(** The same for [redLoopStp]: [da] is on only if the loop was entered
    with [dualascent] or [fullreduce], [bred] only if it was entered with
    [boundreduce]. *)
Definition Stp_keeps (dualascent0 fullreduce0 bred0 : bool) (v : Stp.Vars)
  : Prop :=
  stays_off (dualascent0 || fullreduce0) (Stp.da v)
  ∧ stays_off bred0 (Stp.bred v).

(** ** The search of the rooted clean-up *)

Section RootedNotions.
Context {Env : Type} {lib : Library Env}.

(** Arc [a] out of [node] is left out by the search of
    [level0RpcRmwInfeas]: it leads from the root to a terminal that is
    not fixed. *)
Definition rpc_skipped (g : GRAPH) (node a : nat) : bool :=
  bool_decide (node = source g) && Is_term (term g !!! (head g !!! a))
  && negb (graph_pc_knotIsFixedTerm g (head g !!! a)).

(** Node [k] can be reached from the root along chained out-arcs none of
    which is left out. *)
Inductive rpc_reach (g : GRAPH) : nat → Prop :=
| rpc_reach_root : rpc_reach g (source g)
| rpc_reach_step u a : rpc_reach g u → a ∈ outl g !!! u →
                       rpc_skipped g u a = false →
                       rpc_reach g (head g !!! a).

(** The graph without the arcs that are left out. *)
Definition rpc_graph (g : GRAPH) : GRAPH :=
  set_lists g
    (alter (filter (λ a, rpc_skipped g (source g) a = false)) (source g)
       (outl g))
    (inl g).

End RootedNotions.

(** * Properties *)

Import Examples.

Example level0_two_islands :
  level0 two_islands =
  Some (mkGRAPH 4 4 1 0 STP_SPG false
    [true; true; false; false] [1; 1; 0; 0] [0; -1; -1; -1]
    [0%Q; 0%Q; 0%Q; 0%Q] [-1; -1; -1; -1]
    [1; 0; 3; 2]%nat [0; 1; 2; 3]%nat [1%Q; 1%Q; 1%Q; 1%Q]
    [[0]; [1]; []; []]%nat [[1]; [0]; []; []]%nat).
Proof. vm_compute. reflexivity. Qed.

Example deleteMultiedges_doubled_edge :
  deleteMultiedges doubled_edge =
  (SCIP_ERROR,
   mkGRAPH 2 4 2 0 STP_SPG false
    [true; true] [1; 1] [0; 0] [0%Q; 0%Q] [-1; -1]
    [1; 0; 1; 0]%nat [0; 1; 0; 1]%nat [1%Q; 1%Q; 5%Q; 5%Q]
    [[2]; [3]]%nat [[3]; [2]]%nat).
Proof. vm_compute. reflexivity. Qed.


(** ** Work limits *)

Example getWorkLimits_pc_values :
  getWorkLimits_pc (with_edges two_islands 9) 1 pc_sdc = 1000
  ∧ work_limit 90000 0 pc_bd3 = 200
  ∧ getWorkLimits_pc (with_edges two_islands 0) 0 pc_sdw2 = 0
  ∧ work_limit 30000000 0 pc_bd3 = 109.
Proof. vm_compute. repeat split; reflexivity. Qed.

Lemma mono_steps_sound (f : Z → Z) (n : nat) (a : Z) :
  mono_steps f n a = true →
  ∀ i j, a ≤ i → i ≤ j → j ≤ a + Z.of_nat n → f i ≤ f j.
Proof.
  revert a. induction n as [|n IH]; intros a H i j Hai Hij Hj.
  - assert (i = j) by lia. subst. lia.
  - cbn [mono_steps] in H. apply andb_prop in H as [H1 H2].
    apply Z.leb_le in H1.
    destruct (Z.eq_dec i a) as [->|Hne].
    + destruct (Z.eq_dec j a) as [->|Hne']; [lia|].
      transitivity (f (a + 1)); [exact H1|].
      apply (IH (a + 1)); [exact H2|lia|lia|lia].
    + apply (IH (a + 1)); [exact H2|lia|lia|lia].
Qed.

(** Below the edge limit only the sign of [round] matters. *)
Lemma work_limit_round (n round : Z) (k : PC_REDTYPE) :
  n < STP_RED_EDGELIMIT →
  work_limit n round k = work_limit n (if 0 <? round then 1 else 0) k.
Proof.
  intros Hlt. unfold work_limit.
  assert (Hb : (STP_RED_EDGELIMIT <=? n) = false) by (apply Z.leb_gt; exact Hlt).
  rewrite Hb. cbn [andb].
  destruct (0 <? round); reflexivity.
Qed.

(** In a later round every test has the limit of [pc_sdc]. *)
Lemma work_limit_later (n : Z) (k : PC_REDTYPE) :
  work_limit n 1 k = work_limit n 1 pc_sdc.
Proof. destruct k; reflexivity. Qed.

Lemma work_limit_sdw1 (n round : Z) :
  work_limit n round pc_sdw1 = work_limit n round pc_sdc.
Proof. reflexivity. Qed.

(** The limits of all edge counts below [STP_RED_EDGELIMIT], one after
    the other, by evaluation of the binary64 arithmetic. *)
Lemma work_limit_steps (r : Z) (k : PC_REDTYPE) :
  (r = 0 ∧ k ≠ pc_sdw1) ∨ (r = 1 ∧ k = pc_sdc) →
  ∃ n : nat, Z.of_nat n = 199999
             ∧ mono_steps (λ n, work_limit n r k) n 0 = true.
Proof.
  intros H. exists (Z.to_nat 199999). split; [reflexivity|].
  destruct H as [[-> Hk]|[-> ->]]; [destruct k|].
  - vm_compute; reflexivity.
  - congruence.
  - vm_compute; reflexivity.
  - vm_compute; reflexivity.
  - vm_compute; reflexivity.
Qed.

Lemma work_limit_mono_steps (r : Z) (k : PC_REDTYPE) (n1 n2 : Z) :
  (r = 0 ∧ k ≠ pc_sdw1) ∨ (r = 1 ∧ k = pc_sdc) →
  0 ≤ n1 → n1 ≤ n2 → n2 < STP_RED_EDGELIMIT →
  work_limit n1 r k ≤ work_limit n2 r k.
Proof.
  intros H H0 H12 Hlim. unfold STP_RED_EDGELIMIT in Hlim.
  destruct (work_limit_steps r k H) as (n & Hn & Hm).
  apply (mono_steps_sound _ _ _ Hm); lia.
Qed.

(** C7, as the code has it: for every test and every round, the work limit does
    not decrease when the edge count grows, as long as the edge counts
    stay below [STP_RED_EDGELIMIT]. *)
Theorem getWorkLimits_pc_mono_below_edgelimit
    (g1 g2 : GRAPH) (round : Z) (k : PC_REDTYPE) :
  (edges g1 ≤ edges g2)%nat →
  Z.of_nat (edges g2) < STP_RED_EDGELIMIT →
  getWorkLimits_pc g1 round k ≤ getWorkLimits_pc g2 round k.
Proof.
  intros Hle Hlim. unfold getWorkLimits_pc.
  assert (Hlim1 : Z.of_nat (edges g1) < STP_RED_EDGELIMIT) by lia.
  rewrite (work_limit_round (Z.of_nat (edges g1))),
          (work_limit_round (Z.of_nat (edges g2))) by assumption.
  destruct (0 <? round).
  - rewrite (work_limit_later _ k), (work_limit_later _ k).
    apply work_limit_mono_steps; [right; split; reflexivity|lia|lia|exact Hlim].
  - destruct k; rewrite ?work_limit_sdw1;
      (apply work_limit_mono_steps;
       [left; split; [reflexivity|discriminate]|lia|lia|exact Hlim]).
Qed.

Lemma getWorkLimits_pc_mono_witness :
  getWorkLimits_pc (with_edges two_islands 10) 0 pc_bd3
  ≤ getWorkLimits_pc (with_edges two_islands 2000) 0 pc_bd3.
Proof.
  apply getWorkLimits_pc_mono_below_edgelimit.
  - cbn. lia.
  - vm_compute. reflexivity.
Defined.

Lemma getWorkLimits_pc_with_edges (g : GRAPH) (n round : Z) (k : PC_REDTYPE) :
  0 ≤ n → getWorkLimits_pc (with_edges g (Z.to_nat n)) round k = work_limit n round k.
Proof.
  intros Hn. unfold getWorkLimits_pc. cbn [edges with_edges].
  rewrite Z2Nat.id by exact Hn. reflexivity.
Qed.

(** C7, counterexample: in round 0 the limit of [pc_sdc] is 596 at
    199999 edges and 200 at 200000 edges. *)
Lemma getWorkLimits_pc_drops_at_edgelimit :
  ¬ (∀ (g : GRAPH) (n1 n2 : nat) (round : Z) (k : PC_REDTYPE),
       0 ≤ round → (n1 ≤ n2)%nat →
       getWorkLimits_pc (with_edges g n1) round k
       ≤ getWorkLimits_pc (with_edges g n2) round k).
Proof.
  intros H.
  assert (Hle : (Z.to_nat 199999 ≤ Z.to_nat 200000)%nat)
    by (apply Z2Nat.inj_le; discriminate).
  pose proof (H two_islands _ _ 0 pc_sdc (Z.le_refl 0) Hle) as H'.
  clear H Hle.
  rewrite !getWorkLimits_pc_with_edges in H' by discriminate.
  assert (H1 : work_limit 199999 0 pc_sdc = 596) by (vm_compute; reflexivity).
  assert (H2 : work_limit 200000 0 pc_sdc = 200) by (vm_compute; reflexivity).
  rewrite H1, H2 in H'. lia.
Qed.

(** ** Parallel edges *)

Section MultiEdges.
Variable g : GRAPH.

Lemma occ_nil h : occ g [] h = 0.
Proof. reflexivity. Qed.

Lemma occ_cons e l h :
  occ g (e :: l) h = (if decide (head g !!! e = h) then 1 else 0) + occ g l h.
Proof.
  unfold occ. rewrite filter_cons. destruct (decide (head g !!! e = h)); cbn [length]; lia.
Qed.

Lemma occ_nonneg l h : 0 ≤ occ g l h.
Proof. unfold occ. lia. Qed.

Lemma occ_pos_elem e l : e ∈ l → 1 ≤ occ g l (head g !!! e).
Proof.
  induction 1 as [x l|x y l Hin IH]; rewrite occ_cons.
  - destruct (decide _); [pose proof (occ_nonneg l (head g !!! x)); lia|congruence].
  - destruct (decide _); lia.
Qed.

Lemma parallel_in_occ l e : parallel_in g l e = (1 <? occ g l (head g !!! e)).
Proof.
  unfold parallel_in, occ.
  destruct (Z.ltb_spec 1 (Z.of_nat (length (filter (λ x, head g !!! x = head g !!! e) l)))).
  - apply bool_decide_eq_true. lia.
  - apply bool_decide_eq_false. lia.
Qed.

Lemma length_count_heads count l : length (count_heads g count l) = length count.
Proof.
  revert count. induction l as [|e l IH]; intros count; [reflexivity|].
  cbn. unfold count_heads in IH. rewrite IH, length_alter. reflexivity.
Qed.

Lemma count_heads_lookup count l h :
  (h < length count)%nat →
  count_heads g count l !!! h = count !!! h + occ g l h.
Proof.
  revert count. induction l as [|e l IH]; intros count Hh.
  - rewrite occ_nil. cbn. lia.
  - cbn. unfold count_heads in IH. rewrite IH by (rewrite length_alter; exact Hh).
    rewrite occ_cons, list_lookup_total_alter.
    destruct (decide (head g !!! e = h)) as [->|Hne].
    + rewrite decide_True by (split; [reflexivity|exact Hh]). lia.
    + rewrite decide_False by (intros [? _]; congruence). lia.
Qed.

Lemma find_ext_in {A} (p q : A → bool) (l : list A) :
  (∀ x, x ∈ l → p x = q x) → List.find p l = List.find q l.
Proof.
  induction l as [|x l IH]; intros H; [reflexivity|].
  cbn. rewrite (H x) by constructor.
  destruct (q x); [reflexivity|]. apply IH. intros y Hy. apply H. by constructor.
Qed.

(** The scan stops at the first arc that has a parallel arc; when there
    is none, every count is taken back. *)
Lemma scan_multi_find l count :
  (∀ e, e ∈ l → (head g !!! e < length count)%nat
               ∧ count !!! (head g !!! e) = occ g l (head g !!! e)) →
  fst (scan_multi g count l) = List.find (parallel_in g l) l
  ∧ length (snd (scan_multi g count l)) = length count
  ∧ (fst (scan_multi g count l) = None →
     ∀ h, (h < length count)%nat →
          snd (scan_multi g count l) !!! h = count !!! h - occ g l h).
Proof.
  revert count. induction l as [|e l IH]; intros count Hc.
  - cbn. split; [reflexivity|]. split; [reflexivity|].
    intros _ h _. rewrite occ_nil. lia.
  - destruct (Hc e) as [Hlen He]; [constructor|].
    cbn [scan_multi List.find]. rewrite parallel_in_occ, <- He.
    destruct (1 <? count !!! (head g !!! e)) eqn:Hpar.
    + cbn. split; [reflexivity|]. split; [reflexivity|]. discriminate.
    + apply Z.ltb_ge in Hpar. rewrite He, occ_cons, decide_True in Hpar by reflexivity.
      assert (Hocc : occ g l (head g !!! e) = 0)
        by (pose proof (occ_nonneg l (head g !!! e)); lia).
      assert (Hne : ∀ x, x ∈ l → head g !!! x ≠ head g !!! e).
      { intros x Hx Heq. pose proof (occ_pos_elem x l Hx) as Hp.
        rewrite Heq in Hp. lia. }
      destruct (IH (alter Z.pred (head g !!! e) count)) as (IH1 & IH2 & IH3).
      { intros x Hx. destruct (Hc x) as [Hxl Hxc]; [by constructor|].
        rewrite length_alter. split; [exact Hxl|].
        rewrite list_lookup_total_alter_ne by (apply not_eq_sym, Hne, Hx).
        rewrite Hxc, occ_cons, decide_False by (apply not_eq_sym, Hne, Hx). lia. }
      split; [|split].
      * rewrite IH1. apply find_ext_in. intros x Hx.
        rewrite !parallel_in_occ, occ_cons.
        rewrite decide_False by (apply not_eq_sym, Hne, Hx). reflexivity.
      * rewrite IH2. apply length_alter.
      * intros Hnone h Hh. rewrite IH3 by (rewrite ?length_alter; assumption).
        rewrite occ_cons, list_lookup_total_alter.
        destruct (decide (head g !!! e = h)) as [->|Hneq].
        -- rewrite decide_True by (split; [reflexivity|exact Hh]). lia.
        -- rewrite decide_False by (intros [? _]; congruence). lia.
Qed.

Lemma deleteMultiedges_nodes_spec ks count :
  heads_in_range g →
  length count = knots g →
  (∀ h, (h < knots g)%nat → count !!! h = 0) →
  deleteMultiedges_nodes g count ks =
  match first_multi g ks with
  | Some e => (SCIP_ERROR, graph_edge_del g e)
  | None => (SCIP_OKAY, g)
  end.
Proof.
  intros Hr. revert count. induction ks as [|k ks IH]; intros count Hlen Hz.
  - reflexivity.
  - cbn [deleteMultiedges_nodes first_multi].
    destruct (scan_multi_find (outl g !!! k) (count_heads g count (outl g !!! k)))
      as (H1 & H2 & H3).
    { intros e He. rewrite length_count_heads, Hlen.
      split; [apply (Hr k e He)|].
      rewrite count_heads_lookup by (rewrite Hlen; apply (Hr k e He)).
      rewrite Hz by apply (Hr k e He). lia. }
    rewrite <- H1.
    destruct (scan_multi g (count_heads g count (outl g !!! k)) (outl g !!! k))
      as [[e|] count2] eqn:Hs; cbn [fst snd] in *.
    + reflexivity.
    + apply IH.
      * rewrite H2, length_count_heads. exact Hlen.
      * intros h Hh. rewrite H3 by (rewrite ?length_count_heads, ?Hlen; auto).
        rewrite count_heads_lookup by (rewrite Hlen; exact Hh).
        rewrite Hz by exact Hh. lia.
Qed.

End MultiEdges.

Lemma scan_multi_set_cost g c count l :
  scan_multi (set_cost g c) count l = scan_multi g count l.
Proof.
  revert count. induction l as [|e l IH]; intros count; [reflexivity|].
  cbn [scan_multi]. change (head (set_cost g c)) with (head g).
  destruct (1 <? count !!! (head g !!! e)); [reflexivity|apply IH].
Qed.

Lemma deleteMultiedges_nodes_set_cost g c count ks :
  deleteMultiedges_nodes (set_cost g c) count ks =
  (fst (deleteMultiedges_nodes g count ks),
   set_cost (snd (deleteMultiedges_nodes g count ks)) c).
Proof.
  revert count. induction ks as [|k ks IH]; intros count; [reflexivity|].
  cbn [deleteMultiedges_nodes]. rewrite scan_multi_set_cost.
  change (outl (set_cost g c)) with (outl g).
  change (count_heads (set_cost g c)) with (count_heads g).
  destruct (scan_multi g (count_heads g count (outl g !!! k)) (outl g !!! k))
    as [[e|] count2]; [reflexivity|apply IH].
Qed.

(** C9, as the code has it: on a graph whose arcs end at nodes of the graph,
    [deleteMultiedges] looks for the first arc that has a parallel arc
    (nodes in increasing order, arcs in the order of the out-list).  When
    there is one it deletes the edge of this arc and returns
    [SCIP_ERROR]; otherwise it returns [SCIP_OKAY] and the graph as it
    was.  The costs play no part: other costs give the same return code
    and the same graph, up to the costs. *)
Theorem deleteMultiedges_first_parallel (g : GRAPH) :
  heads_in_range g →
  deleteMultiedges g =
    match first_multi g (seq 0 (knots g)) with
    | Some e => (SCIP_ERROR, graph_edge_del g e)
    | None => (SCIP_OKAY, g)
    end
  ∧ ∀ c, deleteMultiedges (set_cost g c) =
         (fst (deleteMultiedges g), set_cost (snd (deleteMultiedges g)) c).
Proof.
  intros Hr. split.
  - unfold deleteMultiedges. apply deleteMultiedges_nodes_spec.
    + exact Hr.
    + apply length_replicate.
    + intros h Hh. apply lookup_total_replicate_2. exact Hh.
  - intros c. unfold deleteMultiedges.
    change (knots (set_cost g c)) with (knots g).
    apply deleteMultiedges_nodes_set_cost.
Qed.

Lemma doubled_edge_heads_in_range : heads_in_range doubled_edge.
Proof.
  intros k e He.
  destruct k as [|[|k]]; cbn in He.
  - apply list_elem_of_In in He. cbn in He.
    destruct He as [<-|[<-|[]]]; cbn; lia.
  - apply list_elem_of_In in He. cbn in He.
    destruct He as [<-|[<-|[]]]; cbn; lia.
  - exfalso. revert He. clear. destruct k; cbn; apply not_elem_of_nil.
Qed.

Lemma deleteMultiedges_first_parallel_witness :
  heads_in_range doubled_edge
  ∧ deleteMultiedges doubled_edge = (SCIP_ERROR, graph_edge_del doubled_edge 0).
Proof.
  split; [exact doubled_edge_heads_in_range|].
  exact (proj1 (deleteMultiedges_first_parallel doubled_edge
                  doubled_edge_heads_in_range)).
Defined.

(** C9, counterexample: in [doubled_edge] the arcs 0 (cost 1) and 2
    (cost 5) are parallel; [deleteMultiedges] deletes the cheap one,
    keeps the dear one and returns [SCIP_ERROR]. *)
Lemma deleteMultiedges_deletes_cheaper :
  let g := doubled_edge in
  let g' := snd (deleteMultiedges g) in
  tail g !!! 0%nat = tail g !!! 2%nat
  ∧ head g !!! 0%nat = head g !!! 2%nat
  ∧ (cost g !!! 0%nat < cost g !!! 2%nat)%Q
  ∧ survives g 0 ∧ survives g 2
  ∧ fst (deleteMultiedges g) = SCIP_ERROR
  ∧ ¬ survives g' 0 ∧ survives g' 2.
Proof.
  cbv zeta. rewrite deleteMultiedges_doubled_edge. unfold survives. cbn.
  repeat split; try reflexivity.
  - apply list_elem_of_In. cbn. tauto.
  - apply list_elem_of_In. cbn. tauto.
  - intros H. apply list_elem_of_In in H. cbn in H. intuition discriminate.
  - apply list_elem_of_In. cbn. tauto.
Qed.

(** ** What the clean-up leaves alone *)

Lemma frame_eq_refl g : frame_eq g g.
Proof. repeat split. Qed.

Lemma frame_eq_trans g1 g2 g3 : frame_eq g1 g2 → frame_eq g2 g3 → frame_eq g1 g3.
Proof. unfold frame_eq. intros H1 H2. intuition congruence. Qed.

Lemma set_mark_frame g m : frame_eq g (set_mark g m).
Proof. repeat split. Qed.

Lemma graph_edge_del_frame g e : frame_eq g (graph_edge_del g e).
Proof. repeat split. Qed.

Lemma graph_edge_del_mark g e : mark (graph_edge_del g e) = mark g.
Proof. reflexivity. Qed.

Lemma del_inpedges_frame fuel g k g' :
  del_inpedges fuel g k = Some g' → frame_eq g g' ∧ mark g' = mark g.
Proof.
  revert g. induction fuel as [|fuel IH]; intros g H; cbn in H.
  - destruct (inl g !!! k); [|discriminate]. inversion H; subst.
    split; [apply frame_eq_refl|reflexivity].
  - destruct (inl g !!! k) as [|e l].
    + inversion H; subst. split; [apply frame_eq_refl|reflexivity].
    + destruct (IH _ H) as [Hf Hm]. split.
      * eapply frame_eq_trans; [apply graph_edge_del_frame|exact Hf].
      * rewrite Hm. reflexivity.
Qed.

Lemma level0_node_frame g k g' :
  level0_node g k = Some g' → frame_eq g g' ∧ mark g' = mark g.
Proof.
  unfold level0_node. destruct (negb _ && _).
  - apply del_inpedges_frame.
  - intros H; inversion H; subst. split; [apply frame_eq_refl|reflexivity].
Qed.

Lemma level0_nodes_frame ks g g' :
  level0_nodes g ks = Some g' → frame_eq g g' ∧ mark g' = mark g.
Proof.
  revert g. induction ks as [|k ks IH]; intros g H; cbn in H.
  - inversion H; subst. split; [apply frame_eq_refl|reflexivity].
  - destruct (level0_node g k) as [g1|] eqn:H1; [|discriminate]. cbn in H.
    destruct (level0_node_frame _ _ _ H1) as [Hf1 Hm1].
    destruct (IH _ H) as [Hf Hm]. split.
    + eapply frame_eq_trans; eassumption.
    + congruence.
Qed.

Lemma clear_marks_frame g : frame_eq g (clear_marks g).
Proof.
  unfold clear_marks. generalize (seq 0 (knots g)). intros l.
  assert (H : ∀ g0, frame_eq g g0 →
              frame_eq g (foldl (λ g k, set_mark g (<[k := false]> (mark g))) g0 l)).
  { induction l as [|k l IH]; intros g0 H0; [exact H0|]. cbn. apply IH.
    eapply frame_eq_trans; [exact H0|apply set_mark_frame]. }
  apply H, frame_eq_refl.
Qed.

Lemma graph_trail_arr_frame g i g' :
  graph_trail_arr g i = Some g' → frame_eq g g'.
Proof.
  unfold graph_trail_arr. destruct (trail_loop _ _ _ _); [|discriminate].
  cbn. intros H; inversion H; subst. apply set_mark_frame.
Qed.

Lemma level0_frame g g' : level0 g = Some g' → frame_eq g g'.
Proof.
  unfold level0.
  destruct (graph_trail_arr (clear_marks g) (source g)) as [g1|] eqn:H1;
    [|discriminate]. cbn. intros H.
  eapply frame_eq_trans; [apply clear_marks_frame|].
  eapply frame_eq_trans; [apply (graph_trail_arr_frame _ _ _ H1)|].
  apply (level0_nodes_frame _ _ _ H).
Qed.
(** ** What the deletions do to the counts *)

Lemma shrinks_refl g : shrinks g g.
Proof. repeat split; reflexivity. Qed.

Lemma shrinks_trans g1 g2 g3 : shrinks g1 g2 → shrinks g2 g3 → shrinks g1 g3.
Proof.
  unfold shrinks. intros (? & ? & ? & ?) (? & ? & ? & ?).
  repeat split; etransitivity; eassumption.
Qed.

#[global] Instance shrinks_preorder : PreOrder shrinks.
Proof. split; [exact shrinks_refl|exact shrinks_trans]. Qed.

(** The graphs have the same degrees and out-lists. *)
Lemma same_counts_shrinks g g' :
  knots g' = knots g → edges g' = edges g → grad g' = grad g →
  outl g' = outl g → shrinks g g'.
Proof.
  intros H1 H2 H3 H4. unfold shrinks, nodes_left, arcs_left.
  rewrite H1, H2, H3, H4. repeat split; reflexivity.
Qed.

Lemma alter_pred_positive (l : list Z) k :
  (length (filter (λ d, (0 < d)%Z) (alter Z.pred k l))
   ≤ length (filter (λ d, (0 < d)%Z) l))%nat.
Proof.
  revert k. induction l as [|d l IH]; intros k; [reflexivity|].
  destruct k as [|k]; cbn [alter list_alter].
  - rewrite !filter_cons. destruct (decide (0 < Z.pred d)), (decide (0 < d));
      cbn [length]; first [lia|exfalso; lia].
  - rewrite !filter_cons. specialize (IH k).
    destruct (decide (0 < d)); cbn [length]; [apply le_n_S|]; exact IH.
Qed.

Lemma alter_filter_sum (P : nat → Prop) `{!∀ x, Decision (P x)}
    (l : list (list nat)) k :
  (sum_list_with length (alter (filter P) k l) ≤ sum_list_with length l)%nat.
Proof.
  revert k. induction l as [|x l IH]; intros k; [reflexivity|].
  destruct k as [|k]; cbn [alter list_alter sum_list_with].
  - pose proof (length_filter P x). lia.
  - specialize (IH k). change (list_alter (filter P) k l)
      with (alter (filter P) k l). lia.
Qed.

Lemma removeEdge_shrinks g e : shrinks g (removeEdge g e).
Proof.
  unfold shrinks, removeEdge, nodes_left, arcs_left. cbn.
  repeat split; try reflexivity. apply alter_filter_sum.
Qed.

Lemma graph_edge_del_shrinks g e : shrinks g (graph_edge_del g e).
Proof.
  unfold graph_edge_del. cbv zeta.
  etransitivity; [|apply removeEdge_shrinks].
  etransitivity; [|apply removeEdge_shrinks].
  unfold shrinks, nodes_left, arcs_left. cbn.
  repeat split; try reflexivity.
  etransitivity; apply alter_pred_positive.
Qed.

Lemma del_inpedges_shrinks fuel g k g' :
  del_inpedges fuel g k = Some g' → shrinks g g'.
Proof.
  revert g. induction fuel as [|fuel IH]; intros g H; cbn in H.
  - destruct (inl g !!! k); [|discriminate]. inversion H; subst. reflexivity.
  - destruct (inl g !!! k) as [|e l].
    + inversion H; subst. reflexivity.
    + apply IH in H. etransitivity; [apply graph_edge_del_shrinks|exact H].
Qed.

Lemma level0_nodes_shrinks ks g g' :
  level0_nodes g ks = Some g' → shrinks g g'.
Proof.
  revert g. induction ks as [|k ks IH]; intros g H; cbn in H.
  - inversion H; subst. reflexivity.
  - destruct (level0_node g k) as [g1|] eqn:E; [|discriminate]. cbn in H.
    apply IH in H. etransitivity; [|exact H].
    unfold level0_node in E. destruct (negb _ && _).
    + eapply del_inpedges_shrinks. exact E.
    + inversion E; subst. reflexivity.
Qed.

Lemma clear_marks_shrinks g : shrinks g (clear_marks g).
Proof.
  unfold clear_marks. generalize (seq 0 (knots g)). intros l.
  assert (H : ∀ g0, shrinks g g0 →
              shrinks g (foldl (λ g k, set_mark g (<[k := false]> (mark g))) g0 l)).
  { induction l as [|k l IH]; intros g0 H0; cbn [foldl]; [exact H0|].
    apply IH. etransitivity; [exact H0|].
    apply same_counts_shrinks; reflexivity. }
  apply H. reflexivity.
Qed.

Lemma graph_trail_arr_shrinks g i g' :
  graph_trail_arr g i = Some g' → shrinks g g'.
Proof.
  unfold graph_trail_arr. destruct (trail_loop _ _ _ _); [|discriminate].
  cbn. intros H; inversion H; subst. apply same_counts_shrinks; reflexivity.
Qed.

Lemma level0_shrinks g g' : level0 g = Some g' → shrinks g g'.
Proof.
  unfold level0.
  destruct (graph_trail_arr (clear_marks g) (source g)) as [g1|] eqn:H1;
    [|discriminate]. cbn. intros H.
  apply graph_trail_arr_shrinks in H1. apply level0_nodes_shrinks in H.
  etransitivity; [apply clear_marks_shrinks|].
  etransitivity; eassumption.
Qed.

(** ** The dispatcher *)

Section Dispatch.
Context {Env : Type} {lib : Library Env}.

Lemma bind_unfold {A B} (m : M Env A) (k : A → M Env B) (w : World Env) :
  (m ≫= k) w =
  match m w with
  | Done a w' => k a w'
  | Fail rc w' => Fail rc w'
  | Stuck l => Stuck l
  end.
Proof. reflexivity. Qed.

Lemma bind_done {A B} (m : M Env A) (k : A → M Env B) (w w' : World Env) b :
  (m ≫= k) w = Done b w' → ∃ a w1, m w = Done a w1 ∧ k a w1 = Done b w'.
Proof.
  rewrite bind_unfold. destruct (m w) as [a w1| |]; [|discriminate..].
  intros H. exists a, w1. split; [reflexivity|exact H].
Qed.

Lemma call_log f args io w io' w' :
  call f args io w = Done io' w' → log w' = f :: log w.
Proof.
  unfold call. destruct (lib_exec _ _ _ _ _) as [[[rc o] e] g].
  destruct (decide _); [|discriminate]. intros H; inversion H; subst. reflexivity.
Qed.

Lemma call_void_done f args io w :
  ∃ io' w', call_void f args io w = Done io' w' ∧ log w' = f :: log w.
Proof.
  unfold call_void. destruct (lib_exec _ _ _ _ _) as [[[rc o] e] g].
  eexists _, _. split; reflexivity.
Qed.

Lemma level0M_done (w : World Env) u (w' : World Env) :
  level0M w = Done u w' →
  level0 (graph w) = Some (graph w') ∧ scip w' = scip w ∧ log w' = log w.
Proof.
  unfold level0M. destruct (level0 (graph w)); [|discriminate].
  intros H; inversion H; subst. repeat split.
Qed.

(** C2, as the code has it: at level 0 [reduce] runs none of the packages and
    none of the tests.  What it does is [cleanup_only]: the two
    initialisations, the connectivity clean-up [level0] (once more for the
    variants that have a package) and [graph_path_exit]; the offset is 0
    and these three calls are all that reaches the library. *)
Theorem reduce_level0 (fuel : nat) (minelims : Z) (userec : bool)
    (w : World Env) :
  reduce fuel 0 minelims userec w = cleanup_only w
  ∧ ∀ q w', reduce fuel 0 minelims userec w = Done q w' →
      q = 0%Q
      ∧ log w' = graph_path_exit :: graph_path_init :: graph_init_history :: log w.
Proof.
  assert (Heq : reduce fuel 0 minelims userec w = cleanup_only w).
  { unfold reduce, cleanup_only. rewrite bind_unfold. unfold get_graph at 1.
    cbv beta iota. rewrite !(bind_unfold (call graph_init_history [] io0)).
    destruct (call graph_init_history [] io0 w) as [? w1| |]; [|reflexivity..].
    rewrite !(bind_unfold (call graph_path_init [] io0)).
    destruct (call graph_path_init [] io0 w1) as [? w2| |]; [|reflexivity..].
    rewrite !(bind_unfold level0M).
    destruct (level0M w2) as [? w3| |]; [|reflexivity..].
    rewrite !(bind_unfold get_graph). unfold get_graph.
    cbv beta iota.
    destruct (_ || _); reflexivity. }
  split; [exact Heq|].
  intros q w'. rewrite Heq. unfold cleanup_only.
  intros H.
  apply bind_done in H as (? & w1 & H1 & H).
  apply bind_done in H as (? & w2 & H2 & H).
  apply bind_done in H as (? & w3 & H3 & H).
  apply bind_done in H as (g & w4 & H4 & H).
  unfold get_graph in H4. inversion H4; subst; clear H4.
  apply call_log in H1, H2. apply level0M_done in H3 as (_ & _ & H3).
  destruct (_ || _).
  - apply bind_done in H as (? & w5 & H5 & H).
    destruct (call_void_done graph_path_exit [] io0 w4) as (? & ? & Hc & Hl).
    rewrite Hc in H5. inversion H5; subst; clear H5.
    inversion H; subst. split; [reflexivity|]. congruence.
  - apply bind_done in H as (? & w5 & H5 & H).
    apply level0M_done in H5 as (_ & _ & H5).
    apply bind_done in H as (? & w6 & H6 & H).
    destruct (call_void_done graph_path_exit [] io0 w5) as (? & ? & Hc & Hl).
    rewrite Hc in H6. inversion H6; subst; clear H6.
    inversion H; subst. split; [reflexivity|]. congruence.
Qed.

(** C10: on a graph of type [STP_DCSTP], [STP_RMWCSP], [STP_NWPTSPG] or
    [STP_BRMWCSP], at any level, [reduce] does the two initialisations
    and the connectivity clean-up [level0], calls [graph_path_exit] and
    returns [SCIP_OKAY] with offset 0; the library sees these three calls
    and no test. *)
Theorem reduce_without_package (fuel : nat) (level minelims : Z)
    (userec : bool) (w w1 w2 : World Env) (io1 io2 : IO) (g3 : GRAPH) :
  call graph_init_history [] io0 w = Done io1 w1 →
  call graph_path_init [] io0 w1 = Done io2 w2 →
  level0 (graph w2) = Some g3 →
  stp_type (graph w2) ∈ [STP_DCSTP; STP_RMWCSP; STP_NWPTSPG; STP_BRMWCSP] →
  ∃ io w', call_void graph_path_exit [] io0 (mkWorld (scip w2) g3 (log w2))
             = Done io w'
           ∧ reduce fuel level minelims userec w = Done 0%Q w'
           ∧ log w' = graph_path_exit :: graph_path_init
                        :: graph_init_history :: log w.
Proof.
  intros H1 H2 H3 Ht.
  destruct (call_void_done graph_path_exit [] io0 (mkWorld (scip w2) g3 (log w2)))
    as (io & w' & Hc & Hl).
  exists io, w'. split; [exact Hc|]. split.
  - unfold reduce. rewrite bind_unfold. unfold get_graph at 1. cbv beta iota.
    rewrite bind_unfold, H1, bind_unfold, H2, bind_unfold.
    unfold level0M at 1. rewrite H3.
    assert (Hty : stp_type g3 = stp_type (graph w2))
      by (apply (level0_frame _ _ H3)).
    rewrite !(bind_unfold get_graph). unfold get_graph. cbn [graph]. rewrite Hty.
    assert (Hb : bool_decide (stp_type (graph w2) = STP_DCSTP)
                 || bool_decide (stp_type (graph w2) = STP_RMWCSP)
                 || bool_decide (stp_type (graph w2) = STP_NWPTSPG)
                 || bool_decide (stp_type (graph w2) = STP_BRMWCSP) = true).
    { rewrite !elem_of_cons in Ht.
      destruct Ht as [->|[->|[->|[->|Ht]]]]; [reflexivity..|].
      by apply elem_of_nil in Ht. }
    rewrite Hb, bind_unfold, Hc. reflexivity.
  - rewrite Hl. cbn [log]. apply call_log in H1, H2. congruence.
Qed.

End Dispatch.

Lemma reduce_without_package_witness :
  ∃ w', reduce (lib := quiet) 1 2 0 true
          (mkWorld tt (set_stp_type two_islands STP_BRMWCSP) [])
        = Done 0%Q w'
        ∧ log w' = [graph_path_exit; graph_path_init; graph_init_history].
Proof.
  destruct (reduce_without_package (lib := quiet) 1 2 0 true
              (mkWorld tt (set_stp_type two_islands STP_BRMWCSP) [])
              (mkWorld tt (set_stp_type two_islands STP_BRMWCSP)
                 [graph_init_history])
              (mkWorld tt (set_stp_type two_islands STP_BRMWCSP)
                 [graph_path_init; graph_init_history])
              io0 io0
              (default two_islands
                 (level0 (set_stp_type two_islands STP_BRMWCSP))))
    as (io & w' & _ & Hr & Hl).
  - reflexivity.
  - reflexivity.
  - vm_compute. reflexivity.
  - cbn. rewrite !elem_of_cons. tauto.
  - exists w'. split; [exact Hr|exact Hl].
Defined.

(** C2, counterexample: at level 0, on [two_islands], the call deletes
    the edge 2-3 and overwrites the marks. *)
Lemma reduce_level0_changes_graph :
  ∃ w', reduce (lib := quiet) 1 0 0 false (mkWorld tt two_islands [])
        = Done 0%Q w'
        ∧ survives two_islands 2
        ∧ ¬ survives (graph w') 2
        ∧ grad (graph w') ≠ grad two_islands
        ∧ mark (graph w') ≠ mark two_islands.
Proof.
  eexists. split; [vm_compute; reflexivity|]. unfold survives. cbn.
  repeat split.
  - apply list_elem_of_In. cbn. tauto.
  - apply not_elem_of_nil.
  - discriminate.
  - discriminate.
Qed.

(** ** Clean-up of rooted prize-collecting graphs *)

Section RootedFacts.
Context {Env : Type} {lib : Library Env}.

(** Nodes that are reached, or are no terminals, pass the second loop
    untouched. *)
Lemma rpc_terms_skip (g : GRAPH) (offset : Q) (gmark : list bool)
    (ks1 ks2 : list nat) :
  (∀ k, k ∈ ks1 → gmark !!! k = true ∨ Is_term (term g !!! k) = false) →
  rpc_terms g offset gmark (ks1 ++ ks2) = rpc_terms g offset gmark ks2.
Proof.
  induction ks1 as [|k ks1 IH]; intros H; [reflexivity|].
  cbn [app rpc_terms].
  destruct (H k) as [Hk|Hk]; [constructor|rewrite Hk|rewrite Hk, andb_false_r];
    cbn [negb andb]; apply IH; intros k' Hk'; apply H; by constructor.
Qed.

(** C4, as the code has it: let the first node in index order that the search
    from the root does not reach and that is a terminal be a fixed
    terminal.  Then [level0RpcRmwInfeas] returns [SCIP_OKAY] with
    [*infeas = TRUE] and leaves the graph and the offset as they were,
    and [level0RpcRmw] turns this outcome into the return code
    [SCIP_ERROR]. *)
Theorem level0RpcRmwInfeas_fixed_terminal (g : GRAPH) (offset : Q)
    (gmark : list bool) (k0 : nat) :
  rpc_dfs (knots g) g (<[source g := true]> (replicate (knots g) false))
    [source g] = Some gmark →
  (k0 < knots g)%nat →
  gmark !!! k0 = false →
  Is_term (term g !!! k0) = true →
  graph_pc_knotIsFixedTerm g k0 = true →
  (∀ k, (k < k0)%nat → gmark !!! k = true ∨ Is_term (term g !!! k) = false) →
  level0RpcRmwInfeas g offset = Some (g, offset, true)
  ∧ level0RpcRmw g offset = Some (SCIP_ERROR, g, offset).
Proof.
  intros Hdfs Hk0 Hm Ht Hf Hbefore.
  assert (Hinf : level0RpcRmwInfeas g offset = Some (g, offset, true)).
  { unfold level0RpcRmwInfeas. rewrite Hdfs. cbn [mbind option_bind].
    replace (seq 0 (knots g))
      with (seq 0 k0 ++ k0 :: seq (S k0) (knots g - S k0)).
    - rewrite rpc_terms_skip.
      + cbn [rpc_terms]. rewrite Hm, Ht, Hf. reflexivity.
      + intros k Hk. apply Hbefore. apply elem_of_seq in Hk. lia.
    - change (k0 :: seq (S k0) (knots g - S k0)) with (seq k0 (S (knots g - S k0))).
      rewrite <- seq_app. f_equal. lia. }
  split; [exact Hinf|].
  unfold level0RpcRmw. rewrite Hinf. reflexivity.
Qed.

End RootedFacts.

Lemma level0RpcRmwInfeas_fixed_terminal_witness :
  level0RpcRmwInfeas (lib := quiet) lonely_terminal 5
  = Some (lonely_terminal, 5%Q, true)
  ∧ level0RpcRmw (lib := quiet) lonely_terminal 5
    = Some (SCIP_ERROR, lonely_terminal, 5%Q).
Proof.
  apply (level0RpcRmwInfeas_fixed_terminal (lib := quiet) lonely_terminal 5
           [true; true; false] 2).
  - reflexivity.
  - cbn. lia.
  - reflexivity.
  - reflexivity.
  - reflexivity.
  - intros k Hk. destruct k as [|[|k]]; [left; reflexivity..|lia].
Defined.

(** C4, counterexample: in [cut_off_terminal] the fixed terminal 2 is
    not reached.  The clean-up ends with the return code [SCIP_ERROR],
    and before it sees node 2 it has deleted the pseudo-terminal 1 and
    added the prize 7 of its twin to the offset. *)
Lemma level0RpcRmw_error_and_changes :
  ∃ g', level0RpcRmwInfeas (lib := quiet) cut_off_terminal 0
        = Some (g', 7%Q, true)
        ∧ level0RpcRmw (lib := quiet) cut_off_terminal 0
          = Some (SCIP_ERROR, g', 7%Q)
        ∧ knotIsFixedTerm cut_off_terminal 2 = true
        ∧ survives cut_off_terminal 0 ∧ ¬ survives g' 0.
Proof.
  eexists. split; [vm_compute; reflexivity|].
  split; [vm_compute; reflexivity|].
  split; [reflexivity|]. unfold survives. cbn. split.
  - apply list_elem_of_In. cbn. tauto.
  - apply not_elem_of_nil.
Qed.

(** ** Facts about the monad *)

Lemma stays_off_refl b : stays_off b b.
Proof. intros H. exact H. Qed.

Lemma stays_off_trans b1 b2 b3 :
  stays_off b1 b2 → stays_off b2 b3 → stays_off b1 b3.
Proof. unfold stays_off. auto. Qed.

Lemma stays_off_false b : stays_off b false.
Proof. intros H. discriminate H. Qed.

Lemma frame_eq_nonneg_prizes g g' :
  frame_eq g g' → nonneg_prizes g → nonneg_prizes g'.
Proof.
  intros (_ & _ & _ & _ & _ & _ & _ & Hp & _) H k. rewrite Hp. apply H.
Qed.

Lemma frame_eq_rooted_prizes g g' :
  frame_eq g g' → rooted_prizes g → rooted_prizes g'.
Proof.
  intros Hf H Ht. apply (frame_eq_nonneg_prizes _ _ Hf). apply H.
  destruct Hf as (_ & _ & _ & _ & Hty & _). congruence.
Qed.

Section MonadFacts.
Context {Env : Type} {lib : Library Env}.

#[global] Instance world_ok_preorder : PreOrder (world_ok (Env := Env)).
Proof.
  split.
  - intros w. split; [reflexivity|]. intros _. split; [apply shrinks_refl|auto].
  - intros w1 w2 w3 [Hc1 H1] [Hc2 H2]. split; [congruence|].
    intros Hl. destruct (H1 Hl) as [Hs1 Hp1]. destruct (H2 Hl) as [Hs2 Hp2].
    split; [eapply shrinks_trans; eassumption|auto].
Qed.

Lemma call_spec f args io (w : World Env) io' w' :
  call f args io w = Done io' w' →
  f ≠ graph_pc_pcmw2rooted →
  world_ok w w' ∧ (lawful → (io_fixed io <= io_fixed io')%Q).
Proof.
  unfold call. destruct (lib_exec f args io (scip w) (graph w)) as [[[rc o] e] g] eqn:E.
  destruct (decide _); [|discriminate]. intros H Hf; inversion H; subst; clear H.
  split; [split|].
  - unfold conversions. cbn [log]. rewrite filter_cons_False by exact Hf. reflexivity.
  - intros [Hl _]. destruct (Hl _ _ _ _ _ _ _ _ _ E) as (? & ? & _). split; assumption.
  - intros [Hl _]. apply (Hl _ _ _ _ _ _ _ _ _ E).
Qed.

Lemma call_void_spec f args io (w : World Env) io' w' :
  call_void f args io w = Done io' w' →
  f ≠ graph_pc_pcmw2rooted →
  world_ok w w' ∧ (lawful → (io_fixed io <= io_fixed io')%Q).
Proof.
  unfold call_void. destruct (lib_exec f args io (scip w) (graph w)) as [[[rc o] e] g] eqn:E.
  intros H Hf; inversion H; subst; clear H.
  split; [split|].
  - unfold conversions. cbn [log]. rewrite filter_cons_False by exact Hf. reflexivity.
  - intros [Hl _]. destruct (Hl _ _ _ _ _ _ _ _ _ E) as (? & ? & _). split; assumption.
  - intros [Hl _]. apply (Hl _ _ _ _ _ _ _ _ _ E).
Qed.

Lemma call_conversion_spec args io (w : World Env) io' w' :
  call graph_pc_pcmw2rooted args io w = Done io' w' →
  conversions w' = S (conversions w)
  ∧ (lawful → shrinks (graph w) (graph w')
              ∧ (rooted_prizes (graph w) → rooted_prizes (graph w'))).
Proof.
  unfold call.
  destruct (lib_exec _ args io (scip w) (graph w)) as [[[rc o] e] g] eqn:E.
  destruct (decide _); [|discriminate]. intros H; inversion H; subst; clear H.
  split.
  - unfold conversions. cbn [log]. rewrite filter_cons_True by reflexivity.
    reflexivity.
  - intros [Hl _]. destruct (Hl _ _ _ _ _ _ _ _ _ E) as (? & ? & _). split; assumption.
Qed.

Lemma same_graph_ok (w w' : World Env) :
  graph w' = graph w → log w' = log w → world_ok w w'.
Proof.
  intros Hg Hl. split.
  - unfold conversions. rewrite Hl. reflexivity.
  - intros _. rewrite Hg. split; [apply shrinks_refl|auto].
Qed.

Lemma isStopped_spec (w : World Env) b w' :
  isStopped w = Done b w' → world_ok w w'.
Proof. intros H; inversion H; subst. apply same_graph_ok; reflexivity. Qed.

Lemma timeover_spec t (w : World Env) b w' :
  timeover t w = Done b w' → world_ok w w'.
Proof. intros H; inversion H; subst. apply same_graph_ok; reflexivity. Qed.

Lemma getTimelimit_spec (w : World Env) t w' :
  getTimelimit w = Done t w' → w' = w.
Proof.
  unfold getTimelimit. destruct (decide _); [|discriminate].
  intros H; inversion H; subst. reflexivity.
Qed.

Lemma get_graph_spec (w : World Env) g w' :
  get_graph w = Done g w' → w' = w ∧ g = graph w.
Proof. intros H; inversion H; subst. split; reflexivity. Qed.

Lemma get_scip_spec (w : World Env) e w' :
  get_scip w = Done e w' → w' = w ∧ e = scip w.
Proof. intros H; inversion H; subst. split; reflexivity. Qed.

Lemma mret_spec {A} (a b : A) (w w' : World Env) :
  (mret a : M Env A) w = Done b w' → b = a ∧ w' = w.
Proof. intros H; inversion H; subst. split; reflexivity. Qed.

Lemma level0M_spec (w : World Env) u w' :
  level0M w = Done u w' → world_ok w w'.
Proof.
  intros H. apply level0M_done in H as (H0 & _ & Hl).
  split.
  - unfold conversions. rewrite Hl. reflexivity.
  - intros _. split; [apply level0_shrinks, H0|].
    apply frame_eq_rooted_prizes, level0_frame, H0.
Qed.

End MonadFacts.

(** Takes a hypothesis [m w = Done a w'] apart, statement by statement. *)
Ltac minv H :=
  cbv beta in H;
  lazymatch type of H with
  | @mbind _ _ _ _ _ _ _ = Done _ _ =>
      let H1 := fresh "Hs" in
      apply bind_done in H as (? & ? & H1 & H); minv H1; minv H
  | @mret _ _ _ _ _ = Done _ _ =>
      apply mret_spec in H as [? ?]; subst
  | get_graph _ = Done _ _ =>
      apply get_graph_spec in H as [? ?]; subst
  | get_scip _ = Done _ _ =>
      apply get_scip_spec in H as [? ?]; subst
  | getTimelimit _ = Done _ _ =>
      apply getTimelimit_spec in H; subst
  | (if ?c then _ else _) _ = Done _ _ => destruct c eqn:?; minv H
  | (let '(_, _) := ?x in _) _ = Done _ _ => destruct x; minv H
  | (match ?x with _ => _ end) _ = Done _ _ => destruct x eqn:?; minv H
  | _ => idtac
  end.

(** ** Tactics for the blocks of a round *)

(** Uses what is known of the library calls met by [minv]. *)
Ltac use_calls :=
  repeat match goal with
    | H : call ?f _ _ _ = Done _ _ |- _ =>
        apply call_spec in H as [? ?]; [|discriminate]
    | H : call_void ?f _ _ _ = Done _ _ |- _ =>
        apply call_void_spec in H as [? ?]; [|discriminate]
    | H : isStopped _ = Done _ _ |- _ => apply isStopped_spec in H
    | H : timeover _ _ = Done _ _ |- _ => apply timeover_spec in H
    | H : level0M _ = Done _ _ |- _ => apply level0M_spec in H
    end.

(** Closes [world_ok w w'] along the worlds met on the way. *)
Ltac chain_worlds :=
  solve [ reflexivity
        | repeat (etransitivity; [eassumption|]); reflexivity ].

Ltac solve_stays :=
  repeat match goal with
    | |- stays_off _ _ => let Hx := fresh in intros Hx; cbn in Hx |- *;
                          first [exact Hx | discriminate Hx | reflexivity]
    | |- _ ∧ _ => split
    end.


Section LoopRules.
Context {Env : Type} {lib : Library Env}.

(** A [do] loop keeps what its body and its test keep. *)
Lemma do_while_inv {S} (R : S → S → Prop) `{!PreOrder R} l fuel
    (body : S → M Env (Step S)) cond s (w : World Env) r w' :
  (∀ s w r w', body s w = Done r w' → world_ok w w' ∧ R s (step_val r)) →
  (∀ s w b w', cond s w = Done b w' → world_ok w w') →
  do_while l fuel body cond s w = Done r w' →
  world_ok w w' ∧ R s r.
Proof.
  intros Hb Hc. revert s w. induction fuel as [|fuel IH]; intros s w H.
  - discriminate H.
  - cbn [do_while] in H. apply bind_done in H as (r1 & w1 & H1 & H).
    apply Hb in H1 as [Hw1 Hr1]. destruct r1 as [s1|s1]; cbn [step_val] in Hr1.
    + apply bind_done in H as (b & w2 & H2 & H). apply Hc in H2.
      destruct b.
      * apply IH in H as [Hw Hr]. split; [|etransitivity; eassumption].
        etransitivity; [eassumption|]. etransitivity; eassumption.
      * apply mret_spec in H as [-> ->]. split; [|assumption].
        etransitivity; eassumption.
    + apply mret_spec in H as [-> ->]. split; assumption.
Qed.

(** A [for] loop keeps what its body and its test keep. *)
Lemma for_loop_inv {S} (R : S → S → Prop) `{!PreOrder R} l fuel
    (cond : Z → S → M Env bool) body i s (w : World Env) r w' :
  (∀ i s w r w', body i s w = Done r w' →
                 world_ok w w' ∧ R s (snd (step_val r))) →
  (∀ i s w b w', cond i s w = Done b w' → world_ok w w') →
  for_loop l fuel cond body i s w = Done r w' →
  world_ok w w' ∧ R s (snd r).
Proof.
  intros Hb Hc. revert i s w. induction fuel as [|fuel IH]; intros i s w H.
  - cbn [for_loop] in H. apply bind_done in H as (b & w1 & H1 & H).
    apply Hc in H1. destruct b; [discriminate H|].
    apply mret_spec in H as [-> ->]. split; [assumption|reflexivity].
  - cbn [for_loop] in H. apply bind_done in H as (b & w1 & H1 & H).
    apply Hc in H1. destruct b.
    + apply bind_done in H as (r1 & w2 & H2 & H).
      apply Hb in H2 as [Hw2 Hr2]. destruct r1 as [[i1 s1]|r1]; cbn in Hr2.
      * apply IH in H as [Hw Hr]. split; [|etransitivity; eassumption].
        etransitivity; [eassumption|]. etransitivity; eassumption.
      * apply mret_spec in H as [-> ->]. split; [|assumption].
        etransitivity; eassumption.
    + apply mret_spec in H as [-> ->]. split; [assumption|reflexivity].
Qed.

Lemma keep_counter_inv {S} (R : S → S → Prop)
    (body : Z → S → M Env (Step S)) i s (w : World Env) r w' :
  (∀ r w', body i s w = Done r w' → world_ok w w' ∧ R s (step_val r)) →
  keep_counter body i s w = Done r w' →
  world_ok w w' ∧ R s (snd (step_val r)).
Proof.
  intros Hb H. unfold keep_counter in H.
  apply bind_done in H as (r1 & w1 & H1 & H). apply Hb in H1.
  apply mret_spec in H as [-> ->]. destruct r1; exact H1.
Qed.

#[global] Instance fixed_le_preorder : PreOrder fixed_le.
Proof.
  split.
  - intros q _. apply Qle_refl.
  - intros q1 q2 q3 H1 H2 Hl. eapply Qle_trans; [apply H1|apply H2]; exact Hl.
Qed.

Lemma nvreduce_sl_pass_spec fixed (w : World Env) r w' :
  nvreduce_sl_pass fixed w = Done r w' →
  world_ok w w' ∧ fixed_le fixed (fst r).
Proof.
  unfold nvreduce_sl_pass, fixed_le. intros H. minv H; use_calls; cbn [fst snd].
  all: split; [chain_worlds|].
  all: intros Hl; repeat match goal with
                    | H : lawful → _ |- _ => specialize (H Hl)
                    end; cbn in *; lra.
Qed.

Lemma nvreduce_sl_spec fuel fixed minelims (w : World Env) r w' :
  nvreduce_sl fuel fixed minelims w = Done r w' →
  world_ok w w' ∧ fixed_le fixed (fst r).
Proof.
  unfold nvreduce_sl. intros H. apply bind_done in H as (s & w1 & H1 & H).
  apply mret_spec in H as [-> ->]. cbn [fst].
  assert (HP : PreOrder (λ s s' : Q * Z * Z, fixed_le (fst (fst s)) (fst (fst s')))).
  { split; [intros ?; reflexivity|intros ? ? ? ? ?; etransitivity; eassumption]. }
  apply (@do_while_inv _ _ HP) in H1.
  - exact H1.
  - clear. intros s w r w' H. minv H. apply nvreduce_sl_pass_spec in Hs.
    cbn [step_val fst]. exact Hs.
  - clear. intros s w b w' H. apply mret_spec in H as [_ ->]. reflexivity.
Qed.

End LoopRules.

(** ** The MWCS loop *)

Section MwFacts.
Context {Env : Type} {lib : Library Env}.
Variables (redbound : Z) (tryrmw : bool) (timelimit prizesum : Q).

#[local] Instance Mw_step_preorder : PreOrder (Mw_step (lib := lib)).
Proof.
  split.
  - intros v. split; [|split; [reflexivity|intros _; apply Qle_refl]].
    unfold Mw_stay. repeat split; apply stays_off_refl.
  - intros v1 v2 v3 (S1 & A1 & F1) (S2 & A2 & F2).
    split; [|split; [congruence|intros Hl; eapply Qle_trans; eauto]].
    unfold Mw_stay in *.
    destruct S1 as (?&?&?&?&?&?&?&?&?), S2 as (?&?&?&?&?&?&?&?&?).
    repeat split; eapply stays_off_trans; eassumption.
Qed.

(** Closes a goal [Mw_step v v'] where [v'] is [v] with fields set. *)
Ltac solve_step :=
  split; [unfold Mw_stay; solve_stays
         |split; [reflexivity
                 |let Hl := fresh in intros Hl;
                  repeat match goal with
                    | H : lawful → _ |- _ => specialize (H Hl)
                    end;
                  cbn in *; lra]].

Ltac block :=
  use_calls; cbn [fst snd];
  repeat match goal with
    | |- context [if ?c then _ else _] => destruct c
    end;
  (split; [chain_worlds|solve_step]).

Lemma simple_mw_spec v (w : World Env) v' w' :
  Mw.simple_mw v w = Done v' w' → world_ok w w' ∧ Mw_step v v'.
Proof. unfold Mw.simple_mw. intros H. minv H. block. Qed.

Lemma Mw_round_ans_spec v (w : World Env) r w' :
  Mw.round_ans redbound v w = Done r w' → world_ok w w' ∧ Mw_step v (fst r).
Proof. unfold Mw.round_ans. intros H. minv H; block. Qed.

Lemma Mw_round_ansad_spec v (w : World Env) r w' :
  Mw.round_ansad redbound v w = Done r w' → world_ok w w' ∧ Mw_step v (fst r).
Proof. unfold Mw.round_ansad. intros H. minv H; block. Qed.

Lemma Mw_round_simple_spec v (w : World Env) v' w' :
  Mw.round_simple v w = Done v' w' → world_ok w w' ∧ Mw_step v v'.
Proof.
  unfold Mw.round_simple. intros H. minv H; [apply (simple_mw_spec _ _ _ _ H)|block].
Qed.

Lemma Mw_round_da_spec rounds v (w : World Env) r w' :
  Mw.round_da redbound prizesum rounds v w = Done r w' →
  world_ok w w' ∧ Mw_step v (fst r).
Proof.
  unfold Mw.round_da. intros H. minv H; try block.
  apply simple_mw_spec in Hs0 as [? ?]. use_calls. cbn [fst].
  split; [chain_worlds|assumption].
Qed.

Lemma Mw_round_nnp_spec v (w : World Env) r w' :
  Mw.round_nnp redbound v w = Done r w' → world_ok w w' ∧ Mw_step v (fst r).
Proof. unfold Mw.round_nnp. intros H. minv H; block. Qed.

Lemma Mw_round_chain2_nnp_spec v (w : World Env) r w' :
  Mw.round_chain2_nnp redbound timelimit v w = Done r w' →
  world_ok w w' ∧ Mw_step v (fst (fst r)).
Proof. unfold Mw.round_chain2_nnp. intros H. minv H; block. Qed.

Lemma Mw_round_npv_spec v (w : World Env) r w' :
  Mw.round_npv redbound v w = Done r w' → world_ok w w' ∧ Mw_step v (fst r).
Proof. unfold Mw.round_npv. intros H. minv H; block. Qed.

Lemma Mw_round_chain2_spec n v (w : World Env) r w' :
  Mw.round_chain2 redbound n v w = Done r w' → world_ok w w' ∧ Mw_step v (fst r).
Proof. unfold Mw.round_chain2. intros H. minv H; block. Qed.

Lemma Mw_round_ansad2_spec v (w : World Env) r w' :
  Mw.round_ansad2 redbound v w = Done r w' → world_ok w w' ∧ Mw_step v (fst r).
Proof. unfold Mw.round_ansad2. intros H. minv H; block. Qed.

Lemma Mw_round_bred_spec v (w : World Env) r w' :
  Mw.round_bred redbound v w = Done r w' → world_ok w w' ∧ Mw_step v (fst r).
Proof. unfold Mw.round_bred. intros H. minv H; block. Qed.

Ltac use_blocks :=
  repeat match goal with
    | H : Mw.round_ans _ _ _ = Done _ _ |- _ =>
        apply Mw_round_ans_spec in H as [? ?]
    | H : Mw.round_ansad _ _ _ = Done _ _ |- _ =>
        apply Mw_round_ansad_spec in H as [? ?]
    | H : Mw.round_simple _ _ = Done _ _ |- _ =>
        apply Mw_round_simple_spec in H as [? ?]
    | H : Mw.round_da _ _ _ _ _ = Done _ _ |- _ =>
        apply Mw_round_da_spec in H as [? ?]
    | H : Mw.round_nnp _ _ _ = Done _ _ |- _ =>
        apply Mw_round_nnp_spec in H as [? ?]
    | H : Mw.round_chain2_nnp _ _ _ _ = Done _ _ |- _ =>
        apply Mw_round_chain2_nnp_spec in H as [? ?]
    | H : Mw.round_npv _ _ _ = Done _ _ |- _ =>
        apply Mw_round_npv_spec in H as [? ?]
    | H : Mw.round_chain2 _ _ _ _ = Done _ _ |- _ =>
        apply Mw_round_chain2_spec in H as [? ?]
    | H : Mw.round_ansad2 _ _ _ = Done _ _ |- _ =>
        apply Mw_round_ansad2_spec in H as [? ?]
    | H : Mw.round_bred _ _ _ = Done _ _ |- _ =>
        apply Mw_round_bred_spec in H as [? ?]
    | H : Mw.simple_mw _ _ = Done _ _ |- _ =>
        apply simple_mw_spec in H as [? ?]
    end.

(** The tests of a round switch no flag on. *)
Lemma Mw_round_tests_spec rounds v (w : World Env) r w' :
  Mw.round_tests redbound timelimit prizesum rounds v w = Done r w' →
  world_ok w w' ∧ Mw_step v (fst (step_val r)).
Proof.
  unfold Mw.round_tests. intros H. minv H.
  all: use_blocks; use_calls; cbn [fst snd step_val] in *.
  all: split; [chain_worlds|].
  all: repeat match goal with
         | |- context [if ?c then _ else _] => destruct c
         end.
  all: transitivity (v <| Mw.degelims := 0 |>); [solve_step|].
  all: repeat (etransitivity; [eassumption|]).
  all: first [reflexivity|solve_step].
Qed.

Lemma Mw_round_restart_spec daelims v (w : World Env) v' w' :
  Mw.round_restart redbound tryrmw prizesum daelims v w = Done v' w' →
  world_ok w w' ∧ fixed_le (Mw.fixed v) (Mw.fixed v').
Proof.
  unfold Mw.round_restart. intros H. minv H.
  all: repeat match goal with
         | H : Mw.simple_mw _ _ = Done _ _ |- _ =>
             apply simple_mw_spec in H as [? (_ & _ & ?)]
         end.
  all: use_calls; cbn [fst snd] in *.
  all: split; [chain_worlds|].
  all: repeat match goal with
         | |- context [if ?c then _ else _] => destruct c
         end.
  all: let Hl := fresh in
       intros Hl;
       repeat match goal with
         | H : lawful → _ |- _ => specialize (H Hl)
         end;
       cbn in *; lra.
Qed.

Lemma Mw_round_spec rounds v (w : World Env) r w' :
  Mw.round redbound tryrmw timelimit prizesum rounds v w = Done r w' →
  world_ok w w' ∧ fixed_le (Mw.fixed v) (Mw.fixed (step_val r)).
Proof.
  unfold Mw.round. intros H. apply bind_done in H as (r1 & w1 & H1 & H).
  apply Mw_round_tests_spec in H1 as [Hw1 (_ & _ & Hf1)].
  destruct r1 as [[v1 d]|[v1 d]]; cbn [fst step_val] in Hf1.
  - apply bind_done in H as (v2 & w2 & H2 & H).
    apply Mw_round_restart_spec in H2 as [Hw2 Hf2].
    apply mret_spec in H as [-> ->]. cbn [step_val].
    split; [chain_worlds|]. intros Hl. eapply Qle_trans; [apply Hf1|apply Hf2]; exact Hl.
  - apply mret_spec in H as [-> ->]. cbn [step_val]. split; assumption.
Qed.

Lemma Mw_round_cond_spec rounds v (w : World Env) b w' :
  Mw.round_cond rounds v w = Done b w' → world_ok w w'.
Proof. unfold Mw.round_cond. intros H. minv H; use_calls; chain_worlds. Qed.

Lemma redLoopMw_rounds_spec rfuel rounds v (w : World Env) r w' :
  Mw.redLoopMw_rounds redbound tryrmw timelimit prizesum rfuel rounds v w
    = Done r w' →
  world_ok w w' ∧ fixed_le (Mw.fixed v) (Mw.fixed (snd r)).
Proof.
  unfold Mw.redLoopMw_rounds. intros H.
  assert (HP : PreOrder (λ v v' : Mw.Vars, fixed_le (Mw.fixed v) (Mw.fixed v'))).
  { split; [intros ?; reflexivity|intros ? ? ? ? ?; etransitivity; eassumption]. }
  apply (@for_loop_inv _ _ _ _ HP) in H.
  - exact H.
  - clear. intros i s w r w' H.
    apply (keep_counter_inv (λ v v' : Mw.Vars, fixed_le (Mw.fixed v) (Mw.fixed v')))
      in H; [exact H|].
    intros r1 w1 H1. apply Mw_round_spec in H1. exact H1.
  - clear. intros i s w b w' H. apply Mw_round_cond_spec in H. exact H.
Qed.

End MwFacts.

(** ** Loops that do not get stuck *)

Section Avoids.
Context {Env : Type} {lib : Library Env}.

Lemma avoids_ret {A} l (a : A) : avoids l (mret a : M Env A).
Proof. intros w. discriminate. Qed.

Lemma avoids_bind {A B} l (m : M Env A) (k : A → M Env B) :
  avoids l m → (∀ a, avoids l (k a)) → avoids l (m ≫= k).
Proof.
  intros Hm Hk w. rewrite bind_unfold. specialize (Hm w).
  destruct (m w) as [a w'|rc w'|l']; [apply Hk|discriminate|].
  intros E. apply Hm. inversion E. reflexivity.
Qed.

Lemma avoids_call l f args io : avoids l (call (Env := Env) f args io).
Proof.
  intros w. unfold call. destruct (lib_exec _ _ _ _ _) as [[[rc o] e] g].
  destruct (decide _); discriminate.
Qed.

Lemma avoids_call_void l f args io :
  avoids l (call_void (Env := Env) f args io).
Proof.
  intros w. unfold call_void. destruct (lib_exec _ _ _ _ _) as [[[rc o] e] g].
  discriminate.
Qed.

Lemma avoids_get_graph l : avoids l (get_graph (Env := Env)).
Proof. intros w. discriminate. Qed.

Lemma avoids_get_scip l : avoids l (get_scip (Env := Env)).
Proof. intros w. discriminate. Qed.

Lemma avoids_isStopped l : avoids l (isStopped (Env := Env)).
Proof. intros w. discriminate. Qed.

Lemma avoids_timeover l t : avoids l (timeover (Env := Env) t).
Proof. intros w. discriminate. Qed.

Lemma avoids_getTimelimit l : avoids l (getTimelimit (Env := Env)).
Proof. intros w. unfold getTimelimit. destruct (decide _); discriminate. Qed.

Lemma avoids_level0M l : l ≠ loop_graph → avoids l (level0M (Env := Env)).
Proof.
  intros Hl w. unfold level0M. destruct (level0 _); [discriminate|congruence].
Qed.

Lemma avoids_level0RpcRmwM l fix_ : l ≠ loop_graph → avoids l (level0RpcRmwM (Env := Env) fix_).
Proof.
  intros Hl w. unfold level0RpcRmwM.
  destruct (level0RpcRmw _ _) as [[[rc g] q]|]; [|congruence].
  destruct (decide _); discriminate.
Qed.

Lemma avoids_do_while {S} l l' fuel (body : S → M Env (Step S)) cond s :
  l ≠ l' → (∀ s, avoids l (body s)) → (∀ s, avoids l (cond s)) →
  avoids l (do_while l' fuel body cond s).
Proof.
  intros Hl Hb Hc. revert s. induction fuel as [|fuel IH]; intros s.
  - intros w. cbn. unfold stuck. congruence.
  - cbn [do_while]. apply avoids_bind; [apply Hb|]. intros [s'|s'].
    + apply avoids_bind; [apply Hc|]. intros [|]; [apply IH|apply avoids_ret].
    + apply avoids_ret.
Qed.

Lemma avoids_for_loop {S} l l' fuel (cond : Z → S → M Env bool) body i s :
  l ≠ l' → (∀ i s, avoids l (body i s)) → (∀ i s, avoids l (cond i s)) →
  avoids l (for_loop l' fuel cond body i s).
Proof.
  intros Hl Hb Hc. revert i s. induction fuel as [|fuel IH]; intros i s.
  - cbn [for_loop]. apply avoids_bind; [apply Hc|].
    intros [|]; [|apply avoids_ret]. intros w. unfold stuck. congruence.
  - cbn [for_loop]. apply avoids_bind; [apply Hc|].
    intros [|]; [|apply avoids_ret].
    apply avoids_bind; [apply Hb|]. intros [[i' s']|r]; [apply IH|apply avoids_ret].
Qed.

Lemma avoids_keep_counter {S} l (body : Z → S → M Env (Step S)) i s :
  avoids l (body i s) → avoids l (keep_counter body i s).
Proof.
  intros H. unfold keep_counter. apply avoids_bind; [exact H|].
  intros r. apply avoids_ret.
Qed.

(** A [for] loop whose body leaves the counter alone and whose test
    fails from [n] on runs its body [n - i] times at most. *)
Lemma for_loop_counted {S} l l' fuel n (cond : Z → S → M Env bool)
    (body : Z → S → M Env (Step S)) i s :
  (∀ i s, avoids l (body i s)) → (∀ i s, avoids l (cond i s)) →
  (∀ i s w w', n ≤ i → cond i s w ≠ Done true w') →
  (Z.to_nat (n - i) ≤ fuel)%nat →
  avoids l (for_loop l' fuel cond (keep_counter body) i s).
Proof.
  intros Hb Hc Hn. revert i s. induction fuel as [|fuel IH]; intros i s Hf w.
  - cbn [for_loop]. rewrite bind_unfold. pose proof (Hc i s w) as Hcw.
    destruct (cond i s w) as [[|] w1| |] eqn:E;
      [|discriminate..|intros E'; apply Hcw; inversion E'; reflexivity].
    exfalso. apply (Hn i s w w1); [lia|exact E].
  - cbn [for_loop]. rewrite bind_unfold. pose proof (Hc i s w) as Hcw.
    destruct (cond i s w) as [[|] w1| |] eqn:E;
      [|discriminate..|intros E'; apply Hcw; inversion E'; reflexivity].
    assert (Hi : i < n).
    { destruct (Z.lt_ge_cases i n) as [?|Hge]; [assumption|].
      exfalso. apply (Hn i s w w1); [lia|exact E]. }
    unfold keep_counter. rewrite !bind_unfold. pose proof (Hb i s w1) as Hbw.
    destruct (body i s w1) as [[s'|s'] w2| |];
      [| |discriminate|intros E'; apply Hbw; inversion E'; reflexivity].
    + cbn. apply IH. lia.
    + discriminate.
Qed.

End Avoids.

(** Walks through a program made of library calls. *)
Ltac solve_avoids0 :=
  repeat first
    [ apply avoids_ret
    | apply avoids_call
    | apply avoids_call_void
    | apply avoids_get_graph
    | apply avoids_get_scip
    | apply avoids_isStopped
    | apply avoids_timeover
    | apply avoids_getTimelimit
    | apply avoids_level0M; discriminate
    | apply avoids_level0RpcRmwM; discriminate
    | apply avoids_bind; [|intros ?]
    | match goal with
      | |- avoids _ (if ?c then _ else _) => destruct c
      | |- avoids _ (let '(_, _) := ?x in _) => destruct x
      | |- avoids _ (match ?x with _ => _ end) => destruct x
      end ].

Section AvoidsNvsl.
Context {Env : Type} {lib : Library Env}.

Lemma avoids_nvreduce_sl l fuel fixed minelims :
  l ≠ loop_nvsl → avoids l (nvreduce_sl (Env := Env) fuel fixed minelims).
Proof.
  intros Hl. unfold nvreduce_sl. apply avoids_bind; [|intros ?; apply avoids_ret].
  apply avoids_do_while; [exact Hl| |intros; apply avoids_ret].
  intros s. unfold nvreduce_sl_pass. solve_avoids0.
Qed.

End AvoidsNvsl.

Ltac solve_avoids :=
  repeat first
    [ apply avoids_nvreduce_sl; discriminate
    | apply avoids_ret
    | apply avoids_call
    | apply avoids_call_void
    | apply avoids_get_graph
    | apply avoids_get_scip
    | apply avoids_isStopped
    | apply avoids_timeover
    | apply avoids_getTimelimit
    | apply avoids_level0M; discriminate
    | apply avoids_level0RpcRmwM; discriminate
    | apply avoids_bind; [|intros ?]
    | match goal with
      | |- avoids _ (if ?c then _ else _) => destruct c
      | |- avoids _ (let '(_, _) := ?x in _) => destruct x
      | |- avoids _ (match ?x with _ => _ end) => destruct x
      end ].

Section AvoidsBlocks.
Context {Env : Type} {lib : Library Env}.

Lemma Mw_round_avoids l redbound tryrmw timelimit prizesum rounds v :
  avoids l (Mw.round (Env := Env) redbound tryrmw timelimit prizesum rounds v).
Proof.
  unfold Mw.round, Mw.round_tests, Mw.round_restart, Mw.round_ans,
    Mw.round_ansad, Mw.round_simple, Mw.round_da, Mw.round_nnp,
    Mw.round_chain2_nnp, Mw.round_npv, Mw.round_chain2, Mw.round_ansad2,
    Mw.round_bred, Mw.simple_mw.
  solve_avoids.
Qed.

Lemma Mw_round_cond_avoids l rounds v :
  avoids l (Mw.round_cond (Env := Env) rounds v).
Proof. unfold Mw.round_cond. solve_avoids. Qed.

Lemma Mw_round_cond_last rounds v (w w' : World Env) :
  STP_RED_MAXNROUNDS ≤ rounds → Mw.round_cond rounds v w ≠ Done true w'.
Proof.
  intros H. unfold Mw.round_cond.
  destruct (Z.ltb_spec rounds STP_RED_MAXNROUNDS); [lia|]. discriminate.
Qed.

(** With [STP_RED_MAXNROUNDS] rounds or more to spend, the round loop of
    [redLoopMw] comes to its end. *)
Lemma redLoopMw_rounds_bounded l redbound tryrmw timelimit prizesum rfuel v
    (w : World Env) :
  (Z.to_nat STP_RED_MAXNROUNDS ≤ rfuel)%nat →
  Mw.redLoopMw_rounds redbound tryrmw timelimit prizesum rfuel 0 v w ≠ Stuck l.
Proof.
  intros Hf. unfold Mw.redLoopMw_rounds.
  apply (for_loop_counted l loop_rounds rfuel STP_RED_MAXNROUNDS).
  - intros. apply Mw_round_avoids.
  - intros. apply Mw_round_cond_avoids.
  - intros. apply Mw_round_cond_last. assumption.
  - rewrite Z.sub_0_r. exact Hf.
Qed.

End AvoidsBlocks.

(** ** The prize-collecting loop *)

Section PcFacts.
Context {Env : Type} {lib : Library Env}.
Variables (fuel : nat) (dualascent tryrpc : bool) (reductbound : Z)
  (userec nodereplacing : bool) (timelimit prizesum : Q).

Lemma level0RpcRmwM_log fix_ (w : World Env) fix' w' :
  level0RpcRmwM fix_ w = Done fix' w' → log w' = log w.
Proof.
  unfold level0RpcRmwM. destruct (level0RpcRmw _ _) as [[[rc g] q]|]; [|discriminate].
  destruct (decide _); [|discriminate]. intros H; inversion H; subst. reflexivity.
Qed.

(** What the conversion block does: nothing, or one call of the
    conversion, in a round whose [rerun] is off or that is the last one,
    on a graph that is not rooted yet. *)
Lemma Pc_round_convert_spec rounds rpc v (w : World Env) r w' :
  Pc.round_convert dualascent tryrpc nodereplacing prizesum rounds rpc v w
    = Done r w' →
  (r = (rounds, (rpc, v)) ∧ w' = w)
  ∨ (conversions w' = S (conversions w)
     ∧ rpc = false ∧ tryrpc = true ∧ 2 < terms (graph w)
     ∧ (Pc.rerun v = false ∨ rounds = STP_RED_MAXNROUNDS - 1)
     ∧ (r = (rounds, (false, v))
        ∨ ∃ fix', r = (1, (true,
             v <| Pc.fix_ := fix' |> <| Pc.rerun := true |>
               <| Pc.da := dualascent |> <| Pc.sd := true |>
               <| Pc.sdc := true |> <| Pc.sdw := true |>
               <| Pc.nvsl := true |> <| Pc.bd3 := nodereplacing |>
               <| Pc.advancedrun := dualascent |>)))).
Proof.
  unfold Pc.round_convert. intros H. minv H; [| |left; split; reflexivity].
  all: right; cbn [fst snd].
  all: apply andb_prop in Heqb as [Heqb Hterms];
       apply andb_prop in Heqb as [Heqb Htry];
       apply andb_prop in Heqb as [Hrerun Hrpc];
       apply Z.ltb_lt in Hterms; apply negb_true_iff in Hrpc;
       apply orb_prop in Hrerun.
  all: assert (Hr : Pc.rerun v = false ∨ rounds = STP_RED_MAXNROUNDS - 1)
         by (destruct Hrerun as [Hr|Hr];
             [left; apply negb_true_iff, Hr
             |right; apply bool_decide_eq_true in Hr; exact Hr]).
  all: apply call_void_spec in Hs as [[Hc1 _] _]; [|discriminate];
       apply call_conversion_spec in Hs0 as [Hc2 _];
       apply call_void_spec in Hs1 as [[Hc3 _] _]; [|discriminate].
  - apply level0RpcRmwM_log in Hs2.
    assert (Hc4 : conversions x6 = conversions x2)
      by (unfold conversions; rewrite Hs2; reflexivity).
    repeat split; try assumption; [congruence|].
    right. eexists. reflexivity.
  - repeat split; try assumption; [congruence|].
    left. reflexivity.
Qed.

(** Where a round leaves the counter and [rpc]: as they were, or at 1
    on a graph that has just become rooted. *)
Lemma Pc_round_counter rounds rpc v (w : World Env) i' rpc' v' w' :
  Pc.round fuel dualascent tryrpc reductbound userec nodereplacing timelimit
    prizesum rounds (rpc, v) w = Done (Continue (i', (rpc', v'))) w' →
  (i' = rounds ∧ rpc' = rpc) ∨ (i' = 1 ∧ rpc = false ∧ rpc' = true).
Proof.
  unfold Pc.round. cbn [fst snd]. intros H.
  apply bind_done in H as (r & w1 & _ & H). destruct r as [v1|v1].
  - apply bind_done in H as (v2 & w2 & _ & H).
    apply bind_done in H as (v3 & w3 & _ & H).
    apply bind_done in H as (r & w4 & Hc & H).
    apply mret_spec in H as [H _]. inversion H; subst; clear H.
    apply Pc_round_convert_spec in Hc
      as [[Hc _]|(_ & Hrpc & _ & _ & _ & [Hc|[fix' Hc]])];
      inversion Hc; subst; auto.
  - apply mret_spec in H as [H _]. discriminate H.
Qed.

Lemma Pc_round_avoids rounds s :
  avoids loop_rounds
    (Pc.round (Env := Env) fuel dualascent tryrpc reductbound userec
       nodereplacing timelimit prizesum rounds s).
Proof.
  unfold Pc.round, Pc.round_tests, Pc.round_advanced, Pc.round_convert,
    Pc.round_sd, Pc.round_sdstar, Pc.round_sdw, Pc.round_sdc, Pc.round_bd3,
    Pc.round_nvsl, Pc.round_bred, Pc.round_da, Pc.simple_pc, Pc.execPc_SD,
    Pc.execPc_SDSP, Pc.execPc_BDk, Pc.execPc_NVSL, Pc.execPc_BND.
  solve_avoids.
Qed.

Lemma Pc_round_cond_avoids l rounds s :
  avoids l (Pc.round_cond (Env := Env) rounds s).
Proof. unfold Pc.round_cond. solve_avoids. Qed.

Lemma Pc_round_cond_true rounds s (w w' : World Env) :
  Pc.round_cond rounds s w = Done true w' →
  rounds < STP_RED_MAXNROUNDS ∧ Pc.rerun (snd s) = true
  ∧ graph w' = graph w ∧ log w' = log w.
Proof.
  unfold Pc.round_cond.
  destruct (Z.ltb_spec rounds STP_RED_MAXNROUNDS) as [Hlt|Hge].
  - intros H. minv H. inversion Hs; subst. cbn [graph log].
    symmetry in H. apply andb_prop in H as [_ H]. auto.
  - intros H. apply mret_spec in H as [H _]. discriminate H.
Qed.

(** The rounds still to come: those left on the counter, and 13 more as
    long as the graph can still become rooted. *)
Lemma redLoopPc_rounds_budget rfuel rounds (rpc : bool) v (w : World Env) :
  0 ≤ rounds →
  (Z.to_nat (STP_RED_MAXNROUNDS - rounds) + (if rpc then 0 else 13)%nat
   ≤ rfuel)%nat →
  Pc.redLoopPc_rounds fuel dualascent tryrpc reductbound userec nodereplacing
    timelimit prizesum rfuel rounds (rpc, v) w ≠ Stuck loop_rounds.
Proof.
  unfold Pc.redLoopPc_rounds.
  revert rounds rpc v w. induction rfuel as [|rfuel IH]; intros rounds rpc v w H0 Hf.
  - cbn [for_loop]. rewrite bind_unfold.
    pose proof (Pc_round_cond_avoids loop_rounds rounds (rpc, v) w) as Hc.
    destruct (Pc.round_cond rounds (rpc, v) w) as [[|] w1| |] eqn:E;
      [|discriminate..|intros E'; apply Hc; inversion E'; reflexivity].
    apply Pc_round_cond_true in E as [E _]. unfold STP_RED_MAXNROUNDS in *. lia.
  - cbn [for_loop]. rewrite bind_unfold.
    pose proof (Pc_round_cond_avoids loop_rounds rounds (rpc, v) w) as Hc.
    destruct (Pc.round_cond rounds (rpc, v) w) as [[|] w1| |] eqn:E;
      [|discriminate..|intros E'; apply Hc; inversion E'; reflexivity].
    apply Pc_round_cond_true in E as [E _].
    rewrite bind_unfold. pose proof (Pc_round_avoids rounds (rpc, v) w1) as Hb.
    destruct (Pc.round _ _ _ _ _ _ _ _ rounds (rpc, v) w1)
      as [[[i' [rpc' v']]|r] w2| |] eqn:Er;
      [|discriminate..|intros E'; apply Hb; inversion E'; reflexivity].
    apply Pc_round_counter in Er.
    unfold STP_RED_MAXNROUNDS in *.
    destruct Er as [[-> ->]|(-> & -> & ->)]; apply IH; lia.
Qed.

End PcFacts.

Section PcBlocks.
Context {Env : Type} {lib : Library Env}.
Variables (fuel : nat) (dualascent tryrpc : bool) (reductbound : Z)
  (userec nodereplacing : bool) (timelimit prizesum : Q).

#[global] Instance Pc_step_preorder : PreOrder (Pc_step (lib := lib)).
Proof.
  split.
  - intros v. split; [|split; [reflexivity|intros _; apply Qle_refl]].
    unfold Pc_stay. repeat split; apply stays_off_refl.
  - intros v1 v2 v3 (S1 & A1 & F1) (S2 & A2 & F2).
    split; [|split; [congruence|intros Hl; eapply Qle_trans; eauto]].
    unfold Pc_stay in *.
    destruct S1 as (?&?&?&?&?&?&?&?&?), S2 as (?&?&?&?&?&?&?&?&?).
    repeat split; eapply stays_off_trans; eassumption.
Qed.

Ltac use_lawful :=
  let Hl := fresh in
  intros Hl;
  repeat match goal with
    | H : lawful → _ |- _ => specialize (H Hl)
    | H : fixed_le _ _ |- _ => specialize (H Hl)
    end;
  cbn in *; lra.

Ltac solve_step :=
  split; [unfold Pc_stay; solve_stays; try (intros _; cbn; assumption)
         |split; [reflexivity|use_lawful]].

Ltac block :=
  use_calls; cbn [fst snd];
  repeat match goal with
    | |- context [if ?c then _ else _] => destruct c
    end;
  (split; [chain_worlds|solve_step]).

Lemma Pc_simple_pc_spec v (w : World Env) v' w' :
  Pc.simple_pc v w = Done v' w' → world_ok w w' ∧ Pc_step v v'.
Proof. unfold Pc.simple_pc. intros H. minv H. block. Qed.

Lemma Pc_round_sd_spec v (w : World Env) r w' :
  Pc.round_sd reductbound v w = Done r w' → world_ok w w' ∧ Pc_step v (fst r).
Proof. unfold Pc.round_sd, Pc.execPc_SD. intros H. minv H; block. Qed.

Lemma Pc_round_sdstar_spec rounds v (w : World Env) r w' :
  Pc.round_sdstar reductbound rounds v w = Done r w' →
  world_ok w w' ∧ Pc_step v (fst r).
Proof. unfold Pc.round_sdstar. intros H. minv H; block. Qed.

Lemma Pc_round_sdw_spec rounds v (w : World Env) r w' :
  Pc.round_sdw reductbound rounds v w = Done r w' →
  world_ok w w' ∧ Pc_step v (fst r).
Proof. unfold Pc.round_sdw. intros H. minv H; block. Qed.

Lemma Pc_round_sdc_spec rounds v (w : World Env) r w' :
  Pc.round_sdc reductbound rounds v w = Done r w' →
  world_ok w w' ∧ Pc_step v (fst r).
Proof. unfold Pc.round_sdc, Pc.execPc_SDSP. intros H. minv H; block. Qed.

Lemma Pc_round_bd3_spec rounds v (w : World Env) r w' :
  Pc.round_bd3 dualascent reductbound rounds v w = Done r w' →
  world_ok w w' ∧ Pc_step v (fst r).
Proof. unfold Pc.round_bd3, Pc.execPc_BDk. intros H. minv H; block. Qed.

Lemma Pc_round_nvsl_spec v (w : World Env) r w' :
  Pc.round_nvsl fuel reductbound v w = Done r w' →
  world_ok w w' ∧ Pc_step v (fst r).
Proof.
  unfold Pc.round_nvsl, Pc.execPc_NVSL. intros H. minv H; [|block].
  apply nvreduce_sl_spec in Hs0 as [? ?]. block.
Qed.

Lemma Pc_round_bred_spec v (w : World Env) r w' :
  Pc.round_bred reductbound v w = Done r w' → world_ok w w' ∧ Pc_step v (fst r).
Proof. unfold Pc.round_bred, Pc.execPc_BND. intros H. minv H; block. Qed.

Lemma Pc_round_da_spec rounds rpc v (w : World Env) r w' :
  Pc.round_da dualascent reductbound userec nodereplacing prizesum rounds rpc v w
    = Done r w' →
  world_ok w w' ∧ Pc_step v (fst r).
Proof.
  unfold Pc.round_da. intros H. minv H; try block.
  all: apply Pc_simple_pc_spec in Hs as [? [? [? ?]]]; use_calls; cbn [fst snd].
  all: repeat match goal with
         | |- context [if ?c then _ else _] => destruct c
         end.
  all: split; [chain_worlds|].
  all: split; [|split; [cbn; assumption|use_lawful]].
  all: unfold Pc_stay in *; cbn;
       repeat match goal with H : _ ∧ _ |- _ => destruct H end;
       repeat split; first [assumption | apply stays_off_false].
Qed.

Lemma Pc_round_tests_spec rounds rpc v (w : World Env) r w' :
  Pc.round_tests fuel dualascent reductbound userec nodereplacing timelimit
    prizesum rounds rpc v w = Done r w' →
  world_ok w w' ∧ Pc_step v (step_val r).
Proof.
  unfold Pc.round_tests. intros H. minv H.
  all: repeat match goal with
         | H : Pc.round_sd _ _ _ = Done _ _ |- _ =>
             apply Pc_round_sd_spec in H as [? ?]
         | H : Pc.round_sdstar _ _ _ _ = Done _ _ |- _ =>
             apply Pc_round_sdstar_spec in H as [? ?]
         | H : Pc.round_sdw _ _ _ _ = Done _ _ |- _ =>
             apply Pc_round_sdw_spec in H as [? ?]
         | H : Pc.round_sdc _ _ _ _ = Done _ _ |- _ =>
             apply Pc_round_sdc_spec in H as [? ?]
         | H : Pc.round_bd3 _ _ _ _ _ = Done _ _ |- _ =>
             apply Pc_round_bd3_spec in H as [? ?]
         | H : Pc.round_nvsl _ _ _ _ = Done _ _ |- _ =>
             apply Pc_round_nvsl_spec in H as [? ?]
         | H : Pc.round_bred _ _ _ = Done _ _ |- _ =>
             apply Pc_round_bred_spec in H as [? ?]
         | H : Pc.round_da _ _ _ _ _ _ _ _ _ = Done _ _ |- _ =>
             apply Pc_round_da_spec in H as [? ?]
         | H : Pc.simple_pc _ _ = Done _ _ |- _ =>
             apply Pc_simple_pc_spec in H as [? ?]
         end.
  all: use_calls; cbn [fst snd step_val] in *.
  all: split; [chain_worlds|].
  all: repeat match goal with
         | |- context [if ?c then _ else _] => destruct c
         end.
  all: transitivity (v <| Pc.degnelims := 0 |>); [solve_step|].
  all: repeat (etransitivity; [eassumption|]).
  all: first [reflexivity|solve_step].
Qed.

Lemma Pc_round_advanced_spec rpc v (w : World Env) v' w' :
  Pc.round_advanced dualascent reductbound userec nodereplacing prizesum
    rpc v w = Done v' w' →
  world_ok w w' ∧ fixed_le (Pc.fix_ v) (Pc.fix_ v').
Proof.
  unfold Pc.round_advanced. intros H. minv H.
  all: repeat match goal with
         | H : Pc.simple_pc _ _ = Done _ _ |- _ =>
             apply Pc_simple_pc_spec in H as [? (_ & _ & ?)]
         end.
  all: use_calls; cbn [fst snd] in *.
  all: split; [chain_worlds|].
  all: repeat match goal with
         | |- context [if ?c then _ else _] => destruct c
         end.
  all: use_lawful.
Qed.

(** One round: the conversion is called once at most, and not at all on
    a rooted graph. *)
Lemma Pc_round_conversions rounds rpc v (w : World Env) r w' :
  Pc.round fuel dualascent tryrpc reductbound userec nodereplacing timelimit
    prizesum rounds (rpc, v) w = Done r w' →
  (conversions w' = conversions w
   ∧ match r with
     | Continue (i', (rpc', _)) => i' = rounds ∧ rpc' = rpc
     | Break _ => True
     end)
  ∨ (conversions w' = S (conversions w) ∧ rpc = false
     ∧ ∃ i' rpc' v', r = Continue (i', (rpc', v'))
         ∧ (rpc' = true
            ∨ i' = rounds ∧ (Pc.rerun v' = false
                             ∨ rounds = STP_RED_MAXNROUNDS - 1))).
Proof.
  unfold Pc.round. cbn [fst snd]. intros H.
  apply bind_done in H as (r1 & w1 & H1 & H).
  apply Pc_round_tests_spec in H1 as [[Hc1 _] _].
  destruct r1 as [v1|v1].
  - apply bind_done in H as (v2 & w2 & H2 & H).
    apply Pc_round_advanced_spec in H2 as [[Hc2 _] _].
    apply bind_done in H as (v3 & w3 & H3 & H).
    assert (Hc3 : conversions w3 = conversions w2).
    { destruct (negb (Pc.rerun v2) || bool_decide (rounds = STP_RED_MAXNROUNDS - 1)).
      - apply Pc_simple_pc_spec in H3 as [[Hc3 _] _]. exact Hc3.
      - apply mret_spec in H3 as [_ ->]. reflexivity. }
    apply bind_done in H as (r2 & w4 & H4 & H).
    apply mret_spec in H as [-> ->].
    apply Pc_round_convert_spec in H4
      as [[-> ->]|(Hc4 & -> & _ & _ & Hr & [->|[fix' ->]])].
    + left. split; [congruence|split; reflexivity].
    + right. split; [congruence|split; [reflexivity|]].
      eexists _, _, _. split; [reflexivity|]. right. split; [reflexivity|exact Hr].
    + right. split; [congruence|split; [reflexivity|]].
      eexists _, _, _. split; [reflexivity|]. left. reflexivity.
  - apply mret_spec in H as [-> ->]. left. split; [congruence|exact I].
Qed.

Lemma Pc_round_cond_spec rounds s (w : World Env) b w' :
  Pc.round_cond rounds s w = Done b w' → world_ok w w'.
Proof. unfold Pc.round_cond. intros H. minv H; use_calls; chain_worlds. Qed.

(** In a run of the main loop the conversion is called once at most, and
    not at all when the graph is rooted at the start. *)
Lemma redLoopPc_rounds_conversions rfuel rounds rpc v (w : World Env) r w' :
  Pc.redLoopPc_rounds fuel dualascent tryrpc reductbound userec nodereplacing
    timelimit prizesum rfuel rounds (rpc, v) w = Done r w' →
  (conversions w' ≤ conversions w + (if rpc then 0 else 1))%nat.
Proof.
  unfold Pc.redLoopPc_rounds.
  revert rounds rpc v w. induction rfuel as [|rfuel IH]; intros rounds rpc v w H.
  - cbn [for_loop] in H. apply bind_done in H as (b & w1 & H1 & H).
    apply Pc_round_cond_spec in H1 as [Hc1 _]. destruct b; [discriminate H|].
    apply mret_spec in H as [_ ->]. lia.
  - cbn [for_loop] in H. apply bind_done in H as (b & w1 & H1 & H).
    pose proof (Pc_round_cond_spec _ _ _ _ _ H1) as [Hc1 _].
    destruct b; [|apply mret_spec in H as [_ ->]; lia].
    apply bind_done in H as (r1 & w2 & H2 & H).
    apply Pc_round_conversions in H2
      as [[Hc2 Hr]|(Hc2 & -> & i' & rpc' & v' & -> & Hr)].
    + destruct r1 as [[i' [rpc' v']]|r1].
      * destruct Hr as [-> ->]. apply IH in H. lia.
      * apply mret_spec in H as [_ ->]. lia.
    + destruct Hr as [->|[-> Hr]].
      * apply IH in H. cbn in H. lia.
      * (* the conversion has failed: the loop is at its end *)
        destruct rfuel as [|rfuel]; cbn [for_loop] in H;
          apply bind_done in H as (b & w3 & H3 & H);
          pose proof (Pc_round_cond_spec _ _ _ _ _ H3) as [Hc3 _];
          (destruct b; [|apply mret_spec in H as [_ ->]; lia]);
          apply Pc_round_cond_true in H3 as (Hlt & Hre & _); cbn [snd] in Hre;
          unfold STP_RED_MAXNROUNDS in *;
          (destruct Hr as [Hr|Hr]; [congruence|lia]).
Qed.

End PcBlocks.
(** ** The number of rounds *)

(** One step of a [for] loop that has fuel left. *)
Lemma for_loop_step {Env S} (l : LoopTag) fuel (cond : Z → S → M Env bool)
    body i s (w w1 w2 : World Env) i' s' :
  cond i s w = Done true w1 →
  body i s w1 = Done (Continue (i', s')) w2 →
  for_loop l (Datatypes.S fuel) cond body i s w
  = for_loop l fuel cond body (i' + 1) s' w2.
Proof.
  intros Hc Hb. cbn [for_loop]. rewrite bind_unfold, Hc, bind_unfold, Hb.
  reflexivity.
Qed.

Lemma for_loop_out_of_fuel {Env S} (l : LoopTag) (cond : Z → S → M Env bool)
    body i s (w w1 : World Env) :
  cond i s w = Done true w1 →
  for_loop l 0 cond body i s w = Stuck l.
Proof. intros Hc. cbn [for_loop]. rewrite bind_unfold, Hc. reflexivity. Qed.

(** With the library [busy] a round of the inner loop of [redLoopStp]
    that starts with something left to eliminate goes on to the next. *)
Lemma busy_inner_round (e : nat) lg i r :
  ∃ lg', Stp.inner_round (lib := busy) 5 true 1 true true 3600 i
           (r, stp_going) (mkWorld (S e) (triangle STP_SPG) lg)
         = Done (Continue (r, stp_going)) (mkWorld e (triangle STP_SPG) lg').
Proof. eexists. vm_compute. reflexivity. Qed.

Lemma busy_first_round (e : nat) lg :
  ∃ lg', Stp.inner_round (lib := busy) 5 true 1 true true 3600 0
           (0, stp_vars) (mkWorld (S e) (triangle STP_SPG) lg)
         = Done (Continue (0, stp_going)) (mkWorld e (triangle STP_SPG) lg').
Proof. eexists. vm_compute. reflexivity. Qed.

Lemma busy_inner_stuck rfuel : ∀ (e : nat) lg i r,
  (rfuel ≤ e)%nat →
  Stp.redLoopStp_inner (lib := busy) 5 true 1 true true 3600 rfuel i
    (r, stp_going) (mkWorld e (triangle STP_SPG) lg)
  = Stuck loop_rounds.
Proof.
  unfold Stp.redLoopStp_inner.
  induction rfuel as [|rfuel IH]; intros e lg i r He.
  - eapply for_loop_out_of_fuel. reflexivity.
  - destruct e as [|e]; [lia|].
    destruct (busy_inner_round e lg i r) as [lg' E].
    rewrite (for_loop_step _ _ _ _ _ _ _
               (mkWorld (S e) (triangle STP_SPG) lg)
               (mkWorld e (triangle STP_SPG) lg') i (r, stp_going));
      [|reflexivity|unfold keep_counter; rewrite bind_unfold, E; reflexivity].
    apply IH. lia.
Qed.

(** C3, as the code has it: with [STP_RED_MAXNROUNDS] = 15 rounds or
    more to spend the round loop of [redLoopMw] comes to its end, and so
    does the round loop of [redLoopPc] with 2 * 15 - 2 = 28 rounds or
    more, the conversion to a rooted graph setting the counter back to 1
    once; the inner loop of [redLoopStp] has no counter in its test: with
    the library [busy] that reports eliminations [n] times it is still
    running after [n] rounds, whatever [n] is. *)
Theorem round_loops_bounded {Env : Type} {lib : Library Env}
    (fuel k : nat) (dualascent tryrpc tryrmw : bool) (reductbound : Z)
    (userec nodereplacing : bool) (timelimit prizesum : Q)
    (vm : Mw.Vars) (rpc : bool) (vp : Pc.Vars) (w : World Env) (n : nat) :
  Mw.redLoopMw_rounds reductbound tryrmw timelimit prizesum
    (Z.to_nat STP_RED_MAXNROUNDS + k) 0 vm w ≠ Stuck loop_rounds
  ∧ Pc.redLoopPc_rounds fuel dualascent tryrpc reductbound userec
      nodereplacing timelimit prizesum
      (Z.to_nat (2 * STP_RED_MAXNROUNDS - 2) + k) 0 (rpc, vp) w
    ≠ Stuck loop_rounds
  ∧ Stp.redLoopStp_inner (lib := busy) 5 true 1 true true 3600 n 0
      (0, stp_vars) (mkWorld n (triangle STP_SPG) [])
    = Stuck loop_rounds.
Proof.
  split; [|split].
  - apply redLoopMw_rounds_bounded. lia.
  - apply redLoopPc_rounds_budget; [lia|].
    unfold STP_RED_MAXNROUNDS. destruct rpc; lia.
  - unfold Stp.redLoopStp_inner. destruct n as [|n].
    + eapply for_loop_out_of_fuel. reflexivity.
    + destruct (busy_first_round n []) as [lg' E].
      rewrite (for_loop_step _ _ _ _ _ _ _
                 (mkWorld (S n) (triangle STP_SPG) [])
                 (mkWorld n (triangle STP_SPG) lg') 0 (0, stp_going));
        [|reflexivity|unfold keep_counter; rewrite bind_unfold, E; reflexivity].
      apply (busy_inner_stuck n n lg' (0 + 1) 0). lia.
Qed.

(** C3, counterexample: with the library [busy] and 40 successful rounds
    ahead, the round loop of [redLoopPc] is not at its end after 27
    rounds and ends in the 28th; the inner loop of [redLoopStp] is not at
    its end after 15 rounds, nor after 41, and ends in the 42nd. *)
Lemma round_loops_exceed_maxnrounds :
  Pc.redLoopPc_rounds (lib := busy) 5 true true 1 true true 3600 0 27 0
    (false, pc_vars) (mkWorld 40%nat (triangle STP_PCSPG) [])
  = Stuck loop_rounds
  ∧ (∃ s w', Pc.redLoopPc_rounds (lib := busy) 5 true true 1 true true 3600 0
               28 0 (false, pc_vars) (mkWorld 40%nat (triangle STP_PCSPG) [])
             = Done (15, s) w')
  ∧ Stp.redLoopStp_inner (lib := busy) 5 true 1 true true 3600 15 0
      (0, stp_vars) (mkWorld 40%nat (triangle STP_SPG) [])
    = Stuck loop_rounds
  ∧ Stp.redLoopStp_inner (lib := busy) 5 true 1 true true 3600 41 0
      (0, stp_vars) (mkWorld 40%nat (triangle STP_SPG) [])
    = Stuck loop_rounds
  ∧ (∃ s w', Stp.redLoopStp_inner (lib := busy) 5 true 1 true true 3600 42 0
               (0, stp_vars) (mkWorld 40%nat (triangle STP_SPG) [])
             = Done (42, s) w').
Proof.
  split; [vm_compute; reflexivity|].
  split; [eexists _, _; vm_compute; reflexivity|].
  split; [vm_compute; reflexivity|].
  split; [vm_compute; reflexivity|].
  eexists _, _; vm_compute; reflexivity.
Qed.
(** ** The conversion to a rooted graph *)

(** C8, as the code has it: in a run of the round loop of [redLoopPc]
    the conversion [graph_pc_pcmw2rooted] is called once at most, and not
    at all when the graph is rooted at the start.  The conversion block
    [round_convert] calls it when the graph is not rooted, [tryrpc] is
    set, the graph has more than two terminals, and [rerun] is off or the
    round is the last one ([STP_RED_MAXNROUNDS] - 1), whatever [rerun]
    is; otherwise the block does nothing.  When the graph comes back
    rooted, [rerun], [sd], [sdc], [sdw] and [nvsl] are switched on, [da]
    and [advancedrun] are set to [dualascent], [bd3] to [nodereplacing],
    and the round counter to 1; [sdstar] and [bred] stay as they are.
    When it does not, the counter and the variables are left alone. *)
Theorem redLoopPc_converts_once {Env : Type} {lib : Library Env}
    (fuel : nat) (dualascent tryrpc : bool) (reductbound : Z)
    (userec nodereplacing : bool) (timelimit prizesum : Q)
    (rfuel : nat) (rounds : Z) (rpc : bool) (v : Pc.Vars) (w : World Env)
    r w' (i : Z) (rpc0 : bool) (v0 : Pc.Vars) (w0 : World Env) r0 w0' :
  Pc.redLoopPc_rounds fuel dualascent tryrpc reductbound userec nodereplacing
    timelimit prizesum rfuel rounds (rpc, v) w = Done r w' →
  Pc.round_convert dualascent tryrpc nodereplacing prizesum i rpc0 v0 w0
    = Done r0 w0' →
  (conversions w' ≤ conversions w + (if rpc then 0 else 1))%nat
  ∧ ((r0 = (i, (rpc0, v0)) ∧ w0' = w0)
     ∨ (conversions w0' = S (conversions w0)
        ∧ rpc0 = false ∧ tryrpc = true ∧ 2 < terms (graph w0)
        ∧ (Pc.rerun v0 = false ∨ i = STP_RED_MAXNROUNDS - 1)
        ∧ (r0 = (i, (false, v0))
           ∨ ∃ fix', r0 = (1, (true,
                v0 <| Pc.fix_ := fix' |> <| Pc.rerun := true |>
                   <| Pc.da := dualascent |> <| Pc.sd := true |>
                   <| Pc.sdc := true |> <| Pc.sdw := true |>
                   <| Pc.nvsl := true |> <| Pc.bd3 := nodereplacing |>
                   <| Pc.advancedrun := dualascent |>))))).
Proof.
  intros Hloop Hconv. split.
  - eapply redLoopPc_rounds_conversions. exact Hloop.
  - eapply Pc_round_convert_spec. exact Hconv.
Qed.

Lemma redLoopPc_converts_once_witness :
  ∃ r w' r0 w0',
    Pc.redLoopPc_rounds (lib := busy) 5 true true 1 true true 3600 0 28 0
      (false, pc_vars) (mkWorld 40%nat (triangle STP_PCSPG) []) = Done r w'
    ∧ Pc.round_convert (lib := busy) true true true 0 3 false
        (pc_late <| Pc.rerun := false |>)
        (mkWorld 5%nat (triangle STP_PCSPG) []) = Done r0 w0'
    ∧ (conversions w' ≤ 1)%nat
    ∧ (r0 = (3, (false, pc_late <| Pc.rerun := false |>))
       ∨ conversions w0' = 1%nat).
Proof.
  destruct (Pc.redLoopPc_rounds (lib := busy) 5 true true 1 true true 3600 0
              28 0 (false, pc_vars) (mkWorld 40%nat (triangle STP_PCSPG) []))
    as [r w'| |] eqn:E1; [|exfalso; vm_compute in E1; discriminate E1..].
  destruct (Pc.round_convert (lib := busy) true true true 0 3 false
              (pc_late <| Pc.rerun := false |>)
              (mkWorld 5%nat (triangle STP_PCSPG) []))
    as [r0 w0'| |] eqn:E2; [|exfalso; vm_compute in E2; discriminate E2..].
  exists r, w', r0, w0'. split; [reflexivity|]. split; [reflexivity|].
  destruct (redLoopPc_converts_once (lib := busy) 5 true true 1 true true
              3600 0 28 0 false pc_vars _ r w' 3 false _ _ r0 w0' E1 E2)
    as [H1 H2].
  split; [exact H1|].
  destruct H2 as [[H2 _]|[H2 _]]; [left; exact H2|right; exact H2].
Defined.

(** C8, counterexample: in round 14, the last one, the conversion block
    calls the conversion although [rerun] is on; the graph comes back
    rooted, and neither [sdstar] nor [bred] is switched on. *)
Lemma round_convert_last_round :
  Pc.rerun pc_late = true
  ∧ ∃ v' w',
      Pc.round_convert (lib := busy) true true true 0 14 false pc_late
        (mkWorld 5%nat (triangle STP_PCSPG) [])
      = Done (1, (true, v')) w'
      ∧ graph_pc_pcmw2rooted ∈ log w'
      ∧ stp_type (graph w') = STP_RPCSPG
      ∧ Pc.sdstar v' = false ∧ Pc.bred v' = false.
Proof.
  split; [reflexivity|]. eexists _, _.
  split; [vm_compute; reflexivity|].
  split; [cbn; rewrite !elem_of_cons; tauto|].
  split; [reflexivity|]. split; reflexivity.
Qed.
(** ** The STP loop *)

Section StpFacts.
Context {Env : Type} {lib : Library Env}.
Variables (fuel : nat) (nodereplacing : bool) (reductbound : Z)
  (userec fullreduce : bool) (timelimit : Q).

#[global] Instance Stp_step_preorder : PreOrder (Stp_step (lib := lib)).
Proof.
  split.
  - intros v. split; [|intros _; apply Qle_refl].
    unfold Stp_stay. repeat split; apply stays_off_refl.
  - intros v1 v2 v3 (S1 & F1) (S2 & F2).
    split; [|intros Hl; eapply Qle_trans; eauto].
    unfold Stp_stay in *.
    destruct S1 as (?&?&?&?&?&?&?&?), S2 as (?&?&?&?&?&?&?&?).
    repeat split; eapply stays_off_trans; eassumption.
Qed.

Ltac use_lawful :=
  let Hl := fresh in
  intros Hl;
  repeat match goal with
    | H : lawful → _ |- _ => specialize (H Hl)
    | H : fixed_le _ _ |- _ => specialize (H Hl)
    end;
  cbn in *; lra.

Ltac solve_step :=
  split; [unfold Stp_stay; solve_stays; try (intros _; cbn; assumption)
         |use_lawful].

Ltac unfold_steps :=
  repeat match goal with
    | H : Stp_step _ _ |- _ => destruct H as [? ?]
    end.

Ltac block :=
  use_calls; cbn [fst snd];
  repeat match goal with
    | |- context [if ?c then _ else _] => destruct c
    end;
  (split; [chain_worlds|first [assumption|solve_step]]).

Lemma Stp_simple_spec v (w : World Env) v' w' :
  Stp.simple v w = Done v' w' → world_ok w w' ∧ Stp_step v v'.
Proof. unfold Stp.simple. intros H. minv H. block. Qed.

Ltac use_simple :=
  repeat match goal with
    | H : Stp.simple _ _ = Done _ _ |- _ =>
        apply Stp_simple_spec in H as [? ?]
    end.

(** From [v] to a state [a] that sets fields of [v], and on along the
    steps that are known. *)
Ltac chain_steps :=
  match goal with
  | H : Stp_step ?a _ |- Stp_step ?v _ =>
      transitivity a; [solve [solve_step]|];
      repeat (etransitivity; [eassumption|]);
      first [reflexivity|solve [solve_step]]
  end.

Lemma Stp_round_le_spec v (w : World Env) r w' :
  Stp.round_le reductbound timelimit v w = Done r w' →
  world_ok w w' ∧ Stp_step v (fst (fst r)).
Proof.
  unfold Stp.round_le. intros H. minv H; use_simple; block.
Qed.

Lemma Stp_round_sd_spec v (w : World Env) r w' :
  Stp.round_sd nodereplacing reductbound timelimit v w = Done r w' →
  world_ok w w' ∧ Stp_step v (fst (fst r)).
Proof. unfold Stp.round_sd. intros H. minv H; block. Qed.

Lemma Stp_round_sdc_spec inner_rounds v (w : World Env) r w' :
  Stp.round_sdc reductbound timelimit inner_rounds v w = Done r w' →
  world_ok w w' ∧ Stp_step v (fst (fst r)).
Proof. unfold Stp.round_sdc. intros H. minv H; block. Qed.

Lemma Stp_round_bd3_spec v (w : World Env) r w' :
  Stp.round_bd3 reductbound timelimit v w = Done r w' →
  world_ok w w' ∧ Stp_step v (fst (fst r)).
Proof.
  unfold Stp.round_bd3. intros H. minv H; use_simple; use_calls; cbn [fst snd].
  all: split; [chain_worlds|].
  all: first [chain_steps | solve_step].
Qed.

Lemma Stp_round_nvsl_spec v (w : World Env) r w' :
  Stp.round_nvsl fuel reductbound timelimit v w = Done r w' →
  world_ok w w' ∧ Stp_step v (fst (fst r)).
Proof.
  unfold Stp.round_nvsl. intros H. minv H; [|block].
  apply nvreduce_sl_spec in Hs as [? ?]. block.
Qed.

Lemma Stp_round_da_spec inner_rounds v (w : World Env) r w' :
  Stp.round_da reductbound userec timelimit inner_rounds v w = Done r w' →
  world_ok w w' ∧ Stp_step v (fst (fst r)).
Proof. unfold Stp.round_da. intros H. minv H; block. Qed.

Lemma Stp_round_bred_spec v (w : World Env) r w' :
  Stp.round_bred nodereplacing reductbound timelimit v w = Done r w' →
  world_ok w w' ∧ Stp_step v (fst (fst r)).
Proof. unfold Stp.round_bred. intros H. minv H; block. Qed.

Ltac use_blocks :=
  repeat match goal with
    | H : Stp.round_le _ _ _ _ = Done _ _ |- _ =>
        apply Stp_round_le_spec in H as [? ?]
    | H : Stp.round_sd _ _ _ _ _ = Done _ _ |- _ =>
        apply Stp_round_sd_spec in H as [? ?]
    | H : Stp.round_sdc _ _ _ _ _ = Done _ _ |- _ =>
        apply Stp_round_sdc_spec in H as [? ?]
    | H : Stp.round_bd3 _ _ _ _ = Done _ _ |- _ =>
        apply Stp_round_bd3_spec in H as [? ?]
    | H : Stp.round_nvsl _ _ _ _ _ = Done _ _ |- _ =>
        apply Stp_round_nvsl_spec in H as [? ?]
    | H : Stp.round_da _ _ _ _ _ _ = Done _ _ |- _ =>
        apply Stp_round_da_spec in H as [? ?]
    | H : Stp.round_bred _ _ _ _ _ = Done _ _ |- _ =>
        apply Stp_round_bred_spec in H as [? ?]
    | H : Stp.simple _ _ = Done _ _ |- _ =>
        apply Stp_simple_spec in H as [? ?]
    end.

(** The tests of a round switch no flag on. *)
Lemma Stp_round_tests_spec inner_rounds v (w : World Env) r w' :
  Stp.round_tests fuel nodereplacing reductbound userec timelimit
    inner_rounds v w = Done r w' →
  world_ok w w' ∧ Stp_step v (fst (step_val r)).
Proof.
  unfold Stp.round_tests. intros H. minv H.
  all: use_blocks; use_calls; cbn [fst snd step_val] in *.
  all: split; [chain_worlds|].
  all: first [solve [solve_step]|idtac].
  all: transitivity (v <| Stp.degtnelims := 0 |>); [solve [solve_step]|].
  all: repeat first
         [ etransitivity; [eassumption|]
         | match goal with
           | H : Stp_step (?a <| Stp.ub := ?q |>) _ |- Stp_step ?a _ =>
               transitivity (a <| Stp.ub := q |>); [solve [solve_step]|]
           end ].
  all: first [reflexivity|solve [solve_step]].
Qed.

Lemma Stp_round_restart_fix inner_rounds sum s :
  Stp.fix_ (snd (Stp.round_restart nodereplacing reductbound fullreduce
                   inner_rounds sum s))
  = Stp.fix_ (snd s).
Proof.
  unfold Stp.round_restart. cbv zeta.
  repeat match goal with
    | |- context [if ?c then _ else _] => destruct c
    end; reflexivity.
Qed.

Lemma Stp_inner_round_spec inner_rounds s (w : World Env) r w' :
  Stp.inner_round fuel nodereplacing reductbound userec fullreduce timelimit
    inner_rounds s w = Done r w' →
  world_ok w w' ∧ fixed_le (Stp.fix_ (snd s)) (Stp.fix_ (snd (step_val r))).
Proof.
  unfold Stp.inner_round. intros H.
  apply bind_done in H as (r1 & w1 & H1 & H).
  apply Stp_round_tests_spec in H1 as [Hw1 [_ Hf1]].
  apply mret_spec in H as [-> ->]. split; [exact Hw1|].
  destruct r1 as [[v1 sum]|[v1 sum]]; cbn [step_val fst snd] in *.
  - rewrite Stp_round_restart_fix. exact Hf1.
  - exact Hf1.
Qed.

Lemma Stp_rerun_cond_spec v (w : World Env) b w' :
  Stp.rerun_cond v w = Done b w' → world_ok w w'.
Proof. unfold Stp.rerun_cond. intros H. minv H; use_calls; chain_worlds. Qed.

Lemma redLoopStp_inner_spec rfuel inner_rounds s (w : World Env) r w' :
  Stp.redLoopStp_inner fuel nodereplacing reductbound userec fullreduce
    timelimit rfuel inner_rounds s w = Done r w' →
  world_ok w w' ∧ fixed_le (Stp.fix_ (snd s)) (Stp.fix_ (snd (snd r))).
Proof.
  unfold Stp.redLoopStp_inner. intros H.
  assert (HP : PreOrder (λ s s' : Z * Stp.Vars,
                           fixed_le (Stp.fix_ (snd s)) (Stp.fix_ (snd s')))).
  { split; [intros ?; reflexivity|intros ? ? ? ? ?; etransitivity; eassumption]. }
  apply (@for_loop_inv _ _ _ _ HP) in H.
  - exact H.
  - clear. intros i s w r w' H.
    apply (keep_counter_inv
             (λ s s' : Z * Stp.Vars,
                fixed_le (Stp.fix_ (snd s)) (Stp.fix_ (snd s')))) in H;
      [exact H|].
    intros r1 w1 H1. apply Stp_inner_round_spec in H1. exact H1.
  - clear. intros i s w b w' H. apply Stp_rerun_cond_spec in H. exact H.
Qed.

Lemma Stp_extensive_step_spec inner_rounds v (w : World Env) r w' :
  Stp.extensive_step nodereplacing reductbound userec fullreduce timelimit
    inner_rounds v w = Done r w' →
  world_ok w w' ∧ fixed_le (Stp.fix_ v) (Stp.fix_ (step_val r)).
Proof.
  unfold Stp.extensive_step. intros H. minv H.
  all: use_calls; cbn [fst snd step_val] in *.
  all: split; [chain_worlds|].
  all: repeat match goal with
         | |- context [if ?c then _ else _] => destruct c
         end.
  all: use_lawful.
Qed.

Lemma Stp_extensive_round_spec v (w : World Env) r w' :
  Stp.extensive_round fuel nodereplacing reductbound userec fullreduce
    timelimit v w = Done r w' →
  world_ok w w' ∧ fixed_le (Stp.fix_ v) (Stp.fix_ (step_val r)).
Proof.
  unfold Stp.extensive_round. intros H.
  apply bind_done in H as (r1 & w1 & H1 & H).
  apply redLoopStp_inner_spec in H1 as [Hw1 Hf1]. cbn [snd] in Hf1.
  apply Stp_extensive_step_spec in H as [Hw2 Hf2].
  split; [chain_worlds|etransitivity; eassumption].
Qed.

End StpFacts.

Section StpEntry.
Context {Env : Type} {lib : Library Env}.

Lemma redLoopStp_spec fuel fixed upperbound dualascent boundreduce
    nodereplacing reductbound userec fullreduce (w : World Env) r w' :
  Stp.redLoopStp fuel fixed upperbound dualascent boundreduce nodereplacing
    reductbound userec fullreduce w = Done r w' →
  world_ok w w' ∧ fixed_le fixed r.
Proof.
  unfold Stp.redLoopStp. intros H.
  apply bind_done in H as (io1 & w1 & H1 & H).
  apply bind_done in H as (io2 & w2 & H2 & H).
  apply bind_done in H as (io3 & w3 & H3 & H).
  apply bind_done in H as (tl & w4 & H4 & H).
  apply getTimelimit_spec in H4 as ->.
  apply bind_done in H as (v & w5 & H5 & H).
  assert (HP : PreOrder (λ v v' : Stp.Vars,
                           fixed_le (Stp.fix_ v) (Stp.fix_ v'))).
  { split; [intros ?; reflexivity|intros ? ? ? ? ?; etransitivity; eassumption]. }
  apply (@do_while_inv _ _ _ _ HP) in H5 as [Hw5 Hf5].
  2:{ clear. intros s w r w' H. apply Stp_extensive_round_spec in H. exact H. }
  2:{ clear. intros s w b w' H. apply Stp_rerun_cond_spec in H. exact H. }
  apply bind_done in H as (io6 & w6 & H6 & H).
  assert (Hw6 : world_ok w3 w6 → world_ok w3 w6) by auto.
  assert (Hw56 : world_ok w5 w6).
  { destruct fullreduce.
    - apply call_spec in H6 as [H6 _]; [exact H6|discriminate].
    - apply mret_spec in H6 as [-> ->]. reflexivity. }
  apply bind_done in H as (io7 & w7 & H7 & H).
  apply mret_spec in H as [-> ->].
  use_calls. split; [chain_worlds|].
  intros Hl. specialize (Hf5 Hl). cbn in Hf5.
  repeat match goal with
    | H : lawful → _ |- _ => specialize (H Hl)
    end.
  cbn in *. lra.
Qed.

End StpEntry.
(** ** The reduction bound and the activity flags *)

(** C5, as the code has it: the reduction bound of [reduceStp] is the
    larger of [minelims] and the edge count [g->edges] divided by 1000; the
    bounds of [reducePc], [reduceMw], [reduceHc], [reduceSap] and
    [reduceNw] are the larger of [minelims] and the number of nodes
    divided by 1000.  The tests of a round of [redLoopStp], [redLoopPc]
    and [redLoopMw] switch no activity flag on: a flag that is off before
    the tests of the round is off after them. *)
Theorem reductbound_and_flags {Env : Type} {lib : Library Env}
    (g : GRAPH) (minelims : Z) (fuel : nat)
    (nodereplacing userec dualascent : bool) (reductbound : Z)
    (timelimit prizesum : Q) (rounds : Z) (rpc : bool)
    (vs : Stp.Vars) (ws : World Env) rs ws'
    (vp : Pc.Vars) (wp : World Env) rp wp'
    (vm : Mw.Vars) (wm : World Env) rm wm' :
  Stp.round_tests fuel nodereplacing reductbound userec timelimit rounds vs ws
    = Done rs ws' →
  Pc.round_tests fuel dualascent reductbound userec nodereplacing timelimit
    prizesum rounds rpc vp wp = Done rp wp' →
  Mw.round_tests reductbound timelimit prizesum rounds vm wm = Done rm wm' →
  reduceStp_reductbound g minelims
    = Z.max (Z.of_nat (edges g) / 1000) minelims
  ∧ reducePc_reductbound g minelims
    = Z.max (Z.of_nat (knots g) / 1000) minelims
  ∧ reduceMw_redbound g minelims = Z.max (Z.of_nat (knots g) / 1000) minelims
  ∧ reduceHc_redbound g minelims = Z.max (Z.of_nat (knots g) / 1000) minelims
  ∧ reduceSap_redbound g minelims = Z.max (Z.of_nat (knots g) / 1000) minelims
  ∧ reduceNw_redbound g minelims = Z.max (Z.of_nat (knots g) / 1000) minelims
  ∧ Stp_stay vs (fst (step_val rs))
  ∧ Pc_stay vp (step_val rp)
  ∧ Mw_stay vm (fst (step_val rm)).
Proof.
  intros Hs Hp Hm.
  unfold reduceStp_reductbound, reducePc_reductbound, reduceMw_redbound,
    reduceHc_redbound, reduceSap_redbound, reduceNw_redbound.
  cbv zeta. rewrite !Z.quot_div_nonneg by lia.
  repeat (split; [reflexivity|]).
  apply Stp_round_tests_spec in Hs as [_ [Hs _]].
  apply Pc_round_tests_spec in Hp as [_ [Hp _]].
  apply Mw_round_tests_spec in Hm as [_ [Hm _]].
  split; [exact Hs|]. split; [exact Hp|exact Hm].
Qed.

Lemma reductbound_and_flags_witness :
  ∃ rs ws' rp wp' rm wm',
    Stp.round_tests (lib := quiet) 5 true 1 true 3600 0 stp_vars
      (mkWorld tt (triangle STP_SPG) []) = Done rs ws'
    ∧ Pc.round_tests (lib := quiet) 5 true 1 true true 3600 0 0 false pc_vars
        (mkWorld tt (triangle STP_PCSPG) []) = Done rp wp'
    ∧ Mw.round_tests (lib := quiet) 1 3600 0 0 mw_vars
        (mkWorld tt (triangle STP_MWCSP) []) = Done rm wm'
    ∧ reduceStp_reductbound (complete_graph 50) 0 = 2
    ∧ reducePc_reductbound (complete_graph 50) 0 = 0
    ∧ Stp_stay stp_vars (fst (step_val rs))
    ∧ Pc_stay pc_vars (step_val rp)
    ∧ Mw_stay mw_vars (fst (step_val rm)).
Proof.
  destruct (Stp.round_tests (lib := quiet) 5 true 1 true 3600 0 stp_vars
              (mkWorld tt (triangle STP_SPG) []))
    as [rs ws'| |] eqn:Es; [|exfalso; vm_compute in Es; discriminate Es..].
  destruct (Pc.round_tests (lib := quiet) 5 true 1 true true 3600 0 0 false
              pc_vars (mkWorld tt (triangle STP_PCSPG) []))
    as [rp wp'| |] eqn:Ep; [|exfalso; vm_compute in Ep; discriminate Ep..].
  destruct (Mw.round_tests (lib := quiet) 1 3600 0 0 mw_vars
              (mkWorld tt (triangle STP_MWCSP) []))
    as [rm wm'| |] eqn:Em; [|exfalso; vm_compute in Em; discriminate Em..].
  exists rs, ws', rp, wp', rm, wm'.
  do 3 (split; [reflexivity|]).
  destruct (reductbound_and_flags (lib := quiet) (complete_graph 50) 0
              5 true true true 1 3600 0 0 false
              stp_vars _ rs ws' pc_vars _ rp wp' mw_vars _ rm wm' Es Ep Em)
    as (H1 & H2 & _ & _ & _ & _ & H7 & H8 & H9).
  split; [rewrite H1; vm_compute; reflexivity|].
  split; [rewrite H2; vm_compute; reflexivity|].
  split; [exact H7|]. split; [exact H8|exact H9].
Defined.

(** C5, counterexample: on the complete graph with 50 nodes, which has
    2450 arcs, the bound of [reduceStp] for [minelims] = 0 is 2, and the
    larger of 0 and the number of nodes divided by 1000 is 0. *)
Lemma reduceStp_reductbound_counts_arcs :
  knots (complete_graph 50) = 50%nat
  ∧ edges (complete_graph 50) = 2450%nat
  ∧ reduceStp_reductbound (complete_graph 50) 0 = 2
  ∧ Z.max (Z.of_nat (knots (complete_graph 50)) / 1000) 0 = 0.
Proof. repeat split; vm_compute; reflexivity. Qed.
(** ** The counts and the offset along a run *)

Section Lawful.
Context {Env : Type} {lib : Library Env}.

#[global] Instance graph_ok_preorder : PreOrder (graph_ok (Env := Env)).
Proof.
  split.
  - intros w _. split; [reflexivity|auto].
  - intros w1 w2 w3 H1 H2 Hl.
    destruct (H1 Hl) as [Hs1 Hp1]. destruct (H2 Hl) as [Hs2 Hp2].
    split; [etransitivity; eassumption|auto].
Qed.

Lemma world_ok_graph_ok (w w' : World Env) : world_ok w w' → graph_ok w w'.
Proof. intros [_ H]. exact H. Qed.

Lemma nonneg_rooted_prizes g : nonneg_prizes g → rooted_prizes g.
Proof. intros H _. exact H. Qed.

(** The third loop of [level0RpcRmwInfeas] deletes edges and nothing
    else. *)
Lemma rpc_nodes_spec gmark ks g g' :
  rpc_nodes g gmark ks = Some g' → shrinks g g' ∧ frame_eq g g'.
Proof.
  revert g. induction ks as [|k ks IH]; intros g H; cbn [rpc_nodes] in H.
  - inversion H; subst. split; [reflexivity|apply frame_eq_refl].
  - destruct (negb (gmark !!! k) && (0 <? grad g !!! k)).
    + destruct (del_inpedges _ g k) as [g1|] eqn:E; [|discriminate].
      cbn in H. apply IH in H as [Hs Hf].
      pose proof (del_inpedges_shrinks _ _ _ _ E) as Hs1.
      apply del_inpedges_frame in E as [Hf1 _].
      split.
      * etransitivity; [exact Hs1|]. etransitivity; [|exact Hs].
        apply same_counts_shrinks; reflexivity.
      * eapply frame_eq_trans; [exact Hf1|].
        eapply frame_eq_trans; [apply set_mark_frame|exact Hf].
    + apply IH. exact H.
Qed.

(** The second loop adds prizes to the offset and deletes terminals. *)
Lemma rpc_terms_spec gmark ks : ∀ g offset,
  lawful → nonneg_prizes g →
  shrinks g (rpc_terms g offset gmark ks).1.1
  ∧ nonneg_prizes (rpc_terms g offset gmark ks).1.1
  ∧ (offset <= (rpc_terms g offset gmark ks).1.2)%Q.
Proof.
  induction ks as [|k ks IH]; intros g offset Hl Hp; cbn [rpc_terms].
  - cbn. split; [reflexivity|]. split; [exact Hp|apply Qle_refl].
  - destruct (negb (gmark !!! k) && Is_term (term g !!! k)); [|apply IH; assumption].
    destruct (graph_pc_knotIsFixedTerm g k).
    + cbn. split; [reflexivity|]. split; [exact Hp|apply Qle_refl].
    + destruct (proj2 Hl g k) as [Hs Hn].
      destruct (IH (graph_pc_deleteTerm g k)
                  (offset + prize g !!! graph_pc_getTwinTerm g k)%Q Hl (Hn Hp))
        as (IH1 & IH2 & IH3).
      split; [etransitivity; eassumption|]. split; [exact IH2|].
      eapply Qle_trans; [|exact IH3].
      pose proof (Hp (graph_pc_getTwinTerm g k)). lra.
Qed.

Lemma level0RpcRmwM_lawful fix0 (w : World Env) fix' w' :
  level0RpcRmwM fix0 w = Done fix' w' →
  lawful → nonneg_prizes (graph w) →
  shrinks (graph w) (graph w') ∧ nonneg_prizes (graph w') ∧ (fix0 <= fix')%Q.
Proof.
  unfold level0RpcRmwM, level0RpcRmw, level0RpcRmwInfeas. intros H Hl Hp.
  destruct (rpc_dfs _ _ _ _) as [gmark|]; [|discriminate]. cbn in H.
  pose proof (rpc_terms_spec gmark (seq 0 (knots (graph w))) (graph w) fix0 Hl Hp)
    as (H1 & H2 & H3).
  destruct (rpc_terms _ _ _ _) as [[g1 o1] [|]]; cbn [fst snd] in *.
  - cbn in H. discriminate H.
  - destruct (rpc_nodes g1 gmark _) as [g2|] eqn:E; [|discriminate].
    cbn in H. inversion H; subst; clear H. cbn [graph].
    apply rpc_nodes_spec in E as [Hs Hf].
    split; [etransitivity; eassumption|].
    split; [eapply frame_eq_nonneg_prizes; eassumption|exact H3].
Qed.

End Lawful.

(** With a lawful library at hand, turns what is known of the worlds
    into facts about the graphs and the offsets. *)
Ltac to_shrinks Hl :=
  repeat match goal with
    | H : world_ok _ _ |- _ => destruct H as [_ H]
    | H : graph_ok _ _ |- _ => unfold graph_ok in H
    | H : fixed_le _ _ |- _ => unfold fixed_le in H
    | H : lawful → _ |- _ => specialize (H Hl)
    | H : shrinks _ _ ∧ _ |- _ => destruct H as [H _]
    end.

Ltac chain_shrinks :=
  solve [ repeat (etransitivity; [eassumption|]); reflexivity ].

Ltac finish_lawful Hl :=
  to_shrinks Hl; cbn [fst snd step_val] in *;
  split; [chain_shrinks|cbn in *; lra].

(** Chains what is known of the graphs met on the way. *)
Ltac chain_graphs :=
  solve [ repeat (etransitivity;
                  [first [eassumption
                         |apply world_ok_graph_ok; eassumption]|]);
          reflexivity ].

Section PcLawful.
Context {Env : Type} {lib : Library Env}.
Variables (fuel : nat) (dualascent tryrpc : bool) (reductbound : Z)
  (userec nodereplacing : bool) (timelimit prizesum : Q).

(** The conversion block: the graph does not grow, the offset does not
    go down, and a graph that is not rooted in the end has kept its
    prizes. *)
Lemma Pc_round_convert_lawful rounds rpc v (w : World Env) r w' :
  Pc.round_convert dualascent tryrpc nodereplacing prizesum rounds rpc v w
    = Done r w' →
  lawful → (rpc = false → rooted_prizes (graph w)) →
  shrinks (graph w) (graph w')
  ∧ (fst (snd r) = false → rooted_prizes (graph w'))
  ∧ (Pc.fix_ v <= Pc.fix_ (snd (snd r)))%Q.
Proof.
  unfold Pc.round_convert. intros H Hl Hp.
  apply bind_done in H as (g & w0 & Hg & H).
  apply get_graph_spec in Hg as [-> ->].
  destruct (_ && _ && _ && _) eqn:Ec.
  - apply andb_prop in Ec as [Ec _]. apply andb_prop in Ec as [Ec _].
    apply andb_prop in Ec as [_ Ec]. apply negb_true_iff in Ec.
    specialize (Hp Ec).
    apply bind_done in H as (io1 & w1 & H1 & H).
    apply call_void_spec in H1 as [[_ H1] _]; [|discriminate].
    destruct (H1 Hl) as [Hs1 Hp1].
    apply bind_done in H as (io2 & w2 & H2 & H).
    apply call_conversion_spec in H2 as [_ H2].
    destruct (H2 Hl) as [Hs2 Hp2].
    apply bind_done in H as (g2 & w2' & Hg & H).
    apply get_graph_spec in Hg as [-> ->].
    apply bind_done in H as (r1 & w3 & H3 & H).
    apply bind_done in H as (io4 & w4 & H4 & H).
    apply call_void_spec in H4 as [[_ H4] _]; [|discriminate].
    destruct (H4 Hl) as [Hs4 Hp4].
    apply mret_spec in H as [-> ->]. cbn [fst snd].
    destruct (bool_decide (stp_type (graph w2) = STP_RPCSPG)) eqn:Et.
    + apply bool_decide_eq_true in Et.
      apply bind_done in H3 as (fix' & w3' & H3 & H).
      apply mret_spec in H as [-> ->]. cbn [fst snd].
      apply level0RpcRmwM_lawful in H3 as (Hs3 & Hp3 & Hf3);
        [|exact Hl|apply Hp2; [apply Hp1, Hp|exact Et]].
      split; [|split].
      * etransitivity; [exact Hs1|]. etransitivity; [exact Hs2|].
        etransitivity; eassumption.
      * discriminate.
      * cbn. exact Hf3.
    + apply mret_spec in H3 as [-> ->]. cbn [fst snd].
      split; [|split; [auto|apply Qle_refl]].
      etransitivity; [exact Hs1|]. etransitivity; eassumption.
  - apply mret_spec in H as [-> ->]. cbn.
    split; [reflexivity|]. split; [exact Hp|apply Qle_refl].
Qed.

Lemma Pc_round_lawful rounds s (w : World Env) r w' :
  Pc.round fuel dualascent tryrpc reductbound userec nodereplacing timelimit
    prizesum rounds s w = Done r w' →
  lawful → (fst s = false → rooted_prizes (graph w)) →
  shrinks (graph w) (graph w')
  ∧ (fst (snd (step_val r)) = false → rooted_prizes (graph w'))
  ∧ (Pc.fix_ (snd s) <= Pc.fix_ (snd (snd (step_val r))))%Q.
Proof.
  unfold Pc.round. intros H Hl Hp.
  apply bind_done in H as (r1 & w1 & H1 & H).
  apply Pc_round_tests_spec in H1 as [[_ Hw1] (_ & _ & Hf1)].
  destruct (Hw1 Hl) as [Hs1 Hp1]. specialize (Hf1 Hl).
  destruct r1 as [v1|v1]; cbn [step_val] in Hf1.
  - apply bind_done in H as (v2 & w2 & H2 & H).
    apply Pc_round_advanced_spec in H2 as [[_ Hw2] Hf2].
    destruct (Hw2 Hl) as [Hs2 Hp2]. specialize (Hf2 Hl).
    apply bind_done in H as (v3 & w3 & H3 & H).
    assert (H3' : (shrinks (graph w2) (graph w3)
                   ∧ (rooted_prizes (graph w2) → rooted_prizes (graph w3)))
                  ∧ (Pc.fix_ v2 <= Pc.fix_ v3)%Q).
    { destruct (negb (Pc.rerun v2) || bool_decide (rounds = STP_RED_MAXNROUNDS - 1)).
      - apply Pc_simple_pc_spec in H3 as [[_ Hw3] (_ & _ & Hf3)]. auto.
      - apply mret_spec in H3 as [-> ->].
        split; [split; [reflexivity|auto]|apply Qle_refl]. }
    destruct H3' as [[Hs3 Hp3] Hf3].
    apply bind_done in H as (r2 & w4 & H4 & H).
    apply mret_spec in H as [-> ->]. cbn [step_val].
    apply Pc_round_convert_lawful in H4 as (Hs4 & Hp4 & Hf4); [|exact Hl|auto].
    split; [|split; [exact Hp4|lra]].
    etransitivity; [exact Hs1|]. etransitivity; [exact Hs2|].
    etransitivity; eassumption.
  - apply mret_spec in H as [-> ->]. cbn [step_val snd fst].
    split; [exact Hs1|]. split; [auto|exact Hf1].
Qed.

Lemma redLoopPc_rounds_lawful rfuel : ∀ rounds s (w : World Env) r w',
  Pc.redLoopPc_rounds fuel dualascent tryrpc reductbound userec nodereplacing
    timelimit prizesum rfuel rounds s w = Done r w' →
  lawful → (fst s = false → rooted_prizes (graph w)) →
  shrinks (graph w) (graph w')
  ∧ (Pc.fix_ (snd s) <= Pc.fix_ (snd (snd r)))%Q.
Proof.
  unfold Pc.redLoopPc_rounds.
  induction rfuel as [|rfuel IH]; intros rounds s w r w' H Hl Hp.
  - cbn [for_loop] in H. apply bind_done in H as (b & w1 & H1 & H).
    apply Pc_round_cond_spec in H1 as [_ H1]. destruct (H1 Hl) as [Hs1 _].
    destruct b; [discriminate H|]. apply mret_spec in H as [-> ->].
    split; [exact Hs1|apply Qle_refl].
  - cbn [for_loop] in H. apply bind_done in H as (b & w1 & H1 & H).
    apply Pc_round_cond_spec in H1 as [_ H1]. destruct (H1 Hl) as [Hs1 Hp1].
    destruct b; [|apply mret_spec in H as [-> ->];
                  split; [exact Hs1|apply Qle_refl]].
    apply bind_done in H as (r1 & w2 & H2 & H).
    apply Pc_round_lawful in H2 as (Hs2 & Hp2 & Hf2); [|exact Hl|auto].
    destruct r1 as [[i' s']|r1]; cbn [step_val snd fst] in *.
    + apply IH in H as [Hs3 Hf3]; [|exact Hl|exact Hp2].
      split; [|lra]. etransitivity; [exact Hs1|]. etransitivity; eassumption.
    + apply mret_spec in H as [-> ->].
      split; [|exact Hf2]. etransitivity; eassumption.
Qed.

End PcLawful.

Section PackagesLawful.
Context {Env : Type} {lib : Library Env}.

(** [redLoopPc] adds to [*fixed] what its rounds have fixed. *)
Lemma redLoopPc_lawful fuel fixed dualascent bred tryrpc reductbound userec
    nodereplacing (w : World Env) r w' :
  Pc.redLoopPc fuel fixed dualascent bred tryrpc reductbound userec
    nodereplacing w = Done r w' →
  lawful → shrinks (graph w) (graph w') ∧ (fixed <= r)%Q.
Proof.
  unfold Pc.redLoopPc. intros H Hl.
  apply bind_done in H as (g & w0 & Hg & H).
  apply get_graph_spec in Hg as [-> ->].
  destruct (bool_decide (grad (graph w) !!! source (graph w) = 0)).
  { apply mret_spec in H as [-> ->]. split; [reflexivity|apply Qle_refl]. }
  assert (Hp0 : bool_decide (stp_type (graph w) = STP_RPCSPG) = false →
                rooted_prizes (graph w)).
  { intros E Ht. apply bool_decide_eq_false in E. contradiction. }
  apply bind_done in H as (io1 & w1 & H1 & H).
  apply call_spec in H1 as [[_ H1] _]; [|discriminate].
  destruct (H1 Hl) as [Hs1 Hp1].
  apply bind_done in H as (io2 & w2 & H2 & H).
  apply call_void_spec in H2 as [[_ H2] _]; [|discriminate].
  destruct (H2 Hl) as [Hs2 Hp2].
  apply bind_done in H as (io3 & w3 & H3 & H).
  apply call_void_spec in H3 as [[_ H3] _]; [|discriminate].
  destruct (H3 Hl) as [Hs3 Hp3].
  apply bind_done in H as (io4 & w4 & H4 & H).
  apply call_spec in H4 as [[_ H4] _]; [|discriminate].
  destruct (H4 Hl) as [Hs4 Hp4].
  apply bind_done in H as (io5 & w5 & H5 & H).
  apply call_spec in H5 as [[_ H5] Hf5]; [|discriminate].
  destruct (H5 Hl) as [Hs5 Hp5]. specialize (Hf5 Hl). cbn in Hf5.
  apply bind_done in H as (g5 & w5' & Hg & H).
  apply get_graph_spec in Hg as [-> ->].
  apply bind_done in H as (tl & w6 & H6 & H).
  apply getTimelimit_spec in H6 as ->.
  apply bind_done in H as (r1 & w7 & H7 & H).
  apply redLoopPc_rounds_lawful in H7 as [Hs7 Hf7]; [|exact Hl|cbn; auto 10].
  cbn [snd Pc.fix_] in Hf7.
  apply bind_done in H as (io8 & w8 & H8 & H).
  assert (Hs8 : shrinks (graph w7) (graph w8)).
  { destruct (dualascent && tryrpc).
    - apply call_spec in H8 as [[_ H8] _]; [|discriminate]. apply (H8 Hl).
    - apply mret_spec in H8 as [-> ->]. reflexivity. }
  apply bind_done in H as (io9 & w9 & H9 & H).
  apply call_void_spec in H9 as [[_ H9] _]; [|discriminate].
  destruct (H9 Hl) as [Hs9 _].
  apply bind_done in H as (io10 & w10 & H10 & H).
  apply call_void_spec in H10 as [[_ H10] _]; [|discriminate].
  destruct (H10 Hl) as [Hs10 _].
  apply bind_done in H as (io11 & w11 & H11 & H).
  apply call_void_spec in H11 as [[_ H11] _]; [|discriminate].
  destruct (H11 Hl) as [Hs11 _].
  apply bind_done in H as (io12 & w12 & H12 & H).
  apply call_void_spec in H12 as [[_ H12] _]; [|discriminate].
  destruct (H12 Hl) as [Hs12 _].
  apply mret_spec in H as [-> ->].
  split; [|lra].
  repeat (etransitivity; [eassumption|]). reflexivity.
Qed.

Lemma few_terminals_spec x (w : World Env) b w' :
  few_terminals x w = Done b w' → w' = w.
Proof. unfold few_terminals. intros H. minv H. reflexivity. Qed.

Lemma reducePc_lawful fuel fixed minelims advanced userec nodereplacing
    (w : World Env) r w' :
  reducePc fuel fixed minelims advanced userec nodereplacing w = Done r w' →
  lawful → shrinks (graph w) (graph w') ∧ (fixed <= r)%Q.
Proof.
  unfold reducePc. intros H Hl.
  apply bind_done in H as (g & w0 & Hg & H).
  apply get_graph_spec in Hg as [-> ->].
  apply bind_done in H as (tl & w1 & H1 & H).
  apply getTimelimit_spec in H1 as ->.
  apply bind_done in H as (b & w2 & H2 & H).
  apply few_terminals_spec in H2 as ->.
  apply redLoopPc_lawful in H; [exact H|exact Hl].
Qed.

Lemma reduceStp_lawful fuel fixed minelims dualascent nodereplacing userec
    (w : World Env) r w' :
  reduceStp fuel fixed minelims dualascent nodereplacing userec w = Done r w' →
  lawful → shrinks (graph w) (graph w') ∧ (fixed <= r)%Q.
Proof.
  unfold reduceStp. intros H Hl.
  apply bind_done in H as (g & w0 & Hg & H).
  apply get_graph_spec in Hg as [-> ->].
  apply bind_done in H as (b & w2 & H2 & H).
  apply few_terminals_spec in H2 as ->.
  apply redLoopStp_spec in H as [H1 H2]. finish_lawful Hl.
Qed.

Lemma redLoopMw_lawful fuel fixed advanced bred tryrmw redbound userec
    (w : World Env) r w' :
  Mw.redLoopMw fuel fixed advanced bred tryrmw redbound userec w = Done r w' →
  lawful → shrinks (graph w) (graph w') ∧ (fixed <= r)%Q.
Proof.
  unfold Mw.redLoopMw. cbv zeta. intros H Hl.
  apply bind_done in H as (io1 & w1 & H1 & H).
  apply bind_done in H as (tl & w2 & H2 & H).
  apply getTimelimit_spec in H2 as ->.
  apply bind_done in H as (io3 & w3 & H3 & H).
  apply bind_done in H as (v4 & w4 & H4 & H).
  apply simple_mw_spec in H4 as [Hw4 (_ & _ & Hf4)].
  apply bind_done in H as (g & w0 & Hg & H).
  apply get_graph_spec in Hg as [-> ->].
  apply bind_done in H as (r5 & w5 & H5 & H).
  apply redLoopMw_rounds_spec in H5 as [Hw5 Hf5].
  apply bind_done in H as (v6 & w6 & H6 & H).
  apply simple_mw_spec in H6 as [Hw6 (_ & _ & Hf6)].
  apply bind_done in H as (io7 & w7 & H7 & H).
  apply bind_done in H as (u8 & w8 & H8 & H).
  apply bind_done in H as (g & w0 & Hg & H).
  apply get_graph_spec in Hg as [-> ->].
  apply bind_done in H as (io9 & w9 & H9 & H).
  assert (Hw9 : graph_ok w8 w9).
  { destruct (_ && _).
    - apply call_conversion_spec in H9 as [_ H9]. exact H9.
    - apply mret_spec in H9 as [-> ->]. reflexivity. }
  apply bind_done in H as (io10 & w10 & H10 & H).
  apply mret_spec in H as [-> ->].
  use_calls. finish_lawful Hl.
Qed.

Lemma reduceMw_lawful fuel fixed minelims advanced userec
    (w : World Env) r w' :
  reduceMw fuel fixed minelims advanced userec w = Done r w' →
  lawful → shrinks (graph w) (graph w') ∧ (fixed <= r)%Q.
Proof.
  unfold reduceMw. intros H Hl.
  apply bind_done in H as (g & w0 & Hg & H).
  apply get_graph_spec in Hg as [-> ->].
  apply bind_done in H as (b & w2 & H2 & H).
  apply few_terminals_spec in H2 as ->.
  apply redLoopMw_lawful in H; [exact H|exact Hl].
Qed.

Lemma reduceHc_round_spec redbound timelimit v (w : World Env) r w' :
  reduceHc_round redbound timelimit v w = Done r w' →
  world_ok w w' ∧ fixed_le (hc_fixed v) (hc_fixed (step_val r)).
Proof.
  unfold reduceHc_round. intros H. minv H.
  all: use_calls; cbn [fst snd step_val] in *.
  all: split; [chain_worlds|].
  all: repeat match goal with
         | |- context [if ?c then _ else _] => destruct c
         end.
  all: intros Hl; to_shrinks Hl; cbn in *; lra.
Qed.

Lemma reduceHc_lawful fuel fixed minelims (w : World Env) r w' :
  reduceHc fuel fixed minelims w = Done r w' →
  lawful → shrinks (graph w) (graph w') ∧ (fixed <= r)%Q.
Proof.
  unfold reduceHc. intros H Hl.
  apply bind_done in H as (g & w0 & Hg & H).
  apply get_graph_spec in Hg as [-> ->].
  apply bind_done in H as (tl & w1 & H1 & H).
  apply getTimelimit_spec in H1 as ->.
  apply bind_done in H as (io2 & w2 & H2 & H).
  apply bind_done in H as (r3 & w3 & H3 & H).
  apply mret_spec in H as [-> ->].
  assert (HP : PreOrder (λ v v' : HcVars, fixed_le (hc_fixed v) (hc_fixed v'))).
  { split; [intros ?; reflexivity|intros ? ? ? ? ?; etransitivity; eassumption]. }
  apply (@for_loop_inv _ _ _ _ HP) in H3 as [Hw3 Hf3].
  2:{ clear. intros i s wa ra wb H.
      apply (keep_counter_inv
               (λ v v' : HcVars, fixed_le (hc_fixed v) (hc_fixed v'))) in H;
        [exact H|].
      intros rc wc H1. apply reduceHc_round_spec in H1. exact H1. }
  2:{ clear. intros i s wa b wb H. minv H; use_calls; chain_worlds. }
  use_calls. finish_lawful Hl.
Qed.

Lemma sap_costs_shrinks e g : shrinks g (sap_costs e g).
Proof.
  unfold sap_costs. generalize (seq 0 (edges g)). intros l.
  assert (H : ∀ g0, shrinks g g0 →
              shrinks g (foldl (λ g a, if SCIPisEQ e (cost g !!! a) 20000
                                       then set_cost g (<[a := FARAWAY]> (cost g))
                                       else g) g0 l)).
  { induction l as [|a l IH]; intros g0 H0; cbn [foldl]; [exact H0|].
    apply IH. destruct (SCIPisEQ _ _ _); [|exact H0].
    etransitivity; [exact H0|]. apply same_counts_shrinks; reflexivity. }
  apply H. reflexivity.
Qed.

Lemma reduceSap_round_spec redbound timelimit v (w : World Env) r w' :
  reduceSap_round redbound timelimit v w = Done r w' →
  world_ok w w' ∧ fixed_le (sap_fixed v) (sap_fixed (step_val r)).
Proof.
  unfold reduceSap_round. intros H. minv H.
  all: use_calls; cbn [fst snd step_val] in *.
  all: split; [chain_worlds|].
  all: repeat match goal with
         | |- context [if ?c then _ else _] => destruct c
         end.
  all: intros Hl; to_shrinks Hl; cbn in *; lra.
Qed.

Lemma reduceSap_lawful fuel fixed minelims (w : World Env) r w' :
  reduceSap fuel fixed minelims w = Done r w' →
  lawful → shrinks (graph w) (graph w') ∧ (fixed <= r)%Q.
Proof.
  unfold reduceSap. intros H Hl.
  apply bind_done in H as (io1 & w1 & H1 & H).
  apply bind_done in H as (g & w0 & Hg & H).
  apply get_graph_spec in Hg as [-> ->].
  apply bind_done in H as (tl & w2 & H2 & H).
  apply getTimelimit_spec in H2 as ->.
  apply bind_done in H as (u & w3 & H3 & H).
  assert (Hs3 : shrinks (graph w1) (graph w3)).
  { inversion H3; subst. cbn [graph]. apply sap_costs_shrinks. }
  clear H3.
  apply bind_done in H as (io4 & w4 & H4 & H).
  apply bind_done in H as (r5 & w5 & H5 & H).
  assert (HP : PreOrder (λ v v' : SapVars, fixed_le (sap_fixed v) (sap_fixed v'))).
  { split; [intros ?; reflexivity|intros ? ? ? ? ?; etransitivity; eassumption]. }
  apply (@for_loop_inv _ _ _ _ HP) in H5 as [Hw5 Hf5].
  2:{ clear. intros i s wa ra wb H.
      apply (keep_counter_inv
               (λ v v' : SapVars, fixed_le (sap_fixed v) (sap_fixed v'))) in H;
        [exact H|].
      intros rc wc H1. apply reduceSap_round_spec in H1. exact H1. }
  2:{ clear. intros i s wa b wb H. minv H; use_calls; chain_worlds. }
  apply bind_done in H as (io6 & w6 & H6 & H).
  apply bind_done in H as (io7 & w7 & H7 & H).
  apply mret_spec in H as [-> ->].
  use_calls. finish_lawful Hl.
Qed.

Lemma reduceNw_lawful fuel fixed minelims (w : World Env) r w' :
  reduceNw fuel fixed minelims w = Done r w' →
  lawful → shrinks (graph w) (graph w') ∧ (fixed <= r)%Q.
Proof.
  unfold reduceNw. intros H Hl.
  apply bind_done in H as (io1 & w1 & H1 & H).
  apply bind_done in H as (g & w0 & Hg & H).
  apply get_graph_spec in Hg as [-> ->].
  apply bind_done in H as (tl & w2 & H2 & H).
  apply getTimelimit_spec in H2 as ->.
  apply bind_done in H as (r5 & w5 & H5 & H).
  assert (HP : PreOrder (λ s s' : bool * Q * Q, fixed_le (snd s) (snd s'))).
  { split; [intros ?; reflexivity|intros ? ? ? ? ?; etransitivity; eassumption]. }
  apply (@for_loop_inv _ _ _ _ HP) in H5 as [Hw5 Hf5].
  2:{ clear. intros i s wa ra wb H.
      apply (keep_counter_inv
               (λ s s' : bool * Q * Q, fixed_le (snd s) (snd s'))) in H;
        [exact H|].
      intros rc wc H1. minv H1; use_calls; cbn [step_val snd].
      - split; [chain_worlds|reflexivity].
      - split; [chain_worlds|]. intros Hl. to_shrinks Hl. cbn in *. lra. }
  2:{ clear. intros i s wa b wb H. minv H; use_calls; chain_worlds. }
  apply bind_done in H as (io7 & w7 & H7 & H).
  apply mret_spec in H as [-> ->].
  use_calls. finish_lawful Hl.
Qed.

(** C1: with a library whose calls neither add nodes or edges nor lower
    the offset, and keep the prizes of a rooted prize-collecting graph
    non-negative, a call to [reduce] that returns [SCIP_OKAY] leaves a
    graph whose counts have not grown ([g->knots], [g->edges], the nodes
    of positive degree and the arcs still chained) and an offset
    that is not negative: it starts at 0 and no step lowers it. *)
Theorem reduce_monotone fuel level minelims userec (w : World Env) offset w' :
  lawful →
  reduce fuel level minelims userec w = Done offset w' →
  (knots (graph w') ≤ knots (graph w))%nat
  ∧ (edges (graph w') ≤ edges (graph w))%nat
  ∧ (nodes_left (graph w') ≤ nodes_left (graph w))%nat
  ∧ (arcs_left (graph w') ≤ arcs_left (graph w))%nat
  ∧ (0 <= offset)%Q.
Proof.
  intros Hl H.
  cut (shrinks (graph w) (graph w') ∧ (0 <= offset)%Q).
  { unfold shrinks. tauto. }
  unfold reduce in H.
  apply bind_done in H as (g & w0 & Hg & H).
  apply get_graph_spec in Hg as [-> ->].
  apply bind_done in H as (io1 & w1 & H1 & H).
  apply bind_done in H as (io2 & w2 & H2 & H).
  apply bind_done in H as (u3 & w3 & H3 & H).
  apply bind_done in H as (g & w0 & Hg & H).
  apply get_graph_spec in Hg as [-> ->].
  destruct (_ || _ || _ || _).
  { apply bind_done in H as (io4 & w4 & H4 & H).
    apply mret_spec in H as [-> ->]. use_calls. finish_lawful Hl. }
  apply bind_done in H as (off & w4 & H4 & H).
  apply bind_done in H as (u5 & w5 & H5 & H).
  apply bind_done in H as (io6 & w6 & H6 & H).
  apply mret_spec in H as [-> ->].
  assert (H4' : shrinks (graph w3) (graph w4) ∧ (0 <= off)%Q).
  { repeat match type of H4 with
      | (if ?c then _ else _) _ = _ => destruct c
      end.
    all: first
      [ apply reducePc_lawful in H4; [exact H4|exact Hl]
      | apply reduceMw_lawful in H4; [exact H4|exact Hl]
      | apply reduceHc_lawful in H4; [exact H4|exact Hl]
      | apply reduceSap_lawful in H4; [exact H4|exact Hl]
      | apply reduceNw_lawful in H4; [exact H4|exact Hl]
      | apply reduceStp_lawful in H4; [exact H4|exact Hl]
      | apply mret_spec in H4 as [-> ->];
        split; [reflexivity|apply Qle_refl] ]. }
  destruct H4' as [Hs4 Hf4].
  use_calls. to_shrinks Hl. split; [chain_shrinks|exact Hf4].
Qed.

End PackagesLawful.

(** The library [quiet] is lawful. *)
Lemma quiet_lawful : lawful (lib := quiet).
Proof.
  split.
  - intros f args io e g rc io' e' g' H. cbn in H. inversion H; subst.
    split; [reflexivity|]. split; [auto|apply Qle_refl].
  - intros g k. cbn. unfold deleteTerm.
    destruct (del_inpedges _ g k) as [g'|] eqn:E; cbn.
    + split; [eapply del_inpedges_shrinks; exact E|].
      apply del_inpedges_frame in E as [E _].
      apply frame_eq_nonneg_prizes. exact E.
    + split; [reflexivity|auto].
Qed.

Lemma reduce_monotone_witness :
  ∃ offset w',
    reduce (lib := quiet) 5 2 0 true (mkWorld tt two_islands [])
    = Done offset w'
    ∧ (knots (graph w') ≤ 4)%nat ∧ (edges (graph w') ≤ 4)%nat
    ∧ (nodes_left (graph w') ≤ 4)%nat ∧ (arcs_left (graph w') ≤ 4)%nat
    ∧ (0 <= offset)%Q.
Proof.
  destruct (reduce (lib := quiet) 5 2 0 true (mkWorld tt two_islands []))
    as [offset w'| |] eqn:E; [|exfalso; vm_compute in E; discriminate E..].
  exists offset, w'. split; [reflexivity|].
  exact (reduce_monotone (lib := quiet) 5 2 0 true
           (mkWorld tt two_islands []) offset w' quiet_lawful E).
Defined.
(** ** The connectivity clean-up, run twice *)

Section Marks.

Lemma unmarked_insert (m : list bool) i :
  m !!! i = false → (i < length m)%nat →
  (unmarked (<[i := true]> m) + 1 = unmarked m)%nat.
Proof.
  unfold unmarked. revert i. induction m as [|b m IH]; intros i Hi Hl.
  - cbn in Hl. lia.
  - destruct i as [|i].
    + cbn in Hi. subst b. cbn [insert list_insert].
      rewrite filter_cons_False by discriminate.
      rewrite filter_cons_True by reflexivity. cbn [length].
      apply Nat.add_1_r.
    + cbn in Hi, Hl. cbn [insert list_insert].
      specialize (IH i Hi ltac:(lia)).
      change (list_insert i true m) with (<[i := true]> m).
      rewrite !filter_cons. destruct (decide (b = false)); cbn [length].
      * cbn [Nat.add]. f_equal. exact IH.
      * exact IH.
Qed.

Lemma unmarked_replicate n : unmarked (replicate n false) = n.
Proof.
  unfold unmarked. induction n as [|n IH]; [reflexivity|].
  cbn [replicate]. rewrite filter_cons_True by reflexivity. cbn [length].
  rewrite IH. reflexivity.
Qed.

Lemma insert_true_lookup (m : list bool) i k :
  m !!! k = true → <[i := true]> m !!! k = true.
Proof.
  intros H. rewrite list_lookup_total_insert.
  destruct (decide _); [reflexivity|exact H].
Qed.

Lemma clear_marks_eq g :
  clear_marks g
  = set_mark g (foldl (λ m k, <[k := false]> m) (mark g) (seq 0 (knots g))).
Proof.
  unfold clear_marks. generalize (seq 0 (knots g)). intros l.
  revert g. induction l as [|k l IH]; intros g; cbn [foldl].
  - destruct g. reflexivity.
  - rewrite IH. reflexivity.
Qed.

Lemma clear_prefix (m : list bool) j :
  (j ≤ length m)%nat →
  foldl (λ m k, <[k := false]> m) m (seq 0 j) = replicate j false ++ drop j m.
Proof.
  induction j as [|j IH]; intros Hj.
  - cbn. rewrite drop_0. reflexivity.
  - rewrite seq_S, foldl_app. cbn [foldl]. rewrite IH by lia. cbn [Nat.add].
    rewrite insert_app_r_alt by (rewrite length_replicate; lia).
    rewrite length_replicate, Nat.sub_diag.
    destruct (drop j m) as [|b m'] eqn:E.
    + apply (f_equal length) in E. rewrite length_drop in E. cbn in E. lia.
    + cbn [insert list_insert].
      assert (Hd : drop (S j) m = m').
      { apply (f_equal (drop 1)) in E. rewrite drop_drop, Nat.add_1_r in E.
        exact E. }
      rewrite Hd. rewrite replicate_S_end, <- app_assoc. reflexivity.
Qed.

Lemma clear_marks_mark g :
  length (mark g) = knots g → mark (clear_marks g) = replicate (knots g) false.
Proof.
  intros H. rewrite clear_marks_eq. cbn [mark set_mark].
  rewrite clear_prefix by lia. rewrite drop_ge, app_nil_r by lia. reflexivity.
Qed.

End Marks.

Section Trail.
Variable g : GRAPH.

(** What the inner loop of the search does to the marks and the
    stack. *)
Lemma trail_visit_fold l : ∀ m st,
  (∀ a, a ∈ l → (head g !!! a < length m)%nat) →
  let r := foldl (trail_visit g) (m, st) l in
  length (fst r) = length m
  ∧ (∀ k, m !!! k = true → fst r !!! k = true)
  ∧ (∀ a, a ∈ l → fst r !!! (head g !!! a) = true)
  ∧ (∀ k, fst r !!! k = true → m !!! k = true ∨ k ∈ snd r)
  ∧ (∀ k, k ∈ st → k ∈ snd r)
  ∧ (∀ k, k ∈ snd r → k ∈ st ∨ (fst r !!! k = true ∧ (k < length m)%nat))
  ∧ (unmarked (fst r) + length (snd r) = unmarked m + length st)%nat.
Proof.
  induction l as [|a l IH]; intros m st Hr; cbv zeta; cbn [foldl].
  - cbn. repeat split; auto. intros a Ha. apply elem_of_nil in Ha. contradiction.
  - assert (Ha : (head g !!! a < length m)%nat) by (apply Hr; left).
    assert (E : trail_visit g (m, st) a
                = if (m !!! (head g !!! a) : bool) then (m, st)
                  else (<[head g !!! a := true]> m, head g !!! a :: st))
      by reflexivity.
    rewrite E. clear E.
    destruct (m !!! (head g !!! a)) eqn:Em.
    + destruct (IH m st) as (I1 & I2 & I3 & I4 & I5 & I6 & I7).
      { intros a' Ha'. apply Hr. right. exact Ha'. }
      split; [exact I1|]. split; [exact I2|]. split.
      { intros a' Ha'. apply elem_of_cons in Ha' as [->|Ha']; auto. }
      split; [exact I4|]. split; [exact I5|]. split; [exact I6|exact I7].
    + destruct (IH (<[head g !!! a := true]> m) (head g !!! a :: st))
        as (I1 & I2 & I3 & I4 & I5 & I6 & I7).
      { intros a' Ha'. rewrite length_insert. apply Hr. right. exact Ha'. }
      assert (Hm1 : <[head g !!! a := true]> m !!! (head g !!! a) = true).
      { rewrite list_lookup_total_insert.
        destruct (decide _) as [_|Hn]; [reflexivity|].
        exfalso. apply Hn. split; [reflexivity|exact Ha]. }
      rewrite length_insert in I1.
      split; [exact I1|]. split.
      { intros k Hk. apply I2, insert_true_lookup, Hk. }
      split.
      { intros a' Ha'. apply elem_of_cons in Ha' as [->|Ha']; auto. }
      split.
      { intros k Hk. apply I4 in Hk as [Hk|Hk]; [|right; exact Hk].
        rewrite list_lookup_total_insert in Hk.
        destruct (decide _) as [[<- _]|_]; [|left; exact Hk].
        right. apply I5. left. }
      split.
      { intros k Hk. apply I5. right. exact Hk. }
      split.
      { intros k Hk. apply I6 in Hk as [Hk|[Hk Hlt]].
        - apply elem_of_cons in Hk as [->|Hk]; [|left; exact Hk].
          right. split; [apply I2; exact Hm1|exact Ha].
        - right. split; [exact Hk|]. rewrite length_insert in Hlt. exact Hlt. }
      rewrite I7. cbn [length].
      pose proof (unmarked_insert m _ Em Ha) as Hu.
      rewrite <- Hu. rewrite <- !Nat.add_assoc. reflexivity.
Qed.

(** The search comes to its end when there is fuel for every node that
    is on the stack or still without a mark. *)
Lemma trail_loop_total fuel : ∀ m st,
  (∀ k a, a ∈ outl g !!! k → (head g !!! a < length m)%nat) →
  (unmarked m + length st ≤ fuel)%nat →
  ∃ m', trail_loop fuel g m st = Some m'.
Proof.
  induction fuel as [|fuel IH]; intros m st Hr Hf.
  - destruct st as [|node st]; [exists m; reflexivity|]. cbn in Hf. lia.
  - destruct st as [|node st]; [exists m; reflexivity|]. cbn [trail_loop].
    destruct (trail_visit_fold (outl g !!! node) m st)
      as (I1 & _ & _ & _ & _ & _ & I7).
    { intros a Ha. eapply Hr. exact Ha. }
    cbv zeta in I1, I7. apply IH.
    + intros k a Ha. rewrite I1. eapply Hr. exact Ha.
    + rewrite I7. cbn [length] in Hf. lia.
Qed.

(** Marks are never taken back, and at the end they are closed under
    the arcs. *)
Lemma trail_loop_spec fuel : ∀ m st m',
  (∀ k a, a ∈ outl g !!! k → (head g !!! a < length m)%nat) →
  trail_loop fuel g m st = Some m' →
  length m' = length m
  ∧ (∀ k, m !!! k = true → m' !!! k = true)
  ∧ ((∀ k, (k < length m)%nat → m !!! k = true →
           k ∈ st ∨ ∀ a, a ∈ outl g !!! k → m !!! (head g !!! a) = true) →
     marks_closed g m').
Proof.
  induction fuel as [|fuel IH]; intros m st m' Hr H.
  - destruct st as [|node st]; [|discriminate H].
    cbn in H. inversion H; subst. split; [reflexivity|]. split; [auto|].
    intros Hinv k a Hlt Hk Ha. destruct (Hinv k Hlt Hk) as [Hin|Hc]; [|auto].
    apply elem_of_nil in Hin. contradiction.
  - destruct st as [|node st].
    { cbn in H. inversion H; subst. split; [reflexivity|]. split; [auto|].
      intros Hinv k a Hlt Hk Ha. destruct (Hinv k Hlt Hk) as [Hin|Hc]; [|auto].
      apply elem_of_nil in Hin. contradiction. }
    cbn [trail_loop] in H.
    destruct (trail_visit_fold (outl g !!! node) m st)
      as (I1 & I2 & I3 & I4 & I5 & I6 & _).
    { intros a Ha. eapply Hr. exact Ha. }
    cbv zeta in I1, I2, I3, I4, I5, I6.
    apply IH in H as (J1 & J2 & J3).
    2:{ intros k a Ha. rewrite I1. eapply Hr. exact Ha. }
    split; [congruence|]. split; [auto|].
    intros Hinv. apply J3. intros k Hlt Hk. rewrite I1 in Hlt.
    destruct (I4 k Hk) as [Hm|Hs]; [|left; exact Hs].
    destruct (Hinv k Hlt Hm) as [Hin|Hc].
    + apply elem_of_cons in Hin as [->|Hin]; [|left; apply I5, Hin].
      right. exact I3.
    + right. intros a Ha. apply I2, Hc, Ha.
Qed.

End Trail.

(** The search gives the same marks on a graph that has the same heads
    and, at the nodes that get a mark, the same out-lists. *)
Lemma trail_loop_agree g g2 fuel : ∀ m st m',
  (∀ k a, a ∈ outl g !!! k → (head g !!! a < length m)%nat) →
  head g2 = head g →
  trail_loop fuel g m st = Some m' →
  (∀ k, k ∈ st → m !!! k = true ∧ (k < length m)%nat) →
  (∀ k, (k < length m)%nat → m' !!! k = true →
        outl g2 !!! k = outl g !!! k) →
  trail_loop fuel g2 m st = Some m'.
Proof.
  intros m st m' Hr Hh. revert m st m' Hr.
  induction fuel as [|fuel IH]; intros m st m' Hr H Hst Ho.
  - destruct st as [|node st]; [exact H|discriminate H].
  - destruct st as [|node st]; [exact H|]. cbn [trail_loop] in H |- *.
    destruct (trail_visit_fold g (outl g !!! node) m st)
      as (I1 & I2 & _ & _ & _ & I6 & _).
    { intros a Ha. eapply Hr. exact Ha. }
    cbv zeta in I1, I2, I6.
    pose proof H as H'. apply trail_loop_spec in H' as (_ & J2 & _).
    2:{ intros k a Ha. rewrite I1. eapply Hr. exact Ha. }
    assert (Hnode : m' !!! node = true) by (apply J2, I2, Hst; left).
    rewrite (Ho node (proj2 (Hst node ltac:(left))) Hnode).
    assert (Hv : trail_visit g2 = trail_visit g).
    { unfold trail_visit. rewrite Hh. reflexivity. }
    rewrite Hv. apply IH.
    + intros k a Ha. rewrite I1. eapply Hr. exact Ha.
    + exact H.
    + intros k Hk. rewrite I1. apply I6 in Hk as [Hk|Hk]; [|exact Hk].
      split; [apply I2|]; apply Hst; right; exact Hk.
    + rewrite I1. exact Ho.
Qed.

(** *** Deletions *)

Lemma filter_not_in (l : list nat) x : x ∉ l → filter (λ y, y ≠ x) l = l.
Proof.
  induction l as [|y l IH]; intros H; [reflexivity|].
  apply not_elem_of_cons in H as [Hne Hin].
  rewrite filter_cons_True by (intros ->; apply Hne; reflexivity).
  rewrite IH by exact Hin. reflexivity.
Qed.

Lemma flipedge_pair e :
  ((e - e mod 2)%nat = e ∧ S (e - e mod 2) = flipedge e)
  ∨ ((e - e mod 2)%nat = flipedge e ∧ S (e - e mod 2) = e).
Proof.
  unfold flipedge. destruct (Nat.even e) eqn:E.
  - left. apply Nat.even_spec in E as [q ->].
    replace ((2 * q) mod 2)%nat with 0%nat; [lia|].
    symmetry. rewrite Nat.mul_comm. apply Nat.Div0.mod_mul.
  - right. assert (Ho : Nat.odd e = true).
    { rewrite <- Nat.negb_even, E. reflexivity. }
    apply Nat.odd_spec in Ho as [q ->].
    replace ((2 * q + 1) mod 2)%nat with 1%nat; [lia|].
    symmetry. rewrite Nat.add_comm, Nat.mul_comm, Nat.Div0.mod_add. reflexivity.
Qed.

Lemma nonempty_lookup_lt {A} (l : list (list A)) k x :
  x ∈ l !!! k → (k < length l)%nat.
Proof.
  intros H. destruct (decide (k < length l)%nat) as [Hlt|Hge]; [exact Hlt|].
  rewrite list_lookup_total_alt, lookup_ge_None_2 in H by lia.
  apply elem_of_nil in H. contradiction.
Qed.

Lemma removeEdge_inl_sub g x k : inl (removeEdge g x) !!! k ⊆ inl g !!! k.
Proof.
  unfold removeEdge. cbn. rewrite list_lookup_total_alter.
  destruct (decide _) as [[-> _]|_]; [apply list_subseteq_filter|reflexivity].
Qed.

Lemma removeEdge_inl_length g x k :
  (length (inl (removeEdge g x) !!! k) ≤ length (inl g !!! k))%nat.
Proof.
  unfold removeEdge. cbn. rewrite list_lookup_total_alter.
  destruct (decide _) as [[-> _]|_]; [apply length_filter|reflexivity].
Qed.

Lemma removeEdge_inl_lt g x k :
  x ∈ inl g !!! k → head g !!! x = k →
  (length (inl (removeEdge g x) !!! k) < length (inl g !!! k))%nat.
Proof.
  intros Hin Hh. unfold removeEdge. cbn. rewrite list_lookup_total_alter.
  destruct (decide _) as [[_ _]|Hn].
  - rewrite Hh. apply (length_filter_lt _ _ x); [exact Hin|]. intros H. apply H. reflexivity.
  - exfalso. apply Hn. split; [exact Hh|].
    rewrite Hh. eapply nonempty_lookup_lt. exact Hin.
Qed.

Lemma removeEdge_outl g x u :
  (tail g !!! x = u → x ∉ outl g !!! u) →
  outl (removeEdge g x) !!! u = outl g !!! u.
Proof.
  intros H. unfold removeEdge. cbn. rewrite list_lookup_total_alter.
  destruct (decide _) as [[Ht _]|_]; [|reflexivity].
  rewrite Ht. apply filter_not_in, H, Ht.
Qed.

Lemma pred_lookup_le (l : list Z) i k : alter Z.pred i l !!! k ≤ l !!! k.
Proof.
  rewrite list_lookup_total_alter. destruct (decide _) as [[-> _]|_]; lia.
Qed.

Lemma dels_refl m g : dels m g g.
Proof.
  split; [apply frame_eq_refl|]. split; [reflexivity|].
  split; [intros k; reflexivity|]. split; [intros k; lia|reflexivity].
Qed.

Lemma dels_trans m g1 g2 g3 : dels m g1 g2 → dels m g2 g3 → dels m g1 g3.
Proof.
  intros (F1 & M1 & I1 & G1 & O1) (F2 & M2 & I2 & G2 & O2).
  split; [eapply frame_eq_trans; eassumption|]. split; [congruence|].
  split; [intros k; etransitivity; [apply I2|apply I1]|].
  split; [intros k; specialize (G1 k); specialize (G2 k); lia|].
  intros u Hlt Hu. rewrite O2, O1 by assumption. reflexivity.
Qed.

(** What the deletions keep of the shape of the graph. *)
Lemma dels_keeps m g g' :
  dels m g g' →
  marks_closed g m → arcs_at_head g → twins_at_tail g →
  marks_closed g' m ∧ arcs_at_head g' ∧ twins_at_tail g'.
Proof.
  intros (F & _ & I & _ & O) Hc Ha Ht.
  destruct F as (_ & _ & _ & _ & _ & _ & _ & _ & _ & Hh & Htl & _).
  split; [|split].
  - intros k a Hlt Hk Hin. rewrite Hh. rewrite (O k Hlt Hk) in Hin.
    eapply Hc; eassumption.
  - intros k e Hin. rewrite Hh. apply Ha, I, Hin.
  - intros k e Hin. rewrite Htl. apply Ht, I, Hin.
Qed.

(** The deletion of the edge of an arc into a node without a mark. *)
Lemma graph_edge_del_dels m g k e :
  marks_closed g m → arcs_at_head g → twins_at_tail g →
  m !!! k = false → e ∈ inl g !!! k →
  dels m g (graph_edge_del g e)
  ∧ (length (inl (graph_edge_del g e) !!! k) < length (inl g !!! k))%nat.
Proof.
  intros Hc Ha Ht Hk Hin.
  pose proof (Ha k e Hin) as Hhead. pose proof (Ht k e Hin) as Htail.
  unfold graph_edge_del. cbv zeta.
  set (e0 := (e - e mod 2)%nat).
  set (g1 := set_grad g _).
  assert (Hout : ∀ x u, x = e ∨ x = flipedge e →
                        (u < length m)%nat → m !!! u = true →
                        tail g !!! x = u → x ∉ outl g !!! u).
  { intros x u [->| ->] Hlt Hu Hx Hin'.
    - pose proof (Hc u e Hlt Hu Hin') as Hm. rewrite Hhead in Hm. congruence.
    - rewrite Htail in Hx. congruence. }
  split.
  - split; [repeat split|]. split; [reflexivity|]. split; [|split].
    + intros j. etransitivity; [apply removeEdge_inl_sub|].
      etransitivity; [apply removeEdge_inl_sub|]. reflexivity.
    + intros j. cbn. etransitivity; apply pred_lookup_le.
    + intros u Hlt Hu.
      assert (He0 : e0 = e ∨ e0 = flipedge e)
        by (destruct (flipedge_pair e) as [[? _]|[? _]]; auto).
      assert (He1 : S e0 = e ∨ S e0 = flipedge e)
        by (destruct (flipedge_pair e) as [[_ ?]|[_ ?]]; auto).
      rewrite removeEdge_outl.
      * rewrite removeEdge_outl; [reflexivity|].
        intros Hx. apply (Hout e0 u He0 Hlt Hu Hx).
      * intros Hx. rewrite removeEdge_outl.
        -- apply (Hout (S e0) u He1 Hlt Hu Hx).
        -- intros Hx'. apply (Hout e0 u He0 Hlt Hu Hx').
  - destruct (flipedge_pair e) as [[He0 He1]|[He0 He1]]; fold e0 in He0, He1.
    + eapply Nat.le_lt_trans; [apply removeEdge_inl_length|].
      rewrite He0. apply (removeEdge_inl_lt g1 e k); [exact Hin|exact Hhead].
    + rewrite He1. eapply Nat.lt_le_trans.
      * apply (removeEdge_inl_lt (removeEdge g1 e0) e k); [|exact Hhead].
        unfold removeEdge. cbn. rewrite list_lookup_total_alter.
        destruct (decide _) as [[Heq _]|_]; [|exact Hin].
        cbn in Heq. rewrite Heq.
        apply list_elem_of_filter. split; [|exact Hin].
        intros H. clearbody e0. lia.
      * apply (removeEdge_inl_length g1 e0 k).
Qed.

Lemma del_inpedges_dels m k fuel : ∀ g,
  marks_closed g m → arcs_at_head g → twins_at_tail g →
  m !!! k = false → (length (inl g !!! k) ≤ fuel)%nat →
  ∃ g', del_inpedges fuel g k = Some g' ∧ dels m g g' ∧ inl g' !!! k = [].
Proof.
  induction fuel as [|fuel IH]; intros g Hc Ha Ht Hk Hf.
  - destruct (inl g !!! k) as [|e l] eqn:E; [|cbn in Hf; lia].
    exists g. split; [cbn; rewrite E; reflexivity|].
    split; [apply dels_refl|exact E].
  - cbn [del_inpedges]. destruct (inl g !!! k) as [|e l] eqn:E.
    + exists g. split; [reflexivity|]. split; [apply dels_refl|exact E].
    + assert (Hin : e ∈ inl g !!! k) by (rewrite E; left).
      destruct (graph_edge_del_dels m g k e Hc Ha Ht Hk Hin) as [Hd Hlt].
      destruct (dels_keeps _ _ _ Hd Hc Ha Ht) as (Hc' & Ha' & Ht').
      destruct (IH (graph_edge_del g e) Hc' Ha' Ht' Hk) as (g' & H1 & H2 & H3).
      { rewrite E in Hlt. cbn [length] in Hlt, Hf. lia. }
      exists g'. split; [exact H1|]. split; [|exact H3].
      eapply dels_trans; eassumption.
Qed.

Lemma level0_nodes_dels m ks : ∀ g,
  marks_closed g m → arcs_at_head g → twins_at_tail g → mark g = m →
  ∃ g', level0_nodes g ks = Some g' ∧ dels m g g'
        ∧ ∀ k, k ∈ ks → m !!! k = false → 0 < grad g' !!! k →
               inl g' !!! k = [].
Proof.
  induction ks as [|k ks IH]; intros g Hc Ha Ht Hm.
  - exists g. split; [reflexivity|]. split; [apply dels_refl|].
    intros k Hk. apply elem_of_nil in Hk. contradiction.
  - cbn [level0_nodes].
    assert (H1 : ∃ g1, level0_node g k = Some g1 ∧ dels m g g1
                       ∧ (m !!! k = false → 0 < grad g !!! k →
                          inl g1 !!! k = [])).
    { unfold level0_node. rewrite Hm.
      destruct (m !!! k) eqn:Ek; cbn [negb andb].
      - exists g. split; [reflexivity|]. split; [apply dels_refl|discriminate].
      - destruct (Z.ltb_spec 0 (grad g !!! k)) as [Hg|Hg].
        + destruct (del_inpedges_dels m k (length (inl g !!! k)) g Hc Ha Ht Ek)
            as (g1 & E1 & E2 & E3); [reflexivity|].
          exists g1. split; [exact E1|]. split; [exact E2|]. intros _ _. exact E3.
        + exists g. split; [reflexivity|]. split; [apply dels_refl|]. lia. }
    destruct H1 as (g1 & E1 & Hd1 & Hk1). rewrite E1. cbn.
    destruct (dels_keeps _ _ _ Hd1 Hc Ha Ht) as (Hc' & Ha' & Ht').
    destruct (IH g1 Hc' Ha' Ht') as (g' & E2 & Hd2 & Hks).
    { destruct Hd1 as (_ & Hm1 & _). congruence. }
    exists g'. split; [exact E2|]. split; [eapply dels_trans; eassumption|].
    intros j Hj Hmj Hgj. apply elem_of_cons in Hj as [->|Hj]; [|auto].
    destruct Hd2 as (_ & _ & Hi2 & Hg2 & _).
    destruct Hd1 as (_ & _ & _ & Hg1 & _).
    assert (Hempty : inl g1 !!! k = []).
    { apply Hk1; [exact Hmj|]. specialize (Hg2 k). specialize (Hg1 k). lia. }
    specialize (Hi2 k). rewrite Hempty in Hi2.
    destruct (inl g' !!! k) as [|e l]; [reflexivity|].
    exfalso. eapply not_elem_of_nil. apply Hi2. left.
Qed.

(** Where nothing is left to delete, the last loop of [level0] leaves
    the graph as it is. *)
Lemma level0_nodes_noop ks : ∀ g,
  (∀ k, k ∈ ks → mark g !!! k = false → 0 < grad g !!! k →
        inl g !!! k = []) →
  level0_nodes g ks = Some g.
Proof.
  induction ks as [|k ks IH]; intros g H; [reflexivity|].
  cbn [level0_nodes].
  assert (E : level0_node g k = Some g).
  { unfold level0_node.
    destruct (mark g !!! k) eqn:Ek; cbn [negb andb]; [reflexivity|].
    destruct (Z.ltb_spec 0 (grad g !!! k)) as [Hg|Hg]; [|reflexivity].
    rewrite (H k) by (first [left|assumption]). cbn. 
    rewrite (H k) by (first [left|assumption]). reflexivity. }
  rewrite E. cbn. apply IH. intros j Hj. apply H. right. exact Hj.
Qed.

Lemma set_mark_same g : set_mark g (mark g) = g.
Proof. destruct g. reflexivity. Qed.

Lemma graph_wf_check_sound g : graph_wf_check g = true → graph_wf g.
Proof.
  unfold graph_wf_check. intros H.
  apply andb_prop in H as [H H5]. apply andb_prop in H as [H H3].
  apply andb_prop in H as [H1 H2].
  apply bool_decide_eq_true in H1, H2.
  rewrite forallb_forall in H3, H5.
  split; [exact H1|]. split; [exact H2|]. split; [|split].
  - intros k e He. pose proof (nonempty_lookup_lt _ _ _ He) as Hk.
    assert (Hl : outl g !!! k ∈ outl g).
    { apply list_elem_of_lookup_total_2, Hk. }
    apply list_elem_of_In in Hl. specialize (H3 _ Hl).
    rewrite forallb_forall in H3. apply list_elem_of_In in He.
    specialize (H3 _ He). apply bool_decide_eq_true in H3. exact H3.
  - intros k e He. pose proof (nonempty_lookup_lt _ _ _ He) as Hk.
    assert (Hs : k ∈ seq 0 (length (inl g))) by (apply elem_of_seq; lia).
    apply list_elem_of_In in Hs. specialize (H5 _ Hs).
    rewrite forallb_forall in H5. apply list_elem_of_In in He.
    specialize (H5 _ He). apply andb_prop in H5 as [H5 _].
    apply bool_decide_eq_true in H5. exact H5.
  - intros k e He. pose proof (nonempty_lookup_lt _ _ _ He) as Hk.
    assert (Hs : k ∈ seq 0 (length (inl g))) by (apply elem_of_seq; lia).
    apply list_elem_of_In in Hs. specialize (H5 _ Hs).
    rewrite forallb_forall in H5. apply list_elem_of_In in He.
    specialize (H5 _ He). apply andb_prop in H5 as [_ H5].
    apply bool_decide_eq_true in H5. exact H5.
Qed.

Lemma start_marks_lookup n s k :
  (k < n)%nat →
  <[s := true]> (replicate n false) !!! k = true → k = s.
Proof.
  intros Hk. rewrite list_lookup_total_insert.
  destruct (decide _) as [[-> _]|_]; [reflexivity|].
  intros H. rewrite lookup_total_replicate_2 in H by exact Hk. discriminate H.
Qed.

(** C6: on a graph whose arrays fit together (a mark for every node, the
    source a node, arcs that end at nodes, in-lists that hold the arcs
    into their node, each with a twin that leaves it), [level0] returns,
    and run again on the graph it has left it returns this very graph:
    the second run deletes nothing and writes the marks that are
    there. *)
Theorem level0_idempotent (g : GRAPH) :
  graph_wf g →
  ∃ g1, level0 g = Some g1 ∧ level0 g1 = Some g1.
Proof.
  intros (Hlen & Hsrc & Hrange & Hhead & Htwin).
  set (n := knots g). set (s := source g).
  set (m0 := <[s := true]> (replicate n false)).
  assert (Hclear : clear_marks g = set_mark g (replicate n false)).
  { rewrite clear_marks_eq. f_equal. rewrite clear_prefix by lia.
    rewrite drop_ge, app_nil_r by lia. reflexivity. }
  assert (Hlen0 : length m0 = n).
  { unfold m0. rewrite length_insert, length_replicate. reflexivity. }
  assert (Hr0 : ∀ k a, a ∈ outl (clear_marks g) !!! k →
                       (head (clear_marks g) !!! a < length m0)%nat).
  { rewrite Hclear, Hlen0. cbn. exact Hrange. }
  (* the search of the first run *)
  destruct (trail_loop_total (clear_marks g) n m0 [s] Hr0) as [m' Hm'].
  { unfold m0. cbn [length].
    pose proof (unmarked_insert (replicate n false) s) as Hu.
    rewrite unmarked_replicate in Hu. rewrite <- Hu at 2.
    - reflexivity.
    - apply lookup_total_replicate_2. exact Hsrc.
    - rewrite length_replicate. exact Hsrc. }
  destruct (trail_loop_spec _ _ _ _ _ Hr0 Hm') as (Hlen' & Hmono & Hclosed).
  assert (Hc : marks_closed (clear_marks g) m').
  { apply Hclosed. intros k Hlt Hk. left. rewrite Hlen0 in Hlt.
    apply start_marks_lookup in Hk; [|exact Hlt]. subst k. left. }
  set (ga := set_mark (clear_marks g) m').
  assert (Htrail : graph_trail_arr (clear_marks g) s = Some ga).
  { assert (Hk0 : knots (clear_marks g) = n) by (rewrite Hclear; reflexivity).
    assert (Hmk0 : mark (clear_marks g) = replicate n false)
      by (rewrite Hclear; reflexivity).
    unfold graph_trail_arr. rewrite Hk0, Hmk0. fold m0. rewrite Hm'.
    reflexivity. }
  (* the deletions of the first run *)
  destruct (level0_nodes_dels m' (rev (seq 0 n)) ga) as (g1 & Hg1 & Hd & Hdone).
  { intros k a Hlt Hk Ha. apply (Hc k a Hlt Hk Ha). }
  { unfold ga. rewrite Hclear. exact Hhead. }
  { unfold ga. rewrite Hclear. exact Htwin. }
  { reflexivity. }
  exists g1. split.
  { unfold level0. cbv zeta. fold s. rewrite Htrail. cbn. exact Hg1. }
  (* the second run *)
  destruct Hd as (Hf & Hmark & _ & _ & Hout).
  pose proof Hf as (Hkn & _ & _ & Hso & _ & _ & _ & _ & _ & Hhd & _ & _).
  assert (Hkn1 : knots g1 = n) by (rewrite Hkn; unfold ga; rewrite Hclear; reflexivity).
  assert (Hso1 : source g1 = s) by (rewrite Hso; unfold ga; rewrite Hclear; reflexivity).
  assert (Hmark1 : mark g1 = m') by exact Hmark.
  assert (Hclear1 : clear_marks g1 = set_mark g1 (replicate n false)).
  { assert (Hl1 : length (mark g1) = n) by (rewrite Hmark1, Hlen', Hlen0; reflexivity).
    rewrite clear_marks_eq. f_equal. rewrite Hkn1.
    rewrite clear_prefix by lia.
    rewrite drop_ge, app_nil_r by lia. reflexivity. }
  assert (Hm1 : trail_loop n (clear_marks g1) m0 [s] = Some m').
  { apply (trail_loop_agree (clear_marks g)); [exact Hr0| |exact Hm'| |].
    - rewrite Hclear1, Hclear. cbn. rewrite Hhd. unfold ga. rewrite Hclear. reflexivity.
    - intros k Hk. apply list_elem_of_singleton in Hk. subst k.
      split; [|rewrite Hlen0; exact Hsrc].
      unfold m0. rewrite list_lookup_total_insert.
      destruct (decide _) as [_|Hn]; [reflexivity|].
      exfalso. apply Hn. split; [reflexivity|]. rewrite length_replicate. exact Hsrc.
    - intros k Hlt Hk. rewrite Hclear1, Hclear. cbn.
      rewrite (Hout k ltac:(rewrite Hlen'; exact Hlt) Hk).
      unfold ga. rewrite Hclear. reflexivity. }
  unfold level0. cbv zeta. rewrite Hkn1, Hso1.
  assert (Htrail1 : graph_trail_arr (clear_marks g1) s = Some g1).
  { assert (Hk0 : knots (clear_marks g1) = n) by (rewrite Hclear1; exact Hkn1).
    assert (Hmk0 : mark (clear_marks g1) = replicate n false)
      by (rewrite Hclear1; reflexivity).
    unfold graph_trail_arr. rewrite Hk0, Hmk0. fold m0. rewrite Hm1. cbn.
    rewrite Hclear1, <- Hmark1.
    change (set_mark (set_mark g1 (replicate n false)) (mark g1))
      with (set_mark g1 (mark g1)).
    rewrite set_mark_same. reflexivity. }
  rewrite Htrail1. cbn. apply level0_nodes_noop.
  intros k Hk Hmk Hgk. apply Hdone; [exact Hk| |exact Hgk].
  rewrite <- Hmark1. exact Hmk.
Qed.

Lemma level0_idempotent_witness :
  ∃ g1, level0 two_islands = Some g1 ∧ level0 g1 = Some g1.
Proof.
  apply level0_idempotent. apply graph_wf_check_sound. reflexivity.
Defined.
(** * Further properties *)

(** ** The clean-ups, in general *)

(** What one run of a clean-up does on a graph whose arrays fit
    together, whatever the order [ks] in which its last loop takes the
    nodes: the search returns marks [m'] that are closed under the arcs,
    the loop returns a graph [g1] that differs by deletions away from the
    marked nodes, and on [g1] the search and the loop change nothing. *)
Lemma cleanup_general (g : GRAPH) (ks : list nat) :
  graph_wf g →
  ∃ m' g1,
    graph_trail_arr (clear_marks g) (source g)
    = Some (set_mark (clear_marks g) m')
    ∧ length m' = knots g
    ∧ m' !!! source g = true
    ∧ marks_closed g m'
    ∧ level0_nodes (set_mark (clear_marks g) m') ks = Some g1
    ∧ dels m' (set_mark g m') g1
    ∧ (∀ k, k ∈ ks → m' !!! k = false → 0 < grad g1 !!! k →
            inl g1 !!! k = [])
    ∧ graph_trail_arr (clear_marks g1) (source g1) = Some g1
    ∧ (∀ ks', ks' ⊆ ks → level0_nodes g1 ks' = Some g1).
Proof.
  intros (Hlen & Hsrc & Hrange & Hhead & Htwin).
  set (n := knots g). set (s := source g).
  set (m0 := <[s := true]> (replicate n false)).
  assert (Hclear : clear_marks g = set_mark g (replicate n false)).
  { rewrite clear_marks_eq. f_equal. rewrite clear_prefix by lia.
    rewrite drop_ge, app_nil_r by lia. reflexivity. }
  assert (Hlen0 : length m0 = n).
  { unfold m0. rewrite length_insert, length_replicate. reflexivity. }
  assert (Hr0 : ∀ k a, a ∈ outl (clear_marks g) !!! k →
                       (head (clear_marks g) !!! a < length m0)%nat).
  { rewrite Hclear, Hlen0. cbn. exact Hrange. }
  assert (Hm0s : m0 !!! s = true).
  { unfold m0. rewrite list_lookup_total_insert.
    destruct (decide _) as [_|Hn]; [reflexivity|].
    exfalso. apply Hn. split; [reflexivity|]. rewrite length_replicate. exact Hsrc. }
  destruct (trail_loop_total (clear_marks g) n m0 [s] Hr0) as [m' Hm'].
  { unfold m0. cbn [length].
    pose proof (unmarked_insert (replicate n false) s) as Hu.
    rewrite unmarked_replicate in Hu. rewrite <- Hu at 2.
    - reflexivity.
    - apply lookup_total_replicate_2. exact Hsrc.
    - rewrite length_replicate. exact Hsrc. }
  destruct (trail_loop_spec _ _ _ _ _ Hr0 Hm') as (Hlen' & Hmono & Hclosed).
  assert (Hc : marks_closed (clear_marks g) m').
  { apply Hclosed. intros k Hlt Hk. left. rewrite Hlen0 in Hlt.
    apply start_marks_lookup in Hk; [|exact Hlt]. subst k. left. }
  set (ga := set_mark (clear_marks g) m').
  assert (Hga : ga = set_mark g m') by (unfold ga; rewrite Hclear; reflexivity).
  assert (Htrail : graph_trail_arr (clear_marks g) s = Some ga).
  { assert (Hk0 : knots (clear_marks g) = n) by (rewrite Hclear; reflexivity).
    assert (Hmk0 : mark (clear_marks g) = replicate n false)
      by (rewrite Hclear; reflexivity).
    unfold graph_trail_arr. rewrite Hk0, Hmk0. fold m0. rewrite Hm'.
    reflexivity. }
  destruct (level0_nodes_dels m' ks ga) as (g1 & Hg1 & Hd & Hdone).
  { intros k a Hlt Hk Ha. apply (Hc k a Hlt Hk Ha). }
  { rewrite Hga. exact Hhead. }
  { rewrite Hga. exact Htwin. }
  { reflexivity. }
  exists m', g1.
  split; [exact Htrail|]. split; [congruence|]. split; [apply Hmono, Hm0s|].
  split; [rewrite Hclear in Hc; exact Hc|]. split; [exact Hg1|].
  split; [rewrite <- Hga; exact Hd|]. split; [exact Hdone|].
  destruct Hd as (Hf & Hmark & _ & _ & Hout).
  pose proof Hf as (Hkn & _ & _ & Hso & _ & _ & _ & _ & _ & Hhd & _ & _).
  assert (Hkn1 : knots g1 = n) by (rewrite Hkn, Hga; reflexivity).
  assert (Hso1 : source g1 = s) by (rewrite Hso, Hga; reflexivity).
  assert (Hmark1 : mark g1 = m') by exact Hmark.
  assert (Hclear1 : clear_marks g1 = set_mark g1 (replicate n false)).
  { assert (Hl1 : length (mark g1) = n) by (rewrite Hmark1, Hlen', Hlen0; reflexivity).
    rewrite clear_marks_eq. f_equal. rewrite Hkn1.
    rewrite clear_prefix by lia.
    rewrite drop_ge, app_nil_r by lia. reflexivity. }
  assert (Hm1 : trail_loop n (clear_marks g1) m0 [s] = Some m').
  { apply (trail_loop_agree (clear_marks g)); [exact Hr0| |exact Hm'| |].
    - rewrite Hclear1, Hclear. cbn. rewrite Hhd, Hga. reflexivity.
    - intros k Hk. apply list_elem_of_singleton in Hk. subst k.
      split; [exact Hm0s|rewrite Hlen0; exact Hsrc].
    - intros k Hlt Hk. rewrite Hclear1, Hclear. cbn.
      rewrite (Hout k ltac:(rewrite Hlen'; exact Hlt) Hk).
      rewrite Hga. reflexivity. }
  split.
  - rewrite Hso1.
    assert (Hk0 : knots (clear_marks g1) = n) by (rewrite Hclear1; exact Hkn1).
    assert (Hmk0 : mark (clear_marks g1) = replicate n false)
      by (rewrite Hclear1; reflexivity).
    unfold graph_trail_arr. rewrite Hk0, Hmk0. fold m0. rewrite Hm1. cbn.
    rewrite Hclear1, <- Hmark1.
    change (set_mark (set_mark g1 (replicate n false)) (mark g1))
      with (set_mark g1 (mark g1)).
    rewrite set_mark_same. reflexivity.
  - intros ks' Hsub. apply level0_nodes_noop.
    intros k Hk Hmk Hgk. apply Hdone; [apply Hsub, Hk| |exact Hgk].
    rewrite <- Hmark1. exact Hmk.
Qed.

(** *** [level0save] *)

Lemma clear_list_lookup l : ∀ (m : list bool) i,
  foldl (λ m k, <[k := false]> m) m l !! i
  = if decide (i ∈ l) then (λ _, false) <$> m !! i else m !! i.
Proof.
  induction l as [|k l IH]; intros m i; cbn [foldl].
  - destruct (decide (i ∈ [])) as [H|_]; [|reflexivity].
    apply elem_of_nil in H. contradiction.
  - rewrite IH, list_lookup_insert.
    destruct (decide (i ∈ l)) as [Hin|Hin],
             (decide (i ∈ k :: l)) as [Hc|Hc],
             (decide (k = i ∧ (k < length m)%nat)) as [[-> Hlt]|Hn];
      try reflexivity.
    + destruct (lookup_lt_is_Some_2 m i Hlt) as [b Hb]. rewrite Hb. reflexivity.
    + exfalso. apply Hc. left.
    + exfalso. apply Hc. right. exact Hin.
    + destruct (lookup_lt_is_Some_2 m i Hlt) as [b Hb]. rewrite Hb. reflexivity.
    + apply elem_of_cons in Hc as [->|Hc]; [|contradiction].
      destruct (decide (k < length m)%nat) as [Hlt|Hge].
      * exfalso. apply Hn. split; [reflexivity|exact Hlt].
      * rewrite lookup_ge_None_2 by lia. reflexivity.
    + exfalso. apply Hc. left.
Qed.

Lemma clear_marks_down_eq g : clear_marks_down g = clear_marks g.
Proof.
  assert (H : ∀ l g0, foldl (λ g k, set_mark g (<[k := false]> (mark g))) g0 l
                      = set_mark g0 (foldl (λ m k, <[k := false]> m) (mark g0) l)).
  { induction l as [|k l IH]; intros g0; cbn [foldl].
    - destruct g0. reflexivity.
    - rewrite IH. reflexivity. }
  unfold clear_marks_down, clear_marks. rewrite !H. f_equal.
  apply list_eq. intros i. rewrite !clear_list_lookup.
  destruct (decide (i ∈ rev (seq 0 (knots g)))) as [H1|H1],
           (decide (i ∈ seq 0 (knots g))) as [H2|H2]; try reflexivity.
  - exfalso. apply H2. apply list_elem_of_In, in_rev, list_elem_of_In, H1.
  - exfalso. apply H1. apply list_elem_of_In. rewrite <- in_rev.
    apply list_elem_of_In, H2.
Qed.

Lemma level0_nodes_mark ks g g' :
  level0_nodes g ks = Some g' → mark g' = mark g.
Proof. intros H. apply level0_nodes_frame in H as [_ H]. exact H. Qed.

Lemma graph_trail_arr_length g i g' :
  (∀ k a, a ∈ outl g !!! k → (head g !!! a < length (mark g))%nat) →
  graph_trail_arr g i = Some g' → length (mark g') = length (mark g).
Proof.
  intros Hr. unfold graph_trail_arr.
  destruct (trail_loop _ _ _ _) as [m|] eqn:E; [|discriminate].
  cbn. intros H; inversion H; subst. cbn.
  apply trail_loop_spec in E as (E & _).
  - rewrite E, length_insert. reflexivity.
  - intros k a Ha. rewrite length_insert. eapply Hr. exact Ha.
Qed.

(** X1: when there is a mark for every node, [level0save] leaves the
    graph that [level0] leaves, with the marks it was handed: it deletes
    the same edges and gives [g->mark] back as it was. *)
Theorem level0save_level0 (g : GRAPH) :
  graph_wf g →
  ∃ g1, level0 g = Some g1 ∧ level0save g = Some (set_mark g1 (mark g)).
Proof.
  intros Hwf. pose proof Hwf as (Hlen & _).
  destruct (cleanup_general g (rev (seq 0 (knots g))) Hwf)
    as (m' & g1 & Ht & Hl' & _ & _ & Hn & Hd & _).
  exists g1. split.
  - unfold level0. cbv zeta. rewrite Ht. cbn. exact Hn.
  - unfold level0save. cbv zeta. rewrite clear_marks_down_eq, Ht. cbn.
    rewrite Hn. cbn. unfold restore_marks. f_equal. f_equal.
    destruct Hd as (_ & Hm & _). cbn in Hm.
    rewrite take_take, Nat.min_id, take_ge by lia.
    rewrite drop_ge by (rewrite Hm; lia). apply app_nil_r.
Qed.

Lemma level0save_level0_witness :
  ∃ g1, level0 two_islands = Some g1
        ∧ level0save two_islands = Some (set_mark g1 (mark two_islands)).
Proof.
  apply level0save_level0. apply graph_wf_check_sound. reflexivity.
Defined.

(** *** Marks and reachability *)

Lemma trail_visit_fold_reach g s node l : ∀ m st,
  reach g s node →
  (∀ a, a ∈ l → a ∈ outl g !!! node) →
  (∀ k, (k < length m)%nat → m !!! k = true → reach g s k) →
  ∀ k, (k < length m)%nat →
       fst (foldl (trail_visit g) (m, st) l) !!! k = true → reach g s k.
Proof.
  induction l as [|a l IH]; intros m st Hn Hl Hm k Hk; cbn [foldl].
  - cbn. apply Hm. exact Hk.
  - assert (E : trail_visit g (m, st) a
                = if (m !!! (head g !!! a) : bool) then (m, st)
                  else (<[head g !!! a := true]> m, head g !!! a :: st))
      by reflexivity.
    rewrite E. clear E.
    destruct (m !!! (head g !!! a)) eqn:Em.
    + apply IH; auto. intros a' Ha'. apply Hl. right. exact Ha'.
    + rewrite <- (length_insert m (head g !!! a) true) in Hk. revert k Hk.
      apply IH; [exact Hn|intros a' Ha'; apply Hl; right; exact Ha'|].
      intros k Hk. rewrite length_insert in Hk.
      rewrite list_lookup_total_insert.
      destruct (decide _) as [[<- _]|_]; [|apply Hm; exact Hk].
      intros _. apply (reach_step g s node a Hn). apply Hl. left.
Qed.

(** The search marks reachable nodes only. *)
Lemma trail_loop_sound g s fuel : ∀ m st m',
  (∀ k a, a ∈ outl g !!! k → (head g !!! a < length m)%nat) →
  trail_loop fuel g m st = Some m' →
  (∀ k, k ∈ st → reach g s k) →
  (∀ k, (k < length m)%nat → m !!! k = true → reach g s k) →
  ∀ k, (k < length m)%nat → m' !!! k = true → reach g s k.
Proof.
  induction fuel as [|fuel IH]; intros m st m' Hr H Hst Hm.
  - destruct st as [|node st]; [|discriminate H].
    cbn in H. inversion H; subst. exact Hm.
  - destruct st as [|node st].
    { cbn in H. inversion H; subst. exact Hm. }
    cbn [trail_loop] in H.
    destruct (trail_visit_fold g (outl g !!! node) m st)
      as (I1 & _ & _ & _ & _ & I6 & _).
    { intros a Ha. eapply Hr. exact Ha. }
    cbv zeta in I1, I6.
    assert (Hn : reach g s node) by (apply Hst; left).
    pose proof (trail_visit_fold_reach g s node (outl g !!! node) m st Hn
                  (λ a Ha, Ha) Hm) as Hm2.
    rewrite <- I1. apply (IH _ _ _ ltac:(intros k a Ha; rewrite I1; eapply Hr; exact Ha) H).
    + intros k Hk. apply I6 in Hk as [Hk|[Hk Hlt]].
      * apply Hst. right. exact Hk.
      * apply Hm2; assumption.
    + intros k Hk. rewrite I1 in Hk. apply Hm2. exact Hk.
Qed.

(** Closed marks that hold the source hold every node that can be
    reached. *)
Lemma marks_closed_reach g m s k :
  (∀ u a, a ∈ outl g !!! u → (head g !!! a < length m)%nat) →
  marks_closed g m → (s < length m)%nat → m !!! s = true →
  reach g s k → (k < length m)%nat ∧ m !!! k = true.
Proof.
  intros Hr Hc Hs Hms H. induction H as [|u a Hu [IH1 IH2] Ha].
  - split; assumption.
  - split; [eapply Hr; exact Ha|]. eapply Hc; eassumption.
Qed.

(** The marks that the search of a clean-up leaves are the nodes that
    can be reached from the source. *)
Lemma cleanup_marks_reach (g : GRAPH) m' :
  graph_wf g →
  graph_trail_arr (clear_marks g) (source g)
  = Some (set_mark (clear_marks g) m') →
  length m' = knots g ∧ marks_closed g m'
  ∧ ∀ k, (k < knots g)%nat → (m' !!! k = true ↔ reach g (source g) k).
Proof.
  intros Hwf Ht.
  destruct (cleanup_general g [] Hwf)
    as (m1 & g1 & Ht1 & Hl' & Hs & Hc & _).
  assert (Em : m1 = m').
  { rewrite Ht in Ht1.
    apply (f_equal (λ o : option GRAPH, default [] (mark <$> o))) in Ht1.
    cbn in Ht1. symmetry. exact Ht1. }
  subst m1. destruct Hwf as (Hlen & Hsrc & Hrange & _).
  split; [exact Hl'|]. split; [exact Hc|]. intros k Hk. split.
  - intros Hmk.
    assert (Hclear : clear_marks g = set_mark g (replicate (knots g) false)).
    { rewrite clear_marks_eq. f_equal. rewrite clear_prefix by lia.
      rewrite drop_ge, app_nil_r by lia. reflexivity. }
    unfold graph_trail_arr in Ht. rewrite Hclear in Ht. cbn in Ht.
    destruct (trail_loop _ _ _ _) as [m2|] eqn:E; [|discriminate].
    cbn in Ht. inversion Ht; subst m2.
    assert (Hr : reach (set_mark g (replicate (knots g) false)) (source g) k).
    { apply (trail_loop_sound (set_mark g (replicate (knots g) false))
               (source g) _ _ _ _
               ltac:(intros u a Ha; rewrite length_insert, length_replicate;
                     eapply Hrange; exact Ha) E).
      - intros u Hu. apply list_elem_of_singleton in Hu. subst u. constructor.
      - intros u Hu Hm. rewrite length_insert, length_replicate in Hu.
        apply start_marks_lookup in Hm; [|exact Hu]. subst u. constructor.
      - rewrite length_insert, length_replicate. exact Hk.
      - exact Hmk. }
    clear -Hr. induction Hr as [|u a Hu IH Ha]; [constructor|].
    apply (reach_step g _ u a IH Ha).
  - intros Hr. eapply marks_closed_reach in Hr as [_ Hr]; try eassumption.
    + intros u a Ha. rewrite Hl'. eapply Hrange. exact Ha.
    + rewrite Hl'. exact Hsrc.
Qed.

(** *** Deletions on a graph whose lists fit together *)

Lemma flipedge_involutive e : flipedge (flipedge e) = e.
Proof.
  unfold flipedge. destruct (Nat.even e) eqn:E.
  - rewrite Nat.even_succ, <- Nat.negb_even, E. reflexivity.
  - destruct e as [|e]; [discriminate E|]. cbn [Nat.pred].
    rewrite Nat.even_succ, <- Nat.negb_even in E.
    apply negb_false_iff in E. rewrite E. reflexivity.
Qed.

Lemma flipedge_neq e : flipedge e ≠ e.
Proof.
  unfold flipedge. destruct (Nat.even e) eqn:E; [lia|].
  destruct e as [|e]; [discriminate E|]. cbn. lia.
Qed.

Lemma removeEdge_inl_elem g x k y :
  y ∈ inl (removeEdge g x) !!! k → y ∈ inl g !!! k ∧ (head g !!! x = k → y ≠ x).
Proof.
  unfold removeEdge. cbn. rewrite list_lookup_total_alter.
  destruct (decide _) as [[<- _]|Hn].
  - intros H. apply list_elem_of_filter in H as [H1 H2]. auto.
  - intros H. split; [exact H|]. intros Hk ->. apply Hn. split; [exact Hk|].
    rewrite Hk. eapply nonempty_lookup_lt. exact H.
Qed.

Lemma removeEdge_inl_keep g x k y :
  y ∈ inl g !!! k → y ≠ x → y ∈ inl (removeEdge g x) !!! k.
Proof.
  intros H Hne. unfold removeEdge. cbn. rewrite list_lookup_total_alter.
  destruct (decide _) as [[<- _]|_]; [|exact H].
  apply list_elem_of_filter. split; [exact Hne|exact H].
Qed.

Lemma removeEdge_outl_elem g x u y :
  y ∈ outl (removeEdge g x) !!! u → y ∈ outl g !!! u ∧ (tail g !!! x = u → y ≠ x).
Proof.
  unfold removeEdge. cbn. rewrite list_lookup_total_alter.
  destruct (decide _) as [[<- _]|Hn].
  - intros H. apply list_elem_of_filter in H as [H1 H2]. auto.
  - intros H. split; [exact H|]. intros Hk ->. apply Hn. split; [exact Hk|].
    rewrite Hk. eapply nonempty_lookup_lt. exact H.
Qed.

Lemma removeEdge_outl_keep g x u y :
  y ∈ outl g !!! u → y ≠ x → y ∈ outl (removeEdge g x) !!! u.
Proof.
  intros H Hne. unfold removeEdge. cbn. rewrite list_lookup_total_alter.
  destruct (decide _) as [[<- _]|_]; [|exact H].
  apply list_elem_of_filter. split; [exact Hne|exact H].
Qed.

(** The arcs that the deletion of the edge of [e] leaves in the lists:
    all but [e] and its twin. *)
Lemma graph_edge_del_inl_elem g e k y :
  arcs_at_head g →
  (y ∈ inl (graph_edge_del g e) !!! k
   ↔ y ∈ inl g !!! k ∧ y ≠ (e - e mod 2)%nat ∧ y ≠ S (e - e mod 2)).
Proof.
  intros Ha. unfold graph_edge_del. cbv zeta.
  set (e0 := (e - e mod 2)%nat). set (g1 := set_grad g _). split.
  - intros H. apply removeEdge_inl_elem in H as [H H2].
    apply removeEdge_inl_elem in H as [H H1].
    change (inl g1) with (inl g) in H. split; [exact H|]. split.
    + intros E. apply H1; [|exact E]. rewrite <- E. apply (Ha k y H).
    + intros E. apply H2; [|exact E]. rewrite <- E. apply (Ha k y H).
  - intros (H & H1 & H2). apply removeEdge_inl_keep; [|exact H2].
    apply removeEdge_inl_keep; [exact H|exact H1].
Qed.

Lemma graph_edge_del_outl_elem g e u y :
  out_in g →
  (y ∈ outl (graph_edge_del g e) !!! u
   ↔ y ∈ outl g !!! u ∧ y ≠ (e - e mod 2)%nat ∧ y ≠ S (e - e mod 2)).
Proof.
  intros Ho. unfold graph_edge_del. cbv zeta.
  set (e0 := (e - e mod 2)%nat). set (g1 := set_grad g _). split.
  - intros H. apply removeEdge_outl_elem in H as [H H2].
    apply removeEdge_outl_elem in H as [H H1].
    change (outl g1) with (outl g) in H. split; [exact H|]. split.
    + intros E. apply H1; [|exact E]. rewrite <- E. apply (Ho u y H).
    + intros E. apply H2; [|exact E]. rewrite <- E. apply (Ho u y H).
  - intros (H & H1 & H2). apply removeEdge_outl_keep; [|exact H2].
    apply removeEdge_outl_keep; [exact H|exact H1].
Qed.

(** Unchaining two different arcs and lowering the degrees of the nodes
    they were chained into keeps the degrees above the list lengths. *)
Lemma covers_step (gr : list Z) (il : list (list nat)) p q i j :
  (length il ≤ length gr)%nat →
  (∀ k, Z.of_nat (length (il !!! k)) ≤ gr !!! k) →
  p ∈ il !!! i → q ∈ il !!! j → p ≠ q →
  ∀ k, Z.of_nat (length (alter (filter (λ x, x ≠ q)) j
                           (alter (filter (λ x, x ≠ p)) i il) !!! k))
       ≤ alter Z.pred j (alter Z.pred i gr) !!! k.
Proof.
  intros Hl Hc Hp Hq Hne k.
  pose proof (nonempty_lookup_lt _ _ _ Hp) as Hi.
  pose proof (nonempty_lookup_lt _ _ _ Hq) as Hj.
  assert (Hgi : (i < length gr)%nat) by lia.
  assert (Hgj : (j < length gr)%nat) by lia.
  pose proof (Hc k) as Hk.
  rewrite !list_lookup_total_alter, !length_alter.
  destruct (decide (j = k ∧ (j < length il)%nat)) as [[-> _]|Hn1];
    destruct (decide (i = k ∧ (i < length il)%nat)) as [[-> _]|Hn2].
  - rewrite decide_True by (split; [reflexivity|exact Hgj]).
    rewrite decide_True by (split; [reflexivity|exact Hgj]).
    assert (H1 : (length (filter (λ x, x ≠ p) (il !!! k))
                  < length (il !!! k))%nat).
    { apply (length_filter_lt _ _ p); [exact Hp|]. intros H. apply H. reflexivity. }
    assert (H2 : (length (filter (λ x, x ≠ q) (filter (λ x, x ≠ p) (il !!! k)))
                  < length (filter (λ x, x ≠ p) (il !!! k)))%nat).
    { apply (length_filter_lt _ _ q).
      - apply list_elem_of_filter. split; [|exact Hq]. intros E. apply Hne.
        symmetry. exact E.
      - intros H. apply H. reflexivity. }
    lia.
  - rewrite decide_True by (split; [reflexivity|exact Hgj]).
    rewrite decide_False by (intros [E _]; apply Hn2; split; [exact E|exact Hi]).
    assert (H1 : (length (filter (λ x, x ≠ q) (il !!! k))
                  < length (il !!! k))%nat).
    { apply (length_filter_lt _ _ q); [exact Hq|]. intros H. apply H. reflexivity. }
    lia.
  - rewrite decide_False by (intros [E _]; apply Hn1; split; [exact E|exact Hj]).
    rewrite decide_True by (split; [reflexivity|exact Hgi]).
    assert (H1 : (length (filter (λ x, x ≠ p) (il !!! k))
                  < length (il !!! k))%nat).
    { apply (length_filter_lt _ _ p); [exact Hp|]. intros H. apply H. reflexivity. }
    lia.
  - rewrite decide_False by (intros [E _]; apply Hn1; split; [exact E|exact Hj]).
    rewrite decide_False by (intros [E _]; apply Hn2; split; [exact E|exact Hi]).
    exact Hk.
Qed.

(** The deletion of an edge chained into a node keeps the lists and the
    degrees fitting together. *)
Lemma graph_edge_del_linked g k e :
  arcs_at_head g → twins_at_tail g → twins_chained g → grad_covers g →
  out_in g → e ∈ inl g !!! k →
  arcs_at_head (graph_edge_del g e) ∧ twins_at_tail (graph_edge_del g e)
  ∧ twins_chained (graph_edge_del g e) ∧ grad_covers (graph_edge_del g e)
  ∧ out_in (graph_edge_del g e).
Proof.
  intros Ha Ht Hc Hg Ho Hin.
  pose proof (graph_edge_del_inl_elem g e) as Hi.
  pose proof (graph_edge_del_outl_elem g e) as Hu.
  assert (Hh : head (graph_edge_del g e) = head g) by reflexivity.
  assert (Htl : tail (graph_edge_del g e) = tail g) by reflexivity.
  assert (Hpair : ∀ y, y ≠ (e - e mod 2)%nat → y ≠ S (e - e mod 2) →
                       flipedge y ≠ (e - e mod 2)%nat
                       ∧ flipedge y ≠ S (e - e mod 2)).
  { intros y H1 H2.
    destruct (flipedge_pair e) as [[E1 E2]|[E1 E2]]; rewrite E1, E2 in *.
    - split; intros E.
      + apply H2. rewrite <- (flipedge_involutive y), E. reflexivity.
      + apply H1. rewrite <- (flipedge_involutive y), E.
        apply flipedge_involutive.
    - split; intros E.
      + apply H2. rewrite <- (flipedge_involutive y), E.
        apply flipedge_involutive.
      + apply H1. rewrite <- (flipedge_involutive y), E. reflexivity. }
  split; [|split; [|split; [|split]]].
  - intros x y H. rewrite Hh. apply Hi in H as [H _]; [|exact Ha].
    apply (Ha x y H).
  - intros x y H. rewrite Htl. apply Hi in H as [H _]; [|exact Ha].
    apply (Ht x y H).
  - intros x y H. rewrite Htl. apply Hi in H as (H & H1 & H2); [|exact Ha].
    apply Hi; [exact Ha|]. split; [apply (Hc x y H)|]. apply Hpair; assumption.
  - pose proof (Hc k e Hin) as Htw. pose proof (Ha k e Hin) as Hhe.
    pose proof (Ha _ _ Htw) as Hhf. pose proof (Ht k e Hin) as Htf.
    destruct Hg as [Hgl Hg]. split.
    { unfold graph_edge_del, removeEdge. cbn. rewrite !length_alter. exact Hgl. }
    intros x. pose proof (flipedge_pair e) as Hfp.
    unfold graph_edge_del. cbv zeta.
    set (e0 := (e - e mod 2)%nat) in *. clearbody e0.
    unfold removeEdge. cbn.
    destruct Hfp as [[E1 E2]|[E1 E2]]; rewrite ?E2, ?E1.
    + rewrite Hhe, Hhf.
      apply covers_step; [exact Hgl|exact Hg|exact Hin|exact Htw|].
      intros E. symmetry in E. exact (flipedge_neq e E).
    + rewrite Hhe, Hhf, Htf.
      apply covers_step; [exact Hgl|exact Hg|exact Htw|exact Hin|].
      apply flipedge_neq.
  - intros x y H. rewrite Htl, Hh. apply Hu in H as (H & H1 & H2); [|exact Ho].
    destruct (Ho x y H) as [Hty Hiy]. split; [exact Hty|].
    apply Hi; [exact Ha|]. auto.
Qed.

Lemma graph_linked_lists g : graph_linked g → lists_linked g.
Proof.
  intros ((_ & _ & _ & Ha & Ht) & Hc & Hg & Ho).
  exact (conj Ha (conj Ht (conj Hc (conj Hg Ho)))).
Qed.

Lemma del_inpedges_linked k fuel : ∀ g g',
  lists_linked g → del_inpedges fuel g k = Some g' → lists_linked g'.
Proof.
  induction fuel as [|fuel IH]; intros g g' Hl; cbn [del_inpedges];
    destruct (inl g !!! k) as [|e l] eqn:E; intros H;
    try (injection H as <-; exact Hl); try discriminate H.
  eapply IH; [|exact H].
  destruct Hl as (Ha & Ht & Hc & Hg & Ho).
  apply (graph_edge_del_linked g k e); try assumption.
  rewrite E. left.
Qed.

Lemma level0_nodes_linked ks : ∀ g g',
  lists_linked g → level0_nodes g ks = Some g' → lists_linked g'.
Proof.
  induction ks as [|k ks IH]; intros g g' Hl; cbn [level0_nodes]; intros H.
  - injection H as <-. exact Hl.
  - destruct (level0_node g k) as [g1|] eqn:E; [|discriminate H].
    cbn in H. apply (IH g1 g'); [|exact H].
    unfold level0_node in E.
    destruct (negb (mark g !!! k) && (0 <? grad g !!! k)).
    + eapply del_inpedges_linked; eassumption.
    + injection E as <-. exact Hl.
Qed.

(** What the connectivity clean-ups leave of a graph whose lists fit
    together, whatever the order [ks] in which the last loop takes the
    nodes, as long as it takes them all: the marks tell which nodes the
    source reaches, these nodes keep their out-lists, and no arc is
    chained at any other node. *)
Lemma cleanup_component (g : GRAPH) (ks : list nat) :
  graph_linked g → (∀ k, (k < knots g)%nat → k ∈ ks) →
  ∃ m' g1,
    graph_trail_arr (clear_marks g) (source g)
    = Some (set_mark (clear_marks g) m')
    ∧ level0_nodes (set_mark (clear_marks g) m') ks = Some g1
    ∧ mark g1 = m' ∧ term g1 = term g
    ∧ (∀ k, (k < knots g)%nat →
            (m' !!! k = true ↔ reach g (source g) k))
    ∧ (∀ u, (u < knots g)%nat → reach g (source g) u →
            outl g1 !!! u = outl g !!! u)
    ∧ (∀ u, (u < knots g)%nat → ¬ reach g (source g) u →
            outl g1 !!! u = [] ∧ inl g1 !!! u = []).
Proof.
  intros Hlk Hks. pose proof (graph_linked_lists g Hlk) as Hl.
  destruct Hlk as (Hwf & _).
  destruct (cleanup_general g ks Hwf)
    as (m' & g1 & Ht & Hlen & Hs & Hc & Hl0 & Hd & He & _).
  destruct (cleanup_marks_reach g m' Hwf Ht) as (_ & _ & Hr).
  exists m', g1. split; [exact Ht|]. split; [exact Hl0|].
  assert (Hl1 : lists_linked g1).
  { apply (level0_nodes_linked ks _ _) with (2 := Hl0).
    rewrite clear_marks_eq. exact Hl. }
  destruct Hd as (Hf & Hm & _ & _ & Hout).
  split; [exact Hm|]. split; [apply Hf|]. split; [exact Hr|]. split.
  - intros u Hu Hru. apply Hout; [lia|]. apply Hr; assumption.
  - intros u Hu Hnr.
    assert (Em : m' !!! u = false).
    { destruct (m' !!! u) eqn:E; [|reflexivity]. exfalso. apply Hnr.
      apply Hr; assumption. }
    destruct Hl1 as (Ha1 & Ht1 & Hc1 & [_ Hg1] & Ho1).
    assert (Ei : inl g1 !!! u = []).
    { destruct (inl g1 !!! u) as [|e l] eqn:E; [reflexivity|].
      rewrite <- E. apply He; [apply Hks; exact Hu|exact Em|].
      pose proof (Hg1 u) as H. rewrite E in H. cbn [length] in H. lia. }
    split; [|exact Ei].
    destruct (outl g1 !!! u) as [|e l] eqn:E; [reflexivity|]. exfalso.
    assert (Hin : e ∈ outl g1 !!! u) by (rewrite E; left).
    destruct (Ho1 u e Hin) as [Hte Hie].
    pose proof (Hc1 _ _ Hie) as Hfl. rewrite Hte, Ei in Hfl.
    apply elem_of_nil in Hfl. exact Hfl.
Qed.

Lemma graph_linked_check_sound g : graph_linked_check g = true → graph_linked g.
Proof.
  unfold graph_linked_check. intros H.
  apply andb_prop in H as [H H5]. apply andb_prop in H as [H H4].
  apply andb_prop in H as [H H3]. apply andb_prop in H as [H1 H2].
  apply bool_decide_eq_true in H3.
  rewrite forallb_forall in H2, H4, H5.
  split; [apply graph_wf_check_sound, H1|]. split; [|split; [split|]].
  - intros k e He. pose proof (nonempty_lookup_lt _ _ _ He) as Hk.
    assert (Hs : k ∈ seq 0 (length (inl g))) by (apply elem_of_seq; lia).
    apply list_elem_of_In in Hs. specialize (H2 _ Hs).
    rewrite forallb_forall in H2. apply list_elem_of_In in He.
    specialize (H2 _ He). apply bool_decide_eq_true in H2. exact H2.
  - exact H3.
  - intros k. destruct (decide (k < length (grad g))%nat) as [Hk|Hk].
    + assert (Hs : k ∈ seq 0 (length (grad g))) by (apply elem_of_seq; lia).
      apply list_elem_of_In in Hs. specialize (H4 _ Hs).
      apply bool_decide_eq_true in H4. exact H4.
    + rewrite !list_lookup_total_alt, !lookup_ge_None_2 by lia. cbn. lia.
  - intros u e He. pose proof (nonempty_lookup_lt _ _ _ He) as Hk.
    assert (Hs : u ∈ seq 0 (length (outl g))) by (apply elem_of_seq; lia).
    apply list_elem_of_In in Hs. specialize (H5 _ Hs).
    rewrite forallb_forall in H5. apply list_elem_of_In in He.
    specialize (H5 _ He). apply andb_prop in H5 as [H5 H6].
    apply bool_decide_eq_true in H5, H6. split; assumption.
Qed.

(** X2: on a graph whose lists fit together [level0] returns a graph, and
    this graph is the part that hangs at the source: a node is marked
    exactly when the source reaches it along chained arcs, the nodes
    reached keep their out-lists, and at any other node no arc is chained
    any more, neither into it nor out of it. *)
Theorem level0_component (g : GRAPH) :
  graph_linked g →
  ∃ g1, level0 g = Some g1
    ∧ (∀ k, (k < knots g)%nat →
            (mark g1 !!! k = true ↔ reach g (source g) k))
    ∧ (∀ u, (u < knots g)%nat → reach g (source g) u →
            outl g1 !!! u = outl g !!! u)
    ∧ (∀ u, (u < knots g)%nat → ¬ reach g (source g) u →
            outl g1 !!! u = [] ∧ inl g1 !!! u = []).
Proof.
  intros Hl.
  destruct (cleanup_component g (rev (seq 0 (knots g))) Hl)
    as (m' & g1 & Ht & Hl0 & Hm & _ & Hr & Hk & Hd).
  { intros k Hk. apply list_elem_of_In. rewrite <- in_rev.
    apply list_elem_of_In, elem_of_seq. lia. }
  exists g1. split; [|rewrite Hm; auto].
  unfold level0. cbv zeta. rewrite Ht. exact Hl0.
Qed.

Lemma level0_component_witness :
  ∃ g1, level0 Examples.two_islands = Some g1
    ∧ (∀ k, (k < knots Examples.two_islands)%nat →
            (mark g1 !!! k = true
             ↔ reach Examples.two_islands (source Examples.two_islands) k))
    ∧ (∀ u, (u < knots Examples.two_islands)%nat →
            reach Examples.two_islands (source Examples.two_islands) u →
            outl g1 !!! u = outl Examples.two_islands !!! u)
    ∧ (∀ u, (u < knots Examples.two_islands)%nat →
            ¬ reach Examples.two_islands (source Examples.two_islands) u →
            outl g1 !!! u = [] ∧ inl g1 !!! u = []).
Proof.
  apply (level0_component Examples.two_islands).
  apply graph_linked_check_sound. vm_compute. reflexivity.
Defined.

Lemma unmarked_terminal_spec g ks :
  unmarked_terminal g ks = true
  ↔ ∃ k, k ∈ ks ∧ mark g !!! k = false ∧ Is_term (term g !!! k) = true.
Proof.
  unfold unmarked_terminal. rewrite existsb_exists. split.
  - intros (k & Hk & H). apply andb_prop in H as [H1 H2].
    apply negb_true_iff in H1. exists k.
    split; [apply list_elem_of_In, Hk|]. split; assumption.
  - intros (k & Hk & H1 & H2). exists k. split; [apply list_elem_of_In, Hk|].
    rewrite H1, H2. reflexivity.
Qed.

(** X3: on a well-formed graph [level0infeas] returns a graph and a flag;
    the flag is raised exactly when some terminal is out of reach of the
    source, and a second call on the graph returned changes nothing and
    raises the same flag. *)
Theorem level0infeas_flag (g : GRAPH) :
  graph_wf g →
  ∃ g1 b, level0infeas g = Some (g1, b)
    ∧ (b = true ↔ ∃ k, (k < knots g)%nat ∧ Is_term (term g !!! k) = true
                       ∧ ¬ reach g (source g) k)
    ∧ level0infeas g1 = Some (g1, b).
Proof.
  intros Hwf.
  destruct (cleanup_general g (seq 0 (knots g)) Hwf)
    as (m' & g1 & Ht & Hlen & Hs & Hc & Hl0 & Hd & He & Ht1 & Hl1).
  destruct (cleanup_marks_reach g m' Hwf Ht) as (_ & _ & Hr).
  destruct Hd as (Hf & Hm & _).
  assert (Hkn : knots g1 = knots g) by apply Hf.
  assert (Htm : term g1 = term g) by apply Hf.
  change (mark (set_mark g m')) with m' in Hm.
  set (g0 := set_mark (clear_marks g) m') in *.
  assert (Eb : unmarked_terminal g1 (seq 0 (knots g))
               = unmarked_terminal g0 (seq 0 (knots g))).
  { unfold unmarked_terminal. rewrite Hm, Htm. unfold g0.
    rewrite clear_marks_eq. reflexivity. }
  exists g1, (unmarked_terminal g0 (seq 0 (knots g))).
  split; [|split].
  - unfold level0infeas. cbv zeta. rewrite Ht. fold g0. cbn.
    rewrite Hl0. reflexivity.
  - rewrite <- Eb, unmarked_terminal_spec, Hm, Htm. split.
    + intros (k & Hk & H1 & H2). apply elem_of_seq in Hk. exists k.
      split; [lia|]. split; [exact H2|]. intros Hre.
      apply Hr in Hre; [|lia]. congruence.
    + intros (k & Hk & H1 & H2). exists k.
      split; [apply elem_of_seq; lia|]. split; [|exact H1].
      destruct (m' !!! k) eqn:E; [|reflexivity]. exfalso. apply H2.
      apply Hr; assumption.
  - unfold level0infeas. cbv zeta. rewrite Hkn, Ht1. cbn.
    rewrite Hl1 by reflexivity. rewrite Eb. reflexivity.
Qed.

Lemma level0infeas_flag_witness :
  ∃ g1 b, level0infeas Examples.cut_off_terminal = Some (g1, b)
    ∧ (b = true
       ↔ ∃ k, (k < knots Examples.cut_off_terminal)%nat
              ∧ Is_term (term Examples.cut_off_terminal !!! k) = true
              ∧ ¬ reach Examples.cut_off_terminal
                    (source Examples.cut_off_terminal) k)
    ∧ level0infeas g1 = Some (g1, b).
Proof.
  apply (level0infeas_flag Examples.cut_off_terminal).
  apply graph_wf_check_sound. vm_compute. reflexivity.
Defined.

(** X4: on a graph whose lists fit together [level0infeas] leaves the part
    that hangs at the source: the nodes the source reaches keep their
    out-lists, at any other node no arc is chained any more, and the flag
    stays down exactly when the source reaches every terminal. *)
Theorem level0infeas_component (g : GRAPH) :
  graph_linked g →
  ∃ g1 b, level0infeas g = Some (g1, b)
    ∧ (b = false ↔ ∀ k, (k < knots g)%nat → Is_term (term g !!! k) = true →
                        reach g (source g) k)
    ∧ (∀ u, (u < knots g)%nat → reach g (source g) u →
            outl g1 !!! u = outl g !!! u)
    ∧ (∀ u, (u < knots g)%nat → ¬ reach g (source g) u →
            outl g1 !!! u = [] ∧ inl g1 !!! u = []).
Proof.
  intros Hl.
  destruct (cleanup_component g (seq 0 (knots g)) Hl)
    as (m' & g1 & Ht & Hl0 & Hm & Htm & Hr & Hk & Hd).
  { intros k Hk. apply elem_of_seq. lia. }
  set (g0 := set_mark (clear_marks g) m') in *.
  exists g1, (unmarked_terminal g0 (seq 0 (knots g))).
  split; [|split; [|split; assumption]].
  - unfold level0infeas. cbv zeta. rewrite Ht. fold g0. cbn.
    rewrite Hl0. reflexivity.
  - assert (Et : term g0 = term g).
    { unfold g0. rewrite clear_marks_eq. reflexivity. }
    split.
    + intros Hb k Hlt Hterm.
      destruct (m' !!! k) eqn:E; [apply Hr; assumption|]. exfalso.
      assert (H : unmarked_terminal g0 (seq 0 (knots g)) = true).
      { apply unmarked_terminal_spec. exists k.
        split; [apply elem_of_seq; lia|]. rewrite Et. split; assumption. }
      congruence.
    + intros H. destruct (unmarked_terminal g0 (seq 0 (knots g))) eqn:E;
        [|reflexivity]. exfalso.
      apply unmarked_terminal_spec in E as (k & Hks & H1 & H2).
      apply elem_of_seq in Hks. rewrite Et in H2.
      change (mark g0) with m' in H1.
      assert (Hre : m' !!! k = true) by (apply Hr; [lia|apply H; [lia|exact H2]]).
      congruence.
Qed.

Lemma level0infeas_component_witness :
  ∃ g1 b, level0infeas Examples.lonely_terminal = Some (g1, b)
    ∧ (b = false
       ↔ ∀ k, (k < knots Examples.lonely_terminal)%nat →
              Is_term (term Examples.lonely_terminal !!! k) = true →
              reach Examples.lonely_terminal
                (source Examples.lonely_terminal) k)
    ∧ (∀ u, (u < knots Examples.lonely_terminal)%nat →
            reach Examples.lonely_terminal
              (source Examples.lonely_terminal) u →
            outl g1 !!! u = outl Examples.lonely_terminal !!! u)
    ∧ (∀ u, (u < knots Examples.lonely_terminal)%nat →
            ¬ reach Examples.lonely_terminal
                (source Examples.lonely_terminal) u →
            outl g1 !!! u = [] ∧ inl g1 !!! u = []).
Proof.
  apply (level0infeas_component Examples.lonely_terminal).
  apply graph_linked_check_sound. vm_compute. reflexivity.
Defined.
(** ** Which functions a run calls *)

Section CallsRules.
Context {Env : Type} {lib : Library Env}.

Lemma calls_in_refl P (w : World Env) : calls_in P w w.
Proof. exists []. split; [reflexivity|constructor]. Qed.

Lemma calls_in_trans P (w1 w2 w3 : World Env) :
  calls_in P w1 w2 → calls_in P w2 w3 → calls_in P w1 w3.
Proof.
  intros (l1 & E1 & F1) (l2 & E2 & F2). exists (l2 ++ l1). split.
  - rewrite E2, E1, app_assoc. reflexivity.
  - apply Forall_app. split; assumption.
Qed.

Lemma calls_in_mono (P P' : Fn → Prop) (w w' : World Env) :
  (∀ f, P f → P' f) → calls_in P w w' → calls_in P' w w'.
Proof.
  intros H (l & E & F). exists l. split; [exact E|].
  eapply Forall_impl; [exact F|exact H].
Qed.

Lemma calls_mono {A} (P P' : Fn → Prop) (Q Q' : A → Prop) (m : M Env A) :
  (∀ f, P f → P' f) → (∀ a, Q a → Q' a) → calls P Q m → calls P' Q' m.
Proof.
  intros HP HQ H w. specialize (H w).
  destruct (m w) as [a w'|rc w'|l]; [|eapply calls_in_mono; eassumption|exact I].
  destruct H as [H1 H2]. split; [apply HQ, H1|eapply calls_in_mono; eassumption].
Qed.

Lemma calls_ret {A} P (Q : A → Prop) (a : A) :
  Q a → calls P Q (mret a : M Env A).
Proof. intros H w. split; [exact H|apply calls_in_refl]. Qed.

Lemma calls_bind {A B} P (Q : A → Prop) (R : B → Prop) (m : M Env A)
    (k : A → M Env B) :
  calls P Q m → (∀ a, Q a → calls P R (k a)) → calls P R (m ≫= k).
Proof.
  intros Hm Hk w. rewrite bind_unfold. specialize (Hm w).
  destruct (m w) as [a w1|rc w1|l]; [|exact Hm|exact I].
  destruct Hm as [Ha Hw]. specialize (Hk a Ha w1).
  destruct (k a w1) as [b w2|rc w2|l]; [| |exact I].
  - destruct Hk as [Hb Hw2]. split; [exact Hb|].
    eapply calls_in_trans; eassumption.
  - eapply calls_in_trans; eassumption.
Qed.

Lemma calls_call P (Q : IO → Prop) f args io :
  P f → (∀ o, Q o) → calls P Q (call (Env := Env) f args io).
Proof.
  intros Hf HQ w. unfold call. destruct (lib_exec _ _ _ _ _) as [[[rc o] e] g].
  assert (H : calls_in P w (mkWorld e g (f :: log w))).
  { exists [f]. split; [reflexivity|]. constructor; [exact Hf|constructor]. }
  destruct (decide _); [split; [apply HQ|exact H]|exact H].
Qed.

Lemma calls_call_void P (Q : IO → Prop) f args io :
  P f → (∀ o, Q o) → calls P Q (call_void (Env := Env) f args io).
Proof.
  intros Hf HQ w. unfold call_void.
  destruct (lib_exec _ _ _ _ _) as [[[rc o] e] g].
  split; [apply HQ|]. exists [f]. split; [reflexivity|].
  constructor; [exact Hf|constructor].
Qed.

Lemma calls_get_graph P (Q : GRAPH → Prop) :
  (∀ g, Q g) → calls P Q (get_graph (Env := Env)).
Proof. intros HQ w. split; [apply HQ|apply calls_in_refl]. Qed.

Lemma calls_get_scip P (Q : Env → Prop) :
  (∀ e, Q e) → calls P Q (get_scip (Env := Env)).
Proof. intros HQ w. split; [apply HQ|apply calls_in_refl]. Qed.

Lemma calls_isStopped P (Q : bool → Prop) :
  (∀ b, Q b) → calls P Q (isStopped (Env := Env)).
Proof.
  intros HQ w. split; [apply HQ|]. exists []. split; [reflexivity|constructor].
Qed.

Lemma calls_timeover P (Q : bool → Prop) t :
  (∀ b, Q b) → calls P Q (timeover (Env := Env) t).
Proof.
  intros HQ w. split; [apply HQ|]. exists []. split; [reflexivity|constructor].
Qed.

Lemma calls_getTimelimit P (Q : Q → Prop) :
  (∀ t, Q t) → calls P Q (getTimelimit (Env := Env)).
Proof.
  intros HQ w. unfold getTimelimit.
  destruct (decide _); [split; [apply HQ|]|]; apply calls_in_refl.
Qed.

Lemma calls_few_terminals P (Q : bool → Prop) x :
  (∀ b, Q b) → calls P Q (few_terminals (Env := Env) x).
Proof. intros HQ w. split; [apply HQ|apply calls_in_refl]. Qed.

Lemma calls_level0M P (Q : unit → Prop) :
  (∀ u, Q u) → calls P Q (level0M (Env := Env)).
Proof.
  intros HQ w. unfold level0M. destruct (level0 _); [|exact I].
  split; [apply HQ|]. exists []. split; [reflexivity|constructor].
Qed.

Lemma calls_level0RpcRmwM P (Q : Q → Prop) fix_ :
  (∀ q, Q q) → calls P Q (level0RpcRmwM (Env := Env) fix_).
Proof.
  intros HQ w. unfold level0RpcRmwM.
  destruct (level0RpcRmw _ _) as [[[rc g] q]|]; [|exact I].
  destruct (decide _); [split; [apply HQ|]|];
    (exists []; split; [reflexivity|constructor]).
Qed.

Lemma calls_stuck {A} P (Q : A → Prop) l : calls P Q (stuck (Env := Env) l).
Proof. intros w. exact I. Qed.

Lemma calls_do_while {S} P (I : S → Prop) l fuel
    (body : S → M Env (Step S)) cond s :
  (∀ s, I s → calls P (λ r, I (step_val r)) (body s)) →
  (∀ s, I s → calls P (λ _, True) (cond s)) →
  I s → calls P I (do_while l fuel body cond s).
Proof.
  intros Hb Hc. revert s. induction fuel as [|fuel IH]; intros s Hs.
  - apply calls_stuck.
  - cbn [do_while]. eapply calls_bind; [apply Hb, Hs|].
    intros [s'|s'] Hs'; cbn in Hs'.
    + eapply calls_bind; [apply Hc, Hs'|].
      intros [|] _; [apply IH, Hs'|apply calls_ret, Hs'].
    + apply calls_ret, Hs'.
Qed.

Lemma calls_for_loop {S} P (I : S → Prop) l fuel
    (cond : Z → S → M Env bool) body i s :
  (∀ i s, I s → calls P (λ _, True) (cond i s)) →
  (∀ i s, I s → calls P (λ r, I (snd (step_val r))) (body i s)) →
  I s → calls P (λ r, I (snd r)) (for_loop l fuel cond body i s).
Proof.
  intros Hc Hb. revert i s. induction fuel as [|fuel IH]; intros i s Hs.
  - cbn [for_loop]. eapply calls_bind; [apply Hc, Hs|].
    intros [|] _; [apply calls_stuck|apply calls_ret, Hs].
  - cbn [for_loop]. eapply calls_bind; [apply Hc, Hs|].
    intros [|] _; [|apply calls_ret, Hs].
    eapply calls_bind; [apply Hb, Hs|].
    intros [[i' s']|r] Hr; cbn in Hr; [apply IH, Hr|apply calls_ret, Hr].
Qed.

Lemma calls_keep_counter {S} P (I : S → Prop)
    (body : Z → S → M Env (Step S)) i s :
  calls P (λ r, I (step_val r)) (body i s) →
  calls P (λ r, I (snd (step_val r))) (keep_counter body i s).
Proof.
  intros H. unfold keep_counter. eapply calls_bind; [exact H|].
  intros [s'|s'] Hs; apply calls_ret; exact Hs.
Qed.

Lemma calls_nvreduce_sl P (Q : Q * Z → Prop) fuel fixed minelims :
  P reduce_nvAdv → P reduce_sl → P reduce_simple_pc → P reduce_simple →
  (∀ r, Q r) → calls P Q (nvreduce_sl (Env := Env) fuel fixed minelims).
Proof.
  intros H1 H2 H3 H4 HQ. unfold nvreduce_sl.
  apply (calls_bind P (λ _, True)); [|intros r _; apply calls_ret, HQ].
  apply (calls_do_while P (λ _, True)); [| |exact I].
  - intros s _.
    apply (calls_bind P (λ _, True)); [|intros p _; apply calls_ret; exact I].
    unfold nvreduce_sl_pass.
    apply (calls_bind P (λ _, True)); [apply calls_call; [exact H1|auto]|].
    intros io1 _.
    apply (calls_bind P (λ _, True)); [apply calls_call; [exact H2|auto]|].
    intros io2 _.
    apply (calls_bind P (λ _, True)); [apply calls_get_graph; auto|].
    intros g _.
    apply (calls_bind P (λ _, True)); [|intros r _; apply calls_ret; exact I].
    destruct (0 <? _); [|apply calls_ret; exact I].
    destruct (_ || _).
    + apply (calls_bind P (λ _, True)); [apply calls_call; [exact H3|auto]|].
      intros io3 _. apply calls_ret; exact I.
    + apply (calls_bind P (λ _, True)); [apply calls_call; [exact H4|auto]|].
      intros io3 _. apply calls_ret; exact I.
  - intros s _. apply calls_ret. exact I.
Qed.

End CallsRules.

(** The condition a loop invariant [Inv] puts on a result of type [A]:
    on the variables inside it. *)
Ltac post_for Inv A :=
  lazymatch A with
  | Step ?B => let Q := post_for Inv B in constr:(λ r : A, Q (step_val r))
  | (Z * ?B)%type => let Q := post_for Inv B in constr:(λ r : A, Q (snd r))
  | (bool * ?B)%type => let Q := post_for Inv B in constr:(λ r : A, Q (snd r))
  | (?B * _)%type => let Q := post_for Inv B in constr:(λ r : A, Q (fst r))
  | _ => lazymatch type of Inv with
         | A → Prop => constr:(Inv)
         | _ => constr:(λ _ : A, True)
         end
  end.

(** Walks through a program made of library calls: [Inv] is kept by the
    variables, [fn] shows that a function may be called, [post] that a
    result keeps [Inv], [simp] uses [Inv] on a test, and [blk] has the
    lemmas of the blocks met on the way. *)
Ltac calls_walk_with Inv fn post simp blk :=
  repeat (cbv beta in *; cbn [fst snd step_val] in *;
    first
    [ blk
    | apply calls_ret; first [exact Logic.I | post]
    | apply calls_call; [fn|intros; first [exact Logic.I | post]]
    | apply calls_call_void; [fn|intros; first [exact Logic.I | post]]
    | apply calls_get_graph; intros; first [exact Logic.I | post]
    | apply calls_get_scip; intros; first [exact Logic.I | post]
    | apply calls_isStopped; intros; first [exact Logic.I | post]
    | apply calls_timeover; intros; first [exact Logic.I | post]
    | apply calls_getTimelimit; intros; first [exact Logic.I | post]
    | apply calls_few_terminals; intros; first [exact Logic.I | post]
    | apply calls_level0M; intros; first [exact Logic.I | post]
    | apply calls_level0RpcRmwM; intros; first [exact Logic.I | post]
    | apply calls_nvreduce_sl; [fn|fn|fn|fn|intros; first [exact Logic.I | post]]
    | lazymatch goal with
      | |- calls ?P _ (@mbind _ _ ?A _ _ _) =>
          let Q := post_for Inv A in
          apply (calls_bind P Q); [|intros ? ?]
      end
    | lazymatch goal with
      | |- calls _ _ (if _ then _ else _) =>
          simp;
          lazymatch goal with
          | |- calls _ _ (if ?c then _ else _) => destruct c eqn:?
          | |- _ => idtac
          end
      | |- calls _ _ (match ?x with _ => _ end) => destruct x
      end ]).

Ltac calls_walk Inv fn post simp :=
  calls_walk_with Inv fn post simp ltac:(fail).

Section CallsSap.
Context {Env : Type} {lib : Library Env}.
Variable P : Fn → Prop.
Hypothesis Hbase : ∀ f, f ∈ [reduce_simple_sap; reduce_rpt; reduce_da] → P f.

Lemma reduceSap_round_calls redbound timelimit v :
  sap_sd v = false →
  calls P (λ r, sap_sd (step_val r) = false)
    (reduceSap_round (Env := Env) redbound timelimit v).
Proof.
  intros Hv. unfold reduceSap_round.
  calls_walk (λ v : SapVars, sap_sd v = false)
    ltac:(first [ apply Hbase; solve [repeat constructor]
                | congruence ])
    ltac:(repeat match goal with
                 | |- context [if ?c then _ else _] => destruct c
                 end; cbn; first [assumption | congruence])
    ltac:(idtac).
Qed.

End CallsSap.

(** Uses the flags kept off to show that a test is not reached, or that
    a flag stays off. *)
Ltac flags_off :=
  repeat match goal with
    | H : Mw_keeps _ _ _ |- _ => destruct H as (? & ? & ?)
    | H : Pc_keeps _ _ _ |- _ => destruct H as (? & ? & ?)
    | H : Stp_keeps _ _ _ _ |- _ => destruct H as (? & ?)
    end;
  unfold Mw_keeps, Pc_keeps, Stp_keeps, stays_off in *;
  repeat match goal with
    | |- context [if ?c then _ else _] => destruct c eqn:?
    end;
  cbn in *;
  repeat match goal with
    | |- _ ∧ _ => split
    | E : (_ || _) = true |- _ => apply orb_prop in E; destruct E as [E|E]
    | E : (_ && _) = true |- _ => apply andb_prop in E; destruct E as [? ?]
    | E : negb _ = true |- _ => apply negb_true_iff in E
    end;
  try solve [ auto | discriminate | congruence
            | intros; auto; congruence
            | intros; subst; first [apply orb_true_r | apply orb_true_l]
            | intros;
              repeat match goal with
                | E : ?x = true |- _ => is_var x; rewrite E
                end;
              first [apply orb_true_r | apply orb_true_l | reflexivity]
            | match goal with
              | E : STP_RED_EXTENSIVE = true |- _ => discriminate E
              end ].

Section CallsMw.
Context {Env : Type} {lib : Library Env}.
Variables (P : Fn → Prop) (advanced0 bred0 : bool).
Hypothesis Hbase : ∀ f,
  f ∈ [reduce_simple_mw; reduce_ans; reduce_ansAdv; reduce_nnp;
       reduce_chain2; reduce_npv; reduce_ansAdv2] → P f.
Hypothesis Hda : advanced0 = true → P reduce_daPcMw.
Hypothesis Hbred : bred0 = true → P reduce_boundMw.

Lemma Mw_round_calls redbound tryrmw timelimit prizesum rounds v :
  Mw_keeps advanced0 bred0 v →
  calls P (λ r, Mw_keeps advanced0 bred0 (step_val r))
    (Mw.round (Env := Env) redbound tryrmw timelimit prizesum rounds v).
Proof.
  intros Hv.
  unfold Mw.round, Mw.round_tests, Mw.round_restart, Mw.round_ans,
    Mw.round_ansad, Mw.round_simple, Mw.round_da, Mw.round_nnp,
    Mw.round_chain2_nnp, Mw.round_npv, Mw.round_chain2, Mw.round_ansad2,
    Mw.round_bred, Mw.simple_mw.
  calls_walk (Mw_keeps advanced0 bred0)
    ltac:(first [ apply Hbase; solve [repeat constructor]
                | apply Hda; flags_off
                | apply Hbred; flags_off ])
    ltac:(flags_off)
    ltac:(idtac).
Qed.

End CallsMw.

Section CallsMwLoop.
Context {Env : Type} {lib : Library Env}.
Variables (P : Fn → Prop) (advanced0 bred0 : bool).
Hypothesis Hbase : ∀ f,
  f ∈ [reduce_simple_mw; reduce_ans; reduce_ansAdv; reduce_nnp;
       reduce_chain2; reduce_npv; reduce_ansAdv2] → P f.
Hypothesis Hda : advanced0 = true → P reduce_daPcMw.
Hypothesis Hbred : bred0 = true → P reduce_boundMw.

Lemma redLoopMw_rounds_calls redbound tryrmw timelimit prizesum fuel rounds v :
  Mw_keeps advanced0 bred0 v →
  calls P (λ r, Mw_keeps advanced0 bred0 (snd r))
    (Mw.redLoopMw_rounds (Env := Env) redbound tryrmw timelimit prizesum
       fuel rounds v).
Proof.
  intros Hv. unfold Mw.redLoopMw_rounds.
  apply (calls_for_loop P (Mw_keeps advanced0 bred0)); [| |exact Hv].
  - intros i s Hs. unfold Mw.round_cond.
    calls_walk (Mw_keeps advanced0 bred0) ltac:(idtac) ltac:(idtac)
      ltac:(idtac).
  - intros i s Hs. apply calls_keep_counter.
    apply Mw_round_calls; assumption.
Qed.

End CallsMwLoop.

Section CallsPc.
Context {Env : Type} {lib : Library Env}.
Variables (P : Fn → Prop) (dualascent bred0 tryrpc : bool).
Hypothesis Hbase : ∀ f,
  f ∈ [reduce_simple_pc; reduce_sdPc; reduce_sdStar; reduce_sdWalk_csr;
       reduce_sdWalkExt; reduce_sdsp; reduce_nvAdv; reduce_sl;
       reduce_simple; graph_pc_2trans; graph_pc_2org] → P f.
Hypothesis Hda : dualascent = true → P reduce_da.
Hypothesis Hdapc : dualascent = true → P reduce_daPcMw.
Hypothesis Hbd3 : dualascent = true → P reduce_bd34.
Hypothesis Hbred : bred0 = true → P reduce_bound.
Hypothesis Hconv : tryrpc = true → P graph_pc_pcmw2rooted.

Lemma Pc_round_calls fuel reductbound userec nodereplacing timelimit prizesum
    rounds s :
  Pc_keeps dualascent bred0 (snd s) →
  calls P (λ r, Pc_keeps dualascent bred0 (snd (snd (step_val r))))
    (Pc.round (Env := Env) fuel dualascent tryrpc reductbound userec
       nodereplacing timelimit prizesum rounds s).
Proof.
  intros Hv. destruct s as [rpc v]. cbn [snd] in Hv.
  unfold Pc.round, Pc.round_tests, Pc.round_advanced, Pc.round_convert,
    Pc.round_sd, Pc.round_sdstar, Pc.round_sdw, Pc.round_sdc, Pc.round_bd3,
    Pc.round_nvsl, Pc.round_bred, Pc.round_da, Pc.simple_pc,
    Pc.execPc_SD, Pc.execPc_SDSP, Pc.execPc_BDk, Pc.execPc_NVSL,
    Pc.execPc_BND.
  calls_walk (Pc_keeps dualascent bred0)
    ltac:(first [ apply Hbase; solve [repeat constructor]
                | apply Hda; flags_off
                | apply Hdapc; flags_off
                | apply Hbd3; flags_off
                | apply Hbred; flags_off
                | apply Hconv; flags_off ])
    ltac:(flags_off)
    ltac:(idtac).
Qed.

Lemma redLoopPc_rounds_calls fuel reductbound userec nodereplacing timelimit
    prizesum rfuel rounds s :
  Pc_keeps dualascent bred0 (snd s) →
  calls P (λ r, Pc_keeps dualascent bred0 (snd (snd r)))
    (Pc.redLoopPc_rounds (Env := Env) fuel dualascent tryrpc reductbound
       userec nodereplacing timelimit prizesum rfuel rounds s).
Proof.
  intros Hv. unfold Pc.redLoopPc_rounds.
  apply (calls_for_loop P (λ s, Pc_keeps dualascent bred0 (snd s)));
    [| |exact Hv].
  - intros i s' Hs. unfold Pc.round_cond.
    calls_walk (Pc_keeps dualascent bred0) ltac:(idtac) ltac:(idtac)
      ltac:(idtac).
  - intros i s' Hs. apply Pc_round_calls. exact Hs.
Qed.

End CallsPc.

Section CallsStp.
Context {Env : Type} {lib : Library Env}.
Variables (P : Fn → Prop) (dualascent fullreduce bred0 : bool).
Hypothesis Hbase : ∀ f,
  f ∈ [reduce_simple; reduce_ledge; reduce_sd; reduce_sdsp; reduce_bd34;
       reduce_nvAdv; reduce_sl; reduce_simple_pc] → P f.
Hypothesis Hda : dualascent || fullreduce = true → P reduce_da.
Hypothesis Hbred : bred0 = true → P reduce_bound.

Lemma Stp_round_tests_calls fuel nodereplacing reductbound userec timelimit
    inner_rounds v :
  Stp_keeps dualascent fullreduce bred0 v →
  calls P (λ r, Stp_keeps dualascent fullreduce bred0 (fst (step_val r)))
    (Stp.round_tests (Env := Env) fuel nodereplacing reductbound userec
       timelimit inner_rounds v).
Proof.
  intros Hv.
  unfold Stp.round_tests, Stp.round_le, Stp.round_sd, Stp.round_sdc,
    Stp.round_bd3, Stp.round_nvsl, Stp.round_da, Stp.round_bred, Stp.simple.
  calls_walk (Stp_keeps dualascent fullreduce bred0)
    ltac:(first [ apply Hbase; solve [repeat constructor]
                | apply Hda; flags_off
                | apply Hbred; flags_off ])
    ltac:(flags_off)
    ltac:(idtac).
Qed.

Lemma Stp_inner_round_calls fuel nodereplacing reductbound userec timelimit
    inner_rounds s :
  Stp_keeps dualascent fullreduce bred0 (snd s) →
  calls P (λ r, Stp_keeps dualascent fullreduce bred0 (snd (step_val r)))
    (Stp.inner_round (Env := Env) fuel nodereplacing reductbound userec
       fullreduce timelimit inner_rounds s).
Proof.
  intros Hv. unfold Stp.inner_round.
  eapply calls_bind;
    [apply (Stp_round_tests_calls fuel nodereplacing reductbound userec
              timelimit inner_rounds (snd s) Hv)|].
  intros [[v e]|[v e]] Hr; cbn in Hr; apply calls_ret; cbn [step_val].
  - unfold Stp.round_restart. flags_off.
  - exact Hr.
Qed.

Lemma redLoopStp_inner_calls fuel nodereplacing reductbound userec timelimit
    rfuel inner_rounds s :
  Stp_keeps dualascent fullreduce bred0 (snd s) →
  calls P (λ r, Stp_keeps dualascent fullreduce bred0 (snd (snd r)))
    (Stp.redLoopStp_inner (Env := Env) fuel nodereplacing reductbound userec
       fullreduce timelimit rfuel inner_rounds s).
Proof.
  intros Hv. unfold Stp.redLoopStp_inner.
  apply (calls_for_loop P (λ s, Stp_keeps dualascent fullreduce bred0 (snd s)));
    [| |exact Hv].
  - intros i s' Hs. unfold Stp.rerun_cond.
    calls_walk (Stp_keeps dualascent fullreduce bred0) ltac:(idtac)
      ltac:(idtac) ltac:(idtac).
  - intros i s' Hs.
    apply (calls_keep_counter P
             (λ s, Stp_keeps dualascent fullreduce bred0 (snd s))).
    apply (Stp_inner_round_calls fuel nodereplacing reductbound userec
             timelimit i s' Hs).
Qed.

Lemma Stp_extensive_round_calls fuel nodereplacing reductbound userec
    timelimit v :
  Stp_keeps dualascent fullreduce bred0 v →
  calls P (λ r, Stp_keeps dualascent fullreduce bred0 (step_val r))
    (Stp.extensive_round (Env := Env) fuel nodereplacing reductbound userec
       fullreduce timelimit v).
Proof.
  intros Hv. unfold Stp.extensive_round.
  eapply calls_bind;
    [apply (redLoopStp_inner_calls fuel nodereplacing reductbound userec
              timelimit fuel 0 (0, v) Hv)|].
  intros r Hr. unfold Stp.extensive_step.
  apply (calls_bind P (λ b : bool, b = true → fullreduce = true)).
  { destruct fullreduce; [|apply calls_ret; discriminate].
    apply (calls_bind P (λ _, True)); [apply calls_isStopped; auto|].
    intros b _. apply calls_ret. reflexivity. }
  intros b Hb.
  calls_walk (Stp_keeps dualascent fullreduce bred0)
    ltac:(first [ apply Hbase; solve [repeat constructor]
                | apply Hda; rewrite Hb by reflexivity; apply orb_true_r ])
    ltac:(flags_off;
          try (intros _; rewrite Hb by reflexivity; apply orb_true_r))
    ltac:(idtac).
Qed.

End CallsStp.

(** *** The packages *)

(** A list of functions allowed by [Hbase] is allowed. *)
Ltac base_sub Hbase :=
  intros ? ?; apply Hbase;
  repeat match goal with
    | H : _ ∈ _ :: _ |- _ => apply elem_of_cons in H as [->|H]
    | H : _ ∈ [] |- _ => apply elem_of_nil in H; contradiction
    end; solve [repeat constructor].

Section CallsPackages.
Context {Env : Type} {lib : Library Env}.
Variable P : Fn → Prop.

Lemma redLoopMw_calls fuel fixed advanced bred tryrmw redbound userec :
  (∀ f, f ∈ [SCIPcreateRandom; graph_pc_2org; reduce_simple_mw; reduce_ans;
             reduce_ansAdv; reduce_nnp; reduce_chain2; reduce_npv;
             reduce_ansAdv2; graph_pc_2trans; SCIPfreeRandom] → P f) →
  (advanced = true → P reduce_daPcMw) →
  (bred = true → P reduce_boundMw) →
  (tryrmw && userec = true → P graph_pc_pcmw2rooted) →
  calls P (λ _, True)
    (Mw.redLoopMw (Env := Env) fuel fixed advanced bred tryrmw redbound
       userec).
Proof.
  intros Hbase Hda Hbred Hconv. unfold Mw.redLoopMw, Mw.simple_mw.
  calls_walk_with (Mw_keeps advanced bred)
    ltac:(first [ apply Hbase; solve [repeat constructor]
                | apply Hconv; flags_off ])
    ltac:(flags_off)
    ltac:(idtac)
    ltac:(apply (redLoopMw_rounds_calls P advanced bred);
          [ base_sub Hbase | exact Hda | exact Hbred | assumption ]).
Qed.

Lemma redLoopPc_calls fuel fixed dualascent bred tryrpc reductbound userec
    nodereplacing :
  (∀ f, f ∈ [SCIPcreateRandom; graph_heap_create; graph_pc_2org;
             graph_pc_presolInit; reduce_simple_pc; reduce_sdPc;
             reduce_sdStar; reduce_sdWalk_csr; reduce_sdWalkExt;
             reduce_sdsp; reduce_nvAdv; reduce_sl; reduce_simple;
             graph_pc_2trans; graph_pc_presolExit; graph_heap_free;
             SCIPfreeRandom] → P f) →
  (dualascent = true → P reduce_da) →
  (dualascent = true → P reduce_daPcMw) →
  (dualascent = true → P reduce_bd34) →
  (bred = true → P reduce_bound) →
  (tryrpc = true → P graph_pc_pcmw2rooted) →
  (dualascent && tryrpc = true → P reduce_deleteConflictEdges) →
  calls P (λ _, True)
    (Pc.redLoopPc (Env := Env) fuel fixed dualascent bred tryrpc reductbound
       userec nodereplacing).
Proof.
  intros Hbase Hda Hdapc Hbd3 Hbred Hconv Hdel. unfold Pc.redLoopPc.
  calls_walk_with (Pc_keeps dualascent bred)
    ltac:(first [ apply Hbase; solve [repeat constructor]
                | apply Hdel; flags_off ])
    ltac:(flags_off)
    ltac:(idtac)
    ltac:(apply (redLoopPc_rounds_calls P dualascent bred tryrpc);
          [ base_sub Hbase | exact Hda | exact Hdapc | exact Hbd3
          | exact Hbred | exact Hconv | cbn [snd]; flags_off ]).
Qed.

Lemma redLoopStp_calls fuel fixed upperbound dualascent boundreduce
    nodereplacing reductbound userec fullreduce :
  (∀ f, f ∈ [SCIPcreateRandom; reduce_contractZeroEdges; reduce_simple;
             reduce_ledge; reduce_sd; reduce_sdsp; reduce_bd34;
             reduce_nvAdv; reduce_sl; reduce_simple_pc; SCIPfreeRandom]
        → P f) →
  (dualascent || fullreduce = true → P reduce_da) →
  (boundreduce = true → P reduce_bound) →
  (fullreduce = true → P reduce_deleteConflictEdges) →
  calls P (λ _, True)
    (Stp.redLoopStp (Env := Env) fuel fixed upperbound dualascent boundreduce
       nodereplacing reductbound userec fullreduce).
Proof.
  intros Hbase Hda Hbred Hdel. unfold Stp.redLoopStp.
  calls_walk_with (Stp_keeps dualascent fullreduce boundreduce)
    ltac:(first [ apply Hbase; solve [repeat constructor]
                | apply Hdel; flags_off ])
    ltac:(flags_off)
    ltac:(idtac)
    ltac:(first
      [ apply (calls_do_while P
                 (Stp_keeps dualascent fullreduce boundreduce));
        [ intros ? ?;
          apply (Stp_extensive_round_calls P dualascent fullreduce
                   boundreduce);
          [ base_sub Hbase | exact Hda | exact Hbred | assumption ]
        | intros ? ?; unfold Stp.rerun_cond
        | flags_off ] ]).
Qed.

Lemma reduceHc_calls fuel fixed minelims :
  (∀ f, f ∈ [reduce_simple_hc; reduce_boundHopR; reduce_boundHopRc;
             reduce_bound; reduce_boundHop] → P f) →
  calls P (λ _, True) (reduceHc (Env := Env) fuel fixed minelims).
Proof.
  intros Hbase. unfold reduceHc, reduceHc_round.
  calls_walk_with (λ _ : unit, True)
    ltac:(apply Hbase; solve [repeat constructor])
    ltac:(idtac)
    ltac:(idtac)
    ltac:(first
      [ apply (calls_for_loop P (λ _, True)); [intros ? ? _|intros ? ? _|exact I]
      | apply (calls_keep_counter P (λ _, True)) ]).
Qed.

Lemma reduceNw_calls fuel fixed minelims :
  (∀ f, f ∈ [SCIPcreateRandom; reduce_da; SCIPfreeRandom] → P f) →
  calls P (λ _, True) (reduceNw (Env := Env) fuel fixed minelims).
Proof.
  intros Hbase. unfold reduceNw.
  calls_walk_with (λ _ : unit, True)
    ltac:(apply Hbase; solve [repeat constructor])
    ltac:(idtac)
    ltac:(idtac)
    ltac:(first
      [ apply (calls_for_loop P (λ _, True)); [intros ? ? _|intros ? ? _|exact I]
      | apply (calls_keep_counter P (λ _, True)) ]).
Qed.

Lemma reduceSap_calls fuel fixed minelims :
  (∀ f, f ∈ [SCIPcreateRandom; reduce_simple_sap; reduce_rpt; reduce_da;
             SCIPfreeRandom] → P f) →
  calls P (λ _, True) (reduceSap (Env := Env) fuel fixed minelims).
Proof.
  intros Hbase. unfold reduceSap.
  calls_walk_with (λ v : SapVars, sap_sd v = false)
    ltac:(apply Hbase; solve [repeat constructor])
    ltac:(reflexivity)
    ltac:(idtac)
    ltac:(first
      [ apply (calls_for_loop P (λ v : SapVars, sap_sd v = false));
        [ intros ? ? ?
        | intros ? ? ?;
          apply (calls_keep_counter P (λ v : SapVars, sap_sd v = false));
          apply (reduceSap_round_calls P); [base_sub Hbase|assumption]
        | reflexivity ]
      | intros w; cbn; split; [exact I|];
        exists []; split; [reflexivity|constructor] ]).
Qed.

Lemma reduceMw_calls fuel fixed minelims advanced userec :
  (∀ f, f ∈ [SCIPcreateRandom; graph_pc_2org; reduce_simple_mw; reduce_ans;
             reduce_ansAdv; reduce_nnp; reduce_chain2; reduce_npv;
             reduce_ansAdv2; reduce_boundMw; graph_pc_2trans;
             SCIPfreeRandom] → P f) →
  (advanced = true → P reduce_daPcMw) →
  (advanced && userec = true → P graph_pc_pcmw2rooted) →
  calls P (λ _, True) (reduceMw (Env := Env) fuel fixed minelims advanced
                         userec).
Proof.
  intros Hbase Hda Hconv. unfold reduceMw.
  calls_walk_with (λ _ : unit, True) ltac:(idtac) ltac:(idtac) ltac:(idtac)
    ltac:(lazymatch goal with
          | |- calls _ _ (Mw.redLoopMw _ _ _ _ _ _ _) => idtac
          end;
          apply redLoopMw_calls;
          [ base_sub Hbase | exact Hda
          | intros _; apply Hbase; solve [repeat constructor]
          | exact Hconv ]).
Qed.

Lemma reducePc_calls fuel fixed minelims advanced userec nodereplacing :
  (∀ f, f ∈ [SCIPcreateRandom; graph_heap_create; graph_pc_2org;
             graph_pc_presolInit; reduce_simple_pc; reduce_sdPc;
             reduce_sdStar; reduce_sdWalk_csr; reduce_sdWalkExt;
             reduce_sdsp; reduce_nvAdv; reduce_sl; reduce_simple;
             reduce_bound; graph_pc_2trans; graph_pc_presolExit;
             graph_heap_free; SCIPfreeRandom] → P f) →
  (advanced = true → P reduce_da) →
  (advanced = true → P reduce_daPcMw) →
  (advanced = true → P reduce_bd34) →
  (userec && advanced = true → P graph_pc_pcmw2rooted) →
  (userec && advanced = true → P reduce_deleteConflictEdges) →
  calls P (λ _, True) (reducePc (Env := Env) fuel fixed minelims advanced
                         userec nodereplacing).
Proof.
  intros Hbase Hda Hdapc Hbd3 Hconv Hdel. unfold reducePc.
  calls_walk_with (λ _ : unit, True) ltac:(idtac) ltac:(idtac) ltac:(idtac)
    ltac:(lazymatch goal with
          | |- calls _ _ (Pc.redLoopPc _ _ _ _ _ _ _ _) => idtac
          end;
          apply redLoopPc_calls;
          [ base_sub Hbase | exact Hda | exact Hdapc | exact Hbd3
          | intros _; apply Hbase; solve [repeat constructor]
          | exact Hconv
          | intros E; apply Hdel; apply andb_prop in E as [_ E]; exact E ]).
Qed.

Lemma reduceStp_calls fuel fixed minelims dualascent nodereplacing userec :
  (∀ f, f ∈ [SCIPcreateRandom; reduce_contractZeroEdges; reduce_simple;
             reduce_ledge; reduce_sd; reduce_sdsp; reduce_bd34;
             reduce_nvAdv; reduce_sl; reduce_simple_pc; reduce_bound;
             SCIPfreeRandom] → P f) →
  (dualascent = true → P reduce_da) →
  (dualascent && userec = true → P reduce_deleteConflictEdges) →
  calls P (λ _, True) (reduceStp (Env := Env) fuel fixed minelims dualascent
                         nodereplacing userec).
Proof.
  intros Hbase Hda Hdel. unfold reduceStp.
  calls_walk_with (λ _ : unit, True) ltac:(idtac) ltac:(idtac) ltac:(idtac)
    ltac:(lazymatch goal with
          | |- calls _ _ (Stp.redLoopStp _ _ _ _ _ _ _ _ _) => idtac
          end;
          apply redLoopStp_calls;
          [ base_sub Hbase
          | intros E; apply Hda; destruct dualascent; [reflexivity|exact E]
          | intros _; apply Hbase; solve [repeat constructor]
          | exact Hdel ]).
Qed.

End CallsPackages.

Section CallsAt.
Context {Env : Type} {lib : Library Env}.

Lemma calls_at {A} P (Q : A → Prop) (m : M Env A) (w : World Env) :
  calls P Q m →
  match m w with
  | Done _ w' | Fail _ w' => ∃ l, log w' = l ++ log w ∧ ∀ f, f ∈ l → P f
  | Stuck _ => True
  end.
Proof.
  intros H. specialize (H w).
  destruct (m w) as [a w'|rc w'|l]; [destruct H as [_ H]| |exact I];
    destruct H as (l & E & F); exists l; (split; [exact E|]);
    apply Forall_forall; exact F.
Qed.

End CallsAt.

(** Decides whether a function is in the set the goal asks for. *)
Ltac decide_fn :=
  lazymatch goal with
  | |- ∀ _, _ ∈ _ → _ =>
      let f := fresh in let Hf := fresh in
      intros f Hf;
      repeat (apply elem_of_cons in Hf as [->|Hf]);
      [..|apply elem_of_nil in Hf; contradiction];
      decide_fn
  | |- _ = true → _ =>
      let E := fresh in intros E; cbn in E;
      first [discriminate E | clear E; decide_fn | decide_fn]
  | |- _ => cbv beta; apply (bool_decide_unpack _); vm_compute;
            exact Logic.I
  end.

Section ReduceCalls.
Context {Env : Type} {lib : Library Env}.

(** X5: at level 1, [reduce] runs no dual ascent on a graph that is
    neither of type [STP_SAP] nor of type [STP_NWSPG]: whatever the
    library answers and whatever way the run ends, it calls neither
    [reduce_da] nor [reduce_daPcMw], does not convert the graph to a
    rooted one and does not delete conflict edges. *)
Theorem reduce_level1_no_dual_ascent (fuel : nat) (minelims : Z)
    (userec : bool) (w : World Env) :
  stp_type (graph w) ∉ [STP_SAP; STP_NWSPG] →
  match reduce fuel 1 minelims userec w with
  | Done _ w' | Fail _ w' =>
      ∃ l, log w' = l ++ log w
           ∧ ∀ f, f ∈ l → f ∉ [reduce_da; reduce_daPcMw;
                                graph_pc_pcmw2rooted;
                                reduce_deleteConflictEdges]
  | Stuck _ => True
  end.
Proof.
  intros Ht. unfold reduce. rewrite bind_unfold. unfold get_graph at 1.
  cbv beta iota. set (t := stp_type (graph w)) in *. clearbody t.
  apply (calls_at (λ f, f ∉ [reduce_da; reduce_daPcMw; graph_pc_pcmw2rooted;
                             reduce_deleteConflictEdges]) (λ _, True)).
  change (1 =? 1) with true. cbv iota.
  calls_walk_with (λ _ : unit, True)
    ltac:(idtac; decide_fn) ltac:(idtac) ltac:(idtac)
    ltac:(first
      [ lazymatch goal with
        | |- calls _ _ (reducePc _ _ _ _ _ _) => apply reducePc_calls
        | |- calls _ _ (reduceMw _ _ _ _ _) => apply reduceMw_calls
        | |- calls _ _ (reduceStp _ _ _ _ _ _) => apply reduceStp_calls
        | |- calls _ _ (reduceHc _ _ _) => apply reduceHc_calls
        end; decide_fn
      | lazymatch goal with
        | |- calls _ _ (reduceSap _ _ _) => exfalso; apply Ht
        | |- calls _ _ (reduceNw _ _ _) => exfalso; apply Ht
        end;
        repeat match goal with
          | E : bool_decide _ = true |- _ => apply bool_decide_eq_true in E
          end; subst; solve [repeat constructor] ]).
Qed.

(** X6: the SD test of [reduceSap] is switched off.  Whatever the
    library answers and whatever way the run ends, [reduceSap] calls only
    [SCIPcreateRandom], [reduce_simple_sap], [reduce_rpt], [reduce_da]
    and [SCIPfreeRandom], and never [reduce_sdspSap]. *)
Theorem reduceSap_tests (fuel : nat) (fixed : Q) (minelims : Z)
    (w : World Env) :
  match reduceSap fuel fixed minelims w with
  | Done _ w' | Fail _ w' =>
      ∃ l, log w' = l ++ log w
           ∧ ∀ f, f ∈ l → f ∈ [SCIPcreateRandom; reduce_simple_sap;
                                reduce_rpt; reduce_da; SCIPfreeRandom]
                          ∧ f ≠ reduce_sdspSap
  | Stuck _ => True
  end.
Proof.
  apply (calls_at (λ f, f ∈ [SCIPcreateRandom; reduce_simple_sap; reduce_rpt;
                             reduce_da; SCIPfreeRandom]
                        ∧ f ≠ reduce_sdspSap) (λ _, True)).
  apply reduceSap_calls. intros f Hf. split; [exact Hf|].
  intros ->. revert Hf. apply (bool_decide_unpack _). vm_compute. exact I.
Qed.

(** X7: without the recombination heuristic ([userec] is [FALSE])
    [reduce] leaves the problem class alone: at any level, on any graph,
    whatever the library answers and whatever way the run ends, it
    neither converts the graph to a rooted one ([graph_pc_pcmw2rooted])
    nor deletes conflict edges ([reduce_deleteConflictEdges]). *)
Theorem reduce_without_userec (fuel : nat) (level minelims : Z)
    (w : World Env) :
  match reduce fuel level minelims false w with
  | Done _ w' | Fail _ w' =>
      ∃ l, log w' = l ++ log w
           ∧ ∀ f, f ∈ l → f ∉ [graph_pc_pcmw2rooted;
                                reduce_deleteConflictEdges]
  | Stuck _ => True
  end.
Proof.
  apply (calls_at (λ f, f ∉ [graph_pc_pcmw2rooted;
                             reduce_deleteConflictEdges]) (λ _, True)).
  unfold reduce.
  calls_walk_with (λ _ : unit, True)
    ltac:(idtac; decide_fn) ltac:(idtac) ltac:(idtac)
    ltac:(idtac; lazymatch goal with
        | |- calls _ _ (reducePc _ _ _ _ _ _) => apply reducePc_calls
        | |- calls _ _ (reduceMw _ _ _ _ _) => apply reduceMw_calls
        | |- calls _ _ (reduceStp _ _ _ _ _ _) => apply reduceStp_calls
        | |- calls _ _ (reduceHc _ _ _) => apply reduceHc_calls
        | |- calls _ _ (reduceSap _ _ _) => apply reduceSap_calls
        | |- calls _ _ (reduceNw _ _ _) => apply reduceNw_calls
        end; decide_fn).
Qed.

(** X10: on a graph of type [STP_DHCSTP], [STP_SAP] or [STP_NWSPG] the
    levels 1 and 2 of [reduce] are the same, and [userec] plays no part:
    the runs agree in their return code, offset, graph, SCIP state and
    calls. *)
Theorem reduce_levels_agree (fuel : nat) (minelims : Z)
    (userec1 userec2 : bool) (w : World Env) :
  stp_type (graph w) ∈ [STP_DHCSTP; STP_SAP; STP_NWSPG] →
  reduce fuel 1 minelims userec1 w = reduce fuel 2 minelims userec2 w.
Proof.
  intros Ht. unfold reduce. rewrite !bind_unfold. unfold get_graph at 1 3.
  cbv beta iota. set (t := stp_type (graph w)) in *. clearbody t.
  repeat (apply elem_of_cons in Ht as [->|Ht]);
    [reflexivity..|apply elem_of_nil in Ht; contradiction].
Qed.

(** X15: the bound-based test of the Steiner tree and the
    prize-collecting package needs few terminals.  When SCIP does not
    take the share of terminals among the nodes to be at most 0.03 at
    the entry, [reduceStp] and [reducePc] never call [reduce_bound],
    whatever their flags, the answers of the library and the way they
    end. *)
Theorem bound_test_needs_few_terminals (fuel : nat) (fixed : Q)
    (minelims : Z) (b1 b2 b3 : bool) (w : World Env) :
  SCIPisLE (scip w)
    (inject_Z (terms (graph w)) / inject_Z (Z.of_nat (knots (graph w))))%Q
    (3 # 100) = false →
  match reduceStp fuel fixed minelims b1 b2 b3 w with
  | Done _ w' | Fail _ w' =>
      ∃ l, log w' = l ++ log w ∧ ∀ f, f ∈ l → f ≠ reduce_bound
  | Stuck _ => True
  end
  ∧ match reducePc fuel fixed minelims b1 b2 b3 w with
    | Done _ w' | Fail _ w' =>
        ∃ l, log w' = l ++ log w ∧ ∀ f, f ∈ l → f ≠ reduce_bound
    | Stuck _ => True
    end.
Proof.
  intros Hr. split.
  - unfold reduceStp. rewrite bind_unfold. unfold get_graph at 1.
    cbv beta iota. rewrite bind_unfold.
    change (few_terminals (3 # 100) w)
      with (Done (SCIPisLE (scip w)
                    (inject_Z (terms (graph w))
                     / inject_Z (Z.of_nat (knots (graph w))))%Q (3 # 100)) w).
    cbv beta iota. rewrite Hr.
    generalize (reduceStp_reductbound (graph w) minelims). intros rb.
    apply (calls_at (λ f, f ≠ reduce_bound) (λ _, True)
             (Stp.redLoopStp fuel fixed (-1)%Q b1 false b2 rb b3 (b1 && b3))).
    apply redLoopStp_calls;
      [decide_fn|intros _; discriminate|discriminate|intros _; discriminate].
  - unfold reducePc. rewrite bind_unfold. unfold get_graph at 1.
    cbv beta iota. rewrite bind_unfold. unfold getTimelimit at 1.
    destruct (decide _) as [_|_]; cbv beta iota.
    2:{ exists []. split; [reflexivity|]. intros f Hf.
        apply elem_of_nil in Hf. contradiction. }
    rewrite bind_unfold.
    change (few_terminals (3 # 100) w)
      with (Done (SCIPisLE (scip w)
                    (inject_Z (terms (graph w))
                     / inject_Z (Z.of_nat (knots (graph w))))%Q (3 # 100)) w).
    cbv beta iota. rewrite Hr.
    generalize (reducePc_reductbound (graph w) minelims). intros rb.
    apply (calls_at (λ f, f ≠ reduce_bound) (λ _, True)
             (Pc.redLoopPc fuel fixed b1 false (b2 && b1) rb b2 b3)).
    apply redLoopPc_calls;
      [decide_fn|intros _; discriminate|intros _; discriminate
      |intros _; discriminate|discriminate|intros _; discriminate
      |intros _; discriminate].
Qed.

(** X16: the same for the maximum-weight package: when SCIP does not
    take the share of terminals among the nodes to be at most 0.1 at the
    entry, [reduceMw] never calls [reduce_boundMw]. *)
Theorem boundMw_needs_few_terminals (fuel : nat) (fixed : Q)
    (minelims : Z) (advanced userec : bool) (w : World Env) :
  SCIPisLE (scip w)
    (inject_Z (terms (graph w)) / inject_Z (Z.of_nat (knots (graph w))))%Q
    (1 # 10) = false →
  match reduceMw fuel fixed minelims advanced userec w with
  | Done _ w' | Fail _ w' =>
      ∃ l, log w' = l ++ log w ∧ ∀ f, f ∈ l → f ≠ reduce_boundMw
  | Stuck _ => True
  end.
Proof.
  intros Hr.
  unfold reduceMw. rewrite bind_unfold. unfold get_graph at 1.
  cbv beta iota. rewrite bind_unfold.
  change (few_terminals (1 # 10) w)
    with (Done (SCIPisLE (scip w)
                  (inject_Z (terms (graph w))
                   / inject_Z (Z.of_nat (knots (graph w))))%Q (1 # 10)) w).
  cbv beta iota. rewrite Hr.
  generalize (reduceMw_redbound (graph w) minelims). intros rb.
  apply (calls_at (λ f, f ≠ reduce_boundMw) (λ _, True)
           (Mw.redLoopMw fuel fixed advanced false advanced rb userec)).
  apply redLoopMw_calls;
    [decide_fn|intros _; discriminate|discriminate|intros _; discriminate].
Qed.

End ReduceCalls.

Lemma reduce_level1_no_dual_ascent_witness :
  (stp_type (graph (mkWorld tt (triangle STP_RPCSPG) []))
     ∉ [STP_SAP; STP_NWSPG])
  ∧ match reduce (lib := quiet) 5 1 0 true
            (mkWorld tt (triangle STP_RPCSPG) []) with
    | Done _ w' | Fail _ w' =>
        ∃ l, log w' = l ++ log (mkWorld tt (triangle STP_RPCSPG) [])
             ∧ ∀ f, f ∈ l → f ∉ [reduce_da; reduce_daPcMw;
                                  graph_pc_pcmw2rooted;
                                  reduce_deleteConflictEdges]
    | Stuck _ => True
    end.
Proof.
  assert (Ht : stp_type (graph (mkWorld tt (triangle STP_RPCSPG) []))
               ∉ [STP_SAP; STP_NWSPG]).
  { apply (bool_decide_unpack _). vm_compute. exact I. }
  split; [exact Ht|].
  exact (reduce_level1_no_dual_ascent (lib := quiet) 5 0 true
           (mkWorld tt (triangle STP_RPCSPG) []) Ht).
Defined.

Lemma reduce_levels_agree_witness :
  (stp_type (graph (mkWorld tt (triangle STP_SAP) []))
     ∈ [STP_DHCSTP; STP_SAP; STP_NWSPG])
  ∧ reduce (lib := quiet) 5 1 0 false (mkWorld tt (triangle STP_SAP) [])
    = reduce (lib := quiet) 5 2 0 true (mkWorld tt (triangle STP_SAP) []).
Proof.
  assert (Ht : stp_type (graph (mkWorld tt (triangle STP_SAP) []))
               ∈ [STP_DHCSTP; STP_SAP; STP_NWSPG]).
  { apply (bool_decide_unpack _). vm_compute. exact I. }
  split; [exact Ht|].
  exact (reduce_levels_agree (lib := quiet) 5 0 false true
           (mkWorld tt (triangle STP_SAP) []) Ht).
Defined.

Lemma bound_test_needs_few_terminals_witness :
  match reduceStp (lib := quiet) 5 0 0 true true true
          (mkWorld tt (triangle STP_SPG) []) with
  | Done _ w' | Fail _ w' =>
      ∃ l, log w' = l ++ log (mkWorld tt (triangle STP_SPG) [])
           ∧ ∀ f, f ∈ l → f ≠ reduce_bound
  | Stuck _ => True
  end.
Proof.
  assert (Hr : SCIPisLE (Library := quiet) tt
                 (inject_Z (terms (triangle STP_SPG))
                  / inject_Z (Z.of_nat (knots (triangle STP_SPG))))%Q
                 (3 # 100) = false) by (vm_compute; reflexivity).
  pose proof (bound_test_needs_few_terminals (lib := quiet) 5 0 0 true true
                true (mkWorld tt (triangle STP_SPG) [])) as H.
  specialize (H Hr). destruct H as [H _]. exact H.
Defined.

Lemma boundMw_needs_few_terminals_witness :
  match reduceMw (lib := quiet) 5 0 0 true true
          (mkWorld tt (triangle STP_MWCSP) []) with
  | Done _ w' | Fail _ w' =>
      ∃ l, log w' = l ++ log (mkWorld tt (triangle STP_MWCSP) [])
           ∧ ∀ f, f ∈ l → f ≠ reduce_boundMw
  | Stuck _ => True
  end.
Proof.
  assert (Hr : SCIPisLE (Library := quiet) tt
                 (inject_Z (terms (triangle STP_MWCSP))
                  / inject_Z (Z.of_nat (knots (triangle STP_MWCSP))))%Q
                 (1 # 10) = false) by (vm_compute; reflexivity).
  pose proof (boundMw_needs_few_terminals (lib := quiet) 5 0 0 true true
                (mkWorld tt (triangle STP_MWCSP) [])) as H.
  specialize (H Hr). exact H.
Defined.
(** ** What a run sets up and takes down *)

Section TraceRules.
Context {Env : Type} {lib : Library Env}.

Lemma traces_ret {A} l0 (D : A → list Fn → Prop) F (a : A) :
  D a l0 → traces l0 D F (mret a : M Env A).
Proof. intros H w. exists []. split; [reflexivity|exact H]. Qed.

Lemma traces_bind {A B} l0 (D : A → list Fn → Prop) (D' : B → list Fn → Prop)
    F (m : M Env A) (k : A → M Env B) :
  traces l0 D F m → (∀ a l1, D a l1 → traces l1 D' F (k a)) →
  traces l0 D' F (m ≫= k).
Proof.
  intros Hm Hk w. rewrite bind_unfold. specialize (Hm w).
  destruct (m w) as [a w1|rc w1|l]; [|exact Hm|exact I].
  destruct Hm as (l1 & E1 & H1). specialize (Hk a _ H1 w1).
  destruct (k a w1) as [b w2|rc w2|l]; [| |exact I];
    destruct Hk as (l2 & E2 & H2); exists (l2 ++ l1);
    (split; [rewrite E2, E1, app_assoc; reflexivity|]);
    rewrite <- app_assoc; exact H2.
Qed.

Lemma traces_call l0 (D : IO → list Fn → Prop) F f args io :
  (∀ o, D o (f :: l0)) → F (f :: l0) →
  traces l0 D F (call (Env := Env) f args io).
Proof.
  intros HD HF w. unfold call. destruct (lib_exec _ _ _ _ _) as [[[rc o] e] g].
  destruct (decide _); exists [f]; (split; [reflexivity|]);
    [apply HD|exact HF].
Qed.

Lemma traces_call_void l0 (D : IO → list Fn → Prop) F f args io :
  (∀ o, D o (f :: l0)) → traces l0 D F (call_void (Env := Env) f args io).
Proof.
  intros HD w. unfold call_void.
  destruct (lib_exec _ _ _ _ _) as [[[rc o] e] g].
  exists [f]. split; [reflexivity|apply HD].
Qed.

Lemma traces_get_graph l0 (D : GRAPH → list Fn → Prop) F :
  (∀ g, D g l0) → traces l0 D F (get_graph (Env := Env)).
Proof. intros HD w. exists []. split; [reflexivity|apply HD]. Qed.

Lemma traces_level0M l0 (D : unit → list Fn → Prop) F :
  (∀ u, D u l0) → traces l0 D F (level0M (Env := Env)).
Proof.
  intros HD w. unfold level0M. destruct (level0 _); [|exact I].
  exists []. split; [reflexivity|apply HD].
Qed.

Lemma traces_calls {A} l0 (D : A → list Fn → Prop) F P (Q : A → Prop)
    (m : M Env A) :
  calls P Q m →
  (∀ a l, Forall P l → Q a → D a (l ++ l0)) →
  (∀ l, Forall P l → F (l ++ l0)) →
  traces l0 D F m.
Proof.
  intros Hm HD HF w. specialize (Hm w).
  destruct (m w) as [a w1|rc w1|l]; [| |exact I].
  - destruct Hm as [Ha (l & E & Hl)]. exists l. split; [exact E|].
    apply HD; assumption.
  - destruct Hm as (l & E & Hl). exists l. split; [exact E|].
    apply HF; assumption.
Qed.

End TraceRules.

(** *** The structures held *)

Lemma held_cons h f l : held h (f :: l) = (h' ← held h l; hold_step h' f).
Proof. reflexivity. Qed.

Lemma held_neutral h l : Forall neutral l → held h l = Some h.
Proof.
  induction 1 as [|f l [Ha Hr] _ IH]; [reflexivity|].
  rewrite held_cons, IH. cbn. unfold hold_step. rewrite Ha, Hr. reflexivity.
Qed.

Lemma held_app h l1 l2 : held h (l2 ++ l1) = (h' ← held h l1; held h' l2).
Proof.
  induction l2 as [|f l2 IH]; cbn [app].
  - destruct (held h l1); reflexivity.
  - rewrite held_cons, IH. destruct (held h l1); reflexivity.
Qed.

Lemma no_release_nil : no_release [].
Proof. intros f Hf. apply elem_of_nil in Hf. contradiction. Qed.

Lemma no_release_cons f l :
  releases f = None → no_release l → no_release (f :: l).
Proof.
  intros Hf Hl x Hx. apply elem_of_cons in Hx as [->|Hx]; [exact Hf|].
  apply Hl, Hx.
Qed.

Lemma no_release_app l1 l2 :
  no_release l1 → no_release l2 → no_release (l2 ++ l1).
Proof.
  intros H1 H2 x Hx. apply elem_of_app in Hx as [Hx|Hx]; auto.
Qed.

Lemma neutral_no_release l : Forall neutral l → no_release l.
Proof.
  intros H x Hx. rewrite Forall_forall in H. apply (H x Hx).
Qed.

Lemma holding_start : holding [] false [].
Proof. split; [reflexivity|]. intros _. apply no_release_nil. Qed.

Lemma holding_keep h b l f h' :
  holding h b l → hold_step h f = Some h' → releases f = None →
  holding h' b (f :: l).
Proof.
  intros [Hh Hb] Hs Hr. split.
  - rewrite held_cons, Hh. exact Hs.
  - intros E. apply no_release_cons; [exact Hr|apply Hb, E].
Qed.

Lemma holding_release h b l f h' :
  holding h b l → hold_step h f = Some h' → holding h' true (f :: l).
Proof.
  intros [Hh Hb] Hs. split; [|discriminate].
  rewrite held_cons, Hh. exact Hs.
Qed.

Lemma holding_weaken h b l : holding h b l → holding h true l.
Proof. intros [Hh _]. split; [exact Hh|discriminate]. Qed.

Lemma holding_neutral h b l l' :
  holding h b l → Forall neutral l' → holding h b (l' ++ l).
Proof.
  intros [Hh Hb] Hl. split.
  - rewrite held_app, Hh. cbn. apply held_neutral, Hl.
  - intros E. apply no_release_app; [apply Hb, E|].
    apply neutral_no_release, Hl.
Qed.

Lemma holding_no_release h l : holding h false l → no_release l.
Proof. intros [_ H]. apply H. reflexivity. Qed.

Section TraceQuiet.
Context {Env : Type} {lib : Library Env}.

(** A statement that calls nothing. *)
Lemma traces_quiet {A} l0 (D : A → list Fn → Prop) F (m : M Env A) :
  calls (λ _, False) (λ _, True) m → (∀ a, D a l0) → F l0 → traces l0 D F m.
Proof.
  intros Hm HD HF.
  assert (Hnil : ∀ l : list Fn, Forall (λ _, False) l → l = []).
  { intros [|f l] H; [reflexivity|]. inversion H; contradiction. }
  apply (traces_calls l0 D F (λ _, False) (λ _, True) m Hm).
  - intros a l Hl _. rewrite (Hnil l Hl). apply HD.
  - intros l Hl. rewrite (Hnil l Hl). exact HF.
Qed.

(** A block of calls that neither set up nor take down anything. *)
Lemma traces_neutral {A} l0 h b (Q : A → Prop) (m : M Env A) :
  calls neutral Q m → holding h false l0 → b = false ∨ b = true →
  traces l0 (λ _ l, holding h false l) no_release m.
Proof.
  intros Hm Hh _.
  apply (traces_calls l0 _ _ neutral Q m Hm).
  - intros a l Hl _. apply holding_neutral; assumption.
  - intros l Hl. apply holding_no_release with h.
    apply holding_neutral; assumption.
Qed.

End TraceQuiet.

(** Shows what is held after a call. *)
Ltac hold_fn :=
  cbv beta;
  first [ eapply holding_keep; [eassumption|reflexivity|reflexivity]
        | eapply holding_release; [eassumption|reflexivity] ].

Ltac norel_fn :=
  first [ apply no_release_cons;
          [reflexivity|eapply holding_no_release; eassumption]
        | eapply holding_no_release; eassumption ].

Ltac hold_ret :=
  cbv beta; first [eassumption | eapply holding_weaken; eassumption].

(** Walks through a program and follows what it holds; [blk] has the
    loops and blocks met on the way. *)
Ltac hold_walk blk :=
  repeat (cbv beta in *;
    first
    [ blk
    | apply traces_ret; hold_ret
    | apply traces_call; [intros ?; hold_fn|norel_fn]
    | apply traces_call_void; intros ?; hold_fn
    | apply traces_get_graph; intros ?; hold_ret
    | apply traces_level0M; intros ?; hold_ret
    | apply traces_quiet;
      [ first [ apply calls_getTimelimit | apply calls_few_terminals
              | apply calls_isStopped | apply calls_timeover
              | apply calls_get_scip ]; auto
      | intros ?; hold_ret
      | norel_fn ]
    | lazymatch goal with
      | |- traces _ _ _ (@mbind _ _ ?A _ _ _) =>
          let hv := open_constr:(_ : list Fn) in
          let bv := open_constr:(_ : bool) in
          eapply (traces_bind _ (λ (_ : A) l, holding hv bv l));
          [|intros ? ? ?]
      end
    | lazymatch goal with
      | |- traces _ _ _ (if ?c then _ else _) => destruct c eqn:?
      | |- traces _ _ _ (match ?x with _ => _ end) => destruct x
      end ]).

(** The premises of the lemmas on the calls of a loop, for [neutral]. *)
Ltac neutral_fn :=
  lazymatch goal with
  | |- ∀ _, _ ∈ _ → _ =>
      let f := fresh in let Hf := fresh in
      intros f Hf;
      repeat (apply elem_of_cons in Hf as [->|Hf]);
      [..|apply elem_of_nil in Hf; contradiction];
      split; reflexivity
  | |- _ = true → _ => intros _; split; reflexivity
  | |- neutral _ => split; reflexivity
  end.

Section Holds.
Context {Env : Type} {lib : Library Env}.

Lemma reduceMw_holds l0 fuel fixed minelims advanced userec :
  holding [graph_path_init] false l0 →
  traces l0 (λ _ l, holding [graph_path_init] true l) no_release
    (reduceMw (Env := Env) fuel fixed minelims advanced userec).
Proof.
  intros Hh. unfold reduceMw, Mw.redLoopMw, Mw.simple_mw.
  hold_walk
    ltac:(idtac; lazymatch goal with
          | |- traces _ _ _ (Mw.redLoopMw_rounds _ _ _ _ _ _ _) =>
              eapply (traces_neutral _ _ false);
              [ apply (redLoopMw_rounds_calls neutral true true);
                [neutral_fn|neutral_fn|neutral_fn|flags_off]
              | eassumption | left; reflexivity ]
          end).
Qed.

Lemma reducePc_holds l0 fuel fixed minelims advanced userec nodereplacing :
  holding [graph_path_init] false l0 →
  traces l0 (λ _ l, holding [graph_path_init] true l) no_release
    (reducePc (Env := Env) fuel fixed minelims advanced userec nodereplacing).
Proof.
  intros Hh. unfold reducePc, Pc.redLoopPc.
  hold_walk
    ltac:(idtac; lazymatch goal with
          | |- traces _ _ _ (Pc.redLoopPc_rounds _ _ _ _ _ _ _ _ _ _ _) =>
              eapply (traces_neutral _ _ false);
              [ apply (redLoopPc_rounds_calls neutral _ true _);
                [neutral_fn|neutral_fn|neutral_fn|neutral_fn|neutral_fn
                |neutral_fn|cbn [snd]; flags_off]
              | eassumption | left; reflexivity ]
          end).
Qed.

Lemma reduceStp_holds l0 fuel fixed minelims dualascent nodereplacing userec :
  holding [graph_path_init] false l0 →
  traces l0 (λ _ l, holding [graph_path_init] true l) no_release
    (reduceStp (Env := Env) fuel fixed minelims dualascent nodereplacing
       userec).
Proof.
  intros Hh. unfold reduceStp, Stp.redLoopStp.
  hold_walk
    ltac:(idtac; lazymatch goal with
          | |- traces _ _ _
                 (do_while _ _ (Stp.extensive_round _ _ _ _ ?fr _) _ _) =>
              eapply (traces_neutral _ _ false);
              [ apply (calls_do_while neutral (Stp_keeps true fr true));
                [ intros ? ?;
                  apply (Stp_extensive_round_calls neutral true fr true);
                  [neutral_fn|neutral_fn|neutral_fn|assumption]
                | intros ? ?; unfold Stp.rerun_cond;
                  calls_walk (λ _ : unit, True) ltac:(idtac) ltac:(idtac)
                    ltac:(idtac)
                | flags_off ]
              | eassumption | left; reflexivity ]
          end).
Qed.

Lemma traces_mono {A} l0 (D D' : A → list Fn → Prop) F (m : M Env A) :
  (∀ a l, D a l → D' a l) → traces l0 D F m → traces l0 D' F m.
Proof.
  intros HD H w. specialize (H w).
  destruct (m w) as [a w'|rc w'|l]; [|exact H|exact I].
  destruct H as (l & E & H). exists l. split; [exact E|apply HD, H].
Qed.

Lemma reduceHc_holds l0 fuel fixed minelims :
  holding [graph_path_init] false l0 →
  traces l0 (λ _ l, holding [graph_path_init] true l) no_release
    (reduceHc (Env := Env) fuel fixed minelims).
Proof.
  intros Hh.
  apply (traces_mono l0 (λ _ l, holding [graph_path_init] false l)).
  { intros _ l. apply holding_weaken. }
  eapply (traces_neutral _ _ false);
    [apply reduceHc_calls; neutral_fn|exact Hh|left; reflexivity].
Qed.

Lemma reduceSap_holds l0 fuel fixed minelims :
  holding [graph_path_init] false l0 →
  traces l0 (λ _ l, holding [graph_path_init] true l) no_release
    (reduceSap (Env := Env) fuel fixed minelims).
Proof.
  intros Hh. unfold reduceSap.
  hold_walk
    ltac:(idtac; lazymatch goal with
          | |- traces _ _ _ (for_loop _ _ _ _ _ _) =>
              eapply (traces_neutral _ _ false);
              [ apply (calls_for_loop neutral
                         (λ v : SapVars, sap_sd v = false));
                [ intros ? ? ?;
                  calls_walk (λ _ : unit, True) ltac:(idtac) ltac:(idtac)
                    ltac:(idtac)
                | intros ? ? ?;
                  apply (calls_keep_counter neutral
                           (λ v : SapVars, sap_sd v = false));
                  apply (reduceSap_round_calls neutral);
                  [neutral_fn|assumption]
                | reflexivity ]
              | eassumption | left; reflexivity ]
          | |- traces _ _ _ (λ _, Done _ _) =>
              apply traces_quiet;
              [ intros w; cbn; split;
                [exact I|exists []; split; [reflexivity|constructor]]
              | intros ?; hold_ret
              | norel_fn ]
          end).
Qed.

Lemma reduceNw_holds l0 fuel fixed minelims :
  holding [graph_path_init] false l0 →
  traces l0 (λ _ l, holding [graph_path_init] true l) no_release
    (reduceNw (Env := Env) fuel fixed minelims).
Proof.
  intros Hh. unfold reduceNw.
  hold_walk
    ltac:(idtac; lazymatch goal with
          | |- traces _ _ _ (for_loop _ _ _ _ _ _) =>
              eapply (traces_neutral _ _ false);
              [ apply (calls_for_loop neutral (λ _, True));
                [ intros ? ? _;
                  calls_walk (λ _ : unit, True) ltac:(idtac) ltac:(idtac)
                    ltac:(idtac)
                | intros ? ? _;
                  apply (calls_keep_counter neutral (λ _, True));
                  calls_walk (λ _ : unit, True) ltac:(idtac; neutral_fn)
                    ltac:(idtac) ltac:(idtac)
                | exact I ]
              | eassumption | left; reflexivity ]
          end).
Qed.

(** What [reduce] holds: nothing when it returns [SCIP_OKAY], and all it
    has set up when it returns another code. *)
Lemma reduce_holds fuel level minelims userec :
  traces [] (λ _ l, holding [] true l) no_release
    (reduce (Env := Env) fuel level minelims userec).
Proof.
  pose proof holding_start as Hh. unfold reduce.
  hold_walk
    ltac:(idtac; lazymatch goal with
          | |- traces _ _ _ (reducePc _ _ _ _ _ _) => apply reducePc_holds
          | |- traces _ _ _ (reduceMw _ _ _ _ _) => apply reduceMw_holds
          | |- traces _ _ _ (reduceStp _ _ _ _ _ _) => apply reduceStp_holds
          | |- traces _ _ _ (reduceHc _ _ _) => apply reduceHc_holds
          | |- traces _ _ _ (reduceSap _ _ _) => apply reduceSap_holds
          | |- traces _ _ _ (reduceNw _ _ _) => apply reduceNw_holds
          end; eassumption).
Qed.


(** X9: when [reduce] returns [SCIP_OKAY], whatever the level, the type
    of the graph and the answers of the library, its calls pair up: no
    structure (shortest-path arrays, random number generator, heap,
    presolving data) is set up while it is held, none is taken down
    without being held, and at the end none is held. *)
Theorem reduce_releases_all (fuel : nat) (level minelims : Z)
    (userec : bool) (w : World Env) (q : Q) (w' : World Env) :
  reduce fuel level minelims userec w = Done q w' →
  ∃ l, log w' = l ++ log w ∧ held [] l = Some [].
Proof.
  intros H. pose proof (reduce_holds fuel level minelims userec w) as Hr.
  rewrite H in Hr. destruct Hr as (l & E & [Hl _]). exists l.
  split; [exact E|]. rewrite app_nil_r in Hl. exact Hl.
Qed.

End Holds.


Lemma reduce_releases_all_witness :
  ∃ q w' l,
    reduce (lib := quiet) 5 2 0 true (mkWorld tt (triangle STP_RPCSPG) [])
    = Done q w'
    ∧ log w' = l ++ [] ∧ held [] l = Some [].
Proof.
  destruct (reduce (lib := quiet) 5 2 0 true
              (mkWorld tt (triangle STP_RPCSPG) []))
    as [q w'|rc w'|t] eqn:E;
    [|exfalso; vm_compute in E; discriminate E..].
  destruct (reduce_releases_all (lib := quiet) 5 2 0 true
              (mkWorld tt (triangle STP_RPCSPG) []) q w' E) as (l & H1 & H2).
  exists q, w', l. split; [reflexivity|]. split; [exact H1|exact H2].
Defined.
(** ** Further properties of the limits, the costs and the loops *)

(** X11: below [STP_RED_EDGELIMIT] edges the scaling by the edge count
    never takes a work limit below the value the [switch] of
    [getWorkLimits_pc] starts from, and in a round that is not counted
    positive the limit of the test [pc_sdw2] is 0, whatever the edge
    count: the extended walk test gets no work in the first round. *)
Theorem getWorkLimits_pc_at_least_base (g : GRAPH) (round : Z)
    (k : PC_REDTYPE) :
  Z.of_nat (edges g) < STP_RED_EDGELIMIT →
  match k with
  | pc_sdc | pc_sdw1 =>
      if 0 <? round then STP_RED_SDSPBOUND2 else STP_RED_SDSPBOUND
  | pc_sdw2 => if 0 <? round then STP_RED_SDSPBOUND2 else 0
  | pc_bd3 =>
      if 0 <? round then STP_RED_SDSPBOUND2 else Z.quot STP_RED_SDSPBOUND 2
  end ≤ getWorkLimits_pc g round k
  ∧ (round ≤ 0 → getWorkLimits_pc g round pc_sdw2 = 0).
Proof.
  intros Hlim. unfold getWorkLimits_pc.
  assert (H0 : 0 ≤ Z.of_nat (edges g)) by lia.
  rewrite (work_limit_round (Z.of_nat (edges g)) round k),
          (work_limit_round (Z.of_nat (edges g)) round pc_sdw2)
    by exact Hlim.
  split.
  - destruct (0 <? round).
    + rewrite (work_limit_later _ k).
      transitivity (work_limit 0 1 pc_sdc);
        [destruct k; vm_compute; discriminate|].
      apply work_limit_mono_steps;
        [right; split; reflexivity|lia|exact H0|exact Hlim].
    + destruct k; rewrite ?work_limit_sdw1.
      * transitivity (work_limit 0 0 pc_sdc); [vm_compute; discriminate|].
        apply work_limit_mono_steps;
          [left; split; [reflexivity|discriminate]|lia|exact H0|exact Hlim].
      * transitivity (work_limit 0 0 pc_sdc); [vm_compute; discriminate|].
        apply work_limit_mono_steps;
          [left; split; [reflexivity|discriminate]|lia|exact H0|exact Hlim].
      * transitivity (work_limit 0 0 pc_sdw2); [vm_compute; discriminate|].
        apply work_limit_mono_steps;
          [left; split; [reflexivity|discriminate]|lia|exact H0|exact Hlim].
      * transitivity (work_limit 0 0 pc_bd3); [vm_compute; discriminate|].
        apply work_limit_mono_steps;
          [left; split; [reflexivity|discriminate]|lia|exact H0|exact Hlim].
  - intros Hr. destruct (Z.ltb_spec 0 round) as [?|_]; [lia|].
    assert (Hlo : work_limit 0 0 pc_sdw2
                  ≤ work_limit (Z.of_nat (edges g)) 0 pc_sdw2).
    { apply work_limit_mono_steps;
        [left; split; [reflexivity|discriminate]|lia|exact H0|exact Hlim]. }
    assert (Hhi : work_limit (Z.of_nat (edges g)) 0 pc_sdw2
                  ≤ work_limit 199999 0 pc_sdw2).
    { apply work_limit_mono_steps;
        [left; split; [reflexivity|discriminate]|exact H0| |reflexivity].
      unfold STP_RED_EDGELIMIT in Hlim. lia. }
    assert (E0 : work_limit 0 0 pc_sdw2 = 0) by (vm_compute; reflexivity).
    assert (E1 : work_limit 199999 0 pc_sdw2 = 0) by (vm_compute; reflexivity).
    lia.
Qed.

Lemma getWorkLimits_pc_at_least_base_witness :
  Z.quot STP_RED_SDSPBOUND 2
  ≤ getWorkLimits_pc (with_edges two_islands 2000) 0 pc_bd3
  ∧ (0 ≤ 0 → getWorkLimits_pc (with_edges two_islands 2000) 0 pc_sdw2 = 0).
Proof.
  apply (getWorkLimits_pc_at_least_base (with_edges two_islands 2000) 0
           pc_bd3).
  vm_compute. reflexivity.
Defined.

(** *** The costs of [reduceSap] *)

Section SapCosts.
Context {Env : Type} {lib : Library Env}.

Lemma set_cost_cost (g : GRAPH) : set_cost g (cost g) = g.
Proof. destruct g. reflexivity. Qed.

Lemma sap_costs_fold (e : Env) (l : list nat) : NoDup l → ∀ g0,
  let g' := foldl (λ g a, if SCIPisEQ e (cost g !!! a) 20000
                          then set_cost g (<[a := FARAWAY]> (cost g)) else g)
              g0 l in
  g' = set_cost g0 (cost g')
  ∧ length (cost g') = length (cost g0)
  ∧ ∀ a, (a < length (cost g0))%nat →
         cost g' !!! a
         = if decide (a ∈ l)
           then if SCIPisEQ e (cost g0 !!! a) 20000 then FARAWAY
                else cost g0 !!! a
           else cost g0 !!! a.
Proof.
  induction 1 as [|a0 l Hnin Hnd IH]; intros g0; cbn zeta.
  - cbn [foldl]. split; [symmetry; apply set_cost_cost|].
    split; [reflexivity|]. intros a Ha.
    destruct (decide (a ∈ [])) as [Hin|_]; [|reflexivity].
    apply elem_of_nil in Hin. contradiction.
  - cbn [foldl].
    set (g1 := if SCIPisEQ e (cost g0 !!! a0) 20000
               then set_cost g0 (<[a0 := FARAWAY]> (cost g0)) else g0).
    destruct (IH g1) as (E1 & E2 & E3). cbn zeta in E1, E2, E3.
    set (g' := foldl _ g1 l) in *.
    assert (Hg1 : g1 = set_cost g0 (cost g1)
                  ∧ length (cost g1) = length (cost g0)).
    { unfold g1. destruct (SCIPisEQ e (cost g0 !!! a0) 20000).
      - split; [reflexivity|]. cbn. apply length_insert.
      - split; [symmetry; apply set_cost_cost|reflexivity]. }
    destruct Hg1 as [Hg1 Hl1]. split; [|split].
    + rewrite E1, Hg1. reflexivity.
    + rewrite E2. exact Hl1.
    + intros a Ha. rewrite E3 by (rewrite Hl1; exact Ha).
      destruct (decide (a ∈ l)) as [Hin|Hin].
      * assert (Hne : a ≠ a0) by (intros ->; contradiction).
        rewrite decide_True by (right; exact Hin).
        assert (Ec : cost g1 !!! a = cost g0 !!! a).
        { unfold g1. destruct (SCIPisEQ e (cost g0 !!! a0) 20000);
            [|reflexivity].
          cbn. apply list_lookup_total_insert_ne. congruence. }
        rewrite Ec. reflexivity.
      * destruct (decide (a = a0)) as [->|Hne].
        -- rewrite decide_True by left. unfold g1.
           destruct (SCIPisEQ e (cost g0 !!! a0) 20000); [|reflexivity].
           cbn. rewrite list_lookup_total_insert.
           rewrite decide_True by (split; [reflexivity|exact Ha]).
           reflexivity.
        -- rewrite decide_False.
           2:{ intros Hc. apply elem_of_cons in Hc as [Hc|Hc]; contradiction. }
           unfold g1. destruct (SCIPisEQ e (cost g0 !!! a0) 20000);
             [|reflexivity].
           cbn. apply list_lookup_total_insert_ne. congruence.
Qed.

(** X12: before its tests [reduceSap] rewrites the costs: the cost of an
    arc below [g->edges] that SCIP takes to be equal to 20000 becomes
    [FARAWAY]; every other cost, and everything else in the graph, stays
    as it is. *)
Theorem sap_costs_spec (e : Env) (g : GRAPH) (a : nat) :
  (a < length (cost g))%nat →
  cost (sap_costs e g) !!! a
  = (if decide (a < edges g)%nat
     then if SCIPisEQ e (cost g !!! a) 20000 then FARAWAY else cost g !!! a
     else cost g !!! a)
  ∧ sap_costs e g = set_cost g (cost (sap_costs e g))
  ∧ length (cost (sap_costs e g)) = length (cost g).
Proof.
  intros Ha.
  destruct (sap_costs_fold e (seq 0 (edges g)) (NoDup_seq 0 (edges g)) g)
    as (E1 & E2 & E3). cbn zeta in E1, E2, E3.
  fold (sap_costs e g) in E1, E2, E3.
  split; [|split; assumption].
  rewrite E3 by exact Ha.
  destruct (decide (a ∈ seq 0 (edges g))) as [Hin|Hin];
    destruct (decide (a < edges g)%nat) as [Hlt|Hge]; try reflexivity.
  - apply elem_of_seq in Hin. lia.
  - exfalso. apply Hin. apply elem_of_seq. lia.
Qed.

End SapCosts.

Lemma sap_costs_spec_witness :
  cost (sap_costs (lib := quiet) tt (set_cost two_islands [20000; 1; 3; 1]%Q))
    !!! 0%nat = FARAWAY.
Proof.
  destruct (sap_costs_spec (lib := quiet) tt
              (set_cost two_islands [20000; 1; 3; 1]%Q) 0) as (H & _).
  - cbn. lia.
  - rewrite H. reflexivity.
Defined.

(** *** The restart of the inner loop of [redLoopStp] *)

Section StpRestarts.
Context {Env : Type} {lib : Library Env}.

Lemma Stp_round_restart_count nodereplacing reductbound fullreduce
    inner_rounds sum (s : Z * Stp.Vars) :
  fst s = 0 ∨ (fst s = 1 ∧ fullreduce = true) →
  fst (Stp.round_restart nodereplacing reductbound fullreduce inner_rounds
         sum s) = 0
  ∨ (fst (Stp.round_restart nodereplacing reductbound fullreduce inner_rounds
            sum s) = 1
     ∧ fullreduce = true).
Proof.
  intros Hs. unfold Stp.round_restart. cbn [andb STP_RED_EXTENSIVE].
  destruct (sum <=? 2 * reductbound); [|exact Hs].
  destruct ((0 <? inner_rounds) && fullreduce && (fst s =? 0)) eqn:E;
    [|exact Hs].
  apply andb_prop in E as [E E0]. apply andb_prop in E as [_ Ef].
  apply Z.eqb_eq in E0. right. cbn [fst]. split; [lia|exact Ef].
Qed.

(** X13: the inner loop of [redLoopStp] switches its tests on again at
    most once: entered with [inner_restarts] = 0 it ends with
    [inner_restarts] 0 or 1, and with 0 unless [fullreduce] is set. *)
Theorem redLoopStp_inner_restarts (fuel : nat) (nodereplacing : bool)
    (reductbound : Z) (userec fullreduce : bool) (timelimit : Q)
    (rfuel : nat) (inner_rounds : Z) (v : Stp.Vars) (w : World Env)
    (r : Z * (Z * Stp.Vars)) (w' : World Env) :
  Stp.redLoopStp_inner fuel nodereplacing reductbound userec fullreduce
    timelimit rfuel inner_rounds (0, v) w = Done r w' →
  (fst (snd r) = 0 ∨ fst (snd r) = 1)
  ∧ (fullreduce = false → fst (snd r) = 0).
Proof.
  intros H.
  assert (Hc : calls (λ _, True)
                 (λ r : Z * (Z * Stp.Vars),
                    fst (snd r) = 0 ∨ (fst (snd r) = 1 ∧ fullreduce = true))
                 (Stp.redLoopStp_inner (Env := Env) fuel nodereplacing
                    reductbound userec fullreduce timelimit rfuel
                    inner_rounds (0, v))).
  { unfold Stp.redLoopStp_inner.
    apply (calls_for_loop (λ _, True)
             (λ s : Z * Stp.Vars,
                fst s = 0 ∨ (fst s = 1 ∧ fullreduce = true)));
      [| |left; reflexivity].
    - intros i s _. unfold Stp.rerun_cond.
      calls_walk (λ _ : unit, True) ltac:(exact I) ltac:(idtac) ltac:(idtac).
    - intros i s Hs.
      apply (calls_keep_counter (λ _, True)
               (λ s : Z * Stp.Vars,
                  fst s = 0 ∨ (fst s = 1 ∧ fullreduce = true))).
      unfold Stp.inner_round.
      apply (calls_bind (λ _, True) (λ _, True)).
      + apply (calls_mono (λ _, True) (λ _, True)
                 (λ r, Stp_keeps true true true (fst (step_val r)))
                 (λ _, True)); [auto|auto|].
        apply (Stp_round_tests_calls (λ _, True) true true true);
          [auto|auto|auto|].
        split; intros _; reflexivity.
      + intros [[v' e]|[v' e]] _; apply calls_ret; cbn [step_val].
        * apply Stp_round_restart_count. exact Hs.
        * exact Hs. }
  specialize (Hc w). rewrite H in Hc. destruct Hc as [[H0|[H1 Hf]] _].
  - split; [left; exact H0|]. intros _. exact H0.
  - split; [right; exact H1|]. intros E. congruence.
Qed.

End StpRestarts.

Lemma redLoopStp_inner_restarts_witness :
  ∃ r w',
    Stp.redLoopStp_inner (lib := busy) 5 true 1 true true 3600 10 0
      (0, stp_vars) (mkWorld 2%nat (triangle STP_SPG) []) = Done r w'
    ∧ (fst (snd r) = 0 ∨ fst (snd r) = 1)
    ∧ (true = false → fst (snd r) = 0).
Proof.
  destruct (Stp.redLoopStp_inner (lib := busy) 5 true 1 true true 3600 10 0
              (0, stp_vars) (mkWorld 2%nat (triangle STP_SPG) []))
    as [r w'|rc w'|t] eqn:E;
    [|exfalso; vm_compute in E; discriminate E..].
  exists r, w'. split; [reflexivity|].
  exact (redLoopStp_inner_restarts (lib := busy) 5 true 1 true true 3600 10 0
           stp_vars (mkWorld 2%nat (triangle STP_SPG) []) r w' E).
Defined.

(** *** Graphs without parallel arcs *)







(** ** The clean-up of rooted prize-collecting graphs *)

(** The depth-first search from the source marks the nodes it can
    reach. *)
Lemma dfs_marks_reach (g : GRAPH) :
  heads_in_range g → (source g < knots g)%nat →
  ∃ m', trail_loop (knots g) g
          (<[source g := true]> (replicate (knots g) false)) [source g]
        = Some m'
        ∧ length m' = knots g
        ∧ ∀ k, (k < knots g)%nat →
               (m' !!! k = true ↔ reach g (source g) k).
Proof.
  intros Hr Hs. set (n := knots g) in *. set (s := source g) in *.
  set (m0 := <[s := true]> (replicate n false)).
  assert (Hl0 : length m0 = n).
  { unfold m0. rewrite length_insert, length_replicate. reflexivity. }
  assert (Hr0 : ∀ k a, a ∈ outl g !!! k → (head g !!! a < length m0)%nat).
  { intros k a Ha. rewrite Hl0. eapply Hr. exact Ha. }
  destruct (trail_loop_total g n m0 [s] Hr0) as [m' E].
  { assert (Hu : (unmarked m0 + 1 = unmarked (replicate n false))%nat).
    { apply unmarked_insert; [|rewrite length_replicate; exact Hs].
      apply lookup_total_replicate_2. exact Hs. }
    rewrite unmarked_replicate in Hu. cbn [length]. lia. }
  exists m'. split; [exact E|].
  destruct (trail_loop_spec g n m0 [s] m' Hr0 E) as (J1 & J2 & J3).
  rewrite Hl0 in J1. split; [exact J1|].
  assert (Hc : marks_closed g m').
  { apply J3. intros k Hk Hm. left. rewrite Hl0 in Hk.
    apply start_marks_lookup in Hm; [|exact Hk]. subst k. left. }
  assert (Hms : m' !!! s = true).
  { apply J2. unfold m0. rewrite list_lookup_total_insert.
    rewrite decide_True; [reflexivity|].
    split; [reflexivity|rewrite length_replicate; exact Hs]. }
  intros k Hk. split.
  - intros Hm.
    apply (trail_loop_sound g s n m0 [s] m' Hr0 E).
    + intros u Hu. apply list_elem_of_singleton in Hu. subst u. constructor.
    + intros u Hu Hmu. rewrite Hl0 in Hu.
      apply start_marks_lookup in Hmu; [|exact Hu]. subst u. constructor.
    + rewrite Hl0. exact Hk.
    + exact Hm.
  - intros Hre. eapply marks_closed_reach in Hre as [_ Hre]; try eassumption.
    + intros u a Ha. rewrite J1. eapply Hr. exact Ha.
    + rewrite J1. exact Hs.
Qed.

Section RootedSearch.
Context {Env : Type} {lib : Library Env}.

Lemma rpc_visit_skipped g node st a :
  rpc_visit g node st a
  = if rpc_skipped g node a then st else trail_visit g st a.
Proof.
  unfold rpc_visit, trail_visit, rpc_skipped. cbv zeta.
  destruct (fst st !!! (head g !!! a)); cbn [negb];
    destruct (_ && _ && _); reflexivity.
Qed.

Lemma rpc_fold_filter g node l : ∀ st,
  foldl (rpc_visit g node) st l
  = foldl (trail_visit g) st
      (filter (λ a, rpc_skipped g node a = false) l).
Proof.
  induction l as [|a l IH]; intros st; [reflexivity|].
  cbn [foldl]. rewrite filter_cons, rpc_visit_skipped.
  destruct (rpc_skipped g node a) eqn:E.
  - rewrite decide_False by discriminate. apply IH.
  - rewrite decide_True by reflexivity. cbn [foldl]. apply IH.
Qed.

Lemma rpc_graph_outl g node :
  outl (rpc_graph g) !!! node
  = filter (λ a, rpc_skipped g node a = false) (outl g !!! node).
Proof.
  unfold rpc_graph. cbn. rewrite list_lookup_total_alter.
  destruct (decide (source g = node ∧ (source g < length (outl g))%nat))
    as [[<- _]|Hn].
  - reflexivity.
  - destruct (decide (node = source g)) as [->|Hne].
    + assert (Hge : ¬ (source g < length (outl g))%nat)
        by (intros H; apply Hn; split; [reflexivity|exact H]).
      rewrite list_lookup_total_alt, lookup_ge_None_2 by lia. reflexivity.
    + symmetry. induction (outl g !!! node) as [|a l IH]; [reflexivity|].
      rewrite filter_cons, decide_True.
      * f_equal. exact IH.
      * unfold rpc_skipped. rewrite bool_decide_eq_false_2 by exact Hne.
        reflexivity.
Qed.

(** The search of [level0RpcRmwInfeas] is the search on the graph
    without the arcs it leaves out. *)
Lemma rpc_dfs_trail g fuel : ∀ m st,
  rpc_dfs fuel g m st = trail_loop fuel (rpc_graph g) m st.
Proof.
  induction fuel as [|fuel IH]; intros m [|node st]; try reflexivity.
  cbn [rpc_dfs trail_loop]. rewrite rpc_fold_filter, rpc_graph_outl.
  apply IH.
Qed.

Lemma rpc_graph_reach g k :
  reach (rpc_graph g) (source g) k ↔ rpc_reach g k.
Proof.
  split.
  - induction 1 as [|u a Hu IH Ha]; [constructor|].
    rewrite rpc_graph_outl in Ha. apply list_elem_of_filter in Ha as [Hs Ha].
    change (head (rpc_graph g)) with (head g).
    apply (rpc_reach_step g u a IH Ha Hs).
  - induction 1 as [|u a Hu IH Ha Hs]; [constructor|].
    change (head g !!! a) with (head (rpc_graph g) !!! a).
    apply (reach_step (rpc_graph g) (source g) u a IH).
    rewrite rpc_graph_outl. apply list_elem_of_filter. split; assumption.
Qed.

(** The marks the search of [level0RpcRmwInfeas] ends with. *)
Lemma rpc_dfs_marks (g : GRAPH) :
  heads_in_range g → (source g < knots g)%nat →
  ∃ gmark,
    rpc_dfs (knots g) g (<[source g := true]> (replicate (knots g) false))
      [source g] = Some gmark
    ∧ length gmark = knots g
    ∧ ∀ k, (k < knots g)%nat → (gmark !!! k = true ↔ rpc_reach g k).
Proof.
  intros Hr Hs.
  destruct (dfs_marks_reach (rpc_graph g)) as (m' & E & Hl & Hm).
  - intros k a Ha. rewrite rpc_graph_outl in Ha.
    apply list_elem_of_filter in Ha as [_ Ha]. apply (Hr k a Ha).
  - exact Hs.
  - exists m'. split; [rewrite rpc_dfs_trail; exact E|].
    split; [exact Hl|]. intros k Hk.
    rewrite <- rpc_graph_reach. apply (Hm k Hk).
Qed.

(** The third loop of [level0RpcRmwInfeas] comes to its end; it leaves
    the marks of the nodes that are reached, and no arc into a node that
    is not reached and keeps a degree. *)
Lemma rpc_nodes_total (gmark : list bool) (ks : list nat) : ∀ g,
  (∀ k, k ∈ ks → (k < knots g)%nat) → arcs_at_head g → twins_at_tail g →
  ∃ g', rpc_nodes g gmark ks = Some g'
        ∧ frame_eq g g'
        ∧ (∀ k, inl g' !!! k ⊆ inl g !!! k)
        ∧ (∀ k, grad g' !!! k ≤ grad g !!! k)
        ∧ (∀ k, gmark !!! k = true → mark g' !!! k = mark g !!! k)
        ∧ (∀ k, k ∈ ks → gmark !!! k = false →
                inl g' !!! k = [] ∨ grad g' !!! k ≤ 0).
Proof.
  induction ks as [|k ks IH]; intros g Hks Ha Ht.
  - exists g. split; [reflexivity|]. split; [apply frame_eq_refl|].
    split; [intros k; reflexivity|]. split; [intros k; lia|].
    split; [reflexivity|]. intros k Hk. apply elem_of_nil in Hk. contradiction.
  - cbn [rpc_nodes].
    assert (Hks' : ∀ j, j ∈ ks → (j < knots g)%nat)
      by (intros j Hj; apply Hks; right; exact Hj).
    assert (Hkeep : gmark !!! k = true ∨ grad g !!! k ≤ 0 →
      ∃ g', rpc_nodes g gmark ks = Some g'
        ∧ frame_eq g g'
        ∧ (∀ k, inl g' !!! k ⊆ inl g !!! k)
        ∧ (∀ k, grad g' !!! k ≤ grad g !!! k)
        ∧ (∀ k, gmark !!! k = true → mark g' !!! k = mark g !!! k)
        ∧ (∀ j, j ∈ k :: ks → gmark !!! j = false →
                inl g' !!! j = [] ∨ grad g' !!! j ≤ 0)).
    { intros Hor. destruct (IH g Hks' Ha Ht) as (g' & E & F & I & G & K & Z0).
      exists g'. split; [exact E|]. split; [exact F|]. split; [exact I|].
      split; [exact G|]. split; [exact K|].
      intros j Hj Hmj. apply elem_of_cons in Hj as [->|Hj]; [|auto].
      destruct Hor as [Hor|Hor]; [congruence|].
      right. specialize (G k). lia. }
    destruct (gmark !!! k) eqn:Ek; cbn [negb andb]; [apply Hkeep; by left|].
    destruct (Z.ltb_spec 0 (grad g !!! k)) as [Hg|Hg];
      [|apply Hkeep; by right].
    clear Hkeep. set (m := replicate (knots g) false).
    assert (Hc : marks_closed g m).
    { intros u a Hu Hm. unfold m in Hu, Hm. rewrite length_replicate in Hu.
      rewrite lookup_total_replicate_2 in Hm by exact Hu. discriminate. }
    assert (Hk : m !!! k = false).
    { apply lookup_total_replicate_2. apply Hks. left. }
    destruct (del_inpedges_dels m k (length (inl g !!! k)) g Hc Ha Ht Hk)
      as (g1 & E1 & Hd & Hempty); [reflexivity|].
    rewrite E1. cbn [mbind option_bind].
    destruct (dels_keeps _ _ _ Hd Hc Ha Ht) as (_ & Ha1 & Ht1).
    destruct Hd as (F1 & M1 & I1 & G1 & _).
    set (g2 := set_mark g1 (<[k := false]> (mark g1))).
    assert (Hn : knots g2 = knots g) by exact (proj1 F1).
    destruct (IH g2) as (g' & E & F & I & G & K & Z0).
    { intros j Hj. rewrite Hn. apply Hks'. exact Hj. }
    { exact Ha1. }
    { exact Ht1. }
    exists g'. split; [exact E|].
    split.
    { eapply frame_eq_trans; [exact F1|].
      eapply frame_eq_trans; [apply set_mark_frame|exact F]. }
    split; [intros j; etransitivity; [apply I|apply I1]|].
    split.
    { intros j. specialize (G j). specialize (G1 j).
      change (grad g2) with (grad g1) in G. lia. }
    split.
    { intros j Hj. rewrite (K j Hj). change (mark g2) with (<[k := false]> (mark g1)).
      rewrite list_lookup_total_insert_ne by congruence.
      rewrite M1. reflexivity. }
    intros j Hj Hmj. apply elem_of_cons in Hj as [->|Hj]; [|auto].
    left. specialize (I k). change (inl g2) with (inl g1) in I.
    rewrite Hempty in I.
    destruct (inl g' !!! k) as [|e l]; [reflexivity|].
    exfalso. eapply not_elem_of_nil. apply I. left.
Qed.

(** The second loop ends early at a fixed terminal without a mark
    only. *)
Lemma rpc_terms_early (gmark : list bool) (ks : list nat) :
  ∀ g offset g1 offset1,
  rpc_terms g offset gmark ks = (g1, offset1, true) →
  ∃ k, k ∈ ks ∧ gmark !!! k = false ∧ Is_term (term g1 !!! k) = true
       ∧ graph_pc_knotIsFixedTerm g1 k = true.
Proof.
  induction ks as [|k ks IH]; intros g offset g1 offset1 H;
    cbn [rpc_terms] in H; [discriminate|].
  assert (Hrest : ∀ g2 o2, rpc_terms g2 o2 gmark ks = (g1, offset1, true) →
    ∃ j, j ∈ k :: ks ∧ gmark !!! j = false ∧ Is_term (term g1 !!! j) = true
         ∧ graph_pc_knotIsFixedTerm g1 j = true).
  { intros g2 o2 H2. destruct (IH _ _ _ _ H2) as (j & Hj & Hr).
    exists j. split; [right; exact Hj|exact Hr]. }
  destruct (gmark !!! k) eqn:Ek; cbn [negb andb] in H; [eauto|].
  destruct (Is_term (term g !!! k)) eqn:Et; [|eauto].
  destruct (graph_pc_knotIsFixedTerm g k) eqn:Ef; [|eauto].
  inversion H; subst. exists k. split; [left|]. auto.
Qed.

(** X17: the depth-first search of [level0RpcRmwInfeas] comes to its
    end on a graph whose arcs end at nodes of the graph, and it marks
    exactly the nodes that can be reached from the root without an arc
    from the root to a terminal that is not fixed. *)
Theorem rpc_dfs_reach (g : GRAPH) :
  heads_in_range g → (source g < knots g)%nat →
  ∃ gmark,
    rpc_dfs (knots g) g (<[source g := true]> (replicate (knots g) false))
      [source g] = Some gmark
    ∧ length gmark = knots g
    ∧ ∀ k, (k < knots g)%nat → (gmark !!! k = true ↔ rpc_reach g k).
Proof.
  intros Hr Hs.
  assert (Hr' : heads_in_range (rpc_graph g)).
  { intros k a Ha. rewrite rpc_graph_outl in Ha.
    apply list_elem_of_filter in Ha as [_ Ha]. apply (Hr k a Ha). }
  destruct (dfs_marks_reach (rpc_graph g) Hr' Hs) as (m' & E & Hl & Hm).
  exists m'. split; [rewrite rpc_dfs_trail; exact E|].
  split; [exact Hl|]. intros k Hk.
  rewrite <- rpc_graph_reach. apply (Hm k Hk).
Qed.

(** X18: on a graph whose arrays fit together and whose terminals can
    all be reached from the root (arcs from the root to terminals that
    are not fixed left out), [level0RpcRmwInfeas] comes to its end with
    [*infeas = FALSE] and the offset as it was, and [level0RpcRmw]
    returns [SCIP_OKAY].  Marks, degrees and arc lists apart the graph is
    as before; the nodes that are reached keep their marks; a node that
    is not reached has no arc chained into it or no degree left. *)
Theorem level0RpcRmw_terminals_reached (g : GRAPH) (offset : Q) :
  graph_wf g →
  (∀ k, (k < knots g)%nat → Is_term (term g !!! k) = true → rpc_reach g k) →
  ∃ g', level0RpcRmwInfeas g offset = Some (g', offset, false)
        ∧ level0RpcRmw g offset = Some (SCIP_OKAY, g', offset)
        ∧ frame_eq g g'
        ∧ (∀ k, (k < knots g)%nat → rpc_reach g k →
                mark g' !!! k = mark g !!! k)
        ∧ (∀ k, (k < knots g)%nat → ¬ rpc_reach g k →
                inl g' !!! k = [] ∨ grad g' !!! k ≤ 0).
Proof.
  intros (_ & Hs & Hr & Ha & Ht) Hterm.
  destruct (rpc_dfs_marks g Hr Hs) as (gmark & E & _ & Hm).
  destruct (rpc_nodes_total gmark (seq 0 (knots g)) g) as
    (g' & En & F & _ & _ & K & Z0); [|exact Ha|exact Ht|].
  { intros k Hk. apply elem_of_seq in Hk. lia. }
  assert (Hinf : level0RpcRmwInfeas g offset = Some (g', offset, false)).
  { unfold level0RpcRmwInfeas. cbv zeta. rewrite E. cbn [mbind option_bind].
    rewrite <- (app_nil_r (seq 0 (knots g))), rpc_terms_skip.
    - cbn [rpc_terms]. rewrite app_nil_r, En. reflexivity.
    - intros k Hk. apply elem_of_seq in Hk.
      destruct (Is_term (term g !!! k)) eqn:Et; [left|right; reflexivity].
      apply Hm; [lia|]. apply Hterm; [lia|exact Et]. }
  exists g'. split; [exact Hinf|].
  split; [unfold level0RpcRmw; rewrite Hinf; reflexivity|].
  split; [exact F|]. split.
  - intros k Hk Hre. apply K, Hm; assumption.
  - intros k Hk Hre. apply Z0; [apply elem_of_seq; lia|].
    destruct (gmark !!! k) eqn:Ek; [|reflexivity].
    exfalso. apply Hre, Hm; assumption.
Qed.

(** X19: when [level0RpcRmwInfeas] sets [*infeas = TRUE], there is a
    node that cannot be reached from the root (arcs from the root to
    terminals that are not fixed left out) and that is a fixed terminal
    of the graph the call leaves. *)
Theorem level0RpcRmwInfeas_infeas_sound (g g1 : GRAPH) (offset offset1 : Q) :
  heads_in_range g → (source g < knots g)%nat →
  level0RpcRmwInfeas g offset = Some (g1, offset1, true) →
  ∃ k, (k < knots g)%nat ∧ ¬ rpc_reach g k
       ∧ Is_term (term g1 !!! k) = true
       ∧ graph_pc_knotIsFixedTerm g1 k = true.
Proof.
  intros Hr Hs H.
  destruct (rpc_dfs_marks g Hr Hs) as (gmark & E & _ & Hm).
  unfold level0RpcRmwInfeas in H. cbv zeta in H. rewrite E in H.
  cbn [mbind option_bind] in H.
  destruct (rpc_terms g offset gmark (seq 0 (knots g))) as [[g2 o2] [|]] eqn:Et.
  - inversion H; subst.
    destruct (rpc_terms_early _ _ _ _ _ _ Et) as (k & Hk & Hg & Hrest).
    apply elem_of_seq in Hk.
    exists k. split; [lia|]. split; [|exact Hrest].
    intros Hre. apply Hm in Hre; [congruence|lia].
  - destruct (rpc_nodes g2 gmark (seq 0 (knots g))); discriminate.
Qed.

End RootedSearch.

Lemma rpc_dfs_reach_witness :
  ∃ gmark,
    rpc_dfs (lib := quiet) (knots cut_off_terminal) cut_off_terminal
      (<[source cut_off_terminal := true]>
         (replicate (knots cut_off_terminal) false))
      [source cut_off_terminal] = Some gmark
    ∧ length gmark = knots cut_off_terminal
    ∧ ∀ k, (k < knots cut_off_terminal)%nat →
           (gmark !!! k = true ↔ rpc_reach (lib := quiet) cut_off_terminal k).
Proof.
  apply (rpc_dfs_reach (lib := quiet) cut_off_terminal).
  - apply graph_wf_check_sound. vm_compute. reflexivity.
  - vm_compute. lia.
Defined.

Lemma level0RpcRmw_terminals_reached_witness :
  ∃ g', level0RpcRmwInfeas (lib := quiet) rooted_islands 5
        = Some (g', 5%Q, false)
        ∧ level0RpcRmw (lib := quiet) rooted_islands 5
          = Some (SCIP_OKAY, g', 5%Q)
        ∧ frame_eq rooted_islands g'
        ∧ (∀ k, (k < knots rooted_islands)%nat →
                rpc_reach (lib := quiet) rooted_islands k →
                mark g' !!! k = mark rooted_islands !!! k)
        ∧ (∀ k, (k < knots rooted_islands)%nat →
                ¬ rpc_reach (lib := quiet) rooted_islands k →
                inl g' !!! k = [] ∨ grad g' !!! k ≤ 0).
Proof.
  apply (level0RpcRmw_terminals_reached (lib := quiet) rooted_islands 5).
  - apply graph_wf_check_sound. vm_compute. reflexivity.
  - assert (H2 : rpc_reach (lib := quiet) rooted_islands 2).
    { apply (rpc_reach_step (lib := quiet) rooted_islands 0%nat 4%nat).
      - apply (rpc_reach_root (lib := quiet) rooted_islands).
      - vm_compute. right. left.
      - vm_compute. reflexivity. }
    intros [|[|k]] Hk Hterm.
    + apply (rpc_reach_root (lib := quiet) rooted_islands).
    + apply (rpc_reach_step (lib := quiet) rooted_islands 2%nat 1%nat H2).
      * vm_compute. left.
      * vm_compute. reflexivity.
    + exfalso. cbn in Hk.
      destruct k as [|[|[|k]]]; [discriminate Hterm..|lia].
Defined.

Lemma level0RpcRmwInfeas_infeas_sound_witness :
  ∃ k, (k < knots lonely_terminal)%nat
       ∧ ¬ rpc_reach (lib := quiet) lonely_terminal k
       ∧ Is_term (term lonely_terminal !!! k) = true
       ∧ graph_pc_knotIsFixedTerm (Library := quiet) lonely_terminal k = true.
Proof.
  apply (level0RpcRmwInfeas_infeas_sound (lib := quiet)
           lonely_terminal lonely_terminal 5 5).
  - apply graph_wf_check_sound. vm_compute. reflexivity.
  - vm_compute. lia.
  - vm_compute. reflexivity.
Defined.
